(** * Chaos rigid-body solver: particle store, joint and spring constraint
      containers, and the sub-stepping driver.

    A shallow embedding of
    - [Chaos/PBDRigidsSOAs.h]                    (module [SOAs]),
    - [Chaos/PBDJointConstraints.cpp]            (module [Joint]),
    - [Chaos/PBDRigidDynamicSpringConstraints.cpp] (module [Spring]),
    - [ClothingSimulation::Simulate]             (modules [Cloth], [ClothContext]),
    - [PBDRigidsSolver.cpp]                      (module [Solver]),
    - [ImmediatePhysicsSimulation_Chaos.cpp]     (module [Immediate]),
    together with the properties of these components.  Module [JointOps]
    adds the remaining calls of the joint container and module [JointSolve]
    the solve of a single joint.

    Scalars are IEEE-754 binary32 values ([float] in the sources), given by
    the Standard Library's [SpecFloat] at precision 24 and maximal exponent
    128.  [int32] quantities are integers in [Z]; array indices are [nat]. *)

From Stdlib Require Import ZArith Lia Floats.SpecFloat Sorting.Sorted.
From stdpp Require Import gmap list.

Local Open Scope Z_scope.

(** ** [int32] arithmetic *)

(** The value an [int32] holds after an operation whose exact result is [z]. *)
Definition wrap32 (z : Z) : Z := (z + 2 ^ 31) mod 2 ^ 32 - 2 ^ 31.

Definition int32_sub (a b : Z) : Z := wrap32 (a - b).

Definition int32_range (z : Z) : Prop := - 2 ^ 31 <= z < 2 ^ 31.

(** ** Scalars: [float] as binary32 *)

Module Float32.

Definition prec : Z := 24.
Definition emax : Z := 128.

Definition FReal : Type := spec_float.

Definition fadd : FReal -> FReal -> FReal := SFadd prec emax.
Definition fsub : FReal -> FReal -> FReal := SFsub prec emax.
Definition fmul : FReal -> FReal -> FReal := SFmul prec emax.
Definition fdiv : FReal -> FReal -> FReal := SFdiv prec emax.
Definition fsqrt : FReal -> FReal := SFsqrt prec emax.
Definition fneg : FReal -> FReal := SFopp.

(** [a > b], [a < b] and [a == b] of C++; all three are false on NaN. *)
Definition fgt (a b : FReal) : bool := SFltb b a.
Definition flt (a b : FReal) : bool := SFltb a b.
Definition feq (a b : FReal) : bool := SFeqb a b.

Definition fzero : FReal := S754_zero false.
Definition fone : FReal := S754_finite false 8388608 (-23).
Definition ftwo : FReal := S754_finite false 8388608 (-22).
Definition fhalf : FReal := S754_finite false 8388608 (-24).
(** [FLT_MAX] *)
Definition FLT_MAX : FReal := S754_finite false 16777215 104.

(** A small non-negative integer as a float (exact below [2^24]). *)
Definition of_Z (n : Z) : FReal := binary_normalize prec emax n 0 false.

(** Promotion of a [float] to [double] (exact), used where the source
    compares a [float] with a [double] literal. *)
Definition to_double (x : FReal) : spec_float :=
  match x with
  | S754_finite s m e => binary_normalize 53 1024 (cond_Zopp s (Z.pos m)) e s
  | _ => x
  end.

(** The [double] literal [1e-7]: [0x3E7AD7F29ABCAF48]. *)
Definition double_1em7 : spec_float := S754_finite false 7555786372591432 (-76).

End Float32.
Export Float32.

(** ** Vectors, rotations and rigid transforms

  [TVector<float,3>], [TRotation<float,3>] (a quaternion, [FQuat]) and
  [TRigidTransform<float,3>] belong to the engine's math library; the
  sources at hand only use them.  *)

Module Math.

Record FVec3 : Type := MkVec { vx : FReal; vy : FReal; vz : FReal }.

Record FRotation3 : Type := MkQuat { qx : FReal; qy : FReal; qz : FReal; qw : FReal }.

Record FRigidTransform3 : Type :=
  MkTransform { GetTranslation : FVec3; GetRotation : FRotation3 }.

(** Modelled from the spec: the component-wise vector operators of
    [TVector] ([operator+], [operator-], scaling, [Size]), which the math
    library declares outside the sources listed. *)
Definition VecZero : FVec3 := MkVec fzero fzero fzero.
Definition VecAdd (a b : FVec3) : FVec3 :=
  MkVec (fadd (vx a) (vx b)) (fadd (vy a) (vy b)) (fadd (vz a) (vz b)).
Definition VecSub (a b : FVec3) : FVec3 :=
  MkVec (fsub (vx a) (vx b)) (fsub (vy a) (vy b)) (fsub (vz a) (vz b)).
Definition VecScale (s : FReal) (a : FVec3) : FVec3 :=
  MkVec (fmul s (vx a)) (fmul s (vy a)) (fmul s (vz a)).
Definition VecDiv (a : FVec3) (s : FReal) : FVec3 :=
  MkVec (fdiv (vx a) s) (fdiv (vy a) s) (fdiv (vz a) s).
Definition VecNeg (a : FVec3) : FVec3 :=
  MkVec (fneg (vx a)) (fneg (vy a)) (fneg (vz a)).
Definition CrossProduct (a b : FVec3) : FVec3 :=
  MkVec (fsub (fmul (vy a) (vz b)) (fmul (vz a) (vy b)))
        (fsub (fmul (vz a) (vx b)) (fmul (vx a) (vz b)))
        (fsub (fmul (vx a) (vy b)) (fmul (vy a) (vx b))).
Definition VecSize (a : FVec3) : FReal :=
  fsqrt (fadd (fadd (fmul (vx a) (vx a)) (fmul (vy a) (vy a))) (fmul (vz a) (vz a))).

(** Modelled from the spec: the quaternion operations of [TRotation]
    ([FQuat]): the identity, the Hamiltonian product [operator*], the
    conjugate as [Inverse] of a unit quaternion, and [RotateVector]
    ([v + w t + q x t] with [t = 2 (q x v)]); declared outside the sources
    listed. *)
Definition FromIdentity : FRotation3 := MkQuat fzero fzero fzero fone.
Definition RotMul (a b : FRotation3) : FRotation3 :=
  MkQuat
    (fsub (fadd (fadd (fmul (qw a) (qx b)) (fmul (qx a) (qw b))) (fmul (qy a) (qz b))) (fmul (qz a) (qy b)))
    (fadd (fadd (fsub (fmul (qw a) (qy b)) (fmul (qx a) (qz b))) (fmul (qy a) (qw b))) (fmul (qz a) (qx b)))
    (fadd (fsub (fadd (fmul (qw a) (qz b)) (fmul (qx a) (qy b))) (fmul (qy a) (qx b))) (fmul (qz a) (qw b)))
    (fsub (fsub (fsub (fmul (qw a) (qw b)) (fmul (qx a) (qx b))) (fmul (qy a) (qy b))) (fmul (qz a) (qz b))).
Definition RotInverse (q : FRotation3) : FRotation3 :=
  MkQuat (fneg (qx q)) (fneg (qy q)) (fneg (qz q)) (qw q).
Definition RotateVector (q : FRotation3) (v : FVec3) : FVec3 :=
  let qv := MkVec (qx q) (qy q) (qz q) in
  let t := VecScale ftwo (CrossProduct qv v) in
  VecAdd (VecAdd v (VecScale (qw q) t)) (CrossProduct qv t).

Definition TransformIdentity : FRigidTransform3 := MkTransform VecZero FromIdentity.

(** Equality of the numeric content, component by component ([==] on
    floats, so [-0 == +0]). *)
Definition VecEqb (a b : FVec3) : bool :=
  feq (vx a) (vx b) && feq (vy a) (vy b) && feq (vz a) (vz b).

End Math.
Export Math.

(** ** [TArray] helpers *)

Section TArray.
Context {A : Type}.

(** [TArray::RemoveAtSwap(Index)]: the last element takes the place of the
    removed one.  An index out of range is a failed range check, which the
    callers below exclude before calling; the list is then left alone. *)
Definition RemoveAtSwap (i : nat) (l : list A) : list A :=
  match l !! i, last l with
  | Some _, Some z =>
      let l' := removelast l in
      if decide (i < length l')%nat then <[i := z]> l' else l'
  | _, _ => l
  end.

End TArray.

(** ** Particles and their handles

  A handle ([TGeometryParticleHandle*]) is an opaque identity; the data it
  gives access to is a [Particle] record.  The handle's concrete class
  decides what [AsKinematic], [AsDynamic] and [AsClustered] return. *)

Module Particles.

Definition ParticleHandle : Type := nat.

Inductive EParticleType : Type :=
| PT_Static | PT_Kinematic | PT_Rigid | PT_Clustered.

Inductive EObjectStateType : Type :=
| OS_Uninitialized | OS_Sleeping | OS_Kinematic | OS_Static | OS_Dynamic.

(** The structure-of-arrays pools of [TPBDRigidsSOAs]. *)
Inductive ESOA : Type :=
| StaticParticles | StaticDisabledParticles
| KinematicParticles | KinematicDisabledParticles
| DynamicParticles | DynamicKinematicParticles | DynamicDisabledParticles
| ClusteredParticles.

Record TBox : Type := MkBox { BoxMin : FVec3; BoxMax : FVec3 }.

(** The geometry interface consumed by the spring container. *)
Record FImplicitObject : Type := MkGeometry {
  HasBoundingBox : bool;
  BoundingBox : TBox;
  PhiWithNormal : FVec3 -> FReal * FVec3
}.

Record Particle : Type := MkParticle {
  PType : EParticleType;
  X : FVec3;  R : FRotation3;          (* TGeometryParticle *)
  V : FVec3;  W : FVec3;               (* TKinematicGeometryParticle *)
  P : FVec3;  Q : FRotation3;          (* TPBDRigidParticle *)
  InvM : FReal;
  Disabled : bool;
  ObjectState : EObjectStateType;
  Geometry : option FImplicitObject;
  SOA : ESOA
}.

Definition AsKinematic (p : Particle) : bool :=
  match PType p with PT_Static => false | _ => true end.
Definition AsDynamic (p : Particle) : bool :=
  match PType p with PT_Rigid | PT_Clustered => true | _ => false end.
Definition AsClustered (p : Particle) : bool :=
  match PType p with PT_Clustered => true | _ => false end.
Definition Sleeping (p : Particle) : bool :=
  match ObjectState p with OS_Sleeping => true | _ => false end.

Global Instance EParticleType_eq_dec : EqDecision EParticleType.
Proof. solve_decision. Defined.
Global Instance EObjectStateType_eq_dec : EqDecision EObjectStateType.
Proof. solve_decision. Defined.
Global Instance ESOA_eq_dec : EqDecision ESOA.
Proof. solve_decision. Defined.

(** Field updates. *)
Definition set_Disabled (b : bool) (p : Particle) : Particle :=
  MkParticle (PType p) (X p) (R p) (V p) (W p) (P p) (Q p) (InvM p) b
             (ObjectState p) (Geometry p) (SOA p).
Definition set_V (v : FVec3) (p : Particle) : Particle :=
  MkParticle (PType p) (X p) (R p) v (W p) (P p) (Q p) (InvM p) (Disabled p)
             (ObjectState p) (Geometry p) (SOA p).
Definition set_W (w : FVec3) (p : Particle) : Particle :=
  MkParticle (PType p) (X p) (R p) (V p) w (P p) (Q p) (InvM p) (Disabled p)
             (ObjectState p) (Geometry p) (SOA p).
Definition set_SOA (s : ESOA) (p : Particle) : Particle :=
  MkParticle (PType p) (X p) (R p) (V p) (W p) (P p) (Q p) (InvM p) (Disabled p)
             (ObjectState p) (Geometry p) s.

(** The particle memory: which handles are alive and what they hold. *)
Abbreviation ParticleHeap := (gmap ParticleHandle Particle).

End Particles.
Export Particles.

(** ** The joint constraint container ([FPBDJointConstraints]) *)

Module Joint.

Inductive EJointMotionType : Type := Free | Limited | Locked.

Inductive EJointProjectionPhase : Type :=
| PhaseNone | PhaseApply | PhaseApplyPushOut.

Global Instance EJointMotionType_eq_dec : EqDecision EJointMotionType.
Proof. solve_decision. Defined.
Global Instance EJointProjectionPhase_eq_dec : EqDecision EJointProjectionPhase.
Proof. solve_decision. Defined.

(** [INDEX_NONE] *)
Definition INDEX_NONE : Z := -1.

Record FPBDJointMotionSettings : Type := MkMotion {
  Stiffness : FReal;
  LinearProjection : FReal;
  AngularProjection : FReal;
  LinearMotionTypes : EJointMotionType * EJointMotionType * EJointMotionType;
  LinearLimit : FReal;
  (* indexed by EJointAngularConstraintIndex: Twist, Swing1, Swing2 *)
  AngularMotionTypes : EJointMotionType * EJointMotionType * EJointMotionType;
  AngularLimits : FVec3;
  bSoftLinearLimitsEnabled : bool;
  bSoftTwistLimitsEnabled : bool;
  bSoftSwingLimitsEnabled : bool;
  SoftLinearStiffness : FReal;
  SoftTwistStiffness : FReal;
  SoftSwingStiffness : FReal;
  AngularDriveTarget : FRotation3;
  AngularDriveTargetAngles : FVec3;
  bAngularSLerpDriveEnabled : bool;
  bAngularTwistDriveEnabled : bool;
  bAngularSwingDriveEnabled : bool;
  AngularDriveStiffness : FReal
}.

(** [FPBDJointMotionSettings::FPBDJointMotionSettings()] *)
Definition DefaultMotion : FPBDJointMotionSettings :=
  MkMotion fone fzero fzero (Locked, Locked, Locked) FLT_MAX
           (Free, Free, Free) (MkVec FLT_MAX FLT_MAX FLT_MAX)
           false false false fzero fzero fzero
           FromIdentity VecZero false false false fzero.

Record FPBDJointSettings : Type := MkJointSettings {
  ConstraintFrames : FRigidTransform3 * FRigidTransform3;
  Motion : FPBDJointMotionSettings
}.

(** [FPBDJointSettings::FPBDJointSettings()] *)
Definition DefaultJointSettings : FPBDJointSettings :=
  MkJointSettings (TransformIdentity, TransformIdentity) DefaultMotion.

Record FPBDJointState : Type := MkJointState {
  Level : Z;
  ParticleLevels : Z * Z
}.

(** [FPBDJointState::FPBDJointState()] *)
Definition DefaultJointState : FPBDJointState :=
  MkJointState INDEX_NONE (INDEX_NONE, INDEX_NONE).

Record FPBDJointSolverSettings : Type := MkSolverSettings {
  ApplyPairIterations : Z;
  ApplyPushOutPairIterations : Z;
  SwingTwistAngleTolerance : FReal;
  MinParentMassRatio : FReal;
  MaxInertiaRatio : FReal;
  bEnableVelocitySolve : bool;
  bEnableTwistLimits : bool;
  bEnableSwingLimits : bool;
  bEnableDrives : bool;
  ProjectionPhase : EJointProjectionPhase;
  SolverLinearProjection : FReal;
  SolverAngularProjection : FReal;
  SolverStiffness : FReal;
  DriveStiffness : FReal;
  SolverSoftLinearStiffness : FReal;
  SolverSoftAngularStiffness : FReal
}.

(** [1.0e-6f] is [0x358637BD]. *)
Definition f_1em6 : FReal := S754_finite false 8796093 (-43).

(** [FPBDJointSolverSettings::FPBDJointSolverSettings()] *)
Definition DefaultSolverSettings : FPBDJointSolverSettings :=
  MkSolverSettings 1 1 f_1em6 fzero fzero false true true true PhaseNone
                   fzero fzero fzero fzero fzero fzero.

(** Handles of constraints ([FPBDJointConstraintHandle*]) are identities
    given out by the handle allocator; each live handle object stores the
    index of its constraint. *)
Definition ConstraintHandle : Type := nat.

(** A callback is either [nullptr] or some function, known by a name. *)
Definition Callback : Type := nat.

Record FPBDJointConstraints : Type := MkJoints {
  Settings : FPBDJointSolverSettings;
  PreApplyCallback : option Callback;
  PostApplyCallback : option Callback;
  Handles : list ConstraintHandle;
  ConstraintParticles : list (ParticleHandle * ParticleHandle);
  ConstraintSettings : list FPBDJointSettings;
  ConstraintStates : list FPBDJointState;
  (* the handle allocator: live handle objects and their [ConstraintIndex] *)
  HandleObjects : gmap ConstraintHandle nat;
  NextHandle : ConstraintHandle
}.

(** [FPBDJointConstraints::FPBDJointConstraints(InSettings)] *)
Definition NewJoints (InSettings : FPBDJointSolverSettings) : FPBDJointConstraints :=
  MkJoints InSettings None None [] [] [] [] ∅ 0%nat.

Definition GetSettings (c : FPBDJointConstraints) : FPBDJointSolverSettings := Settings c.

Definition SetSettings (InSettings : FPBDJointSolverSettings) (c : FPBDJointConstraints)
  : FPBDJointConstraints :=
  MkJoints InSettings (PreApplyCallback c) (PostApplyCallback c) (Handles c)
           (ConstraintParticles c) (ConstraintSettings c) (ConstraintStates c)
           (HandleObjects c) (NextHandle c).

Definition NumConstraints (c : FPBDJointConstraints) : nat :=
  length (ConstraintParticles c).

(** [AddConstraint(InConstrainedParticles, ConstraintFrames)]: the new
    constraint takes index [Handles.Num()]; default settings are appended and
    the frames written at that index ([None]: the index is out of the settings
    array, a failed range check); a default state is appended.  Returns the
    container and the new handle. *)
Definition AddConstraintFrames (InConstrainedParticles : ParticleHandle * ParticleHandle)
    (Frames : FRigidTransform3 * FRigidTransform3) (c : FPBDJointConstraints)
  : option (FPBDJointConstraints * ConstraintHandle) :=
  let ConstraintIndex := length (Handles c) in
  let h := NextHandle c in
  let Added := ConstraintSettings c ++ [DefaultJointSettings] in
  s ← Added !! ConstraintIndex;
  Some (MkJoints (Settings c) (PreApplyCallback c) (PostApplyCallback c)
            (Handles c ++ [h])
            (ConstraintParticles c ++ [InConstrainedParticles])
            (<[ConstraintIndex := MkJointSettings Frames (Motion s)]> Added)
            (ConstraintStates c ++ [DefaultJointState])
            (<[h := ConstraintIndex]> (HandleObjects c))
            (S h),
        h).

(** [AddConstraint(InConstrainedParticles, InConstraintSettings)] *)
Definition AddConstraintSettings (InConstrainedParticles : ParticleHandle * ParticleHandle)
    (InConstraintSettings : FPBDJointSettings) (c : FPBDJointConstraints)
  : FPBDJointConstraints * ConstraintHandle :=
  let ConstraintIndex := length (Handles c) in
  let h := NextHandle c in
  (MkJoints (Settings c) (PreApplyCallback c) (PostApplyCallback c)
            (Handles c ++ [h])
            (ConstraintParticles c ++ [InConstrainedParticles])
            (ConstraintSettings c ++ [InConstraintSettings])
            (ConstraintStates c ++ [DefaultJointState])
            (<[h := ConstraintIndex]> (HandleObjects c))
            (S h),
   h).

(** The frame [AddConstraint] computes for one body from the world-space
    frame: [FRigidTransform3(World.GetTranslation() - X, World.GetRotation()
    * R.Inverse())]. *)
Definition BodyFrame (WorldConstraintFrame : FRigidTransform3) (p : Particle)
  : FRigidTransform3 :=
  MkTransform (VecSub (GetTranslation WorldConstraintFrame) (X p))
              (RotMul (GetRotation WorldConstraintFrame) (RotInverse (R p))).

(** [AddConstraint(InConstrainedParticles, WorldConstraintFrame)].  Both
    particle pointers are dereferenced, so both must be alive. *)
Definition AddConstraintWorld (heap : ParticleHeap)
    (InConstrainedParticles : ParticleHandle * ParticleHandle)
    (WorldConstraintFrame : FRigidTransform3) (c : FPBDJointConstraints)
  : option (FPBDJointConstraints * ConstraintHandle) :=
  p0 ← heap !! InConstrainedParticles.1;
  p1 ← heap !! InConstrainedParticles.2;
  AddConstraintFrames InConstrainedParticles
    (BodyFrame WorldConstraintFrame p0, BodyFrame WorldConstraintFrame p1) c.

(** [SetConstraintIndex(Handle, Index)] *)
Definition SetConstraintIndex (h : ConstraintHandle) (i : nat)
    (objs : gmap ConstraintHandle nat) : gmap ConstraintHandle nat :=
  <[h := i]> objs.

(** [RemoveConstraint(ConstraintIndex)]: frees the handle, swap-removes
    the four parallel arrays and re-indexes the handle of the constraint that
    was moved into the gap.  [None] is a failed range check. *)
Definition RemoveConstraint (ConstraintIndex : nat) (c : FPBDJointConstraints)
  : option FPBDJointConstraints :=
  h ← Handles c !! ConstraintIndex;
  if decide (ConstraintIndex < length (ConstraintParticles c)
             ∧ ConstraintIndex < length (ConstraintSettings c)
             ∧ ConstraintIndex < length (ConstraintStates c))%nat then
    let objs := delete h (HandleObjects c) in
    let Handles' := RemoveAtSwap ConstraintIndex (Handles c) in
    let objs' :=
      match Handles' !! ConstraintIndex with
      | Some moved => SetConstraintIndex moved ConstraintIndex objs
      | None => objs
      end in
    Some (MkJoints (Settings c) (PreApplyCallback c) (PostApplyCallback c)
                   Handles'
                   (RemoveAtSwap ConstraintIndex (ConstraintParticles c))
                   (RemoveAtSwap ConstraintIndex (ConstraintSettings c))
                   (RemoveAtSwap ConstraintIndex (ConstraintStates c))
                   objs' (NextHandle c))
  else None.

(** [RemoveConstraints(RemovedParticles)]: the body is empty. *)
Definition RemoveConstraints (RemovedParticles : gset ParticleHandle)
    (c : FPBDJointConstraints) : FPBDJointConstraints := c.

Definition SetPreApplyCallback (cb : Callback) (c : FPBDJointConstraints) : FPBDJointConstraints :=
  MkJoints (Settings c) (Some cb) (PostApplyCallback c) (Handles c)
           (ConstraintParticles c) (ConstraintSettings c) (ConstraintStates c)
           (HandleObjects c) (NextHandle c).

Definition SetPostApplyCallback (cb : Callback) (c : FPBDJointConstraints) : FPBDJointConstraints :=
  MkJoints (Settings c) (PreApplyCallback c) (Some cb) (Handles c)
           (ConstraintParticles c) (ConstraintSettings c) (ConstraintStates c)
           (HandleObjects c) (NextHandle c).

Definition GetConstrainedParticles (ConstraintIndex : nat) (c : FPBDJointConstraints)
  : option (ParticleHandle * ParticleHandle) :=
  ConstraintParticles c !! ConstraintIndex.

Definition GetConstraintSettings (ConstraintIndex : nat) (c : FPBDJointConstraints)
  : option FPBDJointSettings :=
  ConstraintSettings c !! ConstraintIndex.

(** [GetConstraintLevel(ConstraintIndex)] *)
Definition GetConstraintLevel (ConstraintIndex : nat) (c : FPBDJointConstraints)
  : option Z :=
  Level <$> ConstraintStates c !! ConstraintIndex.

(** [SetParticleLevels(ConstraintIndex, ParticleLevels)]: the constraint's
    level is the smaller of the two particle levels. *)
Definition SetParticleLevels (ConstraintIndex : nat) (Levels : Z * Z)
    (c : FPBDJointConstraints) : option FPBDJointConstraints :=
  _ ← ConstraintStates c !! ConstraintIndex;
  Some (MkJoints (Settings c) (PreApplyCallback c) (PostApplyCallback c) (Handles c)
                 (ConstraintParticles c) (ConstraintSettings c)
                 (<[ConstraintIndex := MkJointState (Z.min Levels.1 Levels.2) Levels]>
                    (ConstraintStates c))
                 (HandleObjects c) (NextHandle c)).

(** *** The solve passes

    The per-constraint numeric work ([SolveVelocity], [SolvePosition],
    [ProjectPosition]) is done by [FPBDJointUtilities], outside the sources
    listed; a pass is represented by the calls it makes, in order, with their
    arguments. *)

Inductive Event : Type :=
| EvPreApply (cb : Callback) (Dt : FReal) (Sorted : list ConstraintHandle)
| EvPostApply (cb : Callback) (Dt : FReal) (Sorted : list ConstraintHandle)
| EvSolveVelocity (Dt : FReal) (ConstraintIndex : nat) (NumPairIts It NumIts : Z)
| EvSolvePosition (Dt : FReal) (ConstraintIndex : nat) (NumPairIts It NumIts : Z)
| EvProjectPosition (Dt : FReal) (ConstraintIndex : nat) (It NumIts : Z).

(** [Handle->GetConstraintIndex()] and [Handle->GetConstraintLevel()]; both
    dereference the handle, and the level also indexes [ConstraintStates]. *)
Definition HandleIndex (c : FPBDJointConstraints) (h : ConstraintHandle) : option nat :=
  HandleObjects c !! h.

Definition HandleLevel (c : FPBDJointConstraints) (h : ConstraintHandle) : option Z :=
  i ← HandleIndex c h; GetConstraintLevel i c.

(** A handle the passes can work on: alive, with its index inside the
    arrays. *)
Definition ValidHandle (c : FPBDJointConstraints) (h : ConstraintHandle) : bool :=
  bool_decide (is_Some (HandleLevel c h)).

Definition IndexOf (c : FPBDJointConstraints) (h : ConstraintHandle) : nat :=
  default 0%nat (HandleIndex c h).

Definition LevelOf (c : FPBDJointConstraints) (h : ConstraintHandle) : Z :=
  default INDEX_NONE (HandleLevel c h).

Section Passes.

(** [TArray::Sort(Predicate)], from the engine's containers. *)
Variable Sort : (ConstraintHandle -> ConstraintHandle -> bool) ->
                list ConstraintHandle -> list ConstraintHandle.

(** [L.GetConstraintLevel() > R.GetConstraintLevel()]: leaf to root. *)
Definition LeafToRoot (c : FPBDJointConstraints) (L R : ConstraintHandle) : bool :=
  LevelOf c R <? LevelOf c L.

(** [L.GetConstraintLevel() < R.GetConstraintLevel()]: root to leaf. *)
Definition RootToLeaf (c : FPBDJointConstraints) (L R : ConstraintHandle) : bool :=
  LevelOf c L <? LevelOf c R.

(** The calls of [ApplyProjection(Dt, InConstraintHandles)] on handles
    already known to be valid. *)
Definition ProjectionCalls (c : FPBDJointConstraints) (Dt : FReal)
    (InConstraintHandles : list ConstraintHandle) : list Event :=
  let SortedConstraintHandles := Sort (RootToLeaf c) InConstraintHandles in
  (fun h => EvProjectPosition Dt (IndexOf c h) 0 1) <$> SortedConstraintHandles.

(** [ApplyProjection(Dt, InConstraintHandles)] *)
Definition ApplyProjection (c : FPBDJointConstraints) (Dt : FReal)
    (InConstraintHandles : list ConstraintHandle) : option (list Event) :=
  if forallb (ValidHandle c) InConstraintHandles
  then Some (ProjectionCalls c Dt InConstraintHandles)
  else None.

(** [Apply(Dt, InConstraintHandles, It, NumIts)] *)
Definition Apply (c : FPBDJointConstraints) (Dt : FReal)
    (InConstraintHandles : list ConstraintHandle) (It NumIts : Z)
  : option (list Event) :=
  if forallb (ValidHandle c) InConstraintHandles then
    let SortedConstraintHandles := Sort (LeafToRoot c) InConstraintHandles in
    let pre :=
      match PreApplyCallback c with
      | Some cb => [EvPreApply cb Dt SortedConstraintHandles]
      | None => []
      end in
    let solve :=
      (fun h =>
         if bEnableVelocitySolve (Settings c)
         then EvSolveVelocity Dt (IndexOf c h) (ApplyPairIterations (Settings c)) It NumIts
         else EvSolvePosition Dt (IndexOf c h) (ApplyPairIterations (Settings c)) It NumIts)
      <$> SortedConstraintHandles in
    project ←
      (if decide (ProjectionPhase (Settings c) = PhaseApply) then
         let ProjectionIt := int32_sub NumIts 1 in
         if decide (It = ProjectionIt)
         then ApplyProjection c Dt InConstraintHandles
         else Some []
       else Some []);
    let post :=
      match PostApplyCallback c with
      | Some cb => [EvPostApply cb Dt SortedConstraintHandles]
      | None => []
      end in
    Some (pre ++ solve ++ project ++ post)
  else None.

(** [ApplyPushOut(Dt, InConstraintHandles, It, NumIts)]; the [bool] is
    [bNeedsAnotherIteration]. *)
Definition ApplyPushOut (c : FPBDJointConstraints) (Dt : FReal)
    (InConstraintHandles : list ConstraintHandle) (It NumIts : Z)
  : option (bool * list Event) :=
  let bNeedsAnotherIteration := true in
  solve ←
    (if decide (0 < ApplyPushOutPairIterations (Settings c)) then
       if forallb (ValidHandle c) InConstraintHandles then
         let SortedConstraintHandles := Sort (RootToLeaf c) InConstraintHandles in
         Some ((fun h => EvSolvePosition Dt (IndexOf c h)
                           (ApplyPushOutPairIterations (Settings c)) It NumIts)
               <$> SortedConstraintHandles)
       else None
     else Some []);
  project ←
    (if decide (ProjectionPhase (Settings c) = PhaseApplyPushOut) then
       let ProjectionIt :=
         if decide (0 < ApplyPushOutPairIterations (Settings c))
         then int32_sub NumIts 1 else 0 in
       if decide (It = ProjectionIt)
       then ApplyProjection c Dt InConstraintHandles
       else Some []
     else Some []);
  Some (bNeedsAnotherIteration, solve ++ project).

End Passes.

(** A sort that meets the contract of [TArray::Sort]: insertion before the
    first element that does not precede the new one. *)
Fixpoint InsertSorted (Before : ConstraintHandle -> ConstraintHandle -> bool)
    (x : ConstraintHandle) (l : list ConstraintHandle) : list ConstraintHandle :=
  match l with
  | [] => [x]
  | y :: l' => if Before y x then y :: InsertSorted Before x l' else x :: l
  end.

Definition InsertionSort (Before : ConstraintHandle -> ConstraintHandle -> bool)
    (l : list ConstraintHandle) : list ConstraintHandle :=
  foldr (InsertSorted Before) [] l.

(** The world-space frame written in the coordinates of a body, in the words
    of the specification: the frame's translation minus the body's position,
    rotated into the body's space, with the rotation taken relative to the
    body's. *)
Definition WorldFrameInBodySpace (WorldConstraintFrame : FRigidTransform3) (p : Particle)
  : FRigidTransform3 :=
  MkTransform
    (RotateVector (RotInverse (R p))
                  (VecSub (GetTranslation WorldConstraintFrame) (X p)))
    (RotMul (RotInverse (R p)) (GetRotation WorldConstraintFrame)).

(** Whether a constraint of the container references a particle of the set. *)
Definition References (S : gset ParticleHandle) (c : ParticleHandle * ParticleHandle) : Prop :=
  c.1 ∈ S ∨ c.2 ∈ S.

(** The level of the constraint at an index, [INDEX_NONE] where there is
    none. *)
Definition ConstraintLevel (c : FPBDJointConstraints) (ConstraintIndex : nat) : Z :=
  default INDEX_NONE (GetConstraintLevel ConstraintIndex c).

(** A processing order runs from leaf to root when, of two constraints with
    different levels, the one with the higher level always comes first; from
    root to leaf when the one with the lower level does. *)
Definition Descending (c : FPBDJointConstraints) (order : list nat) : Prop :=
  forall (i j a b : nat), (i < j)%nat -> order !! i = Some a -> order !! j = Some b ->
    ConstraintLevel c a <> ConstraintLevel c b -> ConstraintLevel c a > ConstraintLevel c b.

Definition Ascending (c : FPBDJointConstraints) (order : list nat) : Prop :=
  forall (i j a b : nat), (i < j)%nat -> order !! i = Some a -> order !! j = Some b ->
    ConstraintLevel c a <> ConstraintLevel c b -> ConstraintLevel c a < ConstraintLevel c b.

Definition IsProjection (e : Event) : bool :=
  match e with EvProjectPosition _ _ _ _ => true | _ => false end.

(** The projection calls among the calls of a pass. *)
Definition ProjectionEvents (evs : list Event) : list Event :=
  filter (fun e => IsProjection e = true) evs.

(** What a pass did, read off its calls. *)
Definition SolvedIndices (evs : list Event) : list nat :=
  omap (fun e => match e with
                 | EvSolveVelocity _ i _ _ _ | EvSolvePosition _ i _ _ _ => Some i
                 | _ => None
                 end) evs.

Definition ProjectedIndices (evs : list Event) : list nat :=
  omap (fun e => match e with
                 | EvProjectPosition _ i _ _ => Some i
                 | _ => None
                 end) evs.

End Joint.

(** ** The dynamic spring constraint container
       ([TPBDRigidDynamicSpringConstraints<float, 3>]) *)

Module Spring.

Record TPBDRigidDynamicSpringConstraints : Type := MkSprings {
  Constraints : list (ParticleHandle * ParticleHandle);
  (* per constraint, per spring: the two attachment points, body-local *)
  Distances : list (list (FVec3 * FVec3));
  (* per constraint, per spring: the rest length *)
  SpringDistances : list (list FReal);
  CreationThreshold : FReal;
  MaxSprings : Z;
  Stiffness : FReal
}.

Definition set_springs (ci : nat) (D : list (FVec3 * FVec3)) (SD : list FReal)
    (s : TPBDRigidDynamicSpringConstraints) : TPBDRigidDynamicSpringConstraints :=
  MkSprings (Constraints s) (<[ci := D]> (Distances s)) (<[ci := SD]> (SpringDistances s))
            (CreationThreshold s) (MaxSprings s) (Stiffness s).

(** [PBDRigid ? PBDRigid->Q() : Static->R()] and the same for positions. *)
Definition BodyQ (p : Particle) : FRotation3 := if AsDynamic p then Q p else R p.
Definition BodyP (p : Particle) : FVec3 := if AsDynamic p then P p else X p.

(** The world-space separation of the two ends of a spring. *)
Definition SpringSeparation (p0 p1 : Particle) (d : FVec3 * FVec3) : FReal :=
  let WorldSpaceX1 := VecAdd (RotateVector (BodyQ p0) d.1) (BodyP p0) in
  let WorldSpaceX2 := VecAdd (RotateVector (BodyQ p1) d.2) (BodyP p1) in
  let Difference := VecSub WorldSpaceX2 WorldSpaceX1 in
  VecSize Difference.

(** [Distance > CreationThreshold * 2] *)
Definition TooFar (CT : FReal) (Distance : FReal) : bool :=
  fgt Distance (fmul CT ftwo).

(** The deletion loop, [for (SpringIndex = NumSprings - 1; SpringIndex >= 0;
    --SpringIndex)], with [n = SpringIndex + 1].  [None] is a failed range
    check on one of the two arrays. *)
Fixpoint DeleteSprings (CT : FReal) (p0 p1 : Particle) (n : nat)
    (D : list (FVec3 * FVec3)) (SD : list FReal)
  : option (list (FVec3 * FVec3) * list FReal) :=
  match n with
  | O => Some (D, SD)
  | S SpringIndex =>
      d ← D !! SpringIndex;
      if TooFar CT (SpringSeparation p0 p1 d) then
        _ ← SD !! SpringIndex;
        DeleteSprings CT p0 p1 SpringIndex
                      (RemoveAtSwap SpringIndex D) (RemoveAtSwap SpringIndex SD)
      else DeleteSprings CT p0 p1 SpringIndex D SD
  end.

Section Geometry.

(** Operations of [TRigidTransform] and [TBox] from the engine's math and
    geometry libraries, outside the sources listed. *)
Variable TransformMul : FRigidTransform3 -> FRigidTransform3 -> FRigidTransform3.
Variable TransformInverse : FRigidTransform3 -> FRigidTransform3.
Variable InverseTransformPosition : FRigidTransform3 -> FVec3 -> FVec3.
Variable TransformVector : FRigidTransform3 -> FVec3 -> FVec3.
Variable TransformedBox : TBox -> FRigidTransform3 -> TBox.
Variable Thicken : TBox -> FReal -> TBox.
Variable Intersects : TBox -> TBox -> bool.

(** The early test on bounding boxes: [false] rejects the pair.  It only
    applies when both geometries have a box. *)
Definition BoxesMayTouch (CT : FReal) (g0 g1 : FImplicitObject)
    (Transform1 Transform2 : FRigidTransform3) : bool :=
  if HasBoundingBox g0 && HasBoundingBox g1 then
    let Box1 := Thicken (TransformedBox (BoundingBox g0)
                           (TransformMul Transform1 (TransformInverse Transform2))) CT in
    let Box2 := Thicken (BoundingBox g1) CT in
    Intersects Box1 Box2
  else true.

(** The sampled distances and contact points at the midpoint of the two body
    origins: [(Phi1, Phi2, Location0, Location1)]. *)
Definition SampleMidpoint (g0 g1 : FImplicitObject) (P0 P1 : FVec3)
    (Transform1 Transform2 : FRigidTransform3) : FReal * FReal * FVec3 * FVec3 :=
  let Midpoint := VecDiv (VecAdd P0 P1) ftwo in
  let '(Phi1, Normal1) := PhiWithNormal g0 (InverseTransformPosition Transform1 Midpoint) in
  let Normal1 := TransformVector Transform2 Normal1 in
  let '(Phi2, Normal2) := PhiWithNormal g1 (InverseTransformPosition Transform2 Midpoint) in
  let Normal2 := TransformVector Transform2 Normal2 in
  (Phi1, Phi2, VecSub Midpoint (VecScale Phi1 Normal1), VecSub Midpoint (VecScale Phi2 Normal2)).

(** The creation part of one loop iteration, after the deletions: the spring
    to add, if any. *)
Definition NewSpring (CT : FReal) (MaxSprings : Z) (p0 p1 : Particle)
    (g0 g1 : FImplicitObject) (NumSprings : nat) : option ((FVec3 * FVec3) * FReal) :=
  if decide (Z.of_nat NumSprings = MaxSprings) then None
  else
    let Q0 := BodyQ p0 in let Q1 := BodyQ p1 in
    let P0 := BodyP p0 in let P1 := BodyP p1 in
    let Transform1 := MkTransform P0 Q0 in
    let Transform2 := MkTransform P1 Q1 in
    if negb (BoxesMayTouch CT g0 g1 Transform1 Transform2) then None
    else
      let '(Phi1, Phi2, Location0, Location1) :=
        SampleMidpoint g0 g1 P0 P1 Transform1 Transform2 in
      if fgt (fadd Phi1 Phi2) CT then None
      else
        Some ((RotateVector (RotInverse Q0) (VecSub Location0 P0),
               RotateVector (RotInverse Q0) (VecSub Location1 P1)),
              VecSize (VecSub Location0 Location1)).

(** One iteration of the loop over constraints.  [None] is a dangling
    particle pointer or a failed range check. *)
Definition UpdateConstraint (heap : ParticleHeap) (ConstraintIndex : nat)
    (s : TPBDRigidDynamicSpringConstraints) : option TPBDRigidDynamicSpringConstraints :=
  c ← Constraints s !! ConstraintIndex;
  p0 ← heap !! c.1;
  p1 ← heap !! c.2;
  match Geometry p0, Geometry p1 with
  | Some g0, Some g1 =>
      SD ← SpringDistances s !! ConstraintIndex;
      D ← Distances s !! ConstraintIndex;
      let NumSprings := length SD in
      '(D', SD') ← DeleteSprings (CreationThreshold s) p0 p1 NumSprings D SD;
      match NewSpring (CreationThreshold s) (MaxSprings s) p0 p1 g0 g1 (length SD') with
      | Some (Distance, Rest) =>
          Some (set_springs ConstraintIndex (D' ++ [Distance]) (SD' ++ [Rest]) s)
      | None => Some (set_springs ConstraintIndex D' SD' s)
      end
  | _, _ =>
      (* Do not create springs between objects with no geometry *)
      Some s
  end.

Fixpoint UpdateFrom (heap : ParticleHeap) (ConstraintIndex n : nat)
    (s : TPBDRigidDynamicSpringConstraints) : option TPBDRigidDynamicSpringConstraints :=
  match n with
  | O => Some s
  | S n' =>
      s' ← UpdateConstraint heap ConstraintIndex s;
      UpdateFrom heap (S ConstraintIndex) n' s'
  end.

(** [UpdatePositionBasedState(Dt)] *)
Definition UpdatePositionBasedState (heap : ParticleHeap) (Dt : FReal)
    (s : TPBDRigidDynamicSpringConstraints) : option TPBDRigidDynamicSpringConstraints :=
  let NumConstraints := length (Constraints s) in
  UpdateFrom heap 0 NumConstraints s.

End Geometry.

(** Modelled from the spec: "a geometry/signed-distance-field query
    interface ([PhiWithNormal], bounding box, overlap test)" and the rigid
    transforms it is used with, which the engine implements outside the
    sources listed.  Transforms compose left to right ([A * B] applies [A]
    first); a box is turned by turning its corners and taking their bounds;
    thickening moves both corners outwards; boxes overlap when they do on
    every axis. *)
Definition RefTransformMul (A B : FRigidTransform3) : FRigidTransform3 :=
  MkTransform (VecAdd (RotateVector (GetRotation B) (GetTranslation A)) (GetTranslation B))
              (RotMul (GetRotation B) (GetRotation A)).

Definition RefTransformInverse (T : FRigidTransform3) : FRigidTransform3 :=
  MkTransform (RotateVector (RotInverse (GetRotation T)) (VecNeg (GetTranslation T)))
              (RotInverse (GetRotation T)).

Definition RefInverseTransformPosition (T : FRigidTransform3) (v : FVec3) : FVec3 :=
  RotateVector (RotInverse (GetRotation T)) (VecSub v (GetTranslation T)).

Definition RefTransformVector (T : FRigidTransform3) (v : FVec3) : FVec3 :=
  RotateVector (GetRotation T) v.

Definition fmin (a b : FReal) : FReal := if flt b a then b else a.
Definition fmax (a b : FReal) : FReal := if flt a b then b else a.

Definition VecMin (a b : FVec3) : FVec3 :=
  MkVec (fmin (vx a) (vx b)) (fmin (vy a) (vy b)) (fmin (vz a) (vz b)).
Definition VecMax (a b : FVec3) : FVec3 :=
  MkVec (fmax (vx a) (vx b)) (fmax (vy a) (vy b)) (fmax (vz a) (vz b)).

Definition Corners (b : TBox) : list FVec3 :=
  x ← [vx (BoxMin b); vx (BoxMax b)];
  y ← [vy (BoxMin b); vy (BoxMax b)];
  z ← [vz (BoxMin b); vz (BoxMax b)];
  [MkVec x y z].

Definition RefTransformedBox (b : TBox) (T : FRigidTransform3) : TBox :=
  let moved := (fun v => VecAdd (RotateVector (GetRotation T) v) (GetTranslation T))
                 <$> Corners b in
  match moved with
  | [] => b
  | v :: vs => MkBox (foldl VecMin v vs) (foldl VecMax v vs)
  end.

Definition RefThicken (b : TBox) (Thickness : FReal) : TBox :=
  let t := MkVec Thickness Thickness Thickness in
  MkBox (VecSub (BoxMin b) t) (VecAdd (BoxMax b) t).

Definition RefIntersects (a b : TBox) : bool :=
  negb (flt (vx (BoxMax a)) (vx (BoxMin b)) || flt (vx (BoxMax b)) (vx (BoxMin a))
        || flt (vy (BoxMax a)) (vy (BoxMin b)) || flt (vy (BoxMax b)) (vy (BoxMin a))
        || flt (vz (BoxMax a)) (vz (BoxMin b)) || flt (vz (BoxMax b)) (vz (BoxMin a))).

(** A spring survives the deletion loop when its ends are not too far apart. *)
Definition Kept (CT : FReal) (p0 p1 : Particle) (spring : (FVec3 * FVec3) * FReal) : Prop :=
  TooFar CT (SpringSeparation p0 p1 spring.1) = false.

Global Instance Kept_dec CT p0 p1 spring : Decision (Kept CT p0 p1 spring).
Proof. unfold Kept. apply _. Defined.

(** The arrays are parallel and the constrained particles alive. *)
Definition WellFormed (heap : ParticleHeap) (s : TPBDRigidDynamicSpringConstraints) : Prop :=
  length (Distances s) = length (Constraints s)
  ∧ length (SpringDistances s) = length (Constraints s)
  ∧ (forall ci D SD, Distances s !! ci = Some D -> SpringDistances s !! ci = Some SD ->
       length D = length SD)
  ∧ (forall ci c, Constraints s !! ci = Some c ->
       is_Some (heap !! c.1) ∧ is_Some (heap !! c.2)).

(** How a call ends: with a value, or in one of the run-time checks. *)
Inductive Outcome (A : Type) : Type :=
| Returned (a : A)
| RangeCheckFailed
| NullDereference
| CheckFailed.
Arguments Returned {A} a.
Arguments RangeCheckFailed {A}.
Arguments NullDereference {A}.
Arguments CheckFailed {A}.

(** [check(Distance > 1e-7)]: the [float] is compared as a [double]. *)
Definition DistanceCheck (Distance : FReal) : bool :=
  SFltb double_1em7 (to_double Distance).

(** [GetDelta(WorldSpaceX1, WorldSpaceX2, ConstraintIndex, SpringIndex)],
    with [check] compiled in. *)
Definition GetDelta (heap : ParticleHeap) (s : TPBDRigidDynamicSpringConstraints)
    (WorldSpaceX1 WorldSpaceX2 : FVec3) (ConstraintIndex SpringIndex : nat)
  : Outcome FVec3 :=
  match Constraints s !! ConstraintIndex with
  | None => RangeCheckFailed
  | Some c =>
      match heap !! c.1, heap !! c.2 with
      | Some p0, Some p1 =>
          if negb (AsDynamic p0) && negb (AsDynamic p1) then Returned VecZero
          else
            let Difference := VecSub WorldSpaceX2 WorldSpaceX1 in
            let Distance := VecSize Difference in
            if negb (DistanceCheck Distance) then CheckFailed
            else
              let InvM0 := if AsDynamic p0 then InvM p0 else fzero in
              let InvM1 := if AsDynamic p1 then InvM p1 else fzero in
              let Direction := VecDiv Difference Distance in
              match SpringDistances s !! ConstraintIndex ≫= (.!! SpringIndex) with
              | None => RangeCheckFailed
              | Some Rest =>
                  let Delta := VecScale (fsub Distance Rest) Direction in
                  Returned (VecDiv (VecScale (Stiffness s) Delta) (fadd InvM0 InvM1))
              end
      | _, _ => NullDereference
      end
  end.

End Spring.

(** ** The particle store ([TPBDRigidsSOAs<float, 3>]) *)

Module SOAs.

(** A map from particles to array positions with the array it indexes
    ([TMap<TParticle*, int32>] and [TArray<TParticle*>]). *)
Record MapAndArray : Type := MkMapAndArray {
  ToIndex : gmap ParticleHandle nat;
  Array : list ParticleHandle
}.

Definition EmptyMapAndArray : MapAndArray := MkMapAndArray ∅ [].

Record TPBDRigidsSOAs : Type := MkSOAs {
  (* the particle data reachable through live handles *)
  Heap : ParticleHeap;
  (* the content of each structure-of-arrays pool, in storage order *)
  Pool : ESOA -> list ParticleHandle;
  (* ActiveParticlesToIndex / ActiveParticlesArray *)
  ActiveParticles : MapAndArray;
  (* ActiveClusteredToIndex / ActiveClusteredArray *)
  ActiveClustered : MapAndArray;
  (* NonDisabledClusteredToIndex / NonDisabledClusteredArray *)
  NonDisabledClustered : MapAndArray;
  NonDisabledView : list ParticleHandle;
  NonDisabledDynamicView : list ParticleHandle;
  ActiveParticlesView : list ParticleHandle;
  AllParticlesView : list ParticleHandle;
  ActiveKinematicParticlesView : list ParticleHandle;
  (* auxiliary data synced with particle handles *)
  ParticleHandles : list ParticleHandle;
  (* the next handle identity to give out *)
  NextParticle : ParticleHandle
}.

Definition with_Heap (h : ParticleHeap) (s : TPBDRigidsSOAs) : TPBDRigidsSOAs :=
  MkSOAs h (Pool s) (ActiveParticles s) (ActiveClustered s) (NonDisabledClustered s)
         (NonDisabledView s) (NonDisabledDynamicView s) (ActiveParticlesView s)
         (AllParticlesView s) (ActiveKinematicParticlesView s) (ParticleHandles s)
         (NextParticle s).

Definition with_Pool (f : ESOA -> list ParticleHandle) (s : TPBDRigidsSOAs) : TPBDRigidsSOAs :=
  MkSOAs (Heap s) f (ActiveParticles s) (ActiveClustered s) (NonDisabledClustered s)
         (NonDisabledView s) (NonDisabledDynamicView s) (ActiveParticlesView s)
         (AllParticlesView s) (ActiveKinematicParticlesView s) (ParticleHandles s)
         (NextParticle s).

Definition with_ActiveParticles (m : MapAndArray) (s : TPBDRigidsSOAs) : TPBDRigidsSOAs :=
  MkSOAs (Heap s) (Pool s) m (ActiveClustered s) (NonDisabledClustered s)
         (NonDisabledView s) (NonDisabledDynamicView s) (ActiveParticlesView s)
         (AllParticlesView s) (ActiveKinematicParticlesView s) (ParticleHandles s)
         (NextParticle s).

Definition with_ActiveClustered (m : MapAndArray) (s : TPBDRigidsSOAs) : TPBDRigidsSOAs :=
  MkSOAs (Heap s) (Pool s) (ActiveParticles s) m (NonDisabledClustered s)
         (NonDisabledView s) (NonDisabledDynamicView s) (ActiveParticlesView s)
         (AllParticlesView s) (ActiveKinematicParticlesView s) (ParticleHandles s)
         (NextParticle s).

Definition with_NonDisabledClustered (m : MapAndArray) (s : TPBDRigidsSOAs) : TPBDRigidsSOAs :=
  MkSOAs (Heap s) (Pool s) (ActiveParticles s) (ActiveClustered s) m
         (NonDisabledView s) (NonDisabledDynamicView s) (ActiveParticlesView s)
         (AllParticlesView s) (ActiveKinematicParticlesView s) (ParticleHandles s)
         (NextParticle s).

Definition with_ParticleHandles (l : list ParticleHandle) (n : ParticleHandle)
    (s : TPBDRigidsSOAs) : TPBDRigidsSOAs :=
  MkSOAs (Heap s) (Pool s) (ActiveParticles s) (ActiveClustered s) (NonDisabledClustered s)
         (NonDisabledView s) (NonDisabledDynamicView s) (ActiveParticlesView s)
         (AllParticlesView s) (ActiveKinematicParticlesView s) l n.

(** [UpdateViews()]: every view is rebuilt from the pools and index arrays. *)
Definition UpdateViews (s : TPBDRigidsSOAs) : TPBDRigidsSOAs :=
  MkSOAs (Heap s) (Pool s) (ActiveParticles s) (ActiveClustered s) (NonDisabledClustered s)
    (Pool s StaticParticles ++ Pool s KinematicParticles ++ Pool s DynamicParticles
       ++ Pool s DynamicKinematicParticles ++ Array (NonDisabledClustered s))
    (Pool s DynamicParticles ++ Array (NonDisabledClustered s))
    (Array (ActiveParticles s))
    (Pool s StaticParticles ++ Pool s StaticDisabledParticles
       ++ Pool s KinematicParticles ++ Pool s KinematicDisabledParticles
       ++ Pool s DynamicParticles ++ Pool s DynamicDisabledParticles
       ++ Pool s DynamicKinematicParticles ++ Pool s ClusteredParticles)
    (Pool s KinematicParticles ++ Pool s DynamicKinematicParticles)
    (ParticleHandles s) (NextParticle s).

(** [TPBDRigidsSOAs()] *)
Definition NewSOAs : TPBDRigidsSOAs :=
  UpdateViews
    (MkSOAs ∅ (fun _ => []) EmptyMapAndArray EmptyMapAndArray EmptyMapAndArray
            [] [] [] [] [] [] 0%nat).

Definition GetActiveParticlesView (s : TPBDRigidsSOAs) : list ParticleHandle :=
  ActiveParticlesView s.
Definition GetNonDisabledView (s : TPBDRigidsSOAs) : list ParticleHandle :=
  NonDisabledView s.
Definition GetNonDisabledDynamicView (s : TPBDRigidsSOAs) : list ParticleHandle :=
  NonDisabledDynamicView s.
Definition GetAllParticlesView (s : TPBDRigidsSOAs) : list ParticleHandle :=
  AllParticlesView s.
Definition GetActiveKinematicParticlesView (s : TPBDRigidsSOAs) : list ParticleHandle :=
  ActiveKinematicParticlesView s.

(** The position of a handle in an array of handles. *)
Definition SlotOf (h : ParticleHandle) (l : list ParticleHandle) : option nat :=
  fst <$> list_find (fun x => x = h) l.

(** [InsertToMapAndArray(ParticlesToInsert, ParticleToIndex, ParticleArray)]:
    the bulk form, without a membership test.  The loop
    [for (auto Particle : ParticlesToInsert) ParticleToIndex.Add(Particle, NextIdx++)]
    comes first, then the array is extended. *)
Fixpoint AddAllToIndex (NextIdx : nat) (ParticlesToInsert : list ParticleHandle)
    (ParticleToIndex : gmap ParticleHandle nat) : gmap ParticleHandle nat :=
  match ParticlesToInsert with
  | [] => ParticleToIndex
  | Particle :: rest => AddAllToIndex (S NextIdx) rest (<[Particle := NextIdx]> ParticleToIndex)
  end.

Definition InsertAllToMapAndArray (ParticlesToInsert : list ParticleHandle)
    (m : MapAndArray) : MapAndArray :=
  MkMapAndArray (AddAllToIndex (length (Array m)) ParticlesToInsert (ToIndex m))
                (Array m ++ ParticlesToInsert).

(** [InsertToMapAndArray(Particle, ParticleToIndex, ParticleArray)] *)
Definition InsertToMapAndArray (Particle : ParticleHandle) (m : MapAndArray) : MapAndArray :=
  match ToIndex m !! Particle with
  | None => MkMapAndArray (<[Particle := length (Array m)]> (ToIndex m))
                          (Array m ++ [Particle])
  | Some _ => m
  end.

(** [RemoveFromMapAndArray(Particle, ParticleToIndex, ParticleArray)].
    [None] is a failed check: the recorded index is outside the array, or the
    element swapped into the gap has no entry in the map. *)
Definition RemoveFromMapAndArray (Particle : ParticleHandle) (m : MapAndArray)
  : option MapAndArray :=
  match ToIndex m !! Particle with
  | Some Idx =>
      _ ← Array m !! Idx;
      let ParticleArray := RemoveAtSwap Idx (Array m) in
      ParticleToIndex ←
        match ParticleArray !! Idx with
        | Some moved =>
            _ ← ToIndex m !! moved;
            Some (<[moved := Idx]> (ToIndex m))
        | None => Some (ToIndex m)
        end;
      Some (MkMapAndArray (delete Particle ParticleToIndex) ParticleArray)
  | None => Some m
  end.

(** Modelled from the spec: [TGeometryParticleHandle::MoveToSOA], declared in
    [Chaos/ParticleHandle.h]: "an explicit move-to-pool operation that
    preserves a handle's logical identity while physically relocating its
    backing storage slot".  The slot is freed by swap-with-last, except in the
    clustered pool, whose [RemoveParticleBehavior] keeps the relative order.
    [None]: the handle is dangling or not stored in the pool it names. *)
Definition FreeSlot (pool : ESOA) (i : nat) (l : list ParticleHandle) : list ParticleHandle :=
  if decide (pool = ClusteredParticles) then delete i l else RemoveAtSwap i l.

Definition MoveToSOA (h : ParticleHandle) (ToSOA : ESOA) (s : TPBDRigidsSOAs)
  : option TPBDRigidsSOAs :=
  p ← Heap s !! h;
  if decide (SOA p = ToSOA) then Some s
  else
    i ← SlotOf h (Pool s (SOA p));
    Some (with_Heap (<[h := set_SOA ToSOA p]> (Heap s))
            (with_Pool (fun k => if decide (k = SOA p) then FreeSlot k i (Pool s k)
                                 else if decide (k = ToSOA) then Pool s k ++ [h]
                                 else Pool s k) s)).

(** Creation parameters ([TGeometryParticleParameters],
    [TPBDRigidParticleParameters]). *)
Record ParticleParameters : Type := MkParams {
  bDisabled : bool;
  bStartSleeping : bool
}.

Definition DefaultParameters : ParticleParameters := MkParams false false.

(** Modelled from the spec: the state of a particle made by
    [CreateParticleHandle(Particles, ParticleIdx, HandleIdx)], declared in
    [Chaos/ParticleHandle.h]: "default-initializes state".  The helper does
    not pass the creation parameters on, so these are the defaults: at rest at
    the origin, unit mass, enabled, awake, no geometry. *)
Definition DefaultParticle (t : EParticleType) (pool : ESOA) : Particle :=
  MkParticle t VecZero FromIdentity VecZero VecZero VecZero FromIdentity fone false
             (match t with
              | PT_Static => OS_Static
              | PT_Kinematic => OS_Kinematic
              | _ => OS_Dynamic
              end)
             None pool.

(** [CreateParticlesHelper(NumParticles, Particles, Params)] *)
Definition CreateParticlesHelper (t : EParticleType) (NumParticles : nat) (pool : ESOA)
    (s : TPBDRigidsSOAs) : TPBDRigidsSOAs * list ParticleHandle :=
  let ReturnHandles := seq (NextParticle s) NumParticles in
  (with_ParticleHandles (ParticleHandles s ++ ReturnHandles)
     (NextParticle s + NumParticles)%nat
     (with_Pool (fun k => if decide (k = pool) then Pool s k ++ ReturnHandles else Pool s k)
        (with_Heap (foldr (fun h heap => <[h := DefaultParticle t pool]> heap)
                          (Heap s) ReturnHandles) s)),
   ReturnHandles).

(** [CreateStaticParticles(NumParticles, Params)] *)
Definition CreateStaticParticles (NumParticles : nat) (Params : ParticleParameters)
    (s : TPBDRigidsSOAs) : TPBDRigidsSOAs * list ParticleHandle :=
  let '(s, Results) :=
    CreateParticlesHelper PT_Static NumParticles
      (if bDisabled Params then StaticDisabledParticles else StaticParticles) s in
  (UpdateViews s, Results).

(** [CreateKinematicParticles(NumParticles, Params)] *)
Definition CreateKinematicParticles (NumParticles : nat) (Params : ParticleParameters)
    (s : TPBDRigidsSOAs) : TPBDRigidsSOAs * list ParticleHandle :=
  let '(s, Results) :=
    CreateParticlesHelper PT_Kinematic NumParticles
      (if bDisabled Params then KinematicDisabledParticles else KinematicParticles) s in
  (UpdateViews s, Results).

(** [CreateDynamicParticles(NumParticles, Params)] *)
Definition CreateDynamicParticles (NumParticles : nat) (Params : ParticleParameters)
    (s : TPBDRigidsSOAs) : TPBDRigidsSOAs * list ParticleHandle :=
  let '(s, Results) :=
    CreateParticlesHelper PT_Rigid NumParticles
      (if bDisabled Params then DynamicDisabledParticles else DynamicParticles) s in
  let s :=
    if negb (bStartSleeping Params)
    then with_ActiveParticles (InsertAllToMapAndArray Results (ActiveParticles s)) s
    else s in
  (UpdateViews s, Results).

(** [CreateClusteredParticles(NumParticles, Params)] *)
Definition CreateClusteredParticles (NumParticles : nat) (Params : ParticleParameters)
    (s : TPBDRigidsSOAs) : TPBDRigidsSOAs * list ParticleHandle :=
  let '(s, NewClustered) :=
    CreateParticlesHelper PT_Clustered NumParticles ClusteredParticles s in
  let s :=
    if negb (bDisabled Params)
    then with_NonDisabledClustered
           (InsertAllToMapAndArray NewClustered (NonDisabledClustered s)) s
    else s in
  let s :=
    if negb (bStartSleeping Params)
    then with_ActiveClustered (InsertAllToMapAndArray NewClustered (ActiveClustered s))
           (with_ActiveParticles (InsertAllToMapAndArray NewClustered (ActiveParticles s)) s)
    else s in
  (UpdateViews s, NewClustered).

(** Modelled from the spec: [TGeometryParticleHandles::DestroyHandleSwap],
    declared in [Chaos/ParticleHandle.h]: "removes the particle's slot via
    swap-with-last within its current pool ..., invalidates the handle".  The
    handle leaves the handle array by swap-with-last, its slot in its pool is
    freed, and the handle stops being alive.  [None]: the handle is not in the
    handle array or not in its pool. *)
Definition DestroyHandleSwap (h : ParticleHandle) (s : TPBDRigidsSOAs)
  : option TPBDRigidsSOAs :=
  p ← Heap s !! h;
  HandleIdx ← SlotOf h (ParticleHandles s);
  ParticleIdx ← SlotOf h (Pool s (SOA p));
  Some (with_ParticleHandles (RemoveAtSwap HandleIdx (ParticleHandles s)) (NextParticle s)
          (with_Pool (fun k => if decide (k = SOA p) then FreeSlot k ParticleIdx (Pool s k)
                               else Pool s k)
             (with_Heap (delete h (Heap s)) s))).

(** [DestroyParticle(Particle)].  [None] is a failed [check] (here also
    the one on clustered particles) or a dangling pointer. *)
Definition DestroyParticle (Particle : ParticleHandle) (s : TPBDRigidsSOAs)
  : option TPBDRigidsSOAs :=
  p ← Heap s !! Particle;
  if AsClustered p then None   (* check(Particle->AsClustered() == nullptr) *)
  else
    s ← (if AsDynamic p
         then (fun m => with_ActiveParticles m s)
                <$> RemoveFromMapAndArray Particle (ActiveParticles s)
         else Some s);
    s ← DestroyHandleSwap Particle s;
    Some (UpdateViews s).

(** [SetDynamicParticleSOA(Particle)] *)
Definition SetDynamicParticleSOA (Particle : ParticleHandle) (s : TPBDRigidsSOAs)
  : option TPBDRigidsSOAs :=
  p ← Heap s !! Particle;
  s ← match ObjectState p with
      | OS_Kinematic => MoveToSOA Particle DynamicKinematicParticles s
      | OS_Dynamic => MoveToSOA Particle DynamicParticles s
      | _ => MoveToSOA Particle DynamicParticles s
      end;
  Some (UpdateViews s).

(** [DisableParticle(Particle)] *)
Definition DisableParticle (Particle : ParticleHandle) (s : TPBDRigidsSOAs)
  : option TPBDRigidsSOAs :=
  p ← Heap s !! Particle;
  s ←
    (if AsDynamic p then
       let s := with_Heap (<[Particle := set_W VecZero (set_V VecZero (set_Disabled true p))]>
                             (Heap s)) s in
       s ←
         (if AsClustered p then
            m ← RemoveFromMapAndArray Particle (NonDisabledClustered s);
            let s := with_NonDisabledClustered m s in
            m ← RemoveFromMapAndArray Particle (ActiveClustered s);
            Some (with_ActiveClustered m s)
          else MoveToSOA Particle DynamicDisabledParticles s);
       m ← RemoveFromMapAndArray Particle (ActiveParticles s);
       Some (with_ActiveParticles m s)
     else if AsKinematic p then MoveToSOA Particle KinematicDisabledParticles s
     else MoveToSOA Particle StaticDisabledParticles s);
  Some (UpdateViews s).

(** [EnableParticle(Particle)] *)
Definition EnableParticle (Particle : ParticleHandle) (s : TPBDRigidsSOAs)
  : option TPBDRigidsSOAs :=
  p ← Heap s !! Particle;
  s ←
    (if AsDynamic p then
       s ←
         (if AsClustered p then
            let s := with_NonDisabledClustered
                       (InsertToMapAndArray Particle (NonDisabledClustered s)) s in
            Some (if negb (Sleeping p)
                  then with_ActiveClustered
                         (InsertToMapAndArray Particle (ActiveClustered s)) s
                  else s)
          else SetDynamicParticleSOA Particle s);
       let s :=
         if negb (Sleeping p)
         then with_ActiveParticles (InsertToMapAndArray Particle (ActiveParticles s)) s
         else s in
       q ← Heap s !! Particle;
       Some (with_Heap (<[Particle := set_Disabled false q]> (Heap s)) s)
     else if AsKinematic p then MoveToSOA Particle KinematicParticles s
     else MoveToSOA Particle StaticParticles s);
  Some (UpdateViews s).

(** [ActivateParticle(Particle)] *)
Definition ActivateParticle (Particle : ParticleHandle) (s : TPBDRigidsSOAs)
  : option TPBDRigidsSOAs :=
  p ← Heap s !! Particle;
  s ←
    (if AsDynamic p then
       if Disabled p then None   (* check(!PBDRigid->Disabled()) *)
       else
         let s :=
           if AsClustered p
           then with_ActiveClustered (InsertToMapAndArray Particle (ActiveClustered s)) s
           else s in
         Some (with_ActiveParticles (InsertToMapAndArray Particle (ActiveParticles s)) s)
     else Some s);
  Some (UpdateViews s).

(** [DeactivateParticle(Particle)] *)
Definition DeactivateParticle (Particle : ParticleHandle) (s : TPBDRigidsSOAs)
  : option TPBDRigidsSOAs :=
  p ← Heap s !! Particle;
  s ←
    (if AsDynamic p then
       if Disabled p then None   (* check(!PBDRigid->Disabled()) *)
       else
         s ←
           (if AsClustered p
            then (fun m => with_ActiveClustered m s)
                   <$> RemoveFromMapAndArray Particle (ActiveClustered s)
            else Some s);
         m ← RemoveFromMapAndArray Particle (ActiveParticles s);
         Some (with_ActiveParticles m s)
     else Some s);
  Some (UpdateViews s).

(** [DeactivateParticles(Particles)] *)
Fixpoint DeactivateParticles (Particles : list ParticleHandle) (s : TPBDRigidsSOAs)
  : option TPBDRigidsSOAs :=
  match Particles with
  | [] => Some s
  | Particle :: rest => s ← DeactivateParticle Particle s; DeactivateParticles rest s
  end.

(** *** Sequences of calls *)

Inductive Call : Type :=
| CallCreateStaticParticles (NumParticles : nat) (Params : ParticleParameters)
| CallCreateKinematicParticles (NumParticles : nat) (Params : ParticleParameters)
| CallCreateDynamicParticles (NumParticles : nat) (Params : ParticleParameters)
| CallCreateClusteredParticles (NumParticles : nat) (Params : ParticleParameters)
| CallDestroyParticle (Particle : ParticleHandle)
| CallDisableParticle (Particle : ParticleHandle)
| CallEnableParticle (Particle : ParticleHandle)
| CallActivateParticle (Particle : ParticleHandle)
| CallDeactivateParticle (Particle : ParticleHandle)
| CallSetDynamicParticleSOA (Particle : ParticleHandle).

(** One call on the store; [None] when a check fails. *)
Definition step (c : Call) (s : TPBDRigidsSOAs) : option TPBDRigidsSOAs :=
  match c with
  | CallCreateStaticParticles n params => Some (CreateStaticParticles n params s).1
  | CallCreateKinematicParticles n params => Some (CreateKinematicParticles n params s).1
  | CallCreateDynamicParticles n params => Some (CreateDynamicParticles n params s).1
  | CallCreateClusteredParticles n params => Some (CreateClusteredParticles n params s).1
  | CallDestroyParticle h => DestroyParticle h s
  | CallDisableParticle h => DisableParticle h s
  | CallEnableParticle h => EnableParticle h s
  | CallActivateParticle h => ActivateParticle h s
  | CallDeactivateParticle h => DeactivateParticle h s
  | CallSetDynamicParticleSOA h => SetDynamicParticleSOA h s
  end.

Fixpoint run (cs : list Call) (s : TPBDRigidsSOAs) : option TPBDRigidsSOAs :=
  match cs with
  | [] => Some s
  | c :: cs => s ← step c s; run cs s
  end.

End SOAs.

(** ** The sub-stepping driver ([ClothingSimulation::Simulate]) *)

Module Cloth.

(** The part of [ClothingSimulation] the driver reads and writes. *)
Record ClothingSimulation : Type := MkCloth {
  MaxDeltaTime : FReal;
  ClampDeltaTime : FReal;
  Time : FReal;
  DeltaTime : FReal
}.

(** The end of [ClothingSimulation::Initialize()]: [MaxDeltaTime = 1.0f;
    ClampDeltaTime = 0.f; Time = 0.f;]. *)
Definition Initialize (sim : ClothingSimulation) : ClothingSimulation :=
  MkCloth fone fzero fzero (DeltaTime sim).

(** The loop
    [while (Context->DeltaTime > MaxDeltaTime) { AdvanceOneTimeStep(MaxDeltaTime);
    Context->DeltaTime -= MaxDeltaTime; }] followed by
    [AdvanceOneTimeStep(Context->DeltaTime)]: the arguments of the calls to
    [AdvanceOneTimeStep], in order.  [fuel] bounds the number of loop tests;
    [None] means the bound was reached with the loop still running. *)
Fixpoint SubSteps (fuel : nat) (Max : FReal) (ContextDeltaTime : FReal)
  : option (list FReal) :=
  match fuel with
  | O => None
  | S fuel =>
      if fgt ContextDeltaTime Max
      then (fun rest => Max :: rest) <$> SubSteps fuel Max (fsub ContextDeltaTime Max)
      else Some [ContextDeltaTime]
  end.

(** [Simulate(InContext)], as far as time stepping goes (the skinning of
    animation positions before the loop does not touch the step sizes).
    Returns the simulation and the sub-steps taken. *)
Definition Simulate (fuel : nat) (ContextDeltaTime : FReal) (sim : ClothingSimulation)
  : option (ClothingSimulation * list FReal) :=
  if feq ContextDeltaTime fzero then Some (sim, [])
  else
    steps ← SubSteps fuel (MaxDeltaTime sim) ContextDeltaTime;
    Some (MkCloth (MaxDeltaTime sim) (ClampDeltaTime sim)
                  (fadd (Time sim) ContextDeltaTime) ContextDeltaTime,
          steps).

End Cloth.

(** ** Sequences of calls on the joint container *)

Module JointOps.
Import Joint.

(** [ClearPreApplyCallback()] and [ClearPostApplyCallback()] *)
Definition ClearPreApplyCallback (c : FPBDJointConstraints) : FPBDJointConstraints :=
  MkJoints (Settings c) None (PostApplyCallback c) (Handles c)
           (ConstraintParticles c) (ConstraintSettings c) (ConstraintStates c)
           (HandleObjects c) (NextHandle c).

Definition ClearPostApplyCallback (c : FPBDJointConstraints) : FPBDJointConstraints :=
  MkJoints (Settings c) (PreApplyCallback c) None (Handles c)
           (ConstraintParticles c) (ConstraintSettings c) (ConstraintStates c)
           (HandleObjects c) (NextHandle c).

(** [GetConstraintHandle(ConstraintIndex)] *)
Definition GetConstraintHandle (ConstraintIndex : nat) (c : FPBDJointConstraints)
  : option ConstraintHandle :=
  Handles c !! ConstraintIndex.

(** The calls that change a container. *)
Inductive Call : Type :=
| CallAddConstraintSettings (InConstrainedParticles : ParticleHandle * ParticleHandle)
                            (InConstraintSettings : FPBDJointSettings)
| CallAddConstraintFrames (InConstrainedParticles : ParticleHandle * ParticleHandle)
                          (Frames : FRigidTransform3 * FRigidTransform3)
| CallAddConstraintWorld (heap : ParticleHeap)
                         (InConstrainedParticles : ParticleHandle * ParticleHandle)
                         (WorldConstraintFrame : FRigidTransform3)
| CallRemoveConstraint (ConstraintIndex : nat)
| CallRemoveConstraints (RemovedParticles : gset ParticleHandle)
| CallSetParticleLevels (ConstraintIndex : nat) (Levels : Z * Z)
| CallSetSettings (InSettings : FPBDJointSolverSettings)
| CallSetPreApplyCallback (cb : Callback)
| CallClearPreApplyCallback
| CallSetPostApplyCallback (cb : Callback)
| CallClearPostApplyCallback.

(** One call; [None] when it ends in a failed check. *)
Definition step (call : Call) (c : FPBDJointConstraints) : option FPBDJointConstraints :=
  match call with
  | CallAddConstraintSettings p s => Some (AddConstraintSettings p s c).1
  | CallAddConstraintFrames p f => fst <$> AddConstraintFrames p f c
  | CallAddConstraintWorld heap p F => fst <$> AddConstraintWorld heap p F c
  | CallRemoveConstraint i => RemoveConstraint i c
  | CallRemoveConstraints Removed => Some (RemoveConstraints Removed c)
  | CallSetParticleLevels i l => SetParticleLevels i l c
  | CallSetSettings st => Some (SetSettings st c)
  | CallSetPreApplyCallback cb => Some (SetPreApplyCallback cb c)
  | CallClearPreApplyCallback => Some (ClearPreApplyCallback c)
  | CallSetPostApplyCallback cb => Some (SetPostApplyCallback cb c)
  | CallClearPostApplyCallback => Some (ClearPostApplyCallback c)
  end.

Fixpoint run (calls : list Call) (c : FPBDJointConstraints) : option FPBDJointConstraints :=
  match calls with
  | [] => Some c
  | call :: rest => c' ← step call c; run rest c'
  end.

End JointOps.

(** ** The rigid-body solver's frame task ([PBDRigidsSolver.cpp]) *)

Module Solver.

(** The members of [FPBDRigidsSolver] that the frame task and
    [AdvanceSolverBy] read and write; the scalar members are [float]s and
    [CurrentFrame] is an [int32]. *)
Record FPBDRigidsSolver : Type := MkSolver {
  CurrentFrame : Z;
  MTime : FReal;
  MLastDt : FReal;
  MMaxDeltaTime : FReal;
  TimeStepMultiplier : FReal;
  bEnabled : bool
}.

(** What the task asks of the evolution and the event manager, in order. *)
Inductive Event : Type :=
| EvAdvanceOneTimeStep (Dt : FReal)
| EvFillProducerData
| EvFlipBuffersIfRequired
| EvEndFrame (Dt : FReal)
| EvPostTickDebugDraw.

(** [FPBDRigidsSolver::Reset()]: [MTime = 0; MLastDt = 0.0f; bEnabled =
    false; CurrentFrame = 0; MMaxDeltaTime = 1; TimeStepMultiplier = 1;]. *)
Definition Reset (s : FPBDRigidsSolver) : FPBDRigidsSolver :=
  MkSolver 0 fzero fzero fone fone false.

(** The loop of [AdvanceOneTimeStepTask::DoWork()],
    [while (MDeltaTime > MSolver->GetMaxDeltaTime())
     { AdvanceOneTimeStep(GetMaxDeltaTime()); MDeltaTime -= GetMaxDeltaTime(); }]:
    the steps taken inside the loop and the value of [MDeltaTime] it leaves.
    [fuel] bounds the number of loop tests. *)
Fixpoint AdvanceLoop (fuel : nat) (Max MDeltaTime : FReal) : option (list FReal * FReal) :=
  match fuel with
  | O => None
  | S fuel =>
      if fgt MDeltaTime Max
      then r ← AdvanceLoop fuel Max (fsub MDeltaTime Max); Some (Max :: r.1, r.2)
      else Some ([], MDeltaTime)
  end.

(** [AdvanceOneTimeStepTask(Scene, DeltaTime).DoWork()].  After the loop the
    member [MDeltaTime] holds what the loop left, and that is what the last
    step, [EndFrame] and the solver time receive. *)
Definition DoWork (fuel : nat) (DeltaTime : FReal) (s : FPBDRigidsSolver)
  : option (FPBDRigidsSolver * list Event) :=
  r ← AdvanceLoop fuel (MMaxDeltaTime s) DeltaTime;
  let MDeltaTime := r.2 in
  Some (MkSolver (wrap32 (CurrentFrame s + 1)) (fadd (MTime s) MDeltaTime) (MLastDt s)
                 (MMaxDeltaTime s) (TimeStepMultiplier s) (bEnabled s),
        (EvAdvanceOneTimeStep <$> r.1)
        ++ [EvAdvanceOneTimeStep MDeltaTime; EvFillProducerData; EvFlipBuffersIfRequired;
            EvEndFrame MDeltaTime; EvPostTickDebugDraw]).

(** [(int32)x] for a [float] [x]: truncation towards zero; [None] where the
    conversion is undefined (not finite, or outside of [int32]). *)
Definition float_to_int32 (x : FReal) : option Z :=
  match x with
  | S754_zero _ => Some 0
  | S754_finite s m e =>
      let z := cond_Zopp s (if 0 <=? e then Z.pos m * 2 ^ e
                            else Z.pos m / 2 ^ (- e)) in
      if (- 2 ^ 31 <=? z) && (z <? 2 ^ 31) then Some z else None
  | _ => None
  end.

(** The [for] loop of [AdvanceSolverBy]: [n] tasks, each made with the same
    [DeltaTime]. *)
Fixpoint Tasks (n : nat) (fuel : nat) (DeltaTime : FReal) (s : FPBDRigidsSolver)
  : option (FPBDRigidsSolver * list Event) :=
  match n with
  | O => Some (s, [])
  | S n =>
      r ← DoWork fuel DeltaTime s;
      r' ← Tasks n fuel DeltaTime r.1;
      Some (r'.1, r.2 ++ r'.2)
  end.

(** [FPBDRigidsSolver::AdvanceSolverBy(DeltaTime)].  The local
    [dt = FMath::Min(DeltaTime, 5.f / 30.f) / NumTimeSteps] is computed and not
    used: every task is constructed with [DeltaTime]. *)
Definition AdvanceSolverBy (fuel : nat) (DeltaTime : FReal) (s : FPBDRigidsSolver)
  : option (FPBDRigidsSolver * list Event) :=
  if bEnabled s then
    let s1 := MkSolver (CurrentFrame s) (MTime s) DeltaTime (MMaxDeltaTime s)
                       (TimeStepMultiplier s) (bEnabled s) in
    NumTimeSteps ← float_to_int32 (fmul fone (TimeStepMultiplier s));
    Tasks (Z.to_nat NumTimeSteps) fuel DeltaTime s1
  else Some (s, []).

End Solver.

(** ** The frame delta of the cloth simulation ([FillContext]) *)

Module ClothContext.
Import Cloth.

(** [std::min(a, b)]: [(b < a) ? b : a]. *)
Definition std_min (a b : FReal) : FReal := if flt b a then b else a.

(** The frame delta [ClothingSimulation::FillContext] stores in the context:
    [ClampDeltaTime > 0 ? std::min(InDeltaTime, ClampDeltaTime) : InDeltaTime]. *)
Definition FillContext (InDeltaTime : FReal) (sim : ClothingSimulation) : FReal :=
  if fgt (ClampDeltaTime sim) fzero
  then std_min InDeltaTime (ClampDeltaTime sim)
  else InDeltaTime.

End ClothContext.

(** ** Immediate-mode simulation ([ImmediatePhysicsSimulation_Chaos.cpp]) *)

Module Immediate.
Import Joint.

(** Actors and joints of the simulation are objects known by their address
    ([FActorHandle*], [FJointHandle*]). *)
Definition ActorHandle : Type := nat.
Definition JointHandle : Type := nat.

(** [ToProjectionPhase(Index)] *)
Definition ToProjectionPhase (Index : Z) : EJointProjectionPhase :=
  if decide (Index = 1) then PhaseApply
  else if decide (Index = 2) then PhaseApplyPushOut
  else PhaseNone.

(** [FIgnorePair]: two actors, either of which may be null. *)
Record FIgnorePair : Type := MkIgnorePair {
  PairA : option ActorHandle;
  PairB : option ActorHandle
}.

(** [IgnoreCollisionParticlePairTable]: for a particle, the set of particles
    it does not collide with. *)
Abbreviation IgnoreTable := (gmap ParticleHandle (gset ParticleHandle)).

(** [ShouldIgnoreCollisionConstraint(ParticleA, ParticleB, IgnoreSetMap)];
    [Collision_Enabled] is the console variable
    [ChaosImmediate_Collision_Enabled]. *)
Definition ShouldIgnoreCollisionConstraint (Collision_Enabled : Z)
    (ParticleA ParticleB : ParticleHandle) (IgnoreSetMap : IgnoreTable) : bool :=
  if decide (Collision_Enabled = 0) then true
  else
    match IgnoreSetMap !! ParticleA with
    | Some IgnoreSet => bool_decide (ParticleB ∈ IgnoreSet)
    | None =>
        match IgnoreSetMap !! ParticleB with
        | Some IgnoreSet => bool_decide (ParticleA ∈ IgnoreSet)
        | None => false
        end
    end.

(** [Table.FindOrAdd(Key).Add(Value)] *)
Definition FindOrAddAdd (Key Value : ParticleHandle) (Table : IgnoreTable) : IgnoreTable :=
  <[Key := default ∅ (Table !! Key) ∪ {[Value]}]> Table.

(** The levels of the actors: the [Level] members of the actor objects, read
    with [GetLevel()] and written with [SetLevel()]. *)
Abbreviation Levels := (gmap ActorHandle Z).

Section Actors.

(** [ActorHandle->GetParticle()] and whether
    [ActorHandle->GetParticle()->AsDynamic()] is non-null, from the actor
    handle class; [JointHandle->GetActorHandles()], from the joint handle
    class. *)
Variable GetParticle : ActorHandle -> ParticleHandle.
Variable IsDynamic : ActorHandle -> bool.
Variable GetActorHandles : JointHandle -> ActorHandle * ActorHandle.

(** [SetIgnoreCollisionPairTable(InIgnoreCollisionPairTable)]: the table it
    leaves. *)
Definition SetIgnoreCollisionPairTable (InIgnoreCollisionPairTable : list FIgnorePair)
  : IgnoreTable :=
  foldl (fun Table IgnorePair =>
           match PairA IgnorePair, PairB IgnorePair with
           | Some A, Some B =>
               let ParticleA := GetParticle A in
               let ParticleB := GetParticle B in
               FindOrAddAdd ParticleB ParticleA (FindOrAddAdd ParticleA ParticleB Table)
           | _, _ => Table
           end)
        ∅ InIgnoreCollisionPairTable.

(** *** [ConditionConstraints] *)

(** The first loop: every actor is reset to [INDEX_NONE] and given an empty
    joint list; the actors that are not dynamic get level 0 and are queued. *)
Definition ResetActor
    (st : Levels * gmap ActorHandle (list JointHandle) * list ActorHandle)
    (Actor : ActorHandle)
  : Levels * gmap ActorHandle (list JointHandle) * list ActorHandle :=
  let '(L, ActorJoints, ActorQueue) := st in
  let L1 := <[Actor := INDEX_NONE]> L in
  let ActorJoints1 := <[Actor := []]> ActorJoints in
  if negb (IsDynamic Actor)
  then (<[Actor := 0]> L1, ActorJoints1, ActorQueue ++ [Actor])
  else (L1, ActorJoints1, ActorQueue).

(** The second loop: [ActorJoints[Actor].Add(JointHandle)] for both actors of
    a joint; the map's [operator[]] checks that the key is there. *)
Definition ListJoint (ActorJoints : gmap ActorHandle (list JointHandle))
    (Joint : JointHandle) : option (gmap ActorHandle (list JointHandle)) :=
  let JointActorHandles := GetActorHandles Joint in
  js0 ← ActorJoints !! JointActorHandles.1;
  let ActorJoints1 := <[JointActorHandles.1 := js0 ++ [Joint]]> ActorJoints in
  js1 ← ActorJoints1 !! JointActorHandles.2;
  Some (<[JointActorHandles.2 := js1 ++ [Joint]]> ActorJoints1).

Fixpoint ListJoints (ActorJoints : gmap ActorHandle (list JointHandle))
    (Joints : list JointHandle) : option (gmap ActorHandle (list JointHandle)) :=
  match Joints with
  | [] => Some ActorJoints
  | Joint :: rest => ActorJoints1 ← ListJoint ActorJoints Joint; ListJoints ActorJoints1 rest
  end.

(** [if (Other->GetLevel() == INDEX_NONE) { Other->SetLevel(Actor->GetLevel()
    + 1); ActorQueue.Add(Other); }] *)
Definition Visit (Actor : ActorHandle) (st : Levels * list ActorHandle)
    (Other : ActorHandle) : option (Levels * list ActorHandle) :=
  OtherLevel ← st.1 !! Other;
  if decide (OtherLevel = INDEX_NONE) then
    ActorLevel ← st.1 !! Actor;
    Some (<[Other := wrap32 (ActorLevel + 1)]> st.1, st.2 ++ [Other])
  else Some st.

(** The joints of one queued actor. *)
Fixpoint VisitJoints (Actor : ActorHandle) (Joints : list JointHandle)
    (st : Levels * list ActorHandle) : option (Levels * list ActorHandle) :=
  match Joints with
  | [] => Some st
  | Joint :: rest =>
      let JointActorHandles := GetActorHandles Joint in
      st1 ← Visit Actor st JointActorHandles.1;
      st2 ← Visit Actor st1 JointActorHandles.2;
      VisitJoints Actor rest st2
  end.

(** The third loop, [for (ActorQueueIndex = 0; ActorQueueIndex <
    ActorQueue.Num(); ++ActorQueueIndex)], over a queue that grows while it is
    read.  [fuel] bounds the number of loop tests. *)
Fixpoint AssignLevels (fuel : nat) (ActorJoints : gmap ActorHandle (list JointHandle))
    (ActorQueueIndex : nat) (st : Levels * list ActorHandle)
  : option (Levels * list ActorHandle) :=
  match fuel with
  | O => None
  | S fuel =>
      match st.2 !! ActorQueueIndex with
      | None => Some st
      | Some Actor =>
          Joints ← ActorJoints !! Actor;
          st1 ← VisitJoints Actor Joints st;
          AssignLevels fuel ActorJoints (S ActorQueueIndex) st1
      end
  end.

(** [ConditionConstraints()], up to the last loop (which hands the levels of
    its two actors to every joint): the levels of the actors and the queue
    that was built. *)
Definition ConditionConstraints (fuel : nat) (ActorHandles : list ActorHandle)
    (JointHandles : list JointHandle) (L : Levels)
  : option (Levels * list ActorHandle) :=
  let '(L1, ActorJoints, ActorQueue) := foldl ResetActor (L, ∅, []) ActorHandles in
  ActorJoints1 ← ListJoints ActorJoints JointHandles;
  AssignLevels fuel ActorJoints1 0 (L1, ActorQueue).

End Actors.

(** *** The joint settings of [Simulate] *)

(** The console variables [ChaosImmediate_Joint_*]. *)
Record JointCVars : Type := MkJointCVars {
  Joint_PairIterations : Z;
  Joint_PushOutPairIterations : Z;
  Joint_SwingTwistAngleTolerance : FReal;
  Joint_EnableVelocitySolve : Z;
  Joint_EnableTwistLimits : Z;
  Joint_EnableSwingLimits : Z;
  Joint_EnableDrives : Z;
  Joint_ProjectionPhase : Z;
  Joint_LinearProjection : FReal;
  Joint_AngularProjection : FReal;
  Joint_Stiffness : FReal;
  Joint_SoftLinearStiffness : FReal;
  Joint_SoftAngularStiffness : FReal;
  Joint_DriveStiffness : FReal;
  Joint_MinParentMassRatio : FReal;
  Joint_MaxInertiaRatio : FReal
}.

(** [5.0f] *)
Definition f_five : FReal := S754_finite false 10485760 (-21).

(** The initial values of the console variables.  The projection phase is
    initialised to [(int32)EJointProjectionPhase::ApplyPushOut], an
    enumerator of a header outside the sources listed; the variable's help
    text gives it as 2. *)
Definition DefaultJointCVars : JointCVars :=
  MkJointCVars 0 2 f_1em6 0 1 1 1 2 fzero fzero fone fzero fzero fzero fhalf f_five.

(** The "TEMP: overrides" block of [Simulate], for the joints: the settings
    are read with [GetSettings], every member is assigned from its console
    variable and the result is stored with [SetSettings]. *)
Definition SimulateJointSettings (cv : JointCVars) (Joints : FPBDJointConstraints)
  : FPBDJointConstraints :=
  let JointsSettings := GetSettings Joints in
  SetSettings
    (MkSolverSettings
       (Joint_PairIterations cv)
       (Joint_PushOutPairIterations cv)
       (Joint_SwingTwistAngleTolerance cv)
       (Joint_MinParentMassRatio cv)
       (Joint_MaxInertiaRatio cv)
       (negb (Joint_EnableVelocitySolve cv =? 0))
       (negb (Joint_EnableTwistLimits cv =? 0))
       (negb (Joint_EnableSwingLimits cv =? 0))
       (negb (Joint_EnableDrives cv =? 0))
       (ToProjectionPhase (Joint_ProjectionPhase cv))
       (Joint_LinearProjection cv)
       (Joint_AngularProjection cv)
       (Joint_Stiffness cv)
       (Joint_DriveStiffness cv)
       (Joint_SoftLinearStiffness cv)
       (Joint_SoftAngularStiffness cv))
    Joints.

End Immediate.

(** ** Solving one joint ([SolvePosition], [SolveVelocity], [ProjectPosition]) *)

Module JointSolve.
Import Joint.

(** [LinearMotionTypes[0..2]] and [AngularMotionTypes[Twist | Swing1 |
    Swing2]]. *)
Definition LinearMotion0 (J : FPBDJointSettings) : EJointMotionType :=
  (LinearMotionTypes (Motion J)).1.1.
Definition LinearMotion1 (J : FPBDJointSettings) : EJointMotionType :=
  (LinearMotionTypes (Motion J)).1.2.
Definition LinearMotion2 (J : FPBDJointSettings) : EJointMotionType :=
  (LinearMotionTypes (Motion J)).2.
Definition TwistMotion (J : FPBDJointSettings) : EJointMotionType :=
  (AngularMotionTypes (Motion J)).1.1.
Definition Swing1Motion (J : FPBDJointSettings) : EJointMotionType :=
  (AngularMotionTypes (Motion J)).1.2.
Definition Swing2Motion (J : FPBDJointSettings) : EJointMotionType :=
  (AngularMotionTypes (Motion J)).2.

Definition IsLimited (m : EJointMotionType) : bool := bool_decide (m = Limited).
Definition IsLocked (m : EJointMotionType) : bool := bool_decide (m = Locked).
Definition IsFree (m : EJointMotionType) : bool := bool_decide (m = Free).

(** [GetLinearStiffness(SolverSettings, JointSettings)] *)
Definition GetLinearStiffness (S : FPBDJointSolverSettings) (J : FPBDJointSettings) : FReal :=
  let SolverStiffness :=
    if fgt (Joint.SolverStiffness S) fzero then Joint.SolverStiffness S
    else Joint.Stiffness (Motion J) in
  let SoftSolverStiffness :=
    if fgt (SolverSoftLinearStiffness S) fzero then SolverSoftLinearStiffness S
    else SoftLinearStiffness (Motion J) in
  let bIsSoft :=
    bSoftLinearLimitsEnabled (Motion J)
    && (IsLimited (LinearMotion0 J) || IsLimited (LinearMotion1 J)
        || IsLimited (LinearMotion2 J)) in
  if bIsSoft then fmul SolverStiffness SoftSolverStiffness else SolverStiffness.

(** [GetTwistStiffness(SolverSettings, JointSettings)] *)
Definition GetTwistStiffness (S : FPBDJointSolverSettings) (J : FPBDJointSettings) : FReal :=
  let SolverStiffness :=
    if fgt (Joint.SolverStiffness S) fzero then Joint.SolverStiffness S
    else Joint.Stiffness (Motion J) in
  let SoftSolverStiffness :=
    if fgt (SolverSoftAngularStiffness S) fzero then SolverSoftAngularStiffness S
    else SoftTwistStiffness (Motion J) in
  let bIsSoft := bSoftTwistLimitsEnabled (Motion J) && IsLimited (TwistMotion J) in
  if bIsSoft then fmul SolverStiffness SoftSolverStiffness else SolverStiffness.

(** [GetSwingStiffness(SolverSettings, JointSettings)] *)
Definition GetSwingStiffness (S : FPBDJointSolverSettings) (J : FPBDJointSettings) : FReal :=
  let SolverStiffness :=
    if fgt (Joint.SolverStiffness S) fzero then Joint.SolverStiffness S
    else Joint.Stiffness (Motion J) in
  let SoftSolverStiffness :=
    if fgt (SolverSoftAngularStiffness S) fzero then SolverSoftAngularStiffness S
    else SoftSwingStiffness (Motion J) in
  let bIsSoft :=
    bSoftSwingLimitsEnabled (Motion J)
    && (IsLimited (Swing1Motion J) || IsLimited (Swing2Motion J)) in
  if bIsSoft then fmul SolverStiffness SoftSolverStiffness else SolverStiffness.

(** The two swing axes a swing constraint can be applied to. *)
Inductive ESwing : Type := OnSwing1 | OnSwing2.

(** What the solve of one joint does, step by step.  The numeric work is in
    [FPBDJointUtilities], outside the sources listed; every utility is called
    on the same local copies of the two particle states, so a step records
    the utility and the arguments that vary: the stiffness or projection
    factor and the swing axis.  The two particles are numbered as the solve
    numbers them ([Index0 = 1], [Index1 = 0]): local particle 0 is the second
    particle of the constraint. *)
Inductive Step : Type :=
| EnforceShortestArcWith
| GetConditionedInverseMass (Parent : nat) (MinParentMassRatio MaxInertiaRatio : FReal)
| ApplyJointSLerpDrive
| ApplyJointTwistDrive
| ApplyJointConeDrive
| ApplyJointTwistConstraint (Stiffness : FReal)
| ApplyJointConeConstraint (Stiffness : FReal)
| ApplyJointSwingConstraint (Stiffness : FReal) (Swing : ESwing)
| ApplyJointPositionConstraint (Stiffness : FReal)
| ApplyJointTwistVelocityConstraint (Stiffness : FReal)
| ApplyJointConeVelocityConstraint (Stiffness : FReal)
| ApplyJointSwingVelocityConstraint (Stiffness : FReal) (Swing : ESwing)
| ApplyJointVelocityConstraint (Stiffness : FReal)
| ApplyJointTwistProjection (Factor : FReal)
| ApplyJointConeProjection (Factor : FReal)
| ApplyJointSwingProjection (Factor : FReal) (Swing : ESwing)
| ApplyJointPositionProjection (Factor : FReal)
| Freeze (Local : nat)
| SetPQVW (Local : nat)
| SetPQ (Local : nat).

(** "Adjust mass for stability": the particle with the lower level is passed
    as the parent; with equal levels the parent mass ratio is 0. *)
Definition ConditionMass (S : FPBDJointSolverSettings) (Level0 Level1 : Z) : Step :=
  if Level0 <? Level1 then
    GetConditionedInverseMass 0 (MinParentMassRatio S) (MaxInertiaRatio S)
  else if Level1 <? Level0 then
    GetConditionedInverseMass 1 (MinParentMassRatio S) (MaxInertiaRatio S)
  else GetConditionedInverseMass 0 fzero (MaxInertiaRatio S).

(** The angular drives of one pair iteration (the two [else if] branches
    after the cone drive are empty in the source). *)
Definition Drives (J : FPBDJointSettings) : list Step :=
  let bTwistLocked := IsLocked (TwistMotion J) in
  let bSwing1Locked := IsLocked (Swing1Motion J) in
  let bSwing2Locked := IsLocked (Swing2Motion J) in
  (if bAngularSLerpDriveEnabled (Motion J) && negb bTwistLocked && negb bSwing1Locked
      && negb bSwing2Locked
   then [ApplyJointSLerpDrive] else [])
  ++ (if bAngularTwistDriveEnabled (Motion J) && negb bTwistLocked
      then [ApplyJointTwistDrive] else [])
  ++ (if bAngularSwingDriveEnabled (Motion J) && negb bSwing1Locked && negb bSwing2Locked
      then [ApplyJointConeDrive] else []).

Definition AnyLinearConstrained (J : FPBDJointSettings) : bool :=
  negb (IsFree (LinearMotion0 J)) || negb (IsFree (LinearMotion1 J))
  || negb (IsFree (LinearMotion2 J)).

(** One pair iteration of [SolvePosition]. *)
Definition PositionPairIteration (S : FPBDJointSolverSettings) (J : FPBDJointSettings)
  : list Step :=
  (if negb (bEnableVelocitySolve S) && bEnableDrives S then Drives J else [])
  ++ (if bEnableTwistLimits S && negb (IsFree (TwistMotion J))
      then [ApplyJointTwistConstraint (GetTwistStiffness S J)] else [])
  ++ (if bEnableSwingLimits S then
        if IsLimited (Swing1Motion J) && IsLimited (Swing2Motion J)
        then [ApplyJointConeConstraint (GetSwingStiffness S J)]
        else
          (if negb (IsFree (Swing1Motion J))
           then [ApplyJointSwingConstraint (GetSwingStiffness S J) OnSwing1] else [])
          ++ (if negb (IsFree (Swing2Motion J))
              then [ApplyJointSwingConstraint (GetSwingStiffness S J) OnSwing2] else [])
      else [])
  ++ (if AnyLinearConstrained J
      then [ApplyJointPositionConstraint (GetLinearStiffness S J)] else []).

(** One pair iteration of [SolveVelocity]. *)
Definition VelocityPairIteration (S : FPBDJointSolverSettings) (J : FPBDJointSettings)
  : list Step :=
  (if bEnableDrives S then Drives J else [])
  ++ (if bEnableTwistLimits S && negb (IsFree (TwistMotion J))
      then [ApplyJointTwistVelocityConstraint (GetTwistStiffness S J)] else [])
  ++ (if bEnableSwingLimits S then
        if IsLimited (Swing1Motion J) && IsLimited (Swing2Motion J)
        then [ApplyJointConeVelocityConstraint (GetSwingStiffness S J)]
        else
          (if negb (IsFree (Swing1Motion J))
           then [ApplyJointSwingVelocityConstraint (GetSwingStiffness S J) OnSwing1]
           else [])
          ++ (if negb (IsFree (Swing2Motion J))
              then [ApplyJointSwingVelocityConstraint (GetSwingStiffness S J) OnSwing2]
              else [])
      else [])
  ++ (if AnyLinearConstrained J
      then [ApplyJointVelocityConstraint (GetLinearStiffness S J)] else []).

(** [for (PairIt = 0; PairIt < NumPairIts; ++PairIt)] *)
Definition PairIterations (NumPairIts : Z) (body : list Step) : list Step :=
  concat (replicate (Z.to_nat NumPairIts) body).

(** "Update the particles": only a dynamic particle is written. *)
Definition WriteBack (write : nat -> Step) (Particle0 Particle1 : Particle) : list Step :=
  (if AsDynamic Particle0 then [write 0%nat] else [])
  ++ (if AsDynamic Particle1 then [write 1%nat] else []).

(** The part [SolvePosition] and [SolveVelocity] share.  [None] is a failed
    range check or a particle that is not alive. *)
Definition Solve (body : FPBDJointSolverSettings -> FPBDJointSettings -> list Step)
    (heap : ParticleHeap) (c : FPBDJointConstraints) (ConstraintIndex : nat)
    (NumPairIts : Z) : option (list Step) :=
  Constraint ← ConstraintParticles c !! ConstraintIndex;
  JointSettings ← ConstraintSettings c !! ConstraintIndex;
  Particle0 ← heap !! Constraint.2;
  Particle1 ← heap !! Constraint.1;
  State ← ConstraintStates c !! ConstraintIndex;
  let Level0 := (ParticleLevels State).2 in
  let Level1 := (ParticleLevels State).1 in
  Some ([EnforceShortestArcWith; ConditionMass (Settings c) Level0 Level1]
        ++ PairIterations NumPairIts (body (Settings c) JointSettings)
        ++ WriteBack SetPQVW Particle0 Particle1).

(** [SolvePosition(Dt, ConstraintIndex, NumPairIts, It, NumIts)] *)
Definition SolvePosition (heap : ParticleHeap) (c : FPBDJointConstraints) (Dt : FReal)
    (ConstraintIndex : nat) (NumPairIts It NumIts : Z) : option (list Step) :=
  Solve PositionPairIteration heap c ConstraintIndex NumPairIts.

(** [SolveVelocity(Dt, ConstraintIndex, NumPairIts, It, NumIts)] *)
Definition SolveVelocity (heap : ParticleHeap) (c : FPBDJointConstraints) (Dt : FReal)
    (ConstraintIndex : nat) (NumPairIts It NumIts : Z) : option (list Step) :=
  Solve VelocityPairIteration heap c ConstraintIndex NumPairIts.

(** The projection factors: the solver's when positive, else the joint's. *)
Definition LinearProjectionFactor (S : FPBDJointSolverSettings) (J : FPBDJointSettings)
  : FReal :=
  if fgt (SolverLinearProjection S) fzero then SolverLinearProjection S
  else LinearProjection (Motion J).

Definition AngularProjectionFactor (S : FPBDJointSolverSettings) (J : FPBDJointSettings)
  : FReal :=
  if fgt (SolverAngularProjection S) fzero then SolverAngularProjection S
  else AngularProjection (Motion J).

(** [ProjectPosition(Dt, ConstraintIndex, It, NumIts)] *)
Definition ProjectPosition (heap : ParticleHeap) (c : FPBDJointConstraints) (Dt : FReal)
    (ConstraintIndex : nat) (It NumIts : Z) : option (list Step) :=
  JointSettings ← ConstraintSettings c !! ConstraintIndex;
  let S := Settings c in
  let Linear := LinearProjectionFactor S JointSettings in
  let Angular := AngularProjectionFactor S JointSettings in
  if feq Linear fzero && feq Angular fzero then Some []
  else
    Constraint ← ConstraintParticles c !! ConstraintIndex;
    Particle0 ← heap !! Constraint.2;
    Particle1 ← heap !! Constraint.1;
    State ← ConstraintStates c !! ConstraintIndex;
    let Level0 := (ParticleLevels State).2 in
    let Level1 := (ParticleLevels State).1 in
    let freeze :=
      if Level0 <? Level1 then [Freeze 0%nat]
      else if Level1 <? Level0 then [Freeze 1%nat] else [] in
    let angular :=
      if fgt Angular fzero then
        (if bEnableTwistLimits S then [ApplyJointTwistProjection Angular] else [])
        ++ (if bEnableSwingLimits S then
              if IsLimited (Swing1Motion JointSettings) && IsLimited (Swing2Motion JointSettings)
              then [ApplyJointConeProjection Angular]
              else
                (if negb (IsFree (Swing1Motion JointSettings))
                 then [ApplyJointSwingProjection Angular OnSwing1] else [])
                ++ (if negb (IsFree (Swing2Motion JointSettings))
                    then [ApplyJointSwingProjection Angular OnSwing2] else [])
            else [])
      else [] in
    let linear :=
      if fgt Linear fzero && AnyLinearConstrained JointSettings
      then [ApplyJointPositionProjection Linear] else [] in
    Some (freeze ++ angular ++ linear ++ WriteBack SetPQ Particle0 Particle1).

(** What a solve pass does in full: every call of the pass replaced by the
    steps it takes. *)
Definition Expand (heap : ParticleHeap) (c : FPBDJointConstraints) (e : Event)
  : option (list Step) :=
  match e with
  | EvSolveVelocity Dt i NumPairIts It NumIts => SolveVelocity heap c Dt i NumPairIts It NumIts
  | EvSolvePosition Dt i NumPairIts It NumIts => SolvePosition heap c Dt i NumPairIts It NumIts
  | EvProjectPosition Dt i It NumIts => ProjectPosition heap c Dt i It NumIts
  | EvPreApply _ _ _ | EvPostApply _ _ _ => Some []
  end.

End JointSolve.

(** * Properties *)

(** ** The joint constraint container *)

Section JointContainer.
Import Joint.

(** A particle at the origin turned by half a turn about the Z axis, and the
    world frame one unit along X. *)
Definition HalfTurnZ : FRotation3 := MkQuat fzero fzero fone fzero.

Definition TurnedBody : Particle :=
  MkParticle PT_Rigid VecZero HalfTurnZ VecZero VecZero VecZero HalfTurnZ fone false
             OS_Dynamic None DynamicParticles.

Definition RestingBody : Particle :=
  MkParticle PT_Rigid VecZero FromIdentity VecZero VecZero VecZero FromIdentity fone false
             OS_Dynamic None DynamicParticles.

Definition TwoBodies : ParticleHeap := <[0%nat := TurnedBody]> (<[1%nat := RestingBody]> ∅).

Definition FrameAlongX : FRigidTransform3 := MkTransform (MkVec fone fzero fzero) FromIdentity.

(** A container holding one joint between particles 0 and 1. *)
Definition OneJoint : FPBDJointConstraints :=
  (AddConstraintSettings (0%nat, 1%nat) DefaultJointSettings
     (NewJoints DefaultSolverSettings)).1.

(** [RemoveConstraints] returns the container it was given. *)
Lemma RemoveConstraints_id (S : gset ParticleHandle) (c : FPBDJointConstraints) :
  RemoveConstraints S c = c.
Proof. reflexivity. Qed.

(** C1, at a failing input: after [RemoveConstraints({0})] on a container
    whose only joint connects particles 0 and 1, that joint is still there
    and still references particle 0. *)
Theorem RemoveConstraints_leaves_reference :
  ConstraintParticles (RemoveConstraints {[0%nat]} OneJoint) = [(0%nat, 1%nat)]
  ∧ Exists (References {[0%nat]})
           (ConstraintParticles (RemoveConstraints {[0%nat]} OneJoint)).
Proof.
  split; [reflexivity|].
  apply Exists_cons_hd. left. simpl. set_solver.
Qed.

(** [RemoveConstraint(Index)], the removal of one joint, does drop the
    reference: on the same container it leaves no constraint. *)
Lemma RemoveConstraint_drops_reference :
  ConstraintParticles <$> RemoveConstraint 0 OneJoint = Some [].
Proof. reflexivity. Qed.

(** C7, at a failing input: a body at the origin turned by half a turn
    about Z and a world frame one unit along X.  The frame stored for the body
    has translation (1,0,0), the world-space offset, while the world frame in
    the body's coordinates has translation (-1,0,0): the offset is taken but
    not rotated into the body's space.  For the second body, which is not
    rotated, the stored translation is the one in the body's coordinates. *)
Theorem AddConstraint_frame_not_body_space :
  exists c' h F0 F1,
    AddConstraintWorld TwoBodies (0%nat, 1%nat) FrameAlongX
                       (NewJoints DefaultSolverSettings) = Some (c', h)
    ∧ fst ∘ ConstraintFrames <$> ConstraintSettings c' !! 0%nat = Some F0
    ∧ snd ∘ ConstraintFrames <$> ConstraintSettings c' !! 0%nat = Some F1
    ∧ GetTranslation F0 = MkVec fone fzero fzero
    ∧ VecEqb (GetTranslation (WorldFrameInBodySpace FrameAlongX TurnedBody))
             (MkVec (fneg fone) fzero fzero) = true
    ∧ VecEqb (GetTranslation F0)
             (GetTranslation (WorldFrameInBodySpace FrameAlongX TurnedBody)) = false
    ∧ VecEqb (GetTranslation F1)
             (GetTranslation (WorldFrameInBodySpace FrameAlongX RestingBody)) = true.
Proof.
  eexists _, _, _, _. split; [reflexivity|].
  split; [reflexivity|].
  split; [reflexivity|].
  split; [reflexivity|].
  split_and!; vm_compute; reflexivity.
Qed.

(** What [AddConstraint] stores when given a world-space frame: for each of
    the two particles, the frame whose translation is the world frame's
    translation minus the body's position and whose rotation is the world
    frame's rotation times the inverse of the body's rotation; the constraint
    lands at the next index with default motion settings, a default state and
    a fresh handle for that index. *)
Theorem AddConstraint_world_frame
    (heap : ParticleHeap) (c : FPBDJointConstraints)
    (InConstrainedParticles : ParticleHandle * ParticleHandle)
    (WorldConstraintFrame : FRigidTransform3) (p0 p1 : Particle) :
  heap !! InConstrainedParticles.1 = Some p0 ->
  heap !! InConstrainedParticles.2 = Some p1 ->
  length (ConstraintSettings c) = length (Handles c) ->
  exists c' h,
    AddConstraintWorld heap InConstrainedParticles WorldConstraintFrame c = Some (c', h)
    ∧ ConstraintSettings c' !! length (Handles c) =
        Some (MkJointSettings
                (MkTransform (VecSub (GetTranslation WorldConstraintFrame) (X p0))
                             (RotMul (GetRotation WorldConstraintFrame) (RotInverse (R p0))),
                 MkTransform (VecSub (GetTranslation WorldConstraintFrame) (X p1))
                             (RotMul (GetRotation WorldConstraintFrame) (RotInverse (R p1))))
                DefaultMotion)
    ∧ ConstraintParticles c' = ConstraintParticles c ++ [InConstrainedParticles]
    ∧ ConstraintStates c' = ConstraintStates c ++ [DefaultJointState]
    ∧ Handles c' = Handles c ++ [h]
    ∧ HandleIndex c' h = Some (length (Handles c)).
Proof.
  intros H0 H1 Hlen.
  unfold AddConstraintWorld, AddConstraintFrames. rewrite H0, H1. simpl.
  assert (Hl : (ConstraintSettings c ++ [DefaultJointSettings]) !! length (Handles c)
               = Some DefaultJointSettings).
  { rewrite <- Hlen. apply list_lookup_middle. reflexivity. }
  rewrite Hl. simpl.
  eexists _, _. split; [reflexivity|]. simpl.
  split.
  { rewrite list_lookup_insert_eq; [reflexivity|].
    rewrite length_app. simpl. lia. }
  repeat split.
  unfold HandleIndex. simpl. apply lookup_insert_eq.
Qed.

Lemma AddConstraint_world_frame_witness :
  exists c' h,
    AddConstraintWorld TwoBodies (0%nat, 1%nat) FrameAlongX
                       (NewJoints DefaultSolverSettings) = Some (c', h)
    ∧ HandleIndex c' h = Some 0%nat.
Proof.
  destruct (AddConstraint_world_frame TwoBodies (NewJoints DefaultSolverSettings)
              (0%nat, 1%nat) FrameAlongX TurnedBody RestingBody
              eq_refl eq_refl eq_refl) as (c' & h & H & _ & _ & _ & _ & Hi).
  exists c', h. split; [exact H | exact Hi].
Defined.

End JointContainer.

(** ** The solve passes of the joint container *)

Section InsertionSortFacts.
Import Joint.

Variable Before : ConstraintHandle -> ConstraintHandle -> bool.

Lemma InsertSorted_perm (x : ConstraintHandle) (l : list ConstraintHandle) :
  InsertSorted Before x l ≡ₚ x :: l.
Proof.
  induction l as [|y l IH]; simpl; [reflexivity|].
  destruct (Before y x); [|reflexivity].
  rewrite IH. apply Permutation_swap.
Qed.

Lemma InsertionSort_perm (l : list ConstraintHandle) : InsertionSort Before l ≡ₚ l.
Proof.
  induction l as [|x l IH]; simpl; [reflexivity|].
  unfold InsertionSort in *. simpl. rewrite InsertSorted_perm. by rewrite IH.
Qed.

Hypothesis Before_negtrans :
  forall x y z, Before x y = false -> Before y z = false -> Before x z = false.
Hypothesis Before_asym : forall x y, Before x y = true -> Before y x = false.

Lemma InsertSorted_sorted (x : ConstraintHandle) (l : list ConstraintHandle) :
  StronglySorted (fun a b => Before b a = false) l ->
  StronglySorted (fun a b => Before b a = false) (InsertSorted Before x l).
Proof.
  induction l as [|y l IH]; simpl; intros Hs.
  - constructor; [constructor | constructor].
  - apply StronglySorted_inv in Hs as [Hs Hy].
    destruct (Before y x) eqn:E.
    + constructor; [by apply IH|].
      rewrite InsertSorted_perm. constructor; [by apply Before_asym | done].
    + constructor; [by constructor|].
      constructor; [done|].
      eapply Forall_impl; [exact Hy|]. intros z Hz. simpl in Hz.
      by apply (Before_negtrans z y x).
Qed.

Lemma InsertionSort_sorted (l : list ConstraintHandle) :
  StronglySorted (fun a b => Before b a = false) (InsertionSort Before l).
Proof.
  induction l as [|x l IH]; unfold InsertionSort in *; simpl.
  - constructor.
  - by apply InsertSorted_sorted.
Qed.

Lemma InsertionSort_ordered (l : list ConstraintHandle) (i j : nat) (x y : ConstraintHandle) :
  (i < j)%nat -> InsertionSort Before l !! i = Some x -> InsertionSort Before l !! j = Some y ->
  Before y x = false.
Proof.
  intros Hij Hi Hj.
  pose proof (InsertionSort_sorted l) as Hs.
  revert i j Hij Hi Hj. induction Hs as [|a l' Hs IH Ha]; intros i j Hij Hi Hj.
  - by rewrite lookup_nil in Hi.
  - destruct j as [|j]; [lia|]. simpl in Hj.
    destruct i as [|i]; simpl in Hi.
    + inversion Hi; subst.
      rewrite Forall_forall in Ha. apply Ha.
      eapply list_elem_of_lookup_2. exact Hj.
    + eapply IH; [|exact Hi|exact Hj]. lia.
Qed.

End InsertionSortFacts.

Section JointPasses.
Import Joint.

(** The contract of [TArray::Sort] for a predicate that is a strict weak
    order: the result is a rearrangement of the input in which no element
    stands behind one it precedes. *)
Variable Sort : (ConstraintHandle -> ConstraintHandle -> bool) ->
                list ConstraintHandle -> list ConstraintHandle.

Hypothesis Sort_perm : forall Before l, Sort Before l ≡ₚ l.

Hypothesis Sort_ordered : forall Before : ConstraintHandle -> ConstraintHandle -> bool,
  (forall x y z, Before x y = false -> Before y z = false -> Before x z = false) ->
  (forall x y, Before x y = true -> Before y x = false) ->
  forall l (i j : nat) x y, (i < j)%nat ->
    Sort Before l !! i = Some x -> Sort Before l !! j = Some y -> Before y x = false.

Lemma LevelOf_ConstraintLevel (c : FPBDJointConstraints) (h : ConstraintHandle) :
  ValidHandle c h = true -> LevelOf c h = ConstraintLevel c (IndexOf c h).
Proof.
  unfold ValidHandle, LevelOf, ConstraintLevel, IndexOf, HandleLevel.
  intros Hv. apply bool_decide_eq_true in Hv as [z Hz].
  destruct (HandleIndex c h) as [i|]; simpl in *; [reflexivity | discriminate].
Qed.

Lemma Valid_sorted (c : FPBDJointConstraints) Before (hs : list ConstraintHandle) :
  forallb (ValidHandle c) hs = true -> Forall (fun h => ValidHandle c h = true) (Sort Before hs).
Proof.
  intros Hv. rewrite (Sort_perm Before hs).
  apply Forall_forall. intros h Hh.
  rewrite forallb_forall in Hv. apply Hv. by apply list_elem_of_In.
Qed.

Lemma LeafToRoot_descending (c : FPBDJointConstraints) (hs : list ConstraintHandle) :
  forallb (ValidHandle c) hs = true ->
  Descending c (IndexOf c <$> Sort (LeafToRoot c) hs).
Proof.
  intros Hv i j a b Hij Hi Hj Hne.
  rewrite list_lookup_fmap in Hi, Hj.
  destruct (Sort (LeafToRoot c) hs !! i) as [x|] eqn:Ex; [|discriminate].
  destruct (Sort (LeafToRoot c) hs !! j) as [y|] eqn:Ey; [|discriminate].
  simpl in Hi, Hj. inversion Hi; inversion Hj; subst. clear Hi Hj.
  pose proof (Valid_sorted c (LeafToRoot c) hs Hv) as Hall.
  rewrite Forall_forall in Hall.
  pose proof (Hall x (list_elem_of_lookup_2 _ _ _ Ex)) as Hx.
  pose proof (Hall y (list_elem_of_lookup_2 _ _ _ Ey)) as Hy.
  assert (Hord : LeafToRoot c y x = false).
  { eapply (Sort_ordered (LeafToRoot c)); [| |exact Hij|exact Ex|exact Ey];
      unfold LeafToRoot; intros; rewrite ?Z.ltb_lt, ?Z.ltb_ge in *; lia. }
  unfold LeafToRoot in Hord. rewrite Z.ltb_ge in Hord.
  rewrite !LevelOf_ConstraintLevel in Hord by done. lia.
Qed.

Lemma RootToLeaf_ascending (c : FPBDJointConstraints) (hs : list ConstraintHandle) :
  forallb (ValidHandle c) hs = true ->
  Ascending c (IndexOf c <$> Sort (RootToLeaf c) hs).
Proof.
  intros Hv i j a b Hij Hi Hj Hne.
  rewrite list_lookup_fmap in Hi, Hj.
  destruct (Sort (RootToLeaf c) hs !! i) as [x|] eqn:Ex; [|discriminate].
  destruct (Sort (RootToLeaf c) hs !! j) as [y|] eqn:Ey; [|discriminate].
  simpl in Hi, Hj. inversion Hi; inversion Hj; subst. clear Hi Hj.
  pose proof (Valid_sorted c (RootToLeaf c) hs Hv) as Hall.
  rewrite Forall_forall in Hall.
  pose proof (Hall x (list_elem_of_lookup_2 _ _ _ Ex)) as Hx.
  pose proof (Hall y (list_elem_of_lookup_2 _ _ _ Ey)) as Hy.
  assert (Hord : RootToLeaf c y x = false).
  { eapply (Sort_ordered (RootToLeaf c)); [| |exact Hij|exact Ex|exact Ey];
      unfold RootToLeaf; intros; rewrite ?Z.ltb_lt, ?Z.ltb_ge in *; lia. }
  unfold RootToLeaf in Hord. rewrite Z.ltb_ge in Hord.
  rewrite !LevelOf_ConstraintLevel in Hord by done. lia.
Qed.

(** Reading the calls of a pass. *)
Lemma SolvedIndices_app (a b : list Event) :
  SolvedIndices (a ++ b) = SolvedIndices a ++ SolvedIndices b.
Proof. apply omap_app. Qed.

Lemma ProjectedIndices_app (a b : list Event) :
  ProjectedIndices (a ++ b) = ProjectedIndices a ++ ProjectedIndices b.
Proof. apply omap_app. Qed.

Lemma ProjectionEvents_app (a b : list Event) :
  ProjectionEvents (a ++ b) = ProjectionEvents a ++ ProjectionEvents b.
Proof. apply filter_app. Qed.

Lemma ProjectionCalls_solved (c : FPBDJointConstraints) Dt hs :
  SolvedIndices (ProjectionCalls Sort c Dt hs) = [].
Proof. unfold ProjectionCalls. induction (Sort (RootToLeaf c) hs); simpl; auto. Qed.

Lemma ProjectionCalls_projected (c : FPBDJointConstraints) Dt hs :
  ProjectedIndices (ProjectionCalls Sort c Dt hs) = IndexOf c <$> Sort (RootToLeaf c) hs.
Proof.
  unfold ProjectionCalls, ProjectedIndices.
  induction (Sort (RootToLeaf c) hs) as [|h l IH]; [done|].
  cbn. f_equal. exact IH.
Qed.

Lemma ProjectionCalls_events (c : FPBDJointConstraints) Dt hs :
  ProjectionEvents (ProjectionCalls Sort c Dt hs) = ProjectionCalls Sort c Dt hs.
Proof.
  unfold ProjectionCalls, ProjectionEvents.
  induction (Sort (RootToLeaf c) hs) as [|h l IH]; [done|].
  rewrite fmap_cons, filter_cons. simpl.
  destruct (decide (true = true)); [|done]. by rewrite IH.
Qed.

Lemma SolveCalls_solved (f : ConstraintHandle -> Event) (g : ConstraintHandle -> nat)
    (l : list ConstraintHandle) :
  (forall h, match f h with
             | EvSolveVelocity _ i _ _ _ | EvSolvePosition _ i _ _ _ => i = g h
             | _ => False
             end) ->
  SolvedIndices (f <$> l) = g <$> l
  ∧ ProjectedIndices (f <$> l) = []
  ∧ ProjectionEvents (f <$> l) = [].
Proof.
  intros Hf. unfold SolvedIndices, ProjectedIndices, ProjectionEvents.
  induction l as [|h l (IH1 & IH2 & IH3)]; [done|].
  rewrite !fmap_cons, filter_cons. specialize (Hf h). cbn.
  destruct (f h); try done; subst; cbn; rewrite IH1, IH2;
    (destruct (decide (false = true)); [done|]); by rewrite IH3.
Qed.

Lemma int32_sub_1 (n : Z) : - 2 ^ 31 < n < 2 ^ 31 -> int32_sub n 1 = n - 1.
Proof.
  intros H. unfold int32_sub, wrap32.
  rewrite Z.mod_small; lia.
Qed.

Lemma ApplyProjection_valid (c : FPBDJointConstraints) Dt hs :
  forallb (ValidHandle c) hs = true ->
  ApplyProjection Sort c Dt hs = Some (ProjectionCalls Sort c Dt hs).
Proof. intros Hv. unfold ApplyProjection. by rewrite Hv. Qed.

(** The calls [Apply] makes on valid handles. *)
Lemma Apply_calls (c : FPBDJointConstraints) Dt hs It NumIts :
  forallb (ValidHandle c) hs = true ->
  exists pre solve post,
    Apply Sort c Dt hs It NumIts =
      Some (pre ++ solve
              ++ (if decide (ProjectionPhase (Settings c) = PhaseApply
                             ∧ It = int32_sub NumIts 1)
                  then ProjectionCalls Sort c Dt hs else [])
              ++ post)
    ∧ SolvedIndices pre = [] ∧ ProjectionEvents pre = []
    ∧ SolvedIndices post = [] ∧ ProjectionEvents post = []
    ∧ SolvedIndices solve = IndexOf c <$> Sort (LeafToRoot c) hs
    ∧ ProjectionEvents solve = [].
Proof.
  intros Hv. unfold Apply. rewrite Hv.
  set (f := fun h : ConstraintHandle =>
              if bEnableVelocitySolve (Settings c)
              then EvSolveVelocity Dt (IndexOf c h) (ApplyPairIterations (Settings c)) It NumIts
              else EvSolvePosition Dt (IndexOf c h) (ApplyPairIterations (Settings c)) It NumIts).
  destruct (SolveCalls_solved f (IndexOf c) (Sort (LeafToRoot c) hs)) as (Hs & _ & Hp).
  { intros h. unfold f. by destruct (bEnableVelocitySolve (Settings c)). }
  eexists (match PreApplyCallback c with Some cb => [_] | None => [] end),
          (f <$> Sort (LeafToRoot c) hs),
          (match PostApplyCallback c with Some cb => [_] | None => [] end).
  split.
  { destruct (decide (ProjectionPhase (Settings c) = PhaseApply)) as [Hp1|Hp1].
    - destruct (decide (It = int32_sub NumIts 1)) as [Hi|Hi].
      + rewrite (ApplyProjection_valid c Dt hs Hv). simpl.
        destruct (decide _) as [|Hn]; [reflexivity | tauto].
      + simpl. destruct (decide _) as [[_ ?]|]; [done | reflexivity].
    - simpl. destruct (decide _) as [[? _]|]; [done | reflexivity]. }
  repeat split; try done;
    by destruct (PreApplyCallback c), (PostApplyCallback c).
Qed.

(** The calls [ApplyPushOut] makes on valid handles. *)
Lemma ApplyPushOut_calls (c : FPBDJointConstraints) Dt hs It NumIts :
  forallb (ValidHandle c) hs = true ->
  exists solve,
    ApplyPushOut Sort c Dt hs It NumIts =
      Some (true,
            solve ++ (if decide (ProjectionPhase (Settings c) = PhaseApplyPushOut
                                 ∧ It = (if decide (0 < ApplyPushOutPairIterations (Settings c))
                                         then int32_sub NumIts 1 else 0))
                      then ProjectionCalls Sort c Dt hs else []))
    ∧ SolvedIndices solve =
        (if decide (0 < ApplyPushOutPairIterations (Settings c))
         then IndexOf c <$> Sort (RootToLeaf c) hs else [])
    ∧ ProjectionEvents solve = [].
Proof.
  intros Hv. unfold ApplyPushOut. rewrite Hv.
  set (f := fun h : ConstraintHandle =>
              EvSolvePosition Dt (IndexOf c h) (ApplyPushOutPairIterations (Settings c)) It NumIts).
  destruct (SolveCalls_solved f (IndexOf c) (Sort (RootToLeaf c) hs)) as (Hs & _ & Hp);
    [done|].
  exists (if decide (0 < ApplyPushOutPairIterations (Settings c))
          then f <$> Sort (RootToLeaf c) hs else []).
  split.
  { destruct (decide (0 < ApplyPushOutPairIterations (Settings c))); simpl;
      (destruct (decide (ProjectionPhase (Settings c) = PhaseApplyPushOut)) as [Hp1|Hp1];
       [ destruct (decide (It = _)) as [Hi|Hi];
         [ rewrite (ApplyProjection_valid c Dt hs Hv); simpl;
           destruct (decide _) as [|Hn]; [reflexivity | tauto]
         | simpl; destruct (decide _) as [[_ ?]|]; [done | reflexivity] ]
       | simpl; destruct (decide _) as [[? _]|]; [done | reflexivity] ]). }
  destruct (decide (0 < ApplyPushOutPairIterations (Settings c))); by split.
Qed.

(** The order of the passes in terms of the getters the passes call. *)
Lemma Passes_order_by_getters (c : FPBDJointConstraints) (Dt : FReal)
    (hs : list ConstraintHandle) (It NumIts : Z) :
  forallb (ValidHandle c) hs = true ->
  exists evA evP evJ,
    Apply Sort c Dt hs It NumIts = Some evA
    ∧ ApplyPushOut Sort c Dt hs It NumIts = Some (true, evP)
    ∧ ApplyProjection Sort c Dt hs = Some evJ
    ∧ SolvedIndices evA ≡ₚ IndexOf c <$> hs
    ∧ Descending c (SolvedIndices evA)
    ∧ (0 < ApplyPushOutPairIterations (Settings c) -> SolvedIndices evP ≡ₚ IndexOf c <$> hs)
    ∧ Ascending c (SolvedIndices evP)
    ∧ ProjectedIndices evJ ≡ₚ IndexOf c <$> hs
    ∧ Ascending c (ProjectedIndices evJ).
Proof.
  intros Hv.
  destruct (Apply_calls c Dt hs It NumIts Hv)
    as (pre & solve & post & HA & Hpre & _ & Hpost & _ & Hsolve & _).
  destruct (ApplyPushOut_calls c Dt hs It NumIts Hv) as (solveP & HP & HsolveP & _).
  eexists _, _, _.
  split; [exact HA|]. split; [exact HP|].
  split; [exact (ApplyProjection_valid c Dt hs Hv)|].
  assert (HsA : SolvedIndices (pre ++ solve
                  ++ (if decide (ProjectionPhase (Settings c) = PhaseApply
                                 ∧ It = int32_sub NumIts 1)
                      then ProjectionCalls Sort c Dt hs else []) ++ post)
                = IndexOf c <$> Sort (LeafToRoot c) hs).
  { rewrite !SolvedIndices_app, Hpre, Hpost, Hsolve.
    destruct (decide _); rewrite ?ProjectionCalls_solved;
      change (SolvedIndices []) with (@nil nat); rewrite ?app_nil_r; reflexivity. }
  assert (HsP : SolvedIndices (solveP
                  ++ (if decide (ProjectionPhase (Settings c) = PhaseApplyPushOut
                                 ∧ It = (if decide (0 < ApplyPushOutPairIterations (Settings c))
                                         then int32_sub NumIts 1 else 0))
                      then ProjectionCalls Sort c Dt hs else []))
                = (if decide (0 < ApplyPushOutPairIterations (Settings c))
                   then IndexOf c <$> Sort (RootToLeaf c) hs else [])).
  { rewrite SolvedIndices_app, HsolveP.
    destruct (decide (ProjectionPhase (Settings c) = PhaseApplyPushOut ∧ _));
      rewrite ?ProjectionCalls_solved;
      change (SolvedIndices []) with (@nil nat); rewrite ?app_nil_r; reflexivity. }
  rewrite HsA, HsP, ProjectionCalls_projected.
  clear HA HP HsA HsP HsolveP.
  split; [by rewrite Sort_perm|].
  split; [by apply LeafToRoot_descending|].
  split.
  { intros Hpos. destruct (decide _); [|done]. by rewrite Sort_perm. }
  split.
  { destruct (decide _); [by apply RootToLeaf_ascending|].
    intros i j a b _ Hi. by rewrite lookup_nil in Hi. }
  split; [by rewrite Sort_perm | by apply RootToLeaf_ascending].
Qed.

(** The data behind a pass, read from the container itself and not through
    its getters: the index that a live handle object stores, and the level
    stored in the state of the constraint at an index. *)
Definition StoredIndex (c : FPBDJointConstraints) (h : ConstraintHandle) (i : nat) : Prop :=
  HandleObjects c !! h = Some i.

Definition StoredLevel (c : FPBDJointConstraints) (i : nat) (l : Z) : Prop :=
  exists st, ConstraintStates c !! i = Some st ∧ Level st = l.

(** A processing order, given as the constraint indices in the order they
    are worked on, runs from leaf to root when of two constraints with
    different stored levels the one with the higher level comes first, and
    from root to leaf when the one with the lower level does. *)
Definition LeafToRootOrder (c : FPBDJointConstraints) (order : list nat) : Prop :=
  forall (p q a b : nat) (la lb : Z), (p < q)%nat ->
    order !! p = Some a -> order !! q = Some b ->
    StoredLevel c a la -> StoredLevel c b lb -> la <> lb -> la > lb.

Definition RootToLeafOrder (c : FPBDJointConstraints) (order : list nat) : Prop :=
  forall (p q a b : nat) (la lb : Z), (p < q)%nat ->
    order !! p = Some a -> order !! q = Some b ->
    StoredLevel c a la -> StoredLevel c b lb -> la <> lb -> la < lb.

Lemma StoredIndex_IndexOf (c : FPBDJointConstraints) (hs : list ConstraintHandle)
    (indices : list nat) :
  Forall2 (StoredIndex c) hs indices -> IndexOf c <$> hs = indices.
Proof.
  induction 1 as [|h i hs indices Hh _ IH]; [reflexivity|].
  rewrite fmap_cons, IH. f_equal. unfold IndexOf, HandleIndex. by rewrite Hh.
Qed.

Lemma Stored_ValidHandle (c : FPBDJointConstraints) (hs : list ConstraintHandle)
    (indices : list nat) :
  Forall2 (StoredIndex c) hs indices ->
  Forall (fun i => is_Some (ConstraintStates c !! i)) indices ->
  forallb (ValidHandle c) hs = true.
Proof.
  induction 1 as [|h i hs indices Hh _ IH]; intros Hst; [reflexivity|].
  apply Forall_cons in Hst as [[st Hi] Hst]. simpl. rewrite (IH Hst), andb_true_r.
  apply bool_decide_eq_true_2. exists (Level st).
  unfold HandleLevel, HandleIndex, GetConstraintLevel. rewrite Hh. simpl. by rewrite Hi.
Qed.

Lemma StoredLevel_ConstraintLevel (c : FPBDJointConstraints) (i : nat) (l : Z) :
  StoredLevel c i l -> ConstraintLevel c i = l.
Proof.
  intros (st & Hst & <-). unfold ConstraintLevel, GetConstraintLevel. by rewrite Hst.
Qed.

Lemma Descending_stored (c : FPBDJointConstraints) (order : list nat) :
  Descending c order -> LeafToRootOrder c order.
Proof.
  intros Hd p q a b la lb Hpq Hp Hq Ha Hb Hne.
  apply StoredLevel_ConstraintLevel in Ha, Hb. subst la lb.
  by apply (Hd p q a b).
Qed.

Lemma Ascending_stored (c : FPBDJointConstraints) (order : list nat) :
  Ascending c order -> RootToLeafOrder c order.
Proof.
  intros Hd p q a b la lb Hpq Hp Hq Ha Hb Hne.
  apply StoredLevel_ConstraintLevel in Ha, Hb. subst la lb.
  by apply (Hd p q a b).
Qed.

(** C3, amended: on every list of live handles whose constraints are in
    the container, with [indices] the constraint indices the handles store:
    [Apply] solves each given constraint once, in an order in which, of two
    constraints with different stored levels, the higher level comes first
    (leaf to root); [ApplyProjection] projects each once with the lower level
    first (root to leaf); [ApplyPushOut] solves each once with the lower level
    first when the push-out pair-iteration count is positive and solves no
    constraint when it is not. *)
Theorem JointPasses_level_order (c : FPBDJointConstraints) (Dt : FReal)
    (hs : list ConstraintHandle) (indices : list nat) (It NumIts : Z) :
  Forall2 (StoredIndex c) hs indices ->
  Forall (fun i => is_Some (ConstraintStates c !! i)) indices ->
  exists evA evP evJ,
    Apply Sort c Dt hs It NumIts = Some evA
    ∧ ApplyPushOut Sort c Dt hs It NumIts = Some (true, evP)
    ∧ ApplyProjection Sort c Dt hs = Some evJ
    ∧ SolvedIndices evA ≡ₚ indices
    ∧ LeafToRootOrder c (SolvedIndices evA)
    ∧ SolvedIndices evP ≡ₚ
        (if decide (0 < ApplyPushOutPairIterations (Settings c)) then indices else [])
    ∧ RootToLeafOrder c (SolvedIndices evP)
    ∧ ProjectedIndices evJ ≡ₚ indices
    ∧ RootToLeafOrder c (ProjectedIndices evJ).
Proof.
  intros Hidx Hst.
  pose proof (Stored_ValidHandle c hs indices Hidx Hst) as Hv.
  pose proof (StoredIndex_IndexOf c hs indices Hidx) as Hi.
  destruct (Passes_order_by_getters c Dt hs It NumIts Hv)
    as (evA & evP & evJ & HA & HP & HJ & HpA & HdA & HpP & HaP & HpJ & HaJ).
  rewrite Hi in HpA, HpP, HpJ.
  exists evA, evP, evJ. split_and!; try done.
  - by apply Descending_stored.
  - destruct (decide (0 < ApplyPushOutPairIterations (Settings c))) as [Hpos|Hpos];
      [by apply HpP|].
    destruct (ApplyPushOut_calls c Dt hs It NumIts Hv) as (solve & HP' & Hs & _).
    rewrite HP in HP'. inversion HP' as [He]. rewrite SolvedIndices_app, Hs.
    rewrite decide_False by done.
    destruct (decide (ProjectionPhase (Settings c) = PhaseApplyPushOut ∧ _));
      by rewrite ?ProjectionCalls_solved.
  - by apply Ascending_stored.
  - by apply Ascending_stored.
Qed.

(** C6: the projection calls of [Apply] are those of [ApplyProjection]
    when the projection phase is [Apply] and the iteration index is
    [NumIts - 1], and there are none otherwise; the projection calls of
    [ApplyPushOut] are those of [ApplyProjection] when the phase is
    [ApplyPushOut] and the iteration index is [NumIts - 1] (push-out pair
    iterations positive) or [0] (push-out pair iterations not positive), and
    there are none otherwise. *)
Theorem JointProjection_iteration (c : FPBDJointConstraints) (Dt : FReal)
    (hs : list ConstraintHandle) (It NumIts : Z) :
  forallb (ValidHandle c) hs = true ->
  - 2 ^ 31 < NumIts < 2 ^ 31 ->
  exists evA evP,
    Apply Sort c Dt hs It NumIts = Some evA
    ∧ ApplyPushOut Sort c Dt hs It NumIts = Some (true, evP)
    ∧ ProjectionEvents evA =
        (if decide (ProjectionPhase (Settings c) = PhaseApply ∧ It = NumIts - 1)
         then ProjectionCalls Sort c Dt hs else [])
    ∧ ProjectionEvents evP =
        (if decide (ProjectionPhase (Settings c) = PhaseApplyPushOut
                    ∧ It = (if decide (0 < ApplyPushOutPairIterations (Settings c))
                            then NumIts - 1 else 0))
         then ProjectionCalls Sort c Dt hs else [])
    ∧ ProjectedIndices (ProjectionCalls Sort c Dt hs) ≡ₚ IndexOf c <$> hs.
Proof.
  intros Hv Hn.
  destruct (Apply_calls c Dt hs It NumIts Hv)
    as (pre & solve & post & HA & _ & Hpre & _ & Hpost & _ & Hsolve).
  destruct (ApplyPushOut_calls c Dt hs It NumIts Hv) as (solveP & HP & _ & HsolveP).
  rewrite (int32_sub_1 NumIts Hn) in HA, HP.
  eexists _, _. split; [exact HA|]. split; [exact HP|].
  rewrite !ProjectionEvents_app, Hpre, Hpost, Hsolve, HsolveP.
  clear HA HP. simpl.
  split.
  { destruct (decide (ProjectionPhase (Settings c) = PhaseApply ∧ _));
      rewrite ?ProjectionCalls_events; rewrite ?app_nil_r; reflexivity. }
  split.
  { destruct (decide (ProjectionPhase (Settings c) = PhaseApplyPushOut ∧ _));
      rewrite ?ProjectionCalls_events; reflexivity. }
  rewrite ProjectionCalls_projected. by rewrite Sort_perm.
Qed.

End JointPasses.

Section JointPassesExamples.
Import Joint.

(** A three-link chain: a kinematic anchor (particle 0), a body A fixed to
    it (particle 1) and a body B fixed to A (particle 2).  The anchor has
    level 0, A level 1, B level 2; joint 0 links anchor and A, joint 1 links A
    and B. *)
Definition Chain : FPBDJointConstraints :=
  let c := NewJoints DefaultSolverSettings in
  let c := (AddConstraintSettings (0%nat, 1%nat) DefaultJointSettings c).1 in
  let c := (AddConstraintSettings (1%nat, 2%nat) DefaultJointSettings c).1 in
  let c := default c (SetParticleLevels 0 (0, 1) c) in
  default c (SetParticleLevels 1 (1, 2) c).

(** The same chain with projection after push-out. *)
Definition ProjectingChain : FPBDJointConstraints :=
  SetSettings
    (MkSolverSettings 1 1 f_1em6 fzero fzero false true true true PhaseApplyPushOut
                      fzero fzero fzero fzero fzero fzero)
    Chain.

(** On the chain, [Apply] solves joint 1 (A-B) before joint 0 (anchor-A),
    and [ApplyPushOut] and [ApplyProjection] go the other way. *)
Example Chain_orders :
  SolvedIndices <$> Apply InsertionSort Chain fone [0%nat; 1%nat] 0 1 = Some [1%nat; 0%nat]
  ∧ SolvedIndices ∘ snd <$> ApplyPushOut InsertionSort Chain fone [0%nat; 1%nat] 0 1
      = Some [0%nat; 1%nat]
  ∧ ProjectedIndices <$> ApplyProjection InsertionSort Chain fone [1%nat; 0%nat]
      = Some [0%nat; 1%nat].
Proof. repeat split; vm_compute; reflexivity. Qed.

(** The chain with the push-out pair iterations set to zero. *)
Definition NoPushOutChain : FPBDJointConstraints :=
  SetSettings
    (MkSolverSettings 1 0 f_1em6 fzero fzero false true true true PhaseNone
                      fzero fzero fzero fzero fzero fzero)
    Chain.

(** C3, as stated, fails for [ApplyPushOut]: with a push-out
    pair-iteration count of zero it processes none of the given constraints,
    while [Apply] on the same container and handles solves both, leaf first. *)
Lemma ApplyPushOut_without_pair_iterations :
  Forall2 (StoredIndex NoPushOutChain) [0%nat; 1%nat] [0%nat; 1%nat]
  ∧ SolvedIndices <$> Apply InsertionSort NoPushOutChain fone [0%nat; 1%nat] 0 1
    = Some [1%nat; 0%nat]
  ∧ ApplyPushOut InsertionSort NoPushOutChain fone [0%nat; 1%nat] 0 1 = Some (true, []).
Proof.
  split; [|split; vm_compute; reflexivity].
  repeat constructor; vm_compute; reflexivity.
Qed.

Lemma JointPasses_level_order_witness :
  exists evA evP evJ,
    Apply InsertionSort Chain fone [0%nat; 1%nat] 0 1 = Some evA
    ∧ ApplyPushOut InsertionSort Chain fone [0%nat; 1%nat] 0 1 = Some (true, evP)
    ∧ ApplyProjection InsertionSort Chain fone [0%nat; 1%nat] = Some evJ
    ∧ SolvedIndices evA ≡ₚ [0%nat; 1%nat]
    ∧ LeafToRootOrder Chain (SolvedIndices evA)
    ∧ SolvedIndices evP ≡ₚ [0%nat; 1%nat]
    ∧ RootToLeafOrder Chain (SolvedIndices evP)
    ∧ ProjectedIndices evJ ≡ₚ [0%nat; 1%nat]
    ∧ RootToLeafOrder Chain (ProjectedIndices evJ)
    ∧ SolvedIndices evA = [1%nat; 0%nat]
    ∧ SolvedIndices evP = [0%nat; 1%nat]
    ∧ ProjectedIndices evJ = [0%nat; 1%nat].
Proof.
  destruct (JointPasses_level_order InsertionSort InsertionSort_perm InsertionSort_ordered
              Chain fone [0%nat; 1%nat] [0%nat; 1%nat] 0 1)
    as (evA & evP & evJ & HA & HP & HJ & HpA & HdA & HpP & HaP & HpJ & HaJ).
  - repeat constructor; vm_compute; reflexivity.
  - repeat constructor; vm_compute; by eexists.
  - pose proof (f_equal (fmap SolvedIndices) HA) as EA.
    pose proof (f_equal (fmap (SolvedIndices ∘ snd)) HP) as EP.
    pose proof (f_equal (fmap ProjectedIndices) HJ) as EJ.
    destruct Chain_orders as (CA & CP & _).
    assert (CJ : ProjectedIndices <$> ApplyProjection InsertionSort Chain fone [0%nat; 1%nat]
                 = Some [0%nat; 1%nat]) by (vm_compute; reflexivity).
    rewrite CA in EA. rewrite CP in EP. rewrite CJ in EJ.
    simpl in EA, EP, EJ. inversion EA. inversion EP. inversion EJ.
    exists evA, evP, evJ. split_and!; done.
Defined.

Lemma JointProjection_iteration_witness :
  exists evA evP,
    Apply InsertionSort ProjectingChain fone [0%nat; 1%nat] 3 4 = Some evA
    ∧ ApplyPushOut InsertionSort ProjectingChain fone [0%nat; 1%nat] 3 4 = Some (true, evP)
    ∧ ProjectionEvents evA = []
    ∧ ProjectionEvents evP = ProjectionCalls InsertionSort ProjectingChain fone [0%nat; 1%nat].
Proof.
  destruct (JointProjection_iteration InsertionSort InsertionSort_perm
              ProjectingChain fone [0%nat; 1%nat] 3 4 eq_refl ltac:(lia))
    as (evA & evP & HA & HP & HeA & HeP & _).
  exists evA, evP. repeat split; assumption.
Defined.

End JointPassesExamples.

(** ** Swap-with-last removal *)

Section RemoveAtSwapFacts.
Context {A : Type}.
Implicit Types (l : list A) (i j : nat) (x z : A).

Lemma RemoveAtSwap_snoc l z i :
  (i <= length l)%nat ->
  RemoveAtSwap i (l ++ [z]) = if decide (i < length l)%nat then <[i := z]> l else l.
Proof.
  intros Hi. unfold RemoveAtSwap.
  rewrite last_snoc, removelast_last.
  destruct ((l ++ [z]) !! i) eqn:E; [reflexivity|].
  apply lookup_ge_None in E. rewrite length_app in E. simpl in E. lia.
Qed.

Lemma RemoveAtSwap_out l i : (length l <= i)%nat -> RemoveAtSwap i l = l.
Proof.
  intros Hi. unfold RemoveAtSwap.
  by rewrite (proj2 (lookup_ge_None l i) Hi).
Qed.

Lemma RemoveAtSwap_length l i :
  (i < length l)%nat -> length (RemoveAtSwap i l) = pred (length l).
Proof.
  destruct l as [|x l0 _] using rev_ind; simpl; [lia|].
  rewrite length_app. simpl. intros Hi.
  rewrite RemoveAtSwap_snoc by lia.
  destruct (decide _); rewrite ?length_insert; lia.
Qed.

(** What is found at a position after the removal. *)
Lemma RemoveAtSwap_lookup l i j :
  (i < length l)%nat ->
  RemoveAtSwap i l !! j =
    if decide (j < pred (length l))%nat
    then (if decide (j = i) then last l else l !! j)
    else None.
Proof.
  destruct l as [|z l0 _] using rev_ind; simpl; [lia|].
  rewrite length_app, last_snoc. simpl. intros Hi.
  replace (pred (length l0 + 1)) with (length l0) by lia.
  rewrite RemoveAtSwap_snoc by lia.
  destruct (decide (j < length l0)%nat) as [Hj|Hj].
  - destruct (decide (i < length l0)%nat).
    + destruct (decide (j = i)) as [->|Hne].
      * by rewrite list_lookup_insert_eq.
      * rewrite list_lookup_insert_ne by done. by rewrite lookup_app_l.
    + destruct (decide (j = i)); [lia|]. by rewrite lookup_app_l.
  - destruct (decide (i < length l0)%nat);
      apply lookup_ge_None; rewrite ?length_insert; lia.
Qed.

(** The removal drops exactly the element at the position. *)
Lemma RemoveAtSwap_perm l i x :
  l !! i = Some x -> x :: RemoveAtSwap i l ≡ₚ l.
Proof.
  destruct l as [|z l0 _] using rev_ind; [by rewrite lookup_nil|].
  intros Hx. pose proof (lookup_lt_Some _ _ _ Hx) as Hi.
  rewrite length_app in Hi. simpl in Hi.
  rewrite RemoveAtSwap_snoc by lia.
  destruct (decide (i < length l0)%nat) as [Hlt|Hge].
  - rewrite lookup_app_l in Hx by done.
    rewrite insert_take_drop by done.
    rewrite <- (take_drop_middle l0 i x Hx) at 3.
    solve_Permutation.
  - assert (i = length l0) as -> by lia.
    rewrite list_lookup_middle in Hx by done. inversion Hx; subst.
    by rewrite <- Permutation_cons_append.
Qed.

Lemma RemoveAtSwap_elem_of l i y :
  y ∈ RemoveAtSwap i l -> y ∈ l.
Proof.
  destruct (l !! i) as [x|] eqn:E.
  - intros Hy. rewrite <- (RemoveAtSwap_perm l i x E). by right.
  - rewrite RemoveAtSwap_out; [done|]. by apply lookup_ge_None.
Qed.

Lemma RemoveAtSwap_NoDup l i : NoDup l -> NoDup (RemoveAtSwap i l).
Proof.
  destruct (l !! i) as [x|] eqn:E.
  - intros Hn. rewrite <- (RemoveAtSwap_perm l i x E) in Hn.
    by apply NoDup_cons in Hn as [_ ?].
  - rewrite RemoveAtSwap_out; [done|]. by apply lookup_ge_None.
Qed.

Lemma RemoveAtSwap_not_elem_of l i x :
  NoDup l -> l !! i = Some x -> x ∉ RemoveAtSwap i l.
Proof.
  intros Hn E. rewrite <- (RemoveAtSwap_perm l i x E) in Hn.
  by apply NoDup_cons in Hn as [? _].
Qed.

End RemoveAtSwapFacts.

Lemma RemoveAtSwap_zip {A B : Type} (l : list A) (k : list B) (i : nat) :
  length l = length k ->
  zip (RemoveAtSwap i l) (RemoveAtSwap i k) = RemoveAtSwap i (zip l k).
Proof.
  intros Hlen.
  destruct (decide (i < length l)%nat) as [Hi|Hi].
  - apply list_eq. intros j.
    rewrite RemoveAtSwap_lookup by (rewrite length_zip; lia).
    rewrite lookup_zip_with.
    rewrite !RemoveAtSwap_lookup by lia.
    rewrite length_zip, <- Hlen, Nat.min_id.
    destruct (decide (j < pred (length l))%nat); [|done].
    destruct (decide (j = i)).
    + destruct l as [|a l' _] using rev_ind; [simpl in Hi; lia|].
      destruct k as [|b k' _] using rev_ind;
        [simpl in Hlen; rewrite length_app in Hlen; simpl in Hlen; lia|].
      rewrite !length_app in Hlen. simpl in Hlen.
      rewrite zip_with_app by lia. simpl. by rewrite !last_snoc.
    + by rewrite lookup_zip_with.
  - rewrite !RemoveAtSwap_out; rewrite ?length_zip; try lia. done.
Qed.

(** ** The dynamic spring container *)

Section SpringDeletion.
Import Spring.

Variables (CT : FReal) (p0 p1 : Particle).

Lemma filter_all {A : Type} (P : A -> Prop) `{forall x, Decision (P x)} (l : list A) :
  Forall P l -> filter P l = l.
Proof.
  induction 1 as [|x l Hx _ IH]; [done|].
  rewrite filter_cons. destruct (decide (P x)); [|done]. by rewrite IH.
Qed.

(** The deletion loop succeeds on parallel arrays and keeps exactly the
    springs that are not too far apart, possibly in another order. *)
Lemma DeleteSprings_spec (n : nat) (D : list (FVec3 * FVec3)) (SD : list FReal) :
  length D = length SD ->
  (n <= length D)%nat ->
  (forall i x, (n <= i)%nat -> zip D SD !! i = Some x -> Kept CT p0 p1 x) ->
  exists D' SD',
    DeleteSprings CT p0 p1 n D SD = Some (D', SD')
    ∧ length D' = length SD'
    ∧ zip D' SD' ≡ₚ filter (Kept CT p0 p1) (zip D SD).
Proof.
  revert D SD. induction n as [|si IH]; intros D SD Hlen Hn Hdone.
  - exists D, SD. split; [done|]. split; [done|].
    rewrite filter_all; [done|].
    apply Forall_lookup. intros i x Hx. apply (Hdone i x); [lia | done].
  - simpl.
    destruct (D !! si) as [d|] eqn:Ed; [|apply lookup_ge_None in Ed; lia].
    destruct (SD !! si) as [r|] eqn:Er; [|apply lookup_ge_None in Er; lia].
    assert (Ez : zip D SD !! si = Some (d, r)).
    { rewrite lookup_zip_with, Ed. simpl. by rewrite Er. }
    simpl. destruct (TooFar CT (SpringSeparation p0 p1 d)) eqn:Efar.
    + simpl.
      destruct (IH (RemoveAtSwap si D) (RemoveAtSwap si SD)) as (D' & SD' & HD & Hl & Hp).
      * rewrite !RemoveAtSwap_length by lia. lia.
      * rewrite RemoveAtSwap_length by lia. lia.
      * intros i x Hi. rewrite RemoveAtSwap_zip by done.
        rewrite RemoveAtSwap_lookup by (rewrite length_zip; lia).
        destruct (decide _) as [Hlt|]; [|done].
        rewrite length_zip, <- Hlen, Nat.min_id in Hlt.
        destruct (decide (i = si)) as [->|Hne].
        -- rewrite last_lookup. intros Hx.
           apply (Hdone (pred (length (zip D SD))) x); [|done].
           rewrite length_zip. lia.
        -- intros Hx. apply (Hdone i x); [lia | done].
      * exists D', SD'. split; [done|]. split; [done|].
        rewrite Hp, RemoveAtSwap_zip by done.
        rewrite <- (RemoveAtSwap_perm (zip D SD) si (d, r) Ez) at 2.
        rewrite filter_cons. destruct (decide (Kept CT p0 p1 (d, r))) as [Hk|]; [|done].
        unfold Kept in Hk. simpl in Hk. congruence.
    + apply IH; [done | lia |].
      intros i x Hi Hx. destruct (decide (i = si)) as [->|Hne].
      * rewrite Ez in Hx. inversion Hx; subst. exact Efar.
      * apply (Hdone i x); [lia | done].
Qed.

End SpringDeletion.

Section SpringUpdate.
Import Spring.

Variable TransformMul : FRigidTransform3 -> FRigidTransform3 -> FRigidTransform3.
Variable TransformInverse : FRigidTransform3 -> FRigidTransform3.
Variable InverseTransformPosition : FRigidTransform3 -> FVec3 -> FVec3.
Variable TransformVector : FRigidTransform3 -> FVec3 -> FVec3.
Variable TransformedBox : TBox -> FRigidTransform3 -> TBox.
Variable Thicken : TBox -> FReal -> TBox.
Variable Intersects : TBox -> TBox -> bool.

(** The bounding-box test and the midpoint samples of a pair, as the
    creation step computes them. *)
Definition PairBoxesMayTouch (CT : FReal) (p0 p1 : Particle) (g0 g1 : FImplicitObject) : bool :=
  BoxesMayTouch TransformMul TransformInverse TransformedBox Thicken Intersects CT g0 g1
                (MkTransform (BodyP p0) (BodyQ p0)) (MkTransform (BodyP p1) (BodyQ p1)).

Definition PairPhiSum (p0 p1 : Particle) (g0 g1 : FImplicitObject) : FReal :=
  let '(Phi1, Phi2, _, _) :=
    SampleMidpoint InverseTransformPosition TransformVector g0 g1 (BodyP p0) (BodyP p1)
                   (MkTransform (BodyP p0) (BodyQ p0)) (MkTransform (BodyP p1) (BodyQ p1)) in
  fadd Phi1 Phi2.

(** What one call does to the springs [(D, SD)] of a pair of bodies [p0],
    [p1]: without geometry on both bodies nothing; otherwise the springs whose
    ends are more than twice the threshold apart go, the others stay
    ([D1], [SD1]), and at most one spring is added at the end, which requires
    the number of remaining springs to differ from [MaxSprings], the thickened
    boxes to overlap when both bodies have one, and the sum of the sampled
    distances not to be greater than the threshold. *)
Definition PairUpdated (CT : FReal) (Max : Z) (p0 p1 : Particle)
    (D : list (FVec3 * FVec3)) (SD : list FReal)
    (D' : list (FVec3 * FVec3)) (SD' : list FReal) : Prop :=
  match Geometry p0, Geometry p1 with
  | Some g0, Some g1 =>
      exists D1 SD1,
        length D1 = length SD1
        ∧ zip D1 SD1 ≡ₚ filter (Kept CT p0 p1) (zip D SD)
        ∧ ((D' = D1 ∧ SD' = SD1)
           ∨ (exists d r,
                D' = D1 ++ [d] ∧ SD' = SD1 ++ [r]
                ∧ Z.of_nat (length SD1) <> Max
                ∧ (Z.of_nat (length SD) <= Max -> Z.of_nat (length SD1) < Max)
                ∧ PairBoxesMayTouch CT p0 p1 g0 g1 = true
                ∧ fgt (PairPhiSum p0 p1 g0 g1) CT = false))
  | _, _ => D' = D ∧ SD' = SD
  end.

Lemma NewSpring_conditions (CT : FReal) (Max : Z) (p0 p1 : Particle)
    (g0 g1 : FImplicitObject) (n : nat) (spring : (FVec3 * FVec3) * FReal) :
  NewSpring TransformMul TransformInverse InverseTransformPosition TransformVector
            TransformedBox Thicken Intersects CT Max p0 p1 g0 g1 n = Some spring ->
  Z.of_nat n <> Max
  ∧ PairBoxesMayTouch CT p0 p1 g0 g1 = true
  ∧ fgt (PairPhiSum p0 p1 g0 g1) CT = false.
Proof.
  unfold NewSpring, PairBoxesMayTouch, PairPhiSum.
  destruct (decide (Z.of_nat n = Max)); [done|].
  destruct (BoxesMayTouch _ _ _ _ _ _ _ _ _ _) eqn:Eb; [|done]. simpl.
  destruct (SampleMidpoint _ _ _ _ _ _ _ _) as [[[Phi1 Phi2] L0] L1].
  destruct (fgt (fadd Phi1 Phi2) CT) eqn:Ephi; [done|].
  by intros _.
Qed.

Lemma set_springs_same (s : TPBDRigidDynamicSpringConstraints) ci D SD :
  Distances s !! ci = Some D -> SpringDistances s !! ci = Some SD ->
  set_springs ci D SD s = s.
Proof.
  intros HD HSD. destruct s. unfold set_springs. simpl in *.
  by rewrite !list_insert_id.
Qed.

(** One iteration of the loop over constraints. *)
Lemma UpdateConstraint_spec (heap : ParticleHeap) (ci : nat)
    (s : TPBDRigidDynamicSpringConstraints) c p0 p1 D SD :
  Constraints s !! ci = Some c ->
  heap !! c.1 = Some p0 -> heap !! c.2 = Some p1 ->
  Distances s !! ci = Some D -> SpringDistances s !! ci = Some SD ->
  length D = length SD ->
  exists D' SD',
    UpdateConstraint TransformMul TransformInverse InverseTransformPosition TransformVector
                     TransformedBox Thicken Intersects heap ci s
      = Some (set_springs ci D' SD' s)
    ∧ length D' = length SD'
    ∧ PairUpdated (CreationThreshold s) (MaxSprings s) p0 p1 D SD D' SD'.
Proof.
  intros Hc H0 H1 HD HSD Hlen.
  unfold UpdateConstraint, PairUpdated. rewrite Hc. simpl. rewrite H0. simpl. rewrite H1. simpl.
  destruct (Geometry p0) as [g0|]; [destruct (Geometry p1) as [g1|]|].
  2,3: exists D, SD; by rewrite set_springs_same.
  rewrite HSD. simpl. rewrite HD. simpl.
  destruct (DeleteSprings_spec (CreationThreshold s) p0 p1 (length SD) D SD)
    as (D1 & SD1 & Hdel & Hl1 & Hp1); [done | lia | |].
  { intros i x Hi Hx. apply lookup_lt_Some in Hx. rewrite length_zip in Hx. lia. }
  rewrite Hdel. simpl.
  destruct (NewSpring _ _ _ _ _ _ _ _ _ _ _ _ _ _) as [[d r]|] eqn:Enew.
  - exists (D1 ++ [d]), (SD1 ++ [r]). split; [done|].
    split; [rewrite !length_app; simpl; lia|].
    exists D1, SD1. split; [done|]. split; [done|]. right.
    apply NewSpring_conditions in Enew as (Hne & Hbox & Hphi).
    exists d, r. repeat split; try done.
    intros Hmax.
    assert (length SD1 <= length SD)%nat; [|lia].
    assert (Hz : length (zip D1 SD1) = length SD1).
    { rewrite length_zip. lia. }
    rewrite <- Hz, Hp1.
    etransitivity; [apply length_filter|]. rewrite length_zip. lia.
  - exists D1, SD1. split; [done|]. split; [done|].
    exists D1, SD1. split; [done|]. split; [done|]. by left.
Qed.

Lemma WellFormed_set_springs (heap : ParticleHeap)
    (s : TPBDRigidDynamicSpringConstraints) ci D' SD' :
  WellFormed heap s -> length D' = length SD' ->
  WellFormed heap (set_springs ci D' SD' s).
Proof.
  intros (HlD & HlS & Hpar & Halive) Hlen.
  unfold WellFormed, set_springs. simpl. rewrite !length_insert.
  repeat split; try done.
  intros cj D SD. destruct (decide (cj = ci)) as [->|Hne].
  - intros HD HS.
    apply list_lookup_insert_Some in HD as [(_ & <- & _)|(? & _)]; [|done].
    apply list_lookup_insert_Some in HS as [(_ & <- & _)|(? & _)]; done.
  - rewrite !list_lookup_insert_ne by done. apply Hpar.
  - apply (Halive _ _ H).
  - apply (Halive _ _ H).
Qed.

(** The loop over constraints, from index [k] on. *)
Lemma UpdateFrom_spec (heap : ParticleHeap) (n k : nat)
    (s : TPBDRigidDynamicSpringConstraints) :
  WellFormed heap s ->
  (k + n = length (Constraints s))%nat ->
  exists s',
    UpdateFrom TransformMul TransformInverse InverseTransformPosition TransformVector
               TransformedBox Thicken Intersects heap k n s = Some s'
    ∧ Constraints s' = Constraints s
    ∧ CreationThreshold s' = CreationThreshold s
    ∧ MaxSprings s' = MaxSprings s
    ∧ (forall ci, (ci < k)%nat ->
         Distances s' !! ci = Distances s !! ci
         ∧ SpringDistances s' !! ci = SpringDistances s !! ci)
    ∧ (forall ci c p0 p1 D SD, (k <= ci)%nat ->
         Constraints s !! ci = Some c ->
         heap !! c.1 = Some p0 -> heap !! c.2 = Some p1 ->
         Distances s !! ci = Some D -> SpringDistances s !! ci = Some SD ->
         exists D' SD',
           Distances s' !! ci = Some D' ∧ SpringDistances s' !! ci = Some SD'
           ∧ PairUpdated (CreationThreshold s) (MaxSprings s) p0 p1 D SD D' SD').
Proof.
  revert k s. induction n as [|n IH]; intros k s Hwf Hk.
  - exists s. simpl. repeat split; try done.
    intros ci c p0 p1 D SD Hci Hc. apply lookup_lt_Some in Hc. lia.
  - simpl.
    destruct Hwf as (HlD & HlS & Hpar & Halive).
    destruct (Constraints s !! k) as [c|] eqn:Hc; [|apply lookup_ge_None in Hc; lia].
    destruct (Halive k c Hc) as [[p0 H0] [p1 H1]].
    destruct (Distances s !! k) as [D|] eqn:HD; [|apply lookup_ge_None in HD; lia].
    destruct (SpringDistances s !! k) as [SD|] eqn:HSD; [|apply lookup_ge_None in HSD; lia].
    destruct (UpdateConstraint_spec heap k s c p0 p1 D SD Hc H0 H1 HD HSD (Hpar k D SD HD HSD))
      as (D' & SD' & Hupd & Hlen' & Hpair).
    rewrite Hupd. simpl.
    destruct (IH (S k) (set_springs k D' SD' s)) as (s' & Hrun & HC & HCT & HM & Hlow & Hhigh).
    { by apply WellFormed_set_springs. }
    { simpl. lia. }
    exists s'. split; [exact Hrun|]. simpl in *.
    repeat split; try done.
    + destruct (Hlow ci ltac:(lia)) as [-> _]. rewrite list_lookup_insert_ne; [done | lia].
    + destruct (Hlow ci ltac:(lia)) as [_ ->]. rewrite list_lookup_insert_ne; [done | lia].
    + intros ci c' q0 q1 E SE Hci Hc' Hq0 Hq1 HE HSE.
      destruct (decide (ci = k)) as [->|Hne].
      * assert (c' = c) as -> by congruence.
        assert (q0 = p0) as -> by congruence.
        assert (q1 = p1) as -> by congruence.
        assert (E = D) as -> by congruence.
        assert (SE = SD) as -> by congruence.
        exists D', SD'.
        destruct (Hlow k ltac:(lia)) as [-> ->].
        rewrite !list_lookup_insert_eq by lia. done.
      * apply (Hhigh ci c' q0 q1 E SE); try done; try lia;
          by rewrite list_lookup_insert_ne.
Qed.






End SpringUpdate.

Section SpringExamples.
Import Spring.

(** The half-space below the plane [z = 0]: the signed distance of a point
    is its height, the normal points up.  No bounding box. *)
Definition HalfSpace : FImplicitObject :=
  MkGeometry false (MkBox VecZero VecZero) (fun v => (vz v, MkVec fzero fzero fone)).

Definition BodyWith (g : option FImplicitObject) : Particle :=
  MkParticle PT_Rigid VecZero FromIdentity VecZero VecZero VecZero FromIdentity fone false
             OS_Dynamic g DynamicParticles.

Definition AnchorWith (g : option FImplicitObject) : Particle :=
  MkParticle PT_Static VecZero FromIdentity VecZero VecZero VecZero FromIdentity fzero false
             OS_Static g StaticParticles.


Definition FarSpring : FVec3 * FVec3 := (VecZero, MkVec (of_Z 10) fzero fzero).
Definition NearSpring : FVec3 * FVec3 := (VecZero, VecZero).


(** Both bodies have geometry. *)
Definition SolidHeap : ParticleHeap :=
  <[0%nat := BodyWith (Some HalfSpace)]> (<[1%nat := BodyWith (Some HalfSpace)]> ∅).

(** One spring at rest on a pair that is allowed one. *)
Definition OneNearSpring : TPBDRigidDynamicSpringConstraints :=
  MkSprings [(0%nat, 1%nat)] [[NearSpring]] [[fzero]] fone 1 fone.

(** A far and a near spring on a pair that is allowed two. *)
Definition FarAndNearOfTwo : TPBDRigidDynamicSpringConstraints :=
  MkSprings [(0%nat, 1%nat)] [[FarSpring; NearSpring]] [[fone; fzero]] fone 2 fone.

(** A far and a near spring on a pair that is allowed one. *)
Definition FarAndNear : TPBDRigidDynamicSpringConstraints :=
  MkSprings [(0%nat, 1%nat)] [[FarSpring; NearSpring]] [[fone; fzero]] fone 1 fone.

Definition RefUpdate :=
  UpdatePositionBasedState RefTransformMul RefTransformInverse RefInverseTransformPosition
    RefTransformVector RefTransformedBox RefThicken RefIntersects.


(** With geometry on both bodies the far spring goes and the near one stays;
    the pair then has [MaxSprings] springs and none is added. *)
Example FarAndNear_update :
  Distances <$> RefUpdate SolidHeap fone FarAndNear = Some [[NearSpring]].
Proof. vm_compute. reflexivity. Qed.

Lemma FarAndNear_WellFormed : WellFormed SolidHeap FarAndNear.
Proof.
  repeat split.
  - intros [|ci] D SD HD HSD; [|destruct ci; discriminate].
    by inversion HD; inversion HSD.
  - destruct ci as [|ci]; [|destruct ci; discriminate].
    inversion H; subst. by eexists.
  - destruct ci as [|ci]; [|destruct ci; discriminate].
    inversion H; subst. by eexists.
Qed.



(** On the pair that is allowed two springs, the far spring goes, the near
    one stays, and with one spring left a new one is made. *)
Example FarAndNearOfTwo_update :
  Distances <$> RefUpdate SolidHeap fone FarAndNearOfTwo
  = Some [[NearSpring; (VecZero, VecZero)]]
  ∧ SpringDistances <$> RefUpdate SolidHeap fone FarAndNearOfTwo = Some [[fzero; fzero]].
Proof. split; vm_compute; reflexivity. Qed.


End SpringExamples.

Section SpringDelta.
Import Spring.

(** Two dynamic unit spheres that touch at the origin, joined by a pair that
    has no spring yet. *)
Definition UnitSphere : FImplicitObject :=
  MkGeometry true (MkBox (MkVec (fneg fone) (fneg fone) (fneg fone)) (MkVec fone fone fone))
             (fun v => (fsub (VecSize v) fone, VecDiv v (VecSize v))).

Definition SphereAt (x : FReal) : Particle :=
  MkParticle PT_Rigid (MkVec x fzero fzero) FromIdentity VecZero VecZero
             (MkVec x fzero fzero) FromIdentity fone false OS_Dynamic (Some UnitSphere)
             DynamicParticles.

Definition TouchingSpheres : ParticleHeap :=
  <[0%nat := SphereAt (fneg fone)]> (<[1%nat := SphereAt fone]> ∅).

Definition NoSprings : TPBDRigidDynamicSpringConstraints :=
  MkSprings [(0%nat, 1%nat)] [[]] [[]] fone 1 fone.

(** The two ends [ApplySingle] hands to [GetDelta] for a spring:
    [Q0.RotateVector(Distance0) + P0] and [Q1.RotateVector(Distance1) + P1]. *)
Definition WorldSpaceEnds (p0 p1 : Particle) (d : FVec3 * FVec3) : FVec3 * FVec3 :=
  (VecAdd (RotateVector (BodyQ p0) d.1) (BodyP p0),
   VecAdd (RotateVector (BodyQ p1) d.2) (BodyP p1)).

(** C5, at a failing input: for two touching spheres
    [UpdatePositionBasedState] makes a spring of length zero, whose two ends
    are the same point in world space.  [GetDelta] on these ends does not skip
    the correction and return: the separation is zero, the call stops in
    [check(Distance > 1e-7)] and hands back no value; and the direction
    [Difference / Distance] that follows the check is not a number. *)
Theorem GetDelta_zero_separation_does_not_return :
  exists s' d X1 X2,
    RefUpdate TouchingSpheres fone NoSprings = Some s'
    ∧ Distances s' = [[d]]
    ∧ SpringDistances s' = [[fzero]]
    ∧ WorldSpaceEnds (SphereAt (fneg fone)) (SphereAt fone) d = (X1, X2)
    ∧ VecSize (VecSub X2 X1) = fzero
    ∧ GetDelta TouchingSpheres s' X1 X2 0 0 = CheckFailed
    ∧ (forall v, GetDelta TouchingSpheres s' X1 X2 0 0 <> Returned v)
    ∧ VecDiv (VecSub X2 X1) (VecSize (VecSub X2 X1)) = MkVec S754_nan S754_nan S754_nan.
Proof.
  exists (MkSprings [(0%nat, 1%nat)]
                    [[(MkVec fone fzero fzero, MkVec (fneg fone) fzero fzero)]]
                    [[fzero]] fone 1 fone),
         (MkVec fone fzero fzero, MkVec (fneg fone) fzero fzero), VecZero, VecZero.
  split_and!; try (vm_compute; reflexivity).
  intros v H. vm_compute in H. discriminate H.
Qed.

(** [GetDelta] with [check] compiled in, case by case.  When neither body is
    dynamic it returns the zero vector without looking at the separation.
    Otherwise, when the separation is not greater than [1e-7] the call ends in
    the failed [check], and no value comes back; when it is greater, the call
    returns the mass-weighted correction (or fails the range check on the
    spring index). *)
Theorem GetDelta_guard (heap : ParticleHeap) (s : TPBDRigidDynamicSpringConstraints)
    (WorldSpaceX1 WorldSpaceX2 : FVec3) (ConstraintIndex SpringIndex : nat)
    (c : ParticleHandle * ParticleHandle) (p0 p1 : Particle) :
  Constraints s !! ConstraintIndex = Some c ->
  heap !! c.1 = Some p0 -> heap !! c.2 = Some p1 ->
  let Difference := VecSub WorldSpaceX2 WorldSpaceX1 in
  let Distance := VecSize Difference in
  let result := GetDelta heap s WorldSpaceX1 WorldSpaceX2 ConstraintIndex SpringIndex in
  (AsDynamic p0 = false -> AsDynamic p1 = false -> result = Returned VecZero)
  ∧ (AsDynamic p0 = true ∨ AsDynamic p1 = true ->
     DistanceCheck Distance = false -> result = CheckFailed)
  ∧ (AsDynamic p0 = true ∨ AsDynamic p1 = true ->
     DistanceCheck Distance = true ->
     match SpringDistances s !! ConstraintIndex ≫= (.!! SpringIndex) with
     | Some Rest =>
         result =
           Returned
             (VecDiv (VecScale (Stiffness s)
                               (VecScale (fsub Distance Rest) (VecDiv Difference Distance)))
                     (fadd (if AsDynamic p0 then InvM p0 else fzero)
                           (if AsDynamic p1 then InvM p1 else fzero)))
     | None => result = RangeCheckFailed
     end).
Proof.
  intros Hc H0 H1 Difference Distance result.
  subst result Distance Difference. unfold GetDelta. rewrite Hc, H0, H1.
  repeat split.
  - intros -> ->. reflexivity.
  - intros Hdyn Hchk. rewrite Hchk.
    destruct Hdyn as [-> | ->]; simpl; rewrite ?andb_false_r; reflexivity.
  - intros Hdyn Hchk. rewrite Hchk.
    destruct (SpringDistances s !! ConstraintIndex ≫= (.!! SpringIndex)) eqn:E;
      destruct Hdyn as [Hd | Hd]; rewrite Hd; simpl; rewrite ?andb_false_r; reflexivity.
Qed.

Lemma GetDelta_guard_witness :
  GetDelta SolidHeap OneNearSpring VecZero VecZero 0 0 = CheckFailed.
Proof.
  refine (proj1 (proj2 (GetDelta_guard SolidHeap OneNearSpring VecZero VecZero 0%nat 0%nat
                          (0%nat, 1%nat) (BodyWith (Some HalfSpace)) (BodyWith (Some HalfSpace))
                          eq_refl eq_refl eq_refl)) _ _).
  - left. reflexivity.
  - vm_compute. reflexivity.
Defined.

End SpringDelta.

(** ** The particle store *)

Section IndexFacts.
Import SOAs.

(** The map and the array of an index agree: a particle is recorded at a
    position exactly when the array holds it there. *)
Definition Consistent (m : MapAndArray) : Prop :=
  forall h i, ToIndex m !! h = Some i <-> Array m !! i = Some h.

Lemma Consistent_empty : Consistent EmptyMapAndArray.
Proof. intros h i. simpl. by rewrite lookup_empty, lookup_nil. Qed.

Lemma Consistent_NoDup (m : MapAndArray) : Consistent m -> NoDup (Array m).
Proof.
  intros Hc. apply NoDup_alt. intros i j h Hi Hj.
  apply Hc in Hi, Hj. congruence.
Qed.

Lemma Consistent_elem_of (m : MapAndArray) (h : ParticleHandle) :
  Consistent m -> (h ∈ Array m <-> is_Some (ToIndex m !! h)).
Proof.
  intros Hc. rewrite list_elem_of_lookup. split.
  - intros [i Hi]. exists i. by apply Hc.
  - intros [i Hi]. exists i. by apply Hc.
Qed.

(** *** Single insertion *)

Lemma InsertToMapAndArray_Consistent (h : ParticleHandle) (m : MapAndArray) :
  Consistent m -> Consistent (InsertToMapAndArray h m).
Proof.
  intros Hc. unfold InsertToMapAndArray.
  destruct (ToIndex m !! h) as [k|] eqn:E; [done|].
  intros h' i. simpl.
  destruct (decide (h' = h)) as [->|Hne].
  - rewrite lookup_insert_eq. split.
    + intros [= <-]. by apply list_lookup_middle.
    + intros Hi. f_equal.
      destruct (decide (i < length (Array m))%nat) as [Hlt|Hge].
      * rewrite lookup_app_l in Hi by done. apply Hc in Hi. congruence.
      * apply lookup_lt_Some in Hi. rewrite length_app in Hi. simpl in Hi. lia.
  - rewrite lookup_insert_ne by done. rewrite (Hc h' i). split.
    + intros Hi. rewrite lookup_app_l; [done|]. by eapply lookup_lt_Some.
    + intros Hi. destruct (decide (i < length (Array m))%nat) as [Hlt|Hge].
      * by rewrite lookup_app_l in Hi.
      * rewrite lookup_app_r in Hi by lia.
        destruct (i - length (Array m))%nat; simpl in Hi; [congruence | done].
Qed.

Lemma InsertToMapAndArray_elem_of (h h' : ParticleHandle) (m : MapAndArray) :
  Consistent m ->
  (h' ∈ Array (InsertToMapAndArray h m) <-> h' = h ∨ h' ∈ Array m).
Proof.
  intros Hc. unfold InsertToMapAndArray.
  destruct (ToIndex m !! h) as [k|] eqn:E; simpl.
  - split; [by right|]. intros [->|]; [|done].
    apply Consistent_elem_of; [done|]. by exists k.
  - rewrite elem_of_app, list_elem_of_singleton. tauto.
Qed.

(** *** Removal *)

Lemma RemoveFromMapAndArray_spec (h : ParticleHandle) (m : MapAndArray) :
  Consistent m ->
  exists m',
    RemoveFromMapAndArray h m = Some m'
    ∧ Consistent m'
    ∧ (forall h', h' ∈ Array m' <-> h' ∈ Array m ∧ h' <> h).
Proof.
  intros Hc. unfold RemoveFromMapAndArray.
  destruct (ToIndex m !! h) as [Idx|] eqn:E.
  2:{ exists m. split; [done|]. split; [done|].
      intros h'. split; [|tauto]. intros Hin. split; [done|]. intros ->.
      apply Consistent_elem_of in Hin as [? ?]; [congruence | done]. }
  pose proof (proj1 (Hc h Idx) E) as HA. rewrite HA. simpl.
  pose proof (lookup_lt_Some _ _ _ HA) as Hlt.
  pose proof (Consistent_NoDup m Hc) as Hnd.
  assert (Hmem : forall h', h' ∈ RemoveAtSwap Idx (Array m) <-> h' ∈ Array m ∧ h' <> h).
  { intros h'. split.
    - intros Hin. split; [by eapply RemoveAtSwap_elem_of|].
      intros ->. by eapply RemoveAtSwap_not_elem_of.
    - intros [Hin Hne]. rewrite <- (RemoveAtSwap_perm _ _ _ HA) in Hin.
      apply elem_of_cons in Hin as [?|?]; done. }
  assert (Hlook : forall j, RemoveAtSwap Idx (Array m) !! j =
            if decide (j < pred (length (Array m)))%nat
            then (if decide (j = Idx) then last (Array m) else Array m !! j) else None).
  { intros j. by apply RemoveAtSwap_lookup. }
  destruct (RemoveAtSwap Idx (Array m) !! Idx) as [moved|] eqn:Em.
  - (* the last element was moved into the gap *)
    pose proof Em as Em'. rewrite Hlook in Em'.
    destruct (decide (Idx < pred (length (Array m)))%nat) as [Hlt'|]; [|done].
    destruct (decide (Idx = Idx)); [|done].
    rewrite last_lookup in Em'.
    pose proof (proj2 (Hc moved _) Em') as Hmoved. rewrite Hmoved. simpl.
    assert (Hne : moved <> h).
    { intros ->. assert (pred (length (Array m)) = Idx) by congruence. lia. }
    eexists. split; [reflexivity|]. split; [|exact Hmem].
    intros h' i. simpl.
    destruct (decide (h' = h)) as [->|Hh].
    { rewrite lookup_delete_eq. split; [done|]. intros Hi.
      exfalso. eapply (RemoveAtSwap_not_elem_of (Array m) Idx h); [done..|].
      eapply list_elem_of_lookup_2. exact Hi. }
    rewrite lookup_delete_ne by done.
    rewrite Hlook.
    destruct (decide (h' = moved)) as [->|Hm].
    + rewrite lookup_insert_eq. split.
      * intros [= <-]. destruct (decide _); [|lia].
        destruct (decide _); [|done]. by rewrite last_lookup.
      * destruct (decide (i < _)%nat) as [Hi|]; [|done].
        destruct (decide (i = Idx)) as [->|Hni]; [done|].
        intros Hi'. apply Hc in Hi'. rewrite Hmoved in Hi'. inversion Hi'. lia.
    + rewrite lookup_insert_ne by done. rewrite (Hc h' i).
      destruct (decide (i < _)%nat) as [Hi|Hi].
      * destruct (decide (i = Idx)) as [->|Hni].
        -- rewrite last_lookup, Em', HA. split; congruence.
        -- done.
      * split; [|done]. intros Hi'.
        pose proof (lookup_lt_Some _ _ _ Hi') as Hlt2.
        assert (i = pred (length (Array m))) as -> by lia.
        rewrite Em' in Hi'. congruence.
  - (* the removed element was the last one *)
    simpl. eexists. split; [reflexivity|]. split; [|exact Hmem].
    pose proof Em as Em'. rewrite Hlook in Em'.
    assert (HIdx : Idx = pred (length (Array m))).
    { destruct (decide (Idx < pred (length (Array m)))%nat) as [Hlt'|]; [|lia].
      destruct (decide (Idx = Idx)); [|done].
      rewrite last_lookup in Em'. apply lookup_ge_None in Em'. lia. }
    intros h' i. simpl. rewrite Hlook.
    destruct (decide (h' = h)) as [->|Hh].
    { rewrite lookup_delete_eq. split; [done|].
      destruct (decide (i < _)%nat) as [Hi|]; [|done].
      destruct (decide (i = Idx)); [lia|].
      intros Hi'. apply Hc in Hi'. rewrite E in Hi'. inversion Hi'. lia. }
    rewrite lookup_delete_ne by done. rewrite (Hc h' i).
    destruct (decide (i < _)%nat) as [Hi|Hi].
    + destruct (decide (i = Idx)); [lia | done].
    + split; [|done]. intros Hi'.
      pose proof (lookup_lt_Some _ _ _ Hi') as Hlt2.
      assert (i = Idx) as -> by lia. congruence.
Qed.

(** *** Bulk insertion *)

Lemma AddAllToIndex_other (hs : list ParticleHandle) (n : nat)
    (map : gmap ParticleHandle nat) (h : ParticleHandle) :
  h ∉ hs -> AddAllToIndex n hs map !! h = map !! h.
Proof.
  revert n map. induction hs as [|x hs IH]; intros n map Hh; [done|].
  apply not_elem_of_cons in Hh as [Hne Hh]. simpl.
  rewrite IH by done. by rewrite lookup_insert_ne.
Qed.

Lemma AddAllToIndex_new (hs : list ParticleHandle) (n k : nat)
    (map : gmap ParticleHandle nat) (h : ParticleHandle) :
  NoDup hs -> hs !! k = Some h -> AddAllToIndex n hs map !! h = Some (n + k)%nat.
Proof.
  revert n k map. induction hs as [|x hs IH]; intros n k map Hnd Hk; [done|].
  apply NoDup_cons in Hnd as [Hx Hnd]. simpl.
  destruct k as [|k]; simpl in Hk.
  - inversion Hk; subst. rewrite AddAllToIndex_other by done.
    rewrite lookup_insert_eq. f_equal. lia.
  - rewrite (IH (S n) k) by done. f_equal. lia.
Qed.

Lemma InsertAllToMapAndArray_Consistent (hs : list ParticleHandle) (m : MapAndArray) :
  Consistent m -> NoDup hs -> (forall h, h ∈ hs -> h ∉ Array m) ->
  Consistent (InsertAllToMapAndArray hs m).
Proof.
  intros Hc Hnd Hfresh h i. unfold InsertAllToMapAndArray. simpl.
  destruct (decide (h ∈ hs)) as [Hin|Hout].
  - destruct (proj1 (list_elem_of_lookup hs h) Hin) as [k Hk].
    rewrite (AddAllToIndex_new hs _ k) by done. split.
    + intros [= <-]. rewrite lookup_app_r by lia.
      by replace (length (Array m) + k - length (Array m))%nat with k by lia.
    + intros Hi. f_equal.
      destruct (decide (i < length (Array m))%nat) as [Hlt|Hge].
      * rewrite lookup_app_l in Hi by done.
        exfalso. apply (Hfresh h Hin). by eapply list_elem_of_lookup_2.
      * rewrite lookup_app_r in Hi by lia.
        pose proof (NoDup_lookup hs _ _ h Hnd Hk Hi). lia.
  - rewrite AddAllToIndex_other by done. rewrite (Hc h i). split.
    + intros Hi. rewrite lookup_app_l; [done|]. by eapply lookup_lt_Some.
    + intros Hi. destruct (decide (i < length (Array m))%nat) as [Hlt|Hge].
      * by rewrite lookup_app_l in Hi.
      * rewrite lookup_app_r in Hi by lia.
        exfalso. apply Hout. by eapply list_elem_of_lookup_2.
Qed.

End IndexFacts.

Section StoreInvariant.
Import SOAs.

(** Every particle of the active index is alive, dynamic and enabled. *)
Definition ActiveSound (heap : ParticleHeap) (m : MapAndArray) : Prop :=
  forall h, h ∈ Array m ->
    exists p, heap !! h = Some p ∧ AsDynamic p = true ∧ Disabled p = false.

(** Handles in use lie below the next handle to give out. *)
Definition Bounded (n : ParticleHandle) (m : MapAndArray) : Prop :=
  forall h, h ∈ Array m -> (h < n)%nat.

Definition HeapBounded (heap : ParticleHeap) (n : ParticleHandle) : Prop :=
  forall h, is_Some (heap !! h) -> (h < n)%nat.

(** A live particle has a slot in the pool it names and in the handle
    array. *)
Definition Stored (heap : ParticleHeap) (pool : ESOA -> list ParticleHandle)
    (handles : list ParticleHandle) : Prop :=
  forall h p, heap !! h = Some p -> h ∈ pool (SOA p) ∧ h ∈ handles.

(** The structural part of the invariant. *)
Definition Structural (s : TPBDRigidsSOAs) : Prop :=
  Consistent (ActiveParticles s)
  ∧ Consistent (ActiveClustered s)
  ∧ Consistent (NonDisabledClustered s)
  ∧ Bounded (NextParticle s) (ActiveParticles s)
  ∧ Bounded (NextParticle s) (ActiveClustered s)
  ∧ Bounded (NextParticle s) (NonDisabledClustered s)
  ∧ HeapBounded (Heap s) (NextParticle s)
  ∧ Stored (Heap s) (Pool s) (ParticleHandles s).

(** The invariant of the store on everything but the views. *)
Definition Core (s : TPBDRigidsSOAs) : Prop :=
  Structural s ∧ ActiveSound (Heap s) (ActiveParticles s).

(** The views are what [UpdateViews] would make them. *)
Definition ViewsFresh (s : TPBDRigidsSOAs) : Prop := UpdateViews s = s.

Definition Inv (s : TPBDRigidsSOAs) : Prop := Core s ∧ ViewsFresh s.

Lemma UpdateViews_fresh (s : TPBDRigidsSOAs) : ViewsFresh (UpdateViews s).
Proof. reflexivity. Qed.

Lemma UpdateViews_Inv (s : TPBDRigidsSOAs) : Core s -> Inv (UpdateViews s).
Proof. intros H. split; [exact H | reflexivity]. Qed.

Lemma NewSOAs_Inv : Inv NewSOAs.
Proof.
  apply UpdateViews_Inv. unfold Core, Structural. simpl.
  repeat split; try apply Consistent_empty;
    try (intros h Hh; by apply elem_of_nil in Hh).
  - intros h [p Hp]. by rewrite lookup_empty in Hp.
  - by rewrite lookup_empty in H.
  - by rewrite lookup_empty in H.
Qed.

(** *** Slots *)

Lemma SlotOf_Some (h : ParticleHandle) (l : list ParticleHandle) :
  h ∈ l -> exists i, SlotOf h l = Some i ∧ l !! i = Some h.
Proof.
  intros Hin. unfold SlotOf.
  destruct (list_find_elem_of (fun x => x = h) l h Hin eq_refl) as [[i y] Hf].
  rewrite Hf. simpl. exists i. split; [done|].
  apply list_find_Some in Hf as (Hi & -> & _). done.
Qed.

Lemma FreeSlot_keeps (k : ESOA) (i : nat) (l : list ParticleHandle) (h h' : ParticleHandle) :
  l !! i = Some h -> h' ∈ l -> h' <> h -> h' ∈ FreeSlot k i l.
Proof.
  intros Hi Hin Hne. unfold FreeSlot. destruct (decide _).
  - rewrite (delete_Permutation l i h Hi) in Hin.
    apply elem_of_cons in Hin as [?|?]; done.
  - rewrite <- (RemoveAtSwap_perm l i h Hi) in Hin.
    apply elem_of_cons in Hin as [?|?]; done.
Qed.

Lemma set_SOA_same (p : Particle) : set_SOA (SOA p) p = p.
Proof. by destruct p. Qed.

(** *** Moving between pools *)

Lemma MoveToSOA_spec (h : ParticleHandle) (k : ESOA) (s : TPBDRigidsSOAs) (p : Particle) :
  Structural s -> Heap s !! h = Some p ->
  exists s',
    MoveToSOA h k s = Some s'
    ∧ Structural s'
    ∧ Heap s' = <[h := set_SOA k p]> (Heap s)
    ∧ ActiveParticles s' = ActiveParticles s
    ∧ ActiveClustered s' = ActiveClustered s
    ∧ NonDisabledClustered s' = NonDisabledClustered s
    ∧ NextParticle s' = NextParticle s
    ∧ ParticleHandles s' = ParticleHandles s.
Proof.
  intros Hs Hp. unfold MoveToSOA. rewrite Hp. simpl.
  destruct (decide (SOA p = k)) as [<-|Hne].
  { exists s. rewrite set_SOA_same, insert_id by done. by split_and!. }
  destruct Hs as (Ha & Hb & Hc & Hd & He & Hf & Hg & Hst).
  destruct (Hst h p Hp) as [Hpool Hhandles].
  destruct (SlotOf_Some h _ Hpool) as (i & Hslot & Hi). rewrite Hslot. simpl.
  eexists. split; [reflexivity|]. simpl.
  split; [|by split_and!].
  unfold Structural; simpl. split_and!; try done.
  - intros h' [q Hq]. apply Hg.
    destruct (decide (h' = h)) as [->|?]; [by eexists|].
    rewrite lookup_insert_ne in Hq by done. by eexists.
  - intros h' q Hq. destruct (decide (h' = h)) as [->|Hh].
    + rewrite lookup_insert_eq in Hq. inversion Hq; subst. simpl.
      split; [|done].
      destruct (decide (k = SOA p)); [done|].
      destruct (decide (k = k)); [|done].
      apply elem_of_app. right. by apply list_elem_of_singleton.
    + rewrite lookup_insert_ne in Hq by done.
      destruct (Hst h' q Hq) as [Hin Hhs]. split; [|done].
      destruct (decide (SOA q = SOA p)) as [Heq|Hneq].
      * rewrite Heq in *. by eapply FreeSlot_keeps.
      * destruct (decide (SOA q = k)) as [<-|]; [|done].
        apply elem_of_app. by left.
Qed.

(** *** Index updates *)

Lemma Insert_Bounded (n h : ParticleHandle) (m : MapAndArray) :
  Consistent m -> Bounded n m -> (h < n)%nat -> Bounded n (InsertToMapAndArray h m).
Proof.
  intros Hc Hb Hh h' Hin.
  apply InsertToMapAndArray_elem_of in Hin as [->|Hin]; [done | by apply Hb | done].
Qed.

Lemma Structural_heap (s : TPBDRigidsSOAs) (h : ParticleHandle) (p p' : Particle) :
  Structural s -> Heap s !! h = Some p -> SOA p' = SOA p ->
  Structural (with_Heap (<[h := p']> (Heap s)) s).
Proof.
  intros (Ha & Hb & Hc & Hd & He & Hf & Hg & Hst) Hp Hsoa.
  unfold Structural; simpl. split_and!; try done.
  - intros h' [q Hq]. apply Hg.
    destruct (decide (h' = h)) as [->|?]; [by eexists|].
    rewrite lookup_insert_ne in Hq by done. by eexists.
  - intros h' q Hq. destruct (decide (h' = h)) as [->|?].
    + rewrite lookup_insert_eq in Hq. inversion Hq; subst.
      rewrite Hsoa. by apply Hst.
    + rewrite lookup_insert_ne in Hq by done. by apply Hst.
Qed.

Lemma Structural_insert_active (s : TPBDRigidsSOAs) (h : ParticleHandle) :
  Structural s -> is_Some (Heap s !! h) ->
  Structural (with_ActiveParticles (InsertToMapAndArray h (ActiveParticles s)) s).
Proof.
  intros (Ha & Hb & Hc & Hd & He & Hf & Hg & Hst) Hp.
  unfold Structural; simpl. split_and!; try done.
  - by apply InsertToMapAndArray_Consistent.
  - apply Insert_Bounded; auto.
Qed.

Lemma Structural_insert_active_clustered (s : TPBDRigidsSOAs) (h : ParticleHandle) :
  Structural s -> is_Some (Heap s !! h) ->
  Structural (with_ActiveClustered (InsertToMapAndArray h (ActiveClustered s)) s).
Proof.
  intros (Ha & Hb & Hc & Hd & He & Hf & Hg & Hst) Hp.
  unfold Structural; simpl. split_and!; try done.
  - by apply InsertToMapAndArray_Consistent.
  - apply Insert_Bounded; auto.
Qed.

Lemma Structural_insert_non_disabled (s : TPBDRigidsSOAs) (h : ParticleHandle) :
  Structural s -> is_Some (Heap s !! h) ->
  Structural (with_NonDisabledClustered
                (InsertToMapAndArray h (NonDisabledClustered s)) s).
Proof.
  intros (Ha & Hb & Hc & Hd & He & Hf & Hg & Hst) Hp.
  unfold Structural; simpl. split_and!; try done.
  - by apply InsertToMapAndArray_Consistent.
  - apply Insert_Bounded; auto.
Qed.

Lemma Structural_remove_active (s : TPBDRigidsSOAs) (h : ParticleHandle) :
  Structural s ->
  exists m',
    RemoveFromMapAndArray h (ActiveParticles s) = Some m'
    ∧ Structural (with_ActiveParticles m' s)
    ∧ (forall h', h' ∈ Array m' <-> h' ∈ Array (ActiveParticles s) ∧ h' <> h).
Proof.
  intros (Ha & Hb & Hc & Hd & He & Hf & Hg & Hst).
  destruct (RemoveFromMapAndArray_spec h _ Ha) as (m' & Hr & Hc' & Hm).
  exists m'. split; [done|]. split; [|done].
  unfold Structural; simpl. split_and!; try done.
  intros h' Hin. apply Hd. by apply Hm in Hin as [? _].
Qed.

Lemma Structural_remove_active_clustered (s : TPBDRigidsSOAs) (h : ParticleHandle) :
  Structural s ->
  exists m',
    RemoveFromMapAndArray h (ActiveClustered s) = Some m'
    ∧ Structural (with_ActiveClustered m' s).
Proof.
  intros (Ha & Hb & Hc & Hd & He & Hf & Hg & Hst).
  destruct (RemoveFromMapAndArray_spec h _ Hb) as (m' & Hr & Hc' & Hm).
  exists m'. split; [done|].
  unfold Structural; simpl. split_and!; try done.
  intros h' Hin. apply He. by apply Hm in Hin as [? _].
Qed.

Lemma Structural_remove_non_disabled (s : TPBDRigidsSOAs) (h : ParticleHandle) :
  Structural s ->
  exists m',
    RemoveFromMapAndArray h (NonDisabledClustered s) = Some m'
    ∧ Structural (with_NonDisabledClustered m' s).
Proof.
  intros (Ha & Hb & Hc & Hd & He & Hf & Hg & Hst).
  destruct (RemoveFromMapAndArray_spec h _ Hc) as (m' & Hr & Hc' & Hm).
  exists m'. split; [done|].
  unfold Structural; simpl. split_and!; try done.
  intros h' Hin. apply Hf. by apply Hm in Hin as [? _].
Qed.

(** *** [DisableParticle] *)

(** What [DisableParticle] leaves in the particle: a dynamic one is flagged
    disabled, brought to rest and, unless clustered, moved to the pool of
    disabled dynamics; the others only change pool. *)
Definition DisabledParticle (p : Particle) : Particle :=
  if AsDynamic p then
    let q := set_W VecZero (set_V VecZero (set_Disabled true p)) in
    if AsClustered p then q else set_SOA DynamicDisabledParticles q
  else if AsKinematic p then set_SOA KinematicDisabledParticles p
  else set_SOA StaticDisabledParticles p.

Lemma not_dynamic_not_active (s : TPBDRigidsSOAs) (h : ParticleHandle) (p : Particle) :
  ActiveSound (Heap s) (ActiveParticles s) -> Heap s !! h = Some p -> AsDynamic p = false ->
  h ∉ Array (ActiveParticles s).
Proof.
  intros Hsound Hp Hd Hin. destruct (Hsound h Hin) as (q & Hq & Hdyn & _). congruence.
Qed.

Lemma ActiveSound_insert_other (heap : ParticleHeap) (m : MapAndArray)
    (h : ParticleHandle) (q : Particle) :
  ActiveSound heap m -> h ∉ Array m -> ActiveSound (<[h := q]> heap) m.
Proof.
  intros Hsound Hout h' Hin. destruct (Hsound h' Hin) as (p & Hp & Hdyn & Hen).
  exists p. rewrite lookup_insert_ne; [done|]. by intros ->.
Qed.

Lemma DisableParticle_spec (h : ParticleHandle) (s : TPBDRigidsSOAs) (p : Particle) :
  Inv s -> Heap s !! h = Some p ->
  exists s',
    DisableParticle h s = Some s'
    ∧ Inv s'
    ∧ Heap s' = <[h := DisabledParticle p]> (Heap s)
    ∧ NextParticle s' = NextParticle s
    ∧ (forall h', h' ∈ Array (ActiveParticles s') <->
                  h' ∈ Array (ActiveParticles s) ∧ h' <> h).
Proof.
  intros [[Hs Hsound] _] Hp. unfold DisableParticle, DisabledParticle. rewrite Hp. simpl.
  destruct (AsDynamic p) eqn:Hdyn.
  - set (q := set_W VecZero (set_V VecZero (set_Disabled true p))).
    pose proof (Structural_heap s h p q Hs Hp eq_refl) as Hs1.
    set (s1 := with_Heap (<[h := q]> (Heap s)) s) in *.
    assert (Hq : Heap s1 !! h = Some q) by apply lookup_insert_eq.
    assert (exists s2, (if AsClustered p
                        then m ← RemoveFromMapAndArray h (NonDisabledClustered s);
                             m0 ← RemoveFromMapAndArray h (ActiveClustered s);
                             Some (with_ActiveClustered m0 (with_NonDisabledClustered m s1))
                        else MoveToSOA h DynamicDisabledParticles s1) = Some s2
                       ∧ Structural s2
                       ∧ Heap s2 = <[h := if AsClustered p then q
                                          else set_SOA DynamicDisabledParticles q]> (Heap s)
                       ∧ ActiveParticles s2 = ActiveParticles s
                       ∧ NextParticle s2 = NextParticle s)
      as (s2 & -> & Hs2 & Hh2 & Ha2 & Hn2).
    { destruct (AsClustered p).
      - destruct (Structural_remove_non_disabled s1 h Hs1) as (m & Hr & Hsa).
        simpl in Hr. rewrite Hr. simpl.
        destruct (Structural_remove_active_clustered _ h Hsa) as (m0 & Hr0 & Hsb).
        simpl in Hr0. rewrite Hr0. simpl.
        eexists. split; [reflexivity|]. split; [exact Hsb|]. by split_and!.
      - destruct (MoveToSOA_spec h DynamicDisabledParticles s1 q Hs1 Hq)
          as (s2 & -> & Hs2 & Hh2 & Ha2 & _ & _ & Hn2 & _).
        exists s2. split; [done|]. split; [done|].
        rewrite Hh2. unfold s1. simpl. rewrite insert_insert_eq. by split_and!. }
    simpl.
    destruct (Structural_remove_active s2 h Hs2) as (m' & -> & Hs3 & Hmem). simpl.
    eexists. split; [reflexivity|]. simpl.
    rewrite Ha2 in Hmem.
    split_and!; try done.
    apply UpdateViews_Inv. split; [exact Hs3|]. simpl.
    intros h' Hin. apply Hmem in Hin as [Hin Hne].
    destruct (Hsound h' Hin) as (p' & Hp' & Hd' & He').
    exists p'. rewrite Hh2, lookup_insert_ne by done. done.
  - pose proof (not_dynamic_not_active s h p Hsound Hp Hdyn) as Hout.
    set (k := if AsKinematic p then KinematicDisabledParticles else StaticDisabledParticles).
    assert (exists s2, (if AsKinematic p then MoveToSOA h KinematicDisabledParticles s
                        else MoveToSOA h StaticDisabledParticles s) = Some s2
                       ∧ Structural s2
                       ∧ Heap s2 = <[h := set_SOA k p]> (Heap s)
                       ∧ ActiveParticles s2 = ActiveParticles s
                       ∧ NextParticle s2 = NextParticle s)
      as (s2 & -> & Hs2 & Hh2 & Ha2 & Hn2).
    { unfold k. destruct (AsKinematic p).
      - destruct (MoveToSOA_spec h KinematicDisabledParticles s p Hs Hp)
          as (s2 & -> & Hs2 & Hh2 & Ha2 & _ & _ & Hn2 & _).
        exists s2; by split_and!.
      - destruct (MoveToSOA_spec h StaticDisabledParticles s p Hs Hp)
          as (s2 & -> & Hs2 & Hh2 & Ha2 & _ & _ & Hn2 & _).
        exists s2; by split_and!. }
    simpl. eexists. split; [reflexivity|]. simpl.
    split_and!; try done.
    + apply UpdateViews_Inv. split; [exact Hs2|].
      rewrite Hh2, Ha2. by apply ActiveSound_insert_other.
    + rewrite Hh2. unfold k. by destruct (AsKinematic p).
    + intros h'. rewrite Ha2. split; [|tauto].
      intros Hin. split; [done|]. by intros ->.
Qed.

(** *** [SetDynamicParticleSOA] and [EnableParticle] *)

(** The pool [SetDynamicParticleSOA] picks for a dynamic particle. *)
Definition DynamicSOAOf (p : Particle) : ESOA :=
  match ObjectState p with
  | OS_Kinematic => DynamicKinematicParticles
  | _ => DynamicParticles
  end.

(** What [EnableParticle] leaves in the particle. *)
Definition EnabledParticle (p : Particle) : Particle :=
  if AsDynamic p then
    set_Disabled false (if AsClustered p then p else set_SOA (DynamicSOAOf p) p)
  else if AsKinematic p then set_SOA KinematicParticles p
  else set_SOA StaticParticles p.

Lemma SetDynamicParticleSOA_spec (h : ParticleHandle) (s : TPBDRigidsSOAs) (p : Particle) :
  Structural s -> Heap s !! h = Some p ->
  exists s',
    SetDynamicParticleSOA h s = Some s'
    ∧ Structural s'
    ∧ ViewsFresh s'
    ∧ Heap s' = <[h := set_SOA (DynamicSOAOf p) p]> (Heap s)
    ∧ ActiveParticles s' = ActiveParticles s
    ∧ NextParticle s' = NextParticle s.
Proof.
  intros Hs Hp. unfold SetDynamicParticleSOA. rewrite Hp. simpl.
  destruct (MoveToSOA_spec h (DynamicSOAOf p) s p Hs Hp)
    as (s2 & Hm & Hs2 & Hh2 & Ha2 & _ & _ & Hn2 & _).
  assert (Hm' : match ObjectState p with
                | OS_Kinematic => MoveToSOA h DynamicKinematicParticles s
                | _ => MoveToSOA h DynamicParticles s
                end = Some s2).
  { unfold DynamicSOAOf in Hm. by destruct (ObjectState p). }
  rewrite Hm'. simpl. eexists. split; [reflexivity|]. by split_and!.
Qed.

Lemma EnableParticle_spec (h : ParticleHandle) (s : TPBDRigidsSOAs) (p : Particle) :
  Inv s -> Heap s !! h = Some p ->
  exists s',
    EnableParticle h s = Some s'
    ∧ Inv s'
    ∧ Heap s' = <[h := EnabledParticle p]> (Heap s)
    ∧ NextParticle s' = NextParticle s
    ∧ (forall h', h' ∈ Array (ActiveParticles s') <->
                  h' ∈ Array (ActiveParticles s)
                  ∨ (h' = h ∧ AsDynamic p = true ∧ Sleeping p = false)).
Proof.
  intros [[Hs Hsound] _] Hp. unfold EnableParticle, EnabledParticle. rewrite Hp. simpl.
  destruct (AsDynamic p) eqn:Hdyn.
  - set (q := if AsClustered p then p else set_SOA (DynamicSOAOf p) p).
    assert (exists s2,
              (if AsClustered p
               then Some (if negb (Sleeping p)
                          then with_ActiveClustered
                                 (InsertToMapAndArray h (ActiveClustered s))
                                 (with_NonDisabledClustered
                                    (InsertToMapAndArray h (NonDisabledClustered s)) s)
                          else with_NonDisabledClustered
                                 (InsertToMapAndArray h (NonDisabledClustered s)) s)
               else SetDynamicParticleSOA h s) = Some s2
              ∧ Structural s2
              ∧ Heap s2 = <[h := q]> (Heap s)
              ∧ ActiveParticles s2 = ActiveParticles s
              ∧ NextParticle s2 = NextParticle s)
      as (s2 & -> & Hs2 & Hh2 & Ha2 & Hn2).
    { unfold q. destruct (AsClustered p).
      - eexists. split; [reflexivity|].
        pose proof (Structural_insert_non_disabled s h Hs (mk_is_Some _ _ Hp)) as Hs1.
        destruct (negb (Sleeping p)).
        + split; [apply (Structural_insert_active_clustered _ h Hs1); by eexists |].
          simpl. rewrite insert_id by done. by split_and!.
        + split; [done|]. simpl. rewrite insert_id by done. by split_and!.
      - destruct (SetDynamicParticleSOA_spec h s p Hs Hp)
          as (s2 & -> & Hs2 & _ & Hh2 & Ha2 & Hn2).
        exists s2. by split_and!. }
    simpl.
    set (s3 := if negb (Sleeping p)
               then with_ActiveParticles (InsertToMapAndArray h (ActiveParticles s2)) s2
               else s2).
    assert (Hq3 : Heap s3 !! h = Some q).
    { unfold s3. destruct (negb (Sleeping p)); simpl; rewrite Hh2; apply lookup_insert_eq. }
    rewrite Hq3. simpl. eexists. split; [reflexivity|]. simpl.
    assert (Hs3 : Structural s3).
    { unfold s3. destruct (negb (Sleeping p)); [|done].
      apply Structural_insert_active; [done|]. rewrite Hh2, lookup_insert_eq. by eexists. }
    assert (Hheap : <[h := set_Disabled false q]> (Heap s3)
                    = <[h := set_Disabled false q]> (Heap s)).
    { unfold s3. destruct (negb (Sleeping p)); simpl; rewrite Hh2; apply insert_insert_eq. }
    assert (Hmem : forall h', h' ∈ Array (ActiveParticles s3) <->
                     h' ∈ Array (ActiveParticles s) ∨ (h' = h ∧ true = true ∧ Sleeping p = false)).
    { intros h'. unfold s3. destruct (Sleeping p); simpl.
      - rewrite Ha2. split; [by left|]. by intros [?|(_ & _ & ?)].
      - rewrite InsertToMapAndArray_elem_of by apply Hs2. rewrite Ha2. tauto. }
    split_and!; try done.
    + apply UpdateViews_Inv. split.
      * eapply Structural_heap; [done | exact Hq3 | done].
      * simpl. intros h' Hin. apply Hmem in Hin.
        destruct (decide (h' = h)) as [->|Hne].
        -- exists (set_Disabled false q). rewrite lookup_insert_eq. split; [done|].
           unfold q. by destruct (AsClustered p).
        -- destruct Hin as [Hin|[? _]]; [|done].
           destruct (Hsound h' Hin) as (p' & Hp' & Hd' & He').
           exists p'. rewrite Hheap, lookup_insert_ne by done. done.
    + unfold s3. by destruct (negb (Sleeping p)).
  - pose proof (not_dynamic_not_active s h p Hsound Hp Hdyn) as Hout.
    set (k := if AsKinematic p then KinematicParticles else StaticParticles).
    assert (exists s2, (if AsKinematic p then MoveToSOA h KinematicParticles s
                        else MoveToSOA h StaticParticles s) = Some s2
                       ∧ Structural s2
                       ∧ Heap s2 = <[h := set_SOA k p]> (Heap s)
                       ∧ ActiveParticles s2 = ActiveParticles s
                       ∧ NextParticle s2 = NextParticle s)
      as (s2 & -> & Hs2 & Hh2 & Ha2 & Hn2).
    { unfold k. destruct (AsKinematic p).
      - destruct (MoveToSOA_spec h KinematicParticles s p Hs Hp)
          as (s2 & -> & Hs2 & Hh2 & Ha2 & _ & _ & Hn2 & _).
        exists s2; by split_and!.
      - destruct (MoveToSOA_spec h StaticParticles s p Hs Hp)
          as (s2 & -> & Hs2 & Hh2 & Ha2 & _ & _ & Hn2 & _).
        exists s2; by split_and!. }
    simpl. eexists. split; [reflexivity|]. simpl.
    split_and!; try done.
    + apply UpdateViews_Inv. split; [exact Hs2|].
      rewrite Hh2, Ha2. by apply ActiveSound_insert_other.
    + rewrite Hh2. unfold k. by destruct (AsKinematic p).
    + intros h'. rewrite Ha2. split; [by left|]. by intros [?|(_ & ? & _)].
Qed.

(** *** [ActivateParticle] and [DeactivateParticle] *)

Lemma ActivateParticle_spec (h : ParticleHandle) (s : TPBDRigidsSOAs) (p : Particle) :
  Inv s -> Heap s !! h = Some p ->
  (AsDynamic p = true -> Disabled p = true -> ActivateParticle h s = None)
  ∧ (AsDynamic p = false ∨ Disabled p = false ->
     exists s',
       ActivateParticle h s = Some s'
       ∧ Inv s'
       ∧ Heap s' = Heap s
       ∧ NextParticle s' = NextParticle s
       ∧ (forall h', h' ∈ Array (ActiveParticles s') <->
                     h' ∈ Array (ActiveParticles s) ∨ (h' = h ∧ AsDynamic p = true))).
Proof.
  intros [[Hs Hsound] _] Hp. unfold ActivateParticle. rewrite Hp. simpl.
  split.
  { intros -> ->. reflexivity. }
  intros Hok. destruct (AsDynamic p) eqn:Hdyn.
  - destruct Hok as [?|Hen]; [done|]. rewrite Hen. simpl.
    eexists. split; [reflexivity|]. simpl.
    set (s1 := if AsClustered p
               then with_ActiveClustered (InsertToMapAndArray h (ActiveClustered s)) s
               else s).
    assert (Hs1 : Structural s1).
    { unfold s1. destruct (AsClustered p); [|done].
      apply Structural_insert_active_clustered; [done | by eexists]. }
    assert (Hh1 : Heap s1 = Heap s) by (unfold s1; by destruct (AsClustered p)).
    assert (Ha1 : ActiveParticles s1 = ActiveParticles s)
      by (unfold s1; by destruct (AsClustered p)).
    assert (Hn1 : NextParticle s1 = NextParticle s)
      by (unfold s1; by destruct (AsClustered p)).
    assert (Hmem : forall h', h' ∈ Array (InsertToMapAndArray h (ActiveParticles s1)) <->
                     h' ∈ Array (ActiveParticles s) ∨ (h' = h ∧ true = true)).
    { intros h'. rewrite InsertToMapAndArray_elem_of by apply Hs1. rewrite Ha1. tauto. }
    split_and!; try done.
    apply UpdateViews_Inv. split.
    + apply Structural_insert_active; [done|]. rewrite Hh1. by eexists.
    + simpl. rewrite Hh1. intros h' Hin. apply Hmem in Hin as [Hin|[-> _]].
      * by apply Hsound.
      * by exists p.
  - simpl. eexists. split; [reflexivity|]. simpl.
    split_and!; try done; try (by apply UpdateViews_Inv).
    intros h'. split; [by left|]. by intros [?|[_ ?]].
Qed.

Lemma DeactivateParticle_spec (h : ParticleHandle) (s : TPBDRigidsSOAs) (p : Particle) :
  Inv s -> Heap s !! h = Some p ->
  (AsDynamic p = true -> Disabled p = true -> DeactivateParticle h s = None)
  ∧ (AsDynamic p = false ∨ Disabled p = false ->
     exists s',
       DeactivateParticle h s = Some s'
       ∧ Inv s'
       ∧ Heap s' = Heap s
       ∧ NextParticle s' = NextParticle s
       ∧ (forall h', h' ∈ Array (ActiveParticles s') <->
                     h' ∈ Array (ActiveParticles s) ∧ h' <> h)).
Proof.
  intros [[Hs Hsound] _] Hp. unfold DeactivateParticle. rewrite Hp. simpl.
  split.
  { intros -> ->. reflexivity. }
  intros Hok. destruct (AsDynamic p) eqn:Hdyn.
  - destruct Hok as [?|Hen]; [done|]. rewrite Hen. simpl.
    assert (exists s1,
              (if AsClustered p
               then (fun m => with_ActiveClustered m s)
                      <$> RemoveFromMapAndArray h (ActiveClustered s)
               else Some s) = Some s1
              ∧ Structural s1 ∧ Heap s1 = Heap s
              ∧ ActiveParticles s1 = ActiveParticles s
              ∧ NextParticle s1 = NextParticle s)
      as (s1 & -> & Hs1 & Hh1 & Ha1 & Hn1).
    { destruct (AsClustered p).
      - destruct (Structural_remove_active_clustered s h Hs) as (m & -> & Hsm).
        simpl. eexists. by split_and!.
      - exists s. by split_and!. }
    simpl.
    destruct (Structural_remove_active s1 h Hs1) as (m' & -> & Hs2 & Hmem). simpl.
    eexists. split; [reflexivity|]. simpl. rewrite Ha1 in Hmem.
    split_and!; try done.
    apply UpdateViews_Inv. split; [done|]. simpl. rewrite Hh1.
    intros h' Hin. apply Hmem in Hin as [Hin _]. by apply Hsound.
  - pose proof (not_dynamic_not_active s h p Hsound Hp Hdyn) as Hout.
    simpl. eexists. split; [reflexivity|]. simpl.
    split_and!; try done; try (by apply UpdateViews_Inv).
    intros h'. split; [|tauto]. intros Hin. split; [done|]. by intros ->.
Qed.

(** *** [DestroyParticle] *)

Lemma DestroyHandleSwap_spec (h : ParticleHandle) (s : TPBDRigidsSOAs) (p : Particle) :
  Structural s -> Heap s !! h = Some p ->
  exists s' HandleIdx ParticleIdx,
    DestroyHandleSwap h s = Some s'
    ∧ Structural s'
    ∧ Heap s' = delete h (Heap s)
    ∧ ActiveParticles s' = ActiveParticles s
    ∧ NextParticle s' = NextParticle s
    ∧ ParticleHandles s !! HandleIdx = Some h
    ∧ ParticleHandles s' = RemoveAtSwap HandleIdx (ParticleHandles s)
    ∧ Pool s (SOA p) !! ParticleIdx = Some h
    ∧ Pool s' (SOA p) = FreeSlot (SOA p) ParticleIdx (Pool s (SOA p)).
Proof.
  intros (Ha & Hb & Hc & Hd & He & Hf & Hg & Hst) Hp.
  unfold DestroyHandleSwap. rewrite Hp. simpl.
  destruct (Hst h p Hp) as [Hpool Hhandles].
  destruct (SlotOf_Some h _ Hhandles) as (i & -> & Hi).
  destruct (SlotOf_Some h _ Hpool) as (j & -> & Hj). simpl.
  eexists _, i, j. split; [reflexivity|]. simpl.
  destruct (decide (SOA p = SOA p)); [|done].
  split; [|by split_and!].
  unfold Structural; simpl. split_and!; try done.
  - intros h' [q Hq]. apply Hg. apply lookup_delete_Some in Hq as [_ Hq]. by eexists.
  - intros h' q Hq. apply lookup_delete_Some in Hq as [Hne Hq].
    destruct (Hst h' q Hq) as [Hin Hhs]. split.
    + destruct (decide (SOA q = SOA p)) as [Heq|]; [|done].
      rewrite Heq in *. by eapply FreeSlot_keeps.
    + rewrite <- (RemoveAtSwap_perm _ _ _ Hi) in Hhs.
      apply elem_of_cons in Hhs as [?|?]; done.
Qed.

Lemma DestroyParticle_spec (h : ParticleHandle) (s : TPBDRigidsSOAs) (p : Particle) :
  Inv s -> Heap s !! h = Some p ->
  (AsClustered p = true -> DestroyParticle h s = None)
  ∧ (AsClustered p = false ->
     exists s' HandleIdx ParticleIdx,
       DestroyParticle h s = Some s'
       ∧ Inv s'
       ∧ Heap s' = delete h (Heap s)
       ∧ NextParticle s' = NextParticle s
       ∧ (forall h', h' ∈ Array (ActiveParticles s') <->
                     h' ∈ Array (ActiveParticles s) ∧ h' <> h)
       ∧ ParticleHandles s !! HandleIdx = Some h
       ∧ ParticleHandles s' = RemoveAtSwap HandleIdx (ParticleHandles s)
       ∧ Pool s (SOA p) !! ParticleIdx = Some h
       ∧ Pool s' (SOA p) = FreeSlot (SOA p) ParticleIdx (Pool s (SOA p))).
Proof.
  intros [[Hs Hsound] _] Hp. unfold DestroyParticle. rewrite Hp. simpl.
  split.
  { intros ->. reflexivity. }
  intros ->.
  assert (exists s1,
            (if AsDynamic p
             then (fun m => with_ActiveParticles m s)
                    <$> RemoveFromMapAndArray h (ActiveParticles s)
             else Some s) = Some s1
            ∧ Structural s1 ∧ Heap s1 = Heap s
            ∧ NextParticle s1 = NextParticle s
            ∧ ParticleHandles s1 = ParticleHandles s
            ∧ Pool s1 = Pool s
            ∧ (forall h', h' ∈ Array (ActiveParticles s1) <->
                          h' ∈ Array (ActiveParticles s) ∧ h' <> h))
    as (s1 & -> & Hs1 & Hh1 & Hn1 & Hph1 & Hpool1 & Hmem).
  { destruct (AsDynamic p) eqn:Hdyn.
    - destruct (Structural_remove_active s h Hs) as (m & -> & Hsm & Hmem).
      simpl. eexists. by split_and!.
    - exists s. split_and!; try done.
      pose proof (not_dynamic_not_active s h p Hsound Hp Hdyn) as Hout.
      intros h'. split; [|tauto]. intros Hin. split; [done|]. by intros ->. }
  simpl.
  assert (Hp1 : Heap s1 !! h = Some p) by by rewrite Hh1.
  destruct (DestroyHandleSwap_spec h s1 p Hs1 Hp1)
    as (s2 & i & j & -> & Hs2 & Hh2 & Ha2 & Hn2 & Hi & Hph2 & Hj & Hpool2).
  simpl. exists (UpdateViews s2), i, j. split; [reflexivity|]. simpl.
  rewrite Hph1 in Hi, Hph2. rewrite Hpool1 in Hj, Hpool2. rewrite Hh1 in Hh2.
  rewrite Ha2. split_and!; try done; try congruence.
  apply UpdateViews_Inv. split; [done|].
  rewrite Hh2, Ha2. intros h' Hin. apply Hmem in Hin as [Hin Hne].
  destruct (Hsound h' Hin) as (q & Hq & ? & ?).
  exists q. by rewrite lookup_delete_ne.
Qed.

(** *** Creation *)

Lemma foldr_insert_lookup (d : Particle) (hs : list ParticleHandle)
    (heap : ParticleHeap) (h : ParticleHandle) :
  foldr (fun h heap => <[h := d]> heap) heap hs !! h
  = if decide (h ∈ hs) then Some d else heap !! h.
Proof.
  induction hs as [|x hs IH]; simpl.
  - destruct (decide (h ∈ [])) as [Hin|]; [by apply elem_of_nil in Hin | done].
  - destruct (decide (h = x)) as [->|Hne].
    + rewrite lookup_insert_eq. destruct (decide (x ∈ x :: hs)) as [|Hn]; [done|].
      exfalso. apply Hn. by left.
    + rewrite lookup_insert_ne by done. rewrite IH.
      destruct (decide (h ∈ hs)), (decide (h ∈ x :: hs)) as [Hin|Hout]; try done.
      * exfalso. apply Hout. by right.
      * apply elem_of_cons in Hin as [?|?]; done.
Qed.

Lemma BulkInsert (m : MapAndArray) (n k : nat) :
  Consistent m -> Bounded n m ->
  Consistent (InsertAllToMapAndArray (seq n k) m)
  ∧ Bounded (n + k)%nat (InsertAllToMapAndArray (seq n k) m).
Proof.
  intros Hc Hb. split.
  - apply InsertAllToMapAndArray_Consistent; [done | apply NoDup_seq |].
    intros h Hin Hm. apply elem_of_seq in Hin. specialize (Hb h Hm). lia.
  - intros h. simpl. rewrite elem_of_app, elem_of_seq.
    intros [Hm|?]; [|lia]. specialize (Hb h Hm). lia.
Qed.

Lemma Bounded_mono (n n' : nat) (m : MapAndArray) :
  Bounded n m -> (n <= n')%nat -> Bounded n' m.
Proof. intros Hb Hn h Hin. specialize (Hb h Hin). lia. Qed.

Lemma CreateParticlesHelper_spec (t : EParticleType) (n : nat) (pool : ESOA)
    (s : TPBDRigidsSOAs) :
  Structural s ->
  let s' := (CreateParticlesHelper t n pool s).1 in
  (CreateParticlesHelper t n pool s).2 = seq (NextParticle s) n
  ∧ Structural s'
  ∧ NextParticle s' = (NextParticle s + n)%nat
  ∧ ActiveParticles s' = ActiveParticles s
  ∧ ActiveClustered s' = ActiveClustered s
  ∧ NonDisabledClustered s' = NonDisabledClustered s
  ∧ (forall h, Heap s' !! h =
               if decide (h ∈ seq (NextParticle s) n)
               then Some (DefaultParticle t pool) else Heap s !! h).
Proof.
  intros (Ha & Hb & Hc & Hd & He & Hf & Hg & Hst). simpl.
  split; [done|]. split; [|split_and!; try done; intros h; apply foldr_insert_lookup].
  unfold Structural; simpl. split_and!; try done;
    try (eapply Bounded_mono; [eassumption | lia]).
  - intros h [q Hq]. rewrite foldr_insert_lookup in Hq.
    destruct (decide _) as [Hin|]; [apply elem_of_seq in Hin; lia|].
    assert (h < NextParticle s)%nat by (apply Hg; by eexists). lia.
  - intros h q Hq. rewrite foldr_insert_lookup in Hq.
    destruct (decide (h ∈ _)) as [Hin|Hout].
    + inversion Hq; subst. simpl.
      destruct (decide (pool = pool)); [|done].
      split; apply elem_of_app; by right.
    + destruct (Hst h q Hq) as [Hp Hh]. split.
      * destruct (decide (SOA q = pool)); [|done]. apply elem_of_app. by left.
      * apply elem_of_app. by left.
Qed.

Lemma ActiveSound_create (s : TPBDRigidsSOAs) (heap' : ParticleHeap)
    (n : nat) (t : EParticleType) (pool : ESOA) (m' : MapAndArray) :
  Structural s -> ActiveSound (Heap s) (ActiveParticles s) ->
  (forall h, heap' !! h =
             if decide (h ∈ seq (NextParticle s) n)
             then Some (DefaultParticle t pool) else Heap s !! h) ->
  (forall h, h ∈ Array m' ->
     h ∈ Array (ActiveParticles s)
     ∨ (h ∈ seq (NextParticle s) n ∧ AsDynamic (DefaultParticle t pool) = true)) ->
  ActiveSound heap' m'.
Proof.
  intros (Ha & Hb & Hc & Hd & He & Hf & Hg & Hst) Hsound Hheap Hmem h Hin.
  rewrite Hheap. destruct (Hmem h Hin) as [Hold|[Hnew Hdyn]].
  - destruct (decide _) as [Hs|].
    + apply elem_of_seq in Hs. specialize (Hd h Hold). lia.
    + by apply Hsound.
  - destruct (decide _); [|done]. by eexists.
Qed.

(** The effect of a creation call that makes the particles [hs] of class
    [t] in pool [pool], putting them in the active index when [inserted]. *)
Definition Created (s s' : TPBDRigidsSOAs) (hs : list ParticleHandle)
    (t : EParticleType) (pool : ESOA) (inserted : bool) : Prop :=
  hs = seq (NextParticle s) (length hs)
  ∧ Inv s'
  ∧ NextParticle s' = (NextParticle s + length hs)%nat
  ∧ (forall h, Heap s' !! h =
               if decide (h ∈ hs) then Some (DefaultParticle t pool) else Heap s !! h)
  ∧ (forall h, h ∈ Array (ActiveParticles s') <->
               h ∈ Array (ActiveParticles s) ∨ (inserted = true ∧ h ∈ hs)).

Lemma CreateStaticParticles_spec (n : nat) (params : ParticleParameters) (s : TPBDRigidsSOAs) :
  Inv s ->
  Created s (CreateStaticParticles n params s).1 (CreateStaticParticles n params s).2
          PT_Static (if bDisabled params then StaticDisabledParticles else StaticParticles)
          false.
Proof.
  intros [[Hs Hsound] _]. unfold CreateStaticParticles.
  set (pool := if bDisabled params then StaticDisabledParticles else StaticParticles).
  pose proof (CreateParticlesHelper_spec PT_Static n pool s Hs) as Hspec.
  destruct (CreateParticlesHelper PT_Static n pool s) as [s1 hs] eqn:E.
  simpl in Hspec. destruct Hspec as (-> & Hs1 & Hn1 & Ha1 & _ & _ & Hheap).
  unfold Created. simpl. rewrite length_seq. split_and!; try done.
  - apply UpdateViews_Inv. split; [done|].
    eapply (ActiveSound_create s); [done..|].
    intros h Hin. left. by rewrite <- Ha1.
  - intros h. rewrite Ha1. split; [by left|]. by intros [?|[? _]].
Qed.

Lemma CreateKinematicParticles_spec (n : nat) (params : ParticleParameters)
    (s : TPBDRigidsSOAs) :
  Inv s ->
  Created s (CreateKinematicParticles n params s).1 (CreateKinematicParticles n params s).2
          PT_Kinematic
          (if bDisabled params then KinematicDisabledParticles else KinematicParticles)
          false.
Proof.
  intros [[Hs Hsound] _]. unfold CreateKinematicParticles.
  set (pool := if bDisabled params then KinematicDisabledParticles else KinematicParticles).
  pose proof (CreateParticlesHelper_spec PT_Kinematic n pool s Hs) as Hspec.
  destruct (CreateParticlesHelper PT_Kinematic n pool s) as [s1 hs] eqn:E.
  simpl in Hspec. destruct Hspec as (-> & Hs1 & Hn1 & Ha1 & _ & _ & Hheap).
  unfold Created. simpl. rewrite length_seq. split_and!; try done.
  - apply UpdateViews_Inv. split; [done|].
    eapply (ActiveSound_create s); [done..|].
    intros h Hin. left. by rewrite <- Ha1.
  - intros h. rewrite Ha1. split; [by left|]. by intros [?|[? _]].
Qed.

Lemma CreateDynamicParticles_spec (n : nat) (params : ParticleParameters)
    (s : TPBDRigidsSOAs) :
  Inv s ->
  Created s (CreateDynamicParticles n params s).1 (CreateDynamicParticles n params s).2
          PT_Rigid
          (if bDisabled params then DynamicDisabledParticles else DynamicParticles)
          (negb (bStartSleeping params)).
Proof.
  intros [[Hs Hsound] _]. unfold CreateDynamicParticles.
  set (pool := if bDisabled params then DynamicDisabledParticles else DynamicParticles).
  pose proof (CreateParticlesHelper_spec PT_Rigid n pool s Hs) as Hspec.
  destruct (CreateParticlesHelper PT_Rigid n pool s) as [s1 hs] eqn:E.
  simpl in Hspec. destruct Hspec as (-> & Hs1 & Hn1 & Ha1 & _ & _ & Hheap).
  unfold Created. simpl. rewrite length_seq.
  pose proof Hs as (Ha & _ & _ & Hd & _).
  destruct (BulkInsert (ActiveParticles s) (NextParticle s) n Ha Hd) as [Hc' Hb'].
  destruct (bStartSleeping params); simpl.
  - split_and!; try done.
    + apply UpdateViews_Inv. split; [done|].
      eapply (ActiveSound_create s); [done..|].
      intros h Hin. left. by rewrite <- Ha1.
    + intros h. rewrite Ha1. split; [by left|]. by intros [?|[? _]].
  - split_and!; try done.
    + apply UpdateViews_Inv. split.
      * destruct Hs1 as (_ & Hb1 & Hc1 & _ & He1 & Hf1 & Hg1 & Hst1).
        rewrite <- Hn1 in Hb'. unfold Structural; simpl. rewrite Ha1. by split_and!.
      * simpl. eapply (ActiveSound_create s); [done..|].
        rewrite Ha1. simpl. intros h Hin.
        apply elem_of_app in Hin as [?|?]; [by left | by right].
    + intros h. rewrite Ha1. simpl. rewrite elem_of_app. tauto.
Qed.

Lemma CreateClusteredParticles_spec (n : nat) (params : ParticleParameters)
    (s : TPBDRigidsSOAs) :
  Inv s ->
  Created s (CreateClusteredParticles n params s).1 (CreateClusteredParticles n params s).2
          PT_Clustered ClusteredParticles (negb (bStartSleeping params)).
Proof.
  intros [[Hs Hsound] _]. unfold CreateClusteredParticles.
  pose proof (CreateParticlesHelper_spec PT_Clustered n ClusteredParticles s Hs) as Hspec.
  destruct (CreateParticlesHelper PT_Clustered n ClusteredParticles s) as [s1 hs] eqn:E.
  simpl in Hspec. destruct Hspec as (-> & Hs1 & Hn1 & Ha1 & Hb1 & Hc1 & Hheap).
  unfold Created. simpl. rewrite length_seq.
  pose proof Hs as (Ha & Hb & Hc & Hd & He & Hf & _).
  destruct (BulkInsert (ActiveParticles s) (NextParticle s) n Ha Hd) as [HcA HbA].
  destruct (BulkInsert (ActiveClustered s) (NextParticle s) n Hb He) as [HcB HbB].
  destruct (BulkInsert (NonDisabledClustered s) (NextParticle s) n Hc Hf) as [HcC HbC].
  destruct Hs1 as (Ha' & Hb' & Hc' & Hd' & He' & Hf' & Hg' & Hst').
  rewrite <- Hn1 in HbA, HbB, HbC.
  rewrite <- Ha1 in HcA, HbA. rewrite <- Hb1 in HcB, HbB. rewrite <- Hc1 in HcC, HbC.
  assert (Hstruct : forall s2, Heap s2 = Heap s1 -> Pool s2 = Pool s1 ->
            ParticleHandles s2 = ParticleHandles s1 -> NextParticle s2 = NextParticle s1 ->
            Consistent (ActiveParticles s2) -> Consistent (ActiveClustered s2) ->
            Consistent (NonDisabledClustered s2) ->
            Bounded (NextParticle s1) (ActiveParticles s2) ->
            Bounded (NextParticle s1) (ActiveClustered s2) ->
            Bounded (NextParticle s1) (NonDisabledClustered s2) -> Structural s2).
  { intros s2 H1 H2 H3 H4 ? ? ? ? ? ?. unfold Structural. rewrite H1, H2, H3, H4.
    by split_and!. }
  destruct (bDisabled params), (bStartSleeping params); simpl.
  all: split_and!; try done.
  all: try (apply UpdateViews_Inv; split).
  all: try (apply Hstruct; simpl; done).
  all: try (simpl; eapply (ActiveSound_create s); [done..|];
            rewrite ?Ha1; simpl; intros h Hin; rewrite ?elem_of_app in Hin; tauto).
  all: intros h; rewrite ?Ha1; simpl; rewrite ?elem_of_app, ?Ha1; intuition congruence.
Qed.

(** *** Calls and sequences of calls *)

(** Which particles the active index holds after a call, in terms of what
    it held before. *)
Definition ActiveAfter (c : Call) (s : TPBDRigidsSOAs) (h : ParticleHandle) : Prop :=
  let before := h ∈ Array (ActiveParticles s) in
  match c with
  | CallCreateStaticParticles _ _ | CallCreateKinematicParticles _ _ => before
  | CallCreateDynamicParticles n params | CallCreateClusteredParticles n params =>
      before ∨ (bStartSleeping params = false ∧ h ∈ seq (NextParticle s) n)
  | CallDestroyParticle x | CallDisableParticle x | CallDeactivateParticle x =>
      before ∧ h <> x
  | CallEnableParticle x =>
      before ∨ (h = x ∧ exists p, Heap s !! x = Some p
                                  ∧ AsDynamic p = true ∧ Sleeping p = false)
  | CallActivateParticle x =>
      before ∨ (h = x ∧ exists p, Heap s !! x = Some p ∧ AsDynamic p = true)
  | CallSetDynamicParticleSOA _ => before
  end.

(** The particle a call works on, if it works on one. *)
Definition Target (c : Call) : option ParticleHandle :=
  match c with
  | CallDestroyParticle x | CallDisableParticle x | CallEnableParticle x
  | CallActivateParticle x | CallDeactivateParticle x | CallSetDynamicParticleSOA x => Some x
  | _ => None
  end.

Lemma step_Some_alive (c : Call) (s s' : TPBDRigidsSOAs) (x : ParticleHandle) :
  step c s = Some s' -> Target c = Some x -> exists p, Heap s !! x = Some p.
Proof.
  intros Hstep Ht. destruct (Heap s !! x) as [p|] eqn:E; [by eexists|].
  exfalso. destruct c; simpl in Ht; inversion Ht; subst; simpl in Hstep;
    [ unfold DestroyParticle in Hstep | unfold DisableParticle in Hstep
    | unfold EnableParticle in Hstep | unfold ActivateParticle in Hstep
    | unfold DeactivateParticle in Hstep | unfold SetDynamicParticleSOA in Hstep ];
    rewrite E in Hstep; discriminate.
Qed.

(** One call keeps the invariant and changes the active index as
    [ActiveAfter] says. *)
Lemma step_spec (c : Call) (s s' : TPBDRigidsSOAs) :
  Inv s -> step c s = Some s' ->
  Inv s' ∧ (forall h, h ∈ Array (ActiveParticles s') <-> ActiveAfter c s h).
Proof.
  intros Hinv Hstep.
  destruct c as [n params|n params|n params|n params|x|x|x|x|x|x]; simpl in Hstep.
  - inversion Hstep; subst.
    destruct (CreateStaticParticles_spec n params s Hinv) as (_ & Hi & _ & _ & Hm).
    split; [done|]. intros h. rewrite Hm. simpl. split; [by intros [?|[? _]] | by left].
  - inversion Hstep; subst.
    destruct (CreateKinematicParticles_spec n params s Hinv) as (_ & Hi & _ & _ & Hm).
    split; [done|]. intros h. rewrite Hm. simpl. split; [by intros [?|[? _]] | by left].
  - inversion Hstep; subst.
    destruct (CreateDynamicParticles_spec n params s Hinv) as (_ & Hi & _ & _ & Hm).
    split; [done|]. intros h. rewrite Hm.
    change (CreateDynamicParticles n params s).2 with (seq (NextParticle s) n).
    simpl. rewrite negb_true_iff. tauto.
  - inversion Hstep; subst.
    destruct (CreateClusteredParticles_spec n params s Hinv) as (_ & Hi & _ & _ & Hm).
    split; [done|]. intros h. rewrite Hm.
    change (CreateClusteredParticles n params s).2 with (seq (NextParticle s) n).
    simpl. rewrite negb_true_iff. tauto.
  - destruct (step_Some_alive (CallDestroyParticle x) s s' x Hstep eq_refl) as [p Hp].
    destruct (DestroyParticle_spec x s p Hinv Hp) as [Hno Hyes].
    destruct (AsClustered p) eqn:Hc; [rewrite Hno in Hstep; done|].
    destruct (Hyes eq_refl) as (s2 & i & j & Heq & Hi & _ & _ & Hm & _).
    rewrite Heq in Hstep. inversion Hstep; subst. done.
  - destruct (step_Some_alive (CallDisableParticle x) s s' x Hstep eq_refl) as [p Hp].
    destruct (DisableParticle_spec x s p Hinv Hp) as (s2 & Heq & Hi & _ & _ & Hm).
    rewrite Heq in Hstep. inversion Hstep; subst. done.
  - destruct (step_Some_alive (CallEnableParticle x) s s' x Hstep eq_refl) as [p Hp].
    destruct (EnableParticle_spec x s p Hinv Hp) as (s2 & Heq & Hi & _ & _ & Hm).
    rewrite Heq in Hstep. inversion Hstep; subst. split; [done|].
    intros h. rewrite Hm. simpl. split.
    + intros [?|(-> & ? & ?)]; [by left|]. right. split; [done|]. by exists p.
    + intros [?|(-> & q & Hq & ? & ?)]; [by left|]. right.
      assert (q = p) as -> by congruence. done.
  - destruct (step_Some_alive (CallActivateParticle x) s s' x Hstep eq_refl) as [p Hp].
    destruct (ActivateParticle_spec x s p Hinv Hp) as [Hno Hyes].
    destruct (decide (AsDynamic p = true ∧ Disabled p = true)) as [[Hd He]|Hn].
    { rewrite (Hno Hd He) in Hstep. done. }
    destruct Hyes as (s2 & Heq & Hi & _ & _ & Hm).
    { destruct (AsDynamic p), (Disabled p); auto. exfalso. by apply Hn. }
    rewrite Heq in Hstep. inversion Hstep; subst. split; [done|].
    intros h. rewrite Hm. simpl. split.
    + intros [?|[-> ?]]; [by left|]. right. split; [done|]. by exists p.
    + intros [?|(-> & q & Hq & ?)]; [by left|]. right.
      assert (q = p) as -> by congruence. done.
  - destruct (step_Some_alive (CallDeactivateParticle x) s s' x Hstep eq_refl) as [p Hp].
    destruct (DeactivateParticle_spec x s p Hinv Hp) as [Hno Hyes].
    destruct (decide (AsDynamic p = true ∧ Disabled p = true)) as [[Hd He]|Hn].
    { rewrite (Hno Hd He) in Hstep. done. }
    destruct Hyes as (s2 & Heq & Hi & _ & _ & Hm).
    { destruct (AsDynamic p), (Disabled p); auto. exfalso. by apply Hn. }
    rewrite Heq in Hstep. inversion Hstep; subst. done.
  - destruct (step_Some_alive (CallSetDynamicParticleSOA x) s s' x Hstep eq_refl) as [p Hp].
    destruct Hinv as [[Hs Hsound] _].
    destruct (SetDynamicParticleSOA_spec x s p Hs Hp) as (s2 & Heq & Hs2 & Hv & Hh & Ha & _).
    rewrite Heq in Hstep. inversion Hstep; subst.
    split; [|intros h; by rewrite Ha].
    split; [|done]. split; [done|]. rewrite Hh, Ha.
    intros h Hin. destruct (Hsound h Hin) as (q & Hq & ? & ?).
    destruct (decide (h = x)) as [->|Hne].
    + exists (set_SOA (DynamicSOAOf p) p). rewrite lookup_insert_eq.
      assert (q = p) as -> by congruence. done.
    + exists q. by rewrite lookup_insert_ne.
Qed.

Lemma run_Inv (cs : list Call) (s s' : TPBDRigidsSOAs) :
  Inv s -> run cs s = Some s' -> Inv s'.
Proof.
  revert s. induction cs as [|c cs IH]; intros s Hinv Hrun; simpl in Hrun.
  - by inversion Hrun; subst.
  - destruct (step c s) as [s1|] eqn:E; [|done]. simpl in Hrun.
    apply (IH s1); [|done]. by apply (step_spec c s s1).
Qed.

(** *** Velocities of disabled particles *)





(** *** The active view *)

(** "Enabled and active" as a predicate on one particle, in the words of the
    specification: dynamic, not disabled, and awake. *)
Definition EnabledAndActive (p : Particle) : bool :=
  AsDynamic p && negb (Disabled p) && negb (Sleeping p).

(** The naive filter of all particles by a predicate on the particle. *)
Definition NaiveFilter (pred : Particle -> bool) (s : TPBDRigidsSOAs) : list ParticleHandle :=
  filter (fun h => from_option pred false (Heap s !! h) = true) (GetAllParticlesView s).

Definition OneAwake : list Call := [CallCreateDynamicParticles 1 DefaultParameters].

Definition OneDeactivated : list Call :=
  [CallCreateDynamicParticles 1 DefaultParameters; CallDeactivateParticle 0%nat].

Definition DeactivatedThenReenabled : list Call :=
  [CallCreateDynamicParticles 1 DefaultParameters; CallDeactivateParticle 0%nat;
   CallDisableParticle 0%nat; CallEnableParticle 0%nat].

Definition StartDisabled : list Call :=
  [CallCreateDynamicParticles 1 (MkParams true false)].

(** After creating a particle and deactivating it, the view is empty while
    the particle is still dynamic, enabled and awake; disabling and enabling
    it again puts it back in the view without any call to [ActivateParticle];
    and a particle created disabled but not sleeping is in the view while
    stored in the pool of disabled dynamics. *)
Example ActiveParticlesView_examples :
  (GetActiveParticlesView <$> run OneDeactivated NewSOAs = Some []
   ∧ NaiveFilter EnabledAndActive <$> run OneDeactivated NewSOAs = Some [0%nat])
  ∧ GetActiveParticlesView <$> run DeactivatedThenReenabled NewSOAs = Some [0%nat]
  ∧ (GetActiveParticlesView <$> run StartDisabled NewSOAs = Some [0%nat]
     ∧ (fun s => Pool s DynamicDisabledParticles) <$> run StartDisabled NewSOAs
       = Some [0%nat]).
Proof. repeat split; vm_compute; reflexivity. Qed.

(** C2, as stated, fails: no predicate on the state of a particle makes
    the active view the filter of the live particles by that predicate after
    every sequence of calls.  Creating one dynamic particle puts it in the
    view; deactivating it takes it out and leaves its state as it was. *)
Lemma ActiveParticlesView_not_a_filter :
  ~ exists pred : Particle -> bool,
      forall cs s, run cs NewSOAs = Some s ->
        forall h, h ∈ GetActiveParticlesView s <->
                  exists p, Heap s !! h = Some p ∧ pred p = true.
Proof.
  intros [pred Hpred].
  destruct (run OneAwake NewSOAs) as [sa|] eqn:Ea; [|vm_compute in Ea; discriminate].
  destruct (run OneDeactivated NewSOAs) as [sb|] eqn:Eb; [|vm_compute in Eb; discriminate].
  assert (Hva : GetActiveParticlesView sa = [0%nat]).
  { pose proof (f_equal (fmap GetActiveParticlesView) Ea) as H.
    vm_compute in H. inversion H as [H']. symmetry. exact H'. }
  assert (Hvb : GetActiveParticlesView sb = []).
  { pose proof (f_equal (fmap GetActiveParticlesView) Eb) as H.
    vm_compute in H. inversion H as [H']. symmetry. exact H'. }
  assert (Hha : Heap sa !! 0%nat = Some (DefaultParticle PT_Rigid DynamicParticles)).
  { pose proof (f_equal (fun o => o ≫= fun s => Heap s !! 0%nat) Ea) as H.
    vm_compute in H. symmetry. exact H. }
  assert (Hhb : Heap sb !! 0%nat = Some (DefaultParticle PT_Rigid DynamicParticles)).
  { pose proof (f_equal (fun o => o ≫= fun s => Heap s !! 0%nat) Eb) as H.
    vm_compute in H. symmetry. exact H. }
  assert (Hin : 0%nat ∈ GetActiveParticlesView sa) by (rewrite Hva; by left).
  apply (Hpred OneAwake sa Ea) in Hin as (p & Hp & Htrue).
  pose proof (eq_trans (eq_sym Hp) Hha) as Heq. inversion Heq; subst. clear Heq.
  assert (Hin' : 0%nat ∈ GetActiveParticlesView sb).
  { apply (Hpred OneDeactivated sb Eb). eexists. split; [exact Hhb | exact Htrue]. }
  rewrite Hvb in Hin'. by apply elem_of_nil in Hin'.
Qed.

Lemma ViewsFresh_active (s : TPBDRigidsSOAs) :
  ViewsFresh s -> GetActiveParticlesView s = Array (ActiveParticles s).
Proof.
  intros Hv. unfold GetActiveParticlesView.
  pose proof (f_equal ActiveParticlesView Hv) as H. simpl in H. by symmetry.
Qed.

(** C2, amended: after any finite sequence of calls that trips no check,
    [GetActiveParticlesView()] is the array of the active index, kept in step
    by every call (no rebuild is needed): map and array agree, no particle
    occurs twice, every particle in the view is alive, dynamic and not
    disabled, and each further call changes the content of the view as
    [ActiveAfter] says: creation adds the new particles unless they start
    sleeping, [ActivateParticle] adds a dynamic particle, [EnableParticle]
    adds a dynamic particle that is not sleeping, and [DisableParticle],
    [DeactivateParticle] and [DestroyParticle] take the particle out. *)
Theorem ActiveParticlesView_kept_in_step (cs : list Call) (s : TPBDRigidsSOAs) :
  run cs NewSOAs = Some s ->
  GetActiveParticlesView s = Array (ActiveParticles s)
  ∧ Consistent (ActiveParticles s)
  ∧ NoDup (GetActiveParticlesView s)
  ∧ (forall h, h ∈ GetActiveParticlesView s ->
       exists p, Heap s !! h = Some p ∧ AsDynamic p = true ∧ Disabled p = false)
  ∧ (forall c s', step c s = Some s' ->
       forall h, h ∈ GetActiveParticlesView s' <-> ActiveAfter c s h).
Proof.
  intros Hrun.
  pose proof (run_Inv cs NewSOAs s NewSOAs_Inv Hrun) as Hinv.
  pose proof Hinv as [[Hs Hsound] Hv].
  pose proof (ViewsFresh_active s Hv) as Hview.
  rewrite Hview. split_and!; try done.
  - apply Hs.
  - apply Consistent_NoDup, Hs.
  - intros c s' Hstep h.
    destruct (step_spec c s s' Hinv Hstep) as [[_ Hv'] Hm].
    rewrite (ViewsFresh_active s' Hv'). apply Hm.
Qed.

Lemma ActiveParticlesView_kept_in_step_witness :
  exists s, run DeactivatedThenReenabled NewSOAs = Some s
            ∧ GetActiveParticlesView s = Array (ActiveParticles s)
            ∧ NoDup (GetActiveParticlesView s).
Proof.
  destruct (run DeactivatedThenReenabled NewSOAs) as [s|] eqn:E;
    [|vm_compute in E; discriminate].
  exists s. split; [reflexivity|].
  destruct (ActiveParticlesView_kept_in_step DeactivatedThenReenabled s E)
    as (Hview & _ & Hnd & _).
  split; [exact Hview | exact Hnd].
Defined.

(** *** Disabled particles are at rest *)



(** *** [DestroyParticle] *)

(** What [DestroyParticle] leaves alone: the pools other than the
    particle's and the two indices of clustered particles. *)
Lemma DestroyParticle_frame (h : ParticleHandle) (s s' : TPBDRigidsSOAs) (p : Particle) :
  Heap s !! h = Some p -> DestroyParticle h s = Some s' ->
  (forall k, k <> SOA p -> Pool s' k = Pool s k)
  ∧ NonDisabledClustered s' = NonDisabledClustered s
  ∧ ActiveClustered s' = ActiveClustered s.
Proof.
  intros Hp. unfold DestroyParticle. rewrite Hp. simpl.
  destruct (AsClustered p); [done|].
  assert (Hswap : forall s1, Heap s1 = Heap s -> Pool s1 = Pool s ->
            NonDisabledClustered s1 = NonDisabledClustered s ->
            ActiveClustered s1 = ActiveClustered s ->
            (s2 ← DestroyHandleSwap h s1; Some (UpdateViews s2)) = Some s' ->
            (forall k, k <> SOA p -> Pool s' k = Pool s k)
            ∧ NonDisabledClustered s' = NonDisabledClustered s
            ∧ ActiveClustered s' = ActiveClustered s).
  { intros s1 Hh Hpool Hnd Hac. unfold DestroyHandleSwap. rewrite Hh, Hp. simpl.
    destruct (SlotOf h (ParticleHandles s1)); [|done]. simpl.
    destruct (SlotOf h (Pool s1 (SOA p))); [|done]. simpl.
    intros [= <-]. simpl. split_and!; [|done..].
    intros k Hk. rewrite decide_False by done. by rewrite Hpool. }
  destruct (AsDynamic p).
  - destruct (RemoveFromMapAndArray h (ActiveParticles s)) as [m|]; [|done]. simpl.
    by apply Hswap.
  - simpl. by apply Hswap.
Qed.

(** C10: [DestroyParticle] asserts that its argument is not clustered, so
    on a clustered particle the call fails and destroys nothing.  On any other
    live particle it succeeds: the particle leaves the active index (which
    concerns dynamic particles only; the rest of the index is unchanged), its
    handle leaves the handle array by swap-with-last and stops being alive,
    its slot in its pool is freed while the other pools and the indices of
    clustered particles stay as they are, and every one of the five views is
    rebuilt from the pools and indices as they are after the destruction. *)
Theorem DestroyParticle_non_clustered (h : ParticleHandle) (s : TPBDRigidsSOAs)
    (p : Particle) :
  Inv s -> Heap s !! h = Some p ->
  (AsClustered p = true -> DestroyParticle h s = None)
  ∧ (AsClustered p = false ->
     exists s' HandleIdx ParticleIdx,
       DestroyParticle h s = Some s'
       ∧ (forall h', h' ∈ Array (ActiveParticles s') <->
                     h' ∈ Array (ActiveParticles s) ∧ h' <> h)
       ∧ Consistent (ActiveParticles s')
       ∧ (AsDynamic p = false -> h ∉ Array (ActiveParticles s))
       ∧ ParticleHandles s !! HandleIdx = Some h
       ∧ ParticleHandles s' = RemoveAtSwap HandleIdx (ParticleHandles s)
       ∧ Pool s (SOA p) !! ParticleIdx = Some h
       ∧ Pool s' (SOA p) = FreeSlot (SOA p) ParticleIdx (Pool s (SOA p))
       ∧ (forall k, k <> SOA p -> Pool s' k = Pool s k)
       ∧ NonDisabledClustered s' = NonDisabledClustered s
       ∧ ActiveClustered s' = ActiveClustered s
       ∧ Heap s' = delete h (Heap s)
       ∧ GetNonDisabledView s'
         = Pool s' StaticParticles ++ Pool s' KinematicParticles
           ++ Pool s' DynamicParticles ++ Pool s' DynamicKinematicParticles
           ++ Array (NonDisabledClustered s')
       ∧ GetNonDisabledDynamicView s'
         = Pool s' DynamicParticles ++ Array (NonDisabledClustered s')
       ∧ GetActiveParticlesView s' = Array (ActiveParticles s')
       ∧ GetAllParticlesView s'
         = Pool s' StaticParticles ++ Pool s' StaticDisabledParticles
           ++ Pool s' KinematicParticles ++ Pool s' KinematicDisabledParticles
           ++ Pool s' DynamicParticles ++ Pool s' DynamicDisabledParticles
           ++ Pool s' DynamicKinematicParticles ++ Pool s' ClusteredParticles
       ∧ GetActiveKinematicParticlesView s'
         = Pool s' KinematicParticles ++ Pool s' DynamicKinematicParticles
       ∧ Inv s').
Proof.
  intros Hinv Hp.
  destruct (DestroyParticle_spec h s p Hinv Hp) as [Hno Hyes].
  split; [exact Hno|]. intros Hc.
  destruct (Hyes Hc) as (s' & i & j & Heq & Hinv' & Hheap & _ & Hm & Hi & Hph & Hj & Hpool).
  destruct (DestroyParticle_frame h s s' p Hp Heq) as (Hother & Hnd & Hac).
  exists s', i, j. pose proof Hinv' as [[Hs' _] Hv'].
  unfold GetNonDisabledView, GetNonDisabledDynamicView, GetAllParticlesView,
    GetActiveKinematicParticlesView.
  split_and!; try done.
  - apply Hs'.
  - intros Hd. destruct Hinv as [[_ Hsound] _].
    by eapply not_dynamic_not_active.
  - exact (eq_sym (f_equal NonDisabledView Hv')).
  - exact (eq_sym (f_equal NonDisabledDynamicView Hv')).
  - by apply ViewsFresh_active.
  - exact (eq_sym (f_equal AllParticlesView Hv')).
  - exact (eq_sym (f_equal ActiveKinematicParticlesView Hv')).
Qed.

(** Three dynamic particles, all awake. *)
Definition ThreeAwake : list Call := [CallCreateDynamicParticles 3 DefaultParameters].

Lemma ThreeAwake_state (s : TPBDRigidsSOAs) :
  run ThreeAwake NewSOAs = Some s ->
  Heap s !! 0%nat = Some (DefaultParticle PT_Rigid DynamicParticles)
  ∧ ParticleHandles s = [0%nat; 1%nat; 2%nat]
  ∧ (forall k, Pool s k = if decide (k = DynamicParticles) then [0%nat; 1%nat; 2%nat] else [])
  ∧ Array (ActiveParticles s) = [0%nat; 1%nat; 2%nat]
  ∧ Array (NonDisabledClustered s) = [].
Proof.
  intros E.
  pose proof (f_equal (fun o => o ≫= fun s => Heap s !! 0%nat) E) as H1.
  pose proof (f_equal (fmap ParticleHandles) E) as H2.
  pose proof (f_equal (fmap (fun s => Pool s <$> [StaticParticles; StaticDisabledParticles;
                                KinematicParticles; KinematicDisabledParticles;
                                DynamicParticles; DynamicKinematicParticles;
                                DynamicDisabledParticles; ClusteredParticles])) E) as H3.
  pose proof (f_equal (fmap (fun s => Array (ActiveParticles s))) E) as H4.
  pose proof (f_equal (fmap (fun s => Array (NonDisabledClustered s))) E) as H5.
  vm_compute in H1, H2, H3, H4, H5.
  inversion H2 as [H2']. inversion H3 as [H3']. inversion H4 as [H4']. inversion H5 as [H5'].
  split_and!; try done.
  intros k. by destruct k.
Qed.

Lemma DestroyParticle_non_clustered_witness :
  exists s s',
    run ThreeAwake NewSOAs = Some s
    ∧ DestroyParticle 0%nat s = Some s'
    ∧ Heap s' = delete 0%nat (Heap s)
    ∧ ParticleHandles s' = [2%nat; 1%nat]
    ∧ (forall h', h' ∈ GetActiveParticlesView s' <-> h' ∈ [0%nat; 1%nat; 2%nat] ∧ h' <> 0%nat)
    ∧ GetAllParticlesView s' = [2%nat; 1%nat]
    ∧ GetNonDisabledView s' = [2%nat; 1%nat]
    ∧ GetNonDisabledDynamicView s' = [2%nat; 1%nat]
    ∧ GetActiveKinematicParticlesView s' = [].
Proof.
  destruct (run ThreeAwake NewSOAs) as [s|] eqn:E; [|vm_compute in E; discriminate].
  destruct (ThreeAwake_state s E) as (Hp & Hhs & Hpools & Hact & Hndc).
  destruct (proj2 (DestroyParticle_non_clustered 0%nat s _
                     (run_Inv ThreeAwake NewSOAs s NewSOAs_Inv E) Hp) eq_refl)
    as (s' & i & j & Hd & Hm & _ & _ & Hi & Hph & Hj & Hpool & Hother & Hnd & _ & Hheap
        & Hv1 & Hv2 & Hv3 & Hv4 & Hv5 & _).
  assert (i = 0%nat) as ->.
  { rewrite Hhs in Hi. by destruct i as [|[|[|i]]]. }
  assert (j = 0%nat) as ->.
  { rewrite Hpools in Hj. simpl in Hj. by destruct j as [|[|[|j]]]. }
  assert (Hdyn : Pool s' DynamicParticles = [2%nat; 1%nat]).
  { change DynamicParticles with (SOA (DefaultParticle PT_Rigid DynamicParticles)).
    rewrite Hpool, Hpools. reflexivity. }
  assert (Hrest : forall k, k <> DynamicParticles -> Pool s' k = []).
  { intros k Hk. rewrite (Hother k Hk), Hpools. by rewrite decide_False. }
  exists s, s'. split_and!; try done.
  - rewrite Hph, Hhs. reflexivity.
  - intros h'. rewrite Hv3, Hm, Hact. reflexivity.
  - rewrite Hv4, Hdyn, !Hrest by done. reflexivity.
  - rewrite Hv1, Hdyn, !Hrest, Hnd, Hndc by done. reflexivity.
  - rewrite Hv2, Hdyn, Hnd, Hndc. reflexivity.
  - rewrite Hv5, !Hrest by done. reflexivity.
Defined.

(** A clustered particle cannot be destroyed through [DestroyParticle]. *)
Example DestroyParticle_clustered :
  run [CallCreateClusteredParticles 1 DefaultParameters; CallDestroyParticle 0%nat] NewSOAs
  = None.
Proof. vm_compute. reflexivity. Qed.

End StoreInvariant.

(** ** Exact binary32 subtraction *)

Section Binary32.

(** The number of binary digits of a mantissa. *)
Lemma digits2_pos_size (m : positive) : digits2_pos m = Pos.size m.
Proof. induction m; simpl; congruence. Qed.

(** A mantissa of [d] digits lies in [[2^(d-1), 2^d)], and conversely. *)
Lemma digits2_bounds (m : positive) :
  2 ^ (Z.pos (digits2_pos m) - 1) <= Z.pos m < 2 ^ Z.pos (digits2_pos m).
Proof.
  rewrite digits2_pos_size.
  pose proof (Pos.size_gt m) as Hgt. pose proof (Pos.size_le m) as Hle.
  split.
  - assert (H : (2 ^ Pos.size m <= m~0)%positive) by exact Hle.
    apply Pos2Z.pos_le_pos in H. rewrite Pos2Z.inj_pow in H.
    rewrite (Pos2Z.inj_xO m) in H.
    replace (Z.pos (Pos.size m)) with (Z.succ (Z.pos (Pos.size m) - 1)) in H by lia.
    rewrite Z.pow_succ_r in H by lia. lia.
  - apply Pos2Z.pos_lt_pos in Hgt. rewrite Pos2Z.inj_pow in Hgt. exact Hgt.
Qed.

Lemma digits2_unique (m : positive) (d : Z) :
  2 ^ (d - 1) <= Z.pos m < 2 ^ d -> 0 < d -> Z.pos (digits2_pos m) = d.
Proof.
  intros [Hlo Hhi] Hd. pose proof (digits2_bounds m) as [Hlo' Hhi'].
  destruct (Z.lt_trichotomy (Z.pos (digits2_pos m)) d) as [Hlt|[Heq|Hgt]]; [|done|].
  - exfalso.
    assert (2 ^ Z.pos (digits2_pos m) <= 2 ^ (d - 1)) by (apply Z.pow_le_mono_r; lia). lia.
  - exfalso.
    assert (2 ^ d <= 2 ^ (Z.pos (digits2_pos m) - 1)) by (apply Z.pow_le_mono_r; lia). lia.
Qed.

(** A left shift multiplies by a power of two and adds as many digits. *)
Lemma shift_pos_value (a c : positive) : Z.pos (shift_pos a c) = Z.pos c * 2 ^ Z.pos a.
Proof. rewrite shift_pos_correct, Z.pow_pos_fold. lia. Qed.

Lemma digits2_shift (a c : positive) :
  Z.pos (digits2_pos (shift_pos a c)) = Z.pos (digits2_pos c) + Z.pos a.
Proof.
  apply digits2_unique; [|lia]. rewrite shift_pos_value.
  pose proof (digits2_bounds c) as [Hlo Hhi].
  replace (Z.pos (digits2_pos c) + Z.pos a - 1) with (Z.pos (digits2_pos c) - 1 + Z.pos a) by lia.
  rewrite !Z.pow_add_r by lia.
  assert (0 < 2 ^ Z.pos a) by (apply Z.pow_pos_nonneg; lia).
  split; nia.
Qed.

(** Shifting an exact record right by the number of bits it was shifted
    left gives the record back, with no bit lost. *)
Lemma iter_shr_1_shift (p q : positive) :
  SpecFloat.iter_pos shr_1 p (Build_shr_record (Z.pos (shift_pos p q)) false false)
  = Build_shr_record (Z.pos q) false false.
Proof.
  revert q. induction p as [p IH|p IH|]; intros q.
  - change (shift_pos p~1 q) with (xO (shift_pos p (shift_pos p q))).
    cbn [SpecFloat.iter_pos shr_1 orb]. by rewrite !IH.
  - change (shift_pos p~0 q) with (shift_pos p (shift_pos p q)).
    cbn [SpecFloat.iter_pos]. by rewrite !IH.
  - reflexivity.
Qed.


(** The exponent of a normal binary32 value with [k] digits above the
    binary point. *)
Lemma fexp32 (k : Z) : -149 <= k - 24 -> fexp 24 128 k = k - 24.
Proof. intros H. unfold fexp, emin. lia. Qed.

(** A mantissa of 24 digits with an exponent in range is a fixed point of
    rounding. *)
Lemma binary_round_aux_canonical (q : positive) (e : Z) :
  Z.pos (digits2_pos q) = 24 -> -149 <= e <= 104 ->
  binary_round_aux 24 128 false (Z.pos q) e loc_Exact = S754_finite false q e.
Proof.
  intros Hd He. unfold binary_round_aux.
  assert (Hs : shr_fexp 24 128 (Z.pos q) e loc_Exact
               = (Build_shr_record (Z.pos q) false false, e)).
  { unfold shr_fexp. cbn [Zdigits2 shr_record_of_loc]. rewrite Hd.
    rewrite fexp32 by lia. replace (24 + e - 24 - e) with 0 by lia. reflexivity. }
  rewrite Hs. cbn [shr_m loc_of_shr_record round_nearest_even]. rewrite Hs.
  cbn [shr_m]. destruct (Z.leb_spec e (128 - 24)); [reflexivity | lia].
Qed.

Lemma pos_of_Z (z : Z) : 0 < z -> exists p : positive, Z.pos p = z.
Proof. intros H. exists (Z.to_pos z). by rewrite Z2Pos.id. Qed.

(** Rounding a value [c * 2^(ez + a)] whose significand [c] fits in 24 bits
    is exact: the result is [c] normalised to 24 digits. *)
Lemma binary_round_exact (M c : positive) (a ez : Z) :
  0 <= a -> Z.pos M = Z.pos c * 2 ^ a ->
  Z.pos (digits2_pos c) <= 24 ->
  -149 <= ez + a + Z.pos (digits2_pos c) - 24 <= 104 ->
  exists q,
    binary_round 24 128 false M ez
      = S754_finite false q (ez + a + Z.pos (digits2_pos c) - 24)
    /\ Z.pos q = Z.pos c * 2 ^ (24 - Z.pos (digits2_pos c))
    /\ Z.pos (digits2_pos q) = 24.
Proof.
  intros Ha HM Hdc He.
  set (dc := Z.pos (digits2_pos c)) in *.
  pose proof (digits2_bounds c) as [Hclo Hchi]. fold dc in Hclo, Hchi.
  assert (Hpa : 0 < 2 ^ a) by (apply Z.pow_pos_nonneg; lia).
  assert (Hpn : 0 < 2 ^ (24 - dc)) by (apply Z.pow_pos_nonneg; lia).
  destruct (pos_of_Z (Z.pos c * 2 ^ (24 - dc))) as [q Hq]; [nia|].
  assert (Hdq : Z.pos (digits2_pos q) = 24).
  { apply digits2_unique; [|lia]. rewrite Hq.
    assert (E1 : 2 ^ (24 - 1) = 2 ^ (dc - 1) * 2 ^ (24 - dc))
      by (rewrite <- Z.pow_add_r by lia; f_equal; lia).
    assert (E2 : 2 ^ 24 = 2 ^ dc * 2 ^ (24 - dc))
      by (rewrite <- Z.pow_add_r by lia; f_equal; lia).
    rewrite E1, E2. split; nia. }
  assert (HdM : Z.pos (digits2_pos M) = dc + a).
  { apply digits2_unique; [|lia]. rewrite HM.
    assert (E1 : 2 ^ (dc + a - 1) = 2 ^ (dc - 1) * 2 ^ a)
      by (rewrite <- Z.pow_add_r by lia; f_equal; lia).
    assert (E2 : 2 ^ (dc + a) = 2 ^ dc * 2 ^ a)
      by (rewrite <- Z.pow_add_r by lia; f_equal; lia).
    rewrite E1, E2. split; nia. }
  exists q. split; [|done].
  unfold binary_round. rewrite HdM.
  rewrite fexp32 by lia.
  unfold shl_align.
  destruct (dc + a + ez - 24 - ez) as [|p|p] eqn:Ediff.
  - (* the mantissa has 24 digits already *)
    assert (M = q) as ->.
    { apply Pos2Z.inj. rewrite HM, Hq. f_equal. f_equal. lia. }
    rewrite binary_round_aux_canonical by (done || lia). f_equal. lia.
  - (* more than 24 digits: shift right, exactly *)
    assert (HMq : M = shift_pos p q).
    { apply Pos2Z.inj. rewrite shift_pos_value, HM, Hq.
      rewrite <- Z.mul_assoc, <- Z.pow_add_r by lia. f_equal. f_equal. lia. }
    unfold binary_round_aux.
    assert (Hs : shr_fexp 24 128 (Z.pos M) ez loc_Exact
                 = (Build_shr_record (Z.pos q) false false, ez + Z.pos p)).
    { unfold shr_fexp. cbn [Zdigits2 shr_record_of_loc]. rewrite HdM.
      rewrite fexp32 by lia. rewrite Ediff. unfold shr.
      rewrite HMq. by rewrite iter_shr_1_shift. }
    rewrite Hs. cbn [shr_m loc_of_shr_record round_nearest_even].
    assert (Hs2 : shr_fexp 24 128 (Z.pos q) (ez + Z.pos p) loc_Exact
                 = (Build_shr_record (Z.pos q) false false, ez + Z.pos p)).
    { unfold shr_fexp. cbn [Zdigits2 shr_record_of_loc]. rewrite Hdq.
      rewrite fexp32 by lia.
      replace (24 + (ez + Z.pos p) - 24 - (ez + Z.pos p)) with 0 by lia. reflexivity. }
    rewrite Hs2. cbn [shr_m].
    destruct (Z.leb_spec (ez + Z.pos p) (128 - 24)); [|lia]. f_equal. lia.
  - (* fewer than 24 digits: shift left *)
    assert (Hq' : Pos.iter xO M p = q).
    { change (Pos.iter xO M p) with (shift_pos p M).
      apply Pos2Z.inj. rewrite shift_pos_value, HM, Hq.
      rewrite <- Z.mul_assoc, <- Z.pow_add_r by lia. f_equal. f_equal. lia. }
    rewrite Hq'. rewrite binary_round_aux_canonical by (done || lia). f_equal. lia.
Qed.


(** What [bounded] says about a mantissa and an exponent. *)
Lemma bounded32 (m : positive) (e : Z) :
  bounded 24 128 m e = true ->
  -149 <= e <= 104 /\ Z.pos m < 2 ^ 24 /\ (-149 < e -> 2 ^ 23 <= Z.pos m).
Proof.
  unfold bounded, canonical_mantissa, fexp, emin. intros H.
  apply andb_prop in H as [Hc He].
  apply Z.eqb_eq in Hc. apply Z.leb_le in He.
  pose proof (digits2_bounds m) as [Hlo Hhi].
  assert (Hd : Z.pos (digits2_pos m) <= 24) by lia.
  split; [lia|]. split.
  - assert (2 ^ Z.pos (digits2_pos m) <= 2 ^ 24) by (apply Z.pow_le_mono_r; lia). lia.
  - intros Hn. assert (Z.pos (digits2_pos m) = 24) as Hd24 by lia.
    rewrite Hd24 in Hlo. exact Hlo.
Qed.

Lemma bounded32_intro (q : positive) (e : Z) :
  Z.pos (digits2_pos q) = 24 -> -149 <= e <= 104 -> bounded 24 128 q e = true.
Proof.
  intros Hd He. unfold bounded, canonical_mantissa, fexp, emin. rewrite Hd.
  apply andb_true_intro. split; [apply Z.eqb_eq | apply Z.leb_le]; lia.
Qed.

(** Powers of two grow with the exponent. *)
Lemma pow2_le (a b : Z) : 0 <= a <= b -> 2 ^ a <= 2 ^ b.
Proof. intros H. apply Z.pow_le_mono_r; lia. Qed.

(** [x > 1.0f] in terms of the exact value of [x], in units of [2^-149]. *)
Lemma gt_one_iff (m : positive) (e : Z) :
  bounded 24 128 m e = true ->
  (fgt (S754_finite false m e) fone = true <-> 2 ^ 149 < Z.pos m * 2 ^ (e + 149)).
Proof.
  intros Hb. destruct (bounded32 m e Hb) as (He & Hm & Hn).
  unfold fgt, SFltb, SFcompare, fone.
  change (Pos.compare_cont Eq 8388608 m) with (8388608 ?= m)%positive.
  assert (Hp : 0 < 2 ^ (e + 149)) by (apply Z.pow_pos_nonneg; lia).
  destruct (Z.compare_spec (-23) e) as [Heq|Hlt|Hgt].
  - subst e. change (2 ^ (-23 + 149)) with (2 ^ 126). change (2 ^ 149) with (2 ^ 23 * 2 ^ 126).
    destruct (Pos.compare_spec 8388608 m) as [Hc|Hc|Hc].
    + subst m. split; [done|]. lia.
    + split; [|done]. intros _. apply Pos2Z.pos_lt_pos in Hc.
      change (Z.pos 8388608) with (2 ^ 23) in Hc. nia.
    + split; [done|]. apply Pos2Z.pos_lt_pos in Hc.
      change (Z.pos 8388608) with (2 ^ 23) in Hc. nia.
  - split; [|done]. intros _.
    assert (2 ^ 127 <= 2 ^ (e + 149)) by (apply pow2_le; lia).
    specialize (Hn ltac:(lia)).
    change (2 ^ 149) with (2 ^ 22 * 2 ^ 127). nia.
  - split; [done|]. intros Hbig. exfalso.
    assert (2 ^ (e + 149) <= 2 ^ 125) by (apply pow2_le; lia).
    change (2 ^ 149) with (2 ^ 24 * 2 ^ 125) in Hbig. nia.
Qed.

(** [x - 1.0f] for [x] with an exponent of at least [-23]: both mantissas
    are aligned at exponent [-23], where [1.0f] is [2^23], and the exact
    difference is rounded. *)
Lemma SFsub_one_aligned (m : positive) (e : Z) :
  -23 <= e ->
  fsub (S754_finite false m e) fone
  = binary_normalize 24 128 (Z.pos m * 2 ^ (e + 23) - 2 ^ 23) (-23) false.
Proof.
  intros He. unfold fsub, prec, emax, SFsub, fone.
  replace (Z.min e (-23)) with (-23) by lia.
  change (shl_align 8388608 (-23) (-23)) with (8388608%positive, -23).
  unfold shl_align. destruct (-23 - e) as [|p|p] eqn:Ed; try lia.
  - replace (e + 23) with 0 by lia. cbn [fst cond_Zopp negb]. f_equal. lia.
  - cbn [fst cond_Zopp negb]. f_equal.
    change (PosDef.Pos.iter xO m p) with (shift_pos p m).
    rewrite shift_pos_value. replace (e + 23) with (Z.pos p) by lia. reflexivity.
Qed.

(** For [1 < x <= 2^24] the difference [x - 1.0f] is a positive [float]
    again, and no rounding takes place. *)
Lemma sub_one_exact (m : positive) (e : Z) :
  bounded 24 128 m e = true ->
  2 ^ 149 < Z.pos m * 2 ^ (e + 149) <= 2 ^ 173 ->
  exists q e',
    fsub (S754_finite false m e) fone = S754_finite false q e'
    /\ bounded 24 128 q e' = true
    /\ Z.pos q * 2 ^ (e' + 149) = Z.pos m * 2 ^ (e + 149) - 2 ^ 149.
Proof.
  intros Hb [Hlo Hhi]. destruct (bounded32 m e Hb) as (He & Hm & Hn).
  assert (He23 : -23 <= e).
  { destruct (Z_lt_le_dec e (-23)) as [Hlt|]; [exfalso|done].
    assert (2 ^ (e + 149) <= 2 ^ 125) by (apply pow2_le; lia).
    change (2 ^ 149) with (2 ^ 24 * 2 ^ 125) in Hlo. nia. }
  specialize (Hn ltac:(lia)).
  assert (He1 : e <= 1).
  { destruct (Z_lt_le_dec 1 e) as [Hlt|]; [exfalso|done].
    assert (2 ^ 151 <= 2 ^ (e + 149)) by (apply pow2_le; lia).
    change (2 ^ 173) with (2 ^ 22 * 2 ^ 151) in Hhi. nia. }
  destruct (Z.eq_dec e 1) as [->|Hne].
  - assert (m = 8388608%positive) as ->.
    { change (2 ^ (1 + 149)) with (2 ^ 150) in Hhi.
      change (2 ^ 173) with (2 ^ 23 * 2 ^ 150) in Hhi.
      change (2 ^ 23) with 8388608 in *.
      assert (0 < 2 ^ 150) by (apply Z.pow_pos_nonneg; lia). nia. }
    exists 16777215%positive, 0. split_and!; reflexivity.
  - rewrite SFsub_one_aligned by done.
    set (a := e + 23).
    assert (Ha : 0 <= a <= 23) by lia.
    assert (Hpa : 0 < 2 ^ (23 - a)) by (apply Z.pow_pos_nonneg; lia).
    assert (Hpa' : 0 < 2 ^ a) by (apply Z.pow_pos_nonneg; lia).
    assert (E23 : 2 ^ (23 - a) * 2 ^ a = 2 ^ 23).
    { rewrite <- Z.pow_add_r by lia. f_equal. lia. }
    assert (E149 : 2 ^ (e + 149) = 2 ^ a * 2 ^ 126).
    { rewrite <- Z.pow_add_r by lia. f_equal. lia. }
    assert (Hc : 0 < Z.pos m - 2 ^ (23 - a)).
    { rewrite E149 in Hlo. change (2 ^ 149) with (2 ^ 23 * 2 ^ 126) in Hlo.
      rewrite <- E23 in Hlo. nia. }
    destruct (pos_of_Z _ Hc) as [c Hcz].
    assert (HM : 0 < Z.pos m * 2 ^ a - 2 ^ 23) by nia.
    destruct (pos_of_Z _ HM) as [M HMz].
    rewrite <- HMz. cbn [binary_normalize].
    assert (Hdc : Z.pos (digits2_pos c) <= 24).
    { pose proof (digits2_bounds c) as [Hl _].
      destruct (Z_lt_le_dec 24 (Z.pos (digits2_pos c))) as [Hbig|]; [exfalso|done].
      assert (2 ^ 24 <= 2 ^ (Z.pos (digits2_pos c) - 1)) by (apply pow2_le; lia).
      lia. }
    assert (HMc : Z.pos M = Z.pos c * 2 ^ a) by (rewrite HMz, Hcz; nia).
    assert (Hrange : -149 <= -23 + a + Z.pos (digits2_pos c) - 24 <= 104) by lia.
    destruct (binary_round_exact M c a (-23) (proj1 Ha) HMc Hdc Hrange)
      as (q & Hq & Hqv & Hdq).
    exists q, (-23 + a + Z.pos (digits2_pos c) - 24). split_and!.
    + exact Hq.
    + apply bounded32_intro; [done | lia].
    + rewrite Hqv, Hcz.
      set (dc := Z.pos (digits2_pos c)) in *.
      assert (Edc : 2 ^ (24 - dc) * 2 ^ (-23 + a + dc - 24 + 149) = 2 ^ (a + 126)).
      { rewrite <- Z.pow_add_r by lia. f_equal. lia. }
      assert (Ea : 2 ^ (a + 126) = 2 ^ a * 2 ^ 126) by (apply Z.pow_add_r; lia).
      rewrite E149. change (2 ^ 149) with (2 ^ 23 * 2 ^ 126). rewrite <- E23.
      rewrite <- Z.mul_assoc, Edc, Ea. ring.
Qed.

End Binary32.

(** ** The sub-stepping driver *)

Section ClothSubSteps.
Import Cloth.

(** A positive finite [float]: sign bit clear, mantissa and exponent in
    canonical form. *)
Definition PositiveFinite (x : FReal) : Prop :=
  match x with
  | S754_finite false m e => bounded 24 128 m e = true
  | _ => False
  end.

(** The exact value of a positive finite [float], counted in units of
    [2^-149] (the smallest positive [float]). *)
Definition Units (x : FReal) : Z :=
  match x with
  | S754_finite false m e => Z.pos m * 2 ^ (e + 149)
  | _ => 0
  end.

(** A frame of [2^25] seconds. *)
Definition LongFrame : FReal := S754_finite false 8388608 2.

(** A frame of two and a half seconds. *)
Definition ShortFrame : FReal := S754_finite false 10485760 (-22).

Lemma PositiveFinite_inv (x : FReal) :
  PositiveFinite x ->
  exists m e, x = S754_finite false m e /\ bounded 24 128 m e = true.
Proof.
  destruct x as [| | |[|] m e]; simpl; try tauto.
  intros H. exists m, e. split; [reflexivity | exact H].
Qed.

Lemma Units_positive (x : FReal) : PositiveFinite x -> 0 < Units x.
Proof.
  intros (m & e & -> & Hb)%PositiveFinite_inv. simpl.
  destruct (bounded32 m e Hb) as (He & _ & _).
  assert (0 < 2 ^ (e + 149)) by (apply Z.pow_pos_nonneg; lia). lia.
Qed.

Lemma PositiveFinite_nonzero (x : FReal) : PositiveFinite x -> feq x fzero = false.
Proof. intros (m & e & -> & _)%PositiveFinite_inv. reflexivity. Qed.

(** The loop test and the loop body on positive finite frames. *)
Lemma fgt_Units (x : FReal) :
  PositiveFinite x -> (fgt x fone = true <-> Units fone < Units x).
Proof.
  intros (m & e & -> & Hb)%PositiveFinite_inv.
  change (Units fone) with (2 ^ 149). apply gt_one_iff, Hb.
Qed.

Lemma fsub_Units (x : FReal) :
  PositiveFinite x -> Units fone < Units x <= 2 ^ 24 * Units fone ->
  PositiveFinite (fsub x fone) /\ Units (fsub x fone) = Units x - Units fone.
Proof.
  intros (m & e & -> & Hb)%PositiveFinite_inv.
  change (Units fone) with (2 ^ 149). change (2 ^ 24 * 2 ^ 149) with (2 ^ 173).
  intros Hx. destruct (sub_one_exact m e Hb Hx) as (q & e' & -> & Hb' & Hu).
  split; [exact Hb' | exact Hu].
Qed.

(** The loop on a frame of more than [n] and at most [n + 1] seconds. *)
Lemma SubSteps_exact (n : nat) :
  forall (dt : FReal) (fuel : nat),
    PositiveFinite dt ->
    Z.of_nat n * Units fone < Units dt <= (Z.of_nat n + 1) * Units fone ->
    Units dt <= 2 ^ 24 * Units fone ->
    (n < fuel)%nat ->
    exists r,
      SubSteps fuel fone dt = Some (replicate n fone ++ [r])
      /\ PositiveFinite r
      /\ fgt r fone = false
      /\ Z.of_nat n * Units fone + Units r = Units dt.
Proof.
  induction n as [|n IH]; intros dt fuel Hdt Hn Hmax Hfuel.
  - destruct fuel as [|fuel]; [lia|]. exists dt. simpl.
    assert (Hle : fgt dt fone = false).
    { destruct (fgt dt fone) eqn:E; [|reflexivity].
      apply (fgt_Units dt Hdt) in E. lia. }
    rewrite Hle. split_and!; [reflexivity | exact Hdt | reflexivity | lia].
  - destruct fuel as [|fuel]; [lia|].
    assert (Hgt : Units fone < Units dt).
    { assert (0 < Units fone) by reflexivity. nia. }
    destruct (fsub_Units dt Hdt (conj Hgt Hmax)) as [Hsub HU].
    rewrite Nat2Z.inj_succ in Hn.
    destruct (IH (fsub dt fone) fuel Hsub) as (r & Hr & Hpr & Hle & Hsum);
      [lia | lia | lia |].
    exists r. cbn [SubSteps].
    rewrite (proj2 (fgt_Units dt Hdt) Hgt), Hr.
    split_and!; [reflexivity | exact Hpr | exact Hle |].
    rewrite Nat2Z.inj_succ. lia.
Qed.



(** A frame on which the subtraction changes nothing is never used up. *)
Lemma SubSteps_absorbed (x : FReal) (fuel : nat) :
  fgt x fone = true -> fsub x fone = x -> SubSteps fuel fone x = None.
Proof.
  intros Hgt Hsub. induction fuel as [|fuel IH]; [reflexivity|].
  cbn [SubSteps]. rewrite Hgt, Hsub, IH. reflexivity.
Qed.

(** The two [float]s that follow [2^24]: [2^24 + 2] and [2^24 + 4] seconds. *)
Definition FrameAfter2p24 : FReal := S754_finite false 8388609 1.
Definition SecondFrameAfter2p24 : FReal := S754_finite false 8388610 1.

(** Right above [2^24] seconds the subtraction of one second is no longer
    exact.  From [2^24 + 2] it leaves [2^24], so the first sub-step of one
    second uses up two seconds of the frame; from [2^24 + 4] it leaves the
    frame as it was, and [Simulate] does not return. *)
Example SubSteps_above_2p24 :
  Units FrameAfter2p24 = (2 ^ 24 + 2) * Units fone
  ∧ Units (fsub FrameAfter2p24 fone) = 2 ^ 24 * Units fone
  ∧ Units SecondFrameAfter2p24 = (2 ^ 24 + 4) * Units fone
  ∧ fsub SecondFrameAfter2p24 fone = SecondFrameAfter2p24
  ∧ forall (fuel : nat) (sim : ClothingSimulation),
      Simulate fuel SecondFrameAfter2p24 (Initialize sim) = None.
Proof.
  split_and!; try (vm_compute; reflexivity).
  intros fuel sim. unfold Simulate, Initialize. cbn [MaxDeltaTime].
  change (feq SecondFrameAfter2p24 fzero) with false. cbv iota.
  rewrite SubSteps_absorbed; [reflexivity | reflexivity | vm_compute; reflexivity].
Qed.




(** The two and a half second frame, run: two full steps and a half-second
    remainder. *)
Example Simulate_ShortFrame :
  Simulate 3 ShortFrame (Initialize (MkCloth fzero fzero fzero fzero))
  = Some (MkCloth fone fzero ShortFrame ShortFrame, [fone; fone; fhalf]).
Proof. vm_compute. reflexivity. Qed.

End ClothSubSteps.

(** ** The particle indices, further *)

Section IndexMoves.
Import SOAs.

Lemma RemoveFromMapAndArray_Array (h : ParticleHandle) (m m' : MapAndArray) (Idx : nat) :
  ToIndex m !! h = Some Idx -> RemoveFromMapAndArray h m = Some m' ->
  Array m' = RemoveAtSwap Idx (Array m).
Proof.
  intros E. unfold RemoveFromMapAndArray. rewrite E.
  destruct (Array m !! Idx); [|done]. simpl.
  destruct (RemoveAtSwap Idx (Array m) !! Idx) as [moved|]; simpl.
  - destruct (ToIndex m !! moved); [|done]. simpl. by intros [= <-].
  - by intros [= <-].
Qed.

(** X1: the single-particle [InsertToMapAndArray] is idempotent.  It
    keeps map and array in agreement; a particle already recorded is left
    where it is, a new one is appended and recorded at the old length; so
    inserting twice is inserting once. *)
Theorem InsertToMapAndArray_once (h : ParticleHandle) (m : MapAndArray) :
  Consistent m ->
  Consistent (InsertToMapAndArray h m)
  ∧ (h ∈ Array m -> InsertToMapAndArray h m = m)
  ∧ (h ∉ Array m ->
     Array (InsertToMapAndArray h m) = Array m ++ [h]
     ∧ ToIndex (InsertToMapAndArray h m) !! h = Some (length (Array m)))
  ∧ InsertToMapAndArray h (InsertToMapAndArray h m) = InsertToMapAndArray h m.
Proof.
  intros Hc. split_and!.
  - by apply InsertToMapAndArray_Consistent.
  - intros Hin. apply (Consistent_elem_of m h Hc) in Hin as [i Hi].
    unfold InsertToMapAndArray. by rewrite Hi.
  - intros Hout. unfold InsertToMapAndArray.
    destruct (ToIndex m !! h) as [i|] eqn:E.
    + exfalso. apply Hout, (Consistent_elem_of m h Hc). by exists i.
    + simpl. split; [done|]. apply lookup_insert_eq.
  - unfold InsertToMapAndArray at 2 3.
    destruct (ToIndex m !! h) as [i|] eqn:E.
    + unfold InsertToMapAndArray. by rewrite E.
    + unfold InsertToMapAndArray. simpl. by rewrite lookup_insert_eq.
Qed.

Lemma InsertToMapAndArray_once_witness :
  InsertToMapAndArray 7%nat (InsertToMapAndArray 7%nat EmptyMapAndArray)
  = InsertToMapAndArray 7%nat EmptyMapAndArray.
Proof.
  exact (proj2 (proj2 (proj2 (InsertToMapAndArray_once 7%nat EmptyMapAndArray
                                Consistent_empty)))).
Defined.

(** X2: inserting a particle that is not recorded and then removing it
    gives the index back as it was, map and array. *)
Theorem Insert_then_Remove (h : ParticleHandle) (m : MapAndArray) :
  Consistent m -> h ∉ Array m ->
  RemoveFromMapAndArray h (InsertToMapAndArray h m) = Some m.
Proof.
  intros Hc Hout.
  assert (E : ToIndex m !! h = None).
  { destruct (ToIndex m !! h) as [i|] eqn:E; [|done].
    exfalso. apply Hout, (Consistent_elem_of m h Hc). by exists i. }
  unfold InsertToMapAndArray. rewrite E.
  unfold RemoveFromMapAndArray. simpl. rewrite lookup_insert_eq.
  rewrite (list_lookup_middle (Array m) [] h (length (Array m)) eq_refl). simpl.
  rewrite RemoveAtSwap_snoc by lia.
  destruct (decide (length (Array m) < length (Array m))%nat); [lia|].
  rewrite (lookup_ge_None_2 (Array m) (length (Array m))) by lia. simpl.
  rewrite delete_insert_eq, delete_id by done.
  by destruct m.
Qed.

Lemma Insert_then_Remove_witness :
  RemoveFromMapAndArray 3%nat
    (InsertToMapAndArray 3%nat (InsertToMapAndArray 5%nat EmptyMapAndArray))
  = Some (InsertToMapAndArray 5%nat EmptyMapAndArray).
Proof.
  apply (Insert_then_Remove 3%nat (InsertToMapAndArray 5%nat EmptyMapAndArray)).
  - apply InsertToMapAndArray_Consistent, Consistent_empty.
  - vm_compute. intros H%list_elem_of_singleton. discriminate H.
Defined.

(** The positions of the particles an index keeps, after a removal. *)
Lemma RemoveFromMapAndArray_positions (h : ParticleHandle) (m m' : MapAndArray) (Idx : nat) :
  Consistent m -> ToIndex m !! h = Some Idx -> RemoveFromMapAndArray h m = Some m' ->
  Consistent m'
  ∧ Array m' = RemoveAtSwap Idx (Array m)
  ∧ ToIndex m' !! h = None
  ∧ forall h' i, h' <> h -> ToIndex m !! h' = Some i ->
      ToIndex m' !! h' = Some (if decide (i = pred (length (Array m))) then Idx else i).
Proof.
  intros Hc E Hr.
  destruct (RemoveFromMapAndArray_spec h m Hc) as (m2 & Hr2 & Hc' & Hmem).
  rewrite Hr in Hr2. inversion Hr2; subst m2. clear Hr2.
  pose proof (RemoveFromMapAndArray_Array h m m' Idx E Hr) as HA.
  pose proof (proj1 (Hc h Idx) E) as Hh.
  pose proof (lookup_lt_Some _ _ _ Hh) as Hlt.
  split_and!; [done | done | |].
  - destruct (ToIndex m' !! h) as [j|] eqn:Ej; [|done].
    exfalso. assert (Hin : h ∈ Array m').
    { apply (Consistent_elem_of m' h Hc'). by exists j. }
    apply Hmem in Hin as [_ Hne]. done.
  - intros h' i Hne Hi. apply Hc'. rewrite HA, RemoveAtSwap_lookup by done.
    pose proof (proj1 (Hc h' i) Hi) as Hi'.
    pose proof (lookup_lt_Some _ _ _ Hi') as Hlti.
    assert (Hii : i <> Idx) by (intros ->; congruence).
    destruct (decide (i = pred (length (Array m)))) as [->|Hnl].
    + destruct (decide (Idx < pred (length (Array m)))%nat); [|lia].
      destruct (decide (Idx = Idx)); [|done]. by rewrite last_lookup.
    + destruct (decide (i < pred (length (Array m)))%nat); [|lia].
      by destruct (decide (i = Idx)).
Qed.

(** X3: [RemoveFromMapAndArray] on a particle that is not recorded
    changes nothing.  On a recorded one it shortens the array by one and
    forgets the particle; the particle that was last takes the freed index,
    every other particle keeps its index, and map and array still agree. *)
Theorem RemoveFromMapAndArray_moves_last (h : ParticleHandle) (m : MapAndArray) :
  Consistent m ->
  (h ∉ Array m -> RemoveFromMapAndArray h m = Some m)
  ∧ (forall Idx, ToIndex m !! h = Some Idx ->
     exists m',
       RemoveFromMapAndArray h m = Some m'
       ∧ Consistent m'
       ∧ length (Array m') = pred (length (Array m))
       ∧ ToIndex m' !! h = None
       ∧ forall h' i, h' <> h -> ToIndex m !! h' = Some i ->
           ToIndex m' !! h' =
             Some (if decide (i = pred (length (Array m))) then Idx else i)).
Proof.
  intros Hc. split.
  - intros Hout. unfold RemoveFromMapAndArray.
    destruct (ToIndex m !! h) as [i|] eqn:E; [|done].
    exfalso. apply Hout, (Consistent_elem_of m h Hc). by exists i.
  - intros Idx E.
    destruct (RemoveFromMapAndArray_spec h m Hc) as (m' & Hr & _ & _).
    destruct (RemoveFromMapAndArray_positions h m m' Idx Hc E Hr)
      as (Hc' & HA & Hgone & Hpos).
    pose proof (lookup_lt_Some _ _ _ (proj1 (Hc h Idx) E)) as Hlt.
    exists m'. split_and!; [done | done | | done | done].
    rewrite HA. by apply RemoveAtSwap_length.
Qed.

Lemma RemoveFromMapAndArray_moves_last_witness :
  exists m',
    RemoveFromMapAndArray 4%nat (InsertAllToMapAndArray [4; 5; 6]%nat EmptyMapAndArray)
    = Some m'
    ∧ ToIndex m' !! 6%nat = Some 0%nat.
Proof.
  assert (Hc : Consistent (InsertAllToMapAndArray [4; 5; 6]%nat EmptyMapAndArray)).
  { apply InsertAllToMapAndArray_Consistent.
    - apply Consistent_empty.
    - by apply (bool_decide_unpack _).
    - intros h _ Hin. by apply elem_of_nil in Hin. }
  destruct (proj2 (RemoveFromMapAndArray_moves_last 4%nat _ Hc) 0%nat eq_refl)
    as (m' & Hr & _ & _ & _ & Hpos).
  exists m'. split; [exact Hr|].
  exact (Hpos 6%nat 2%nat ltac:(done) eq_refl).
Defined.

(** X4: the array form of [InsertToMapAndArray] does not test for
    presence.  It appends the given particles as they come and records each at
    its position in the appended block; fresh, distinct particles keep map and
    array in agreement, but a particle that is already recorded ends up in the
    array twice, and the agreement is lost. *)
Theorem InsertAllToMapAndArray_appends (hs : list ParticleHandle) (m : MapAndArray) :
  Array (InsertAllToMapAndArray hs m) = Array m ++ hs
  ∧ (NoDup hs -> forall k h, hs !! k = Some h ->
       ToIndex (InsertAllToMapAndArray hs m) !! h = Some (length (Array m) + k)%nat)
  ∧ (forall h, h ∉ hs ->
       ToIndex (InsertAllToMapAndArray hs m) !! h = ToIndex m !! h)
  ∧ (Consistent m -> NoDup hs -> (forall h, h ∈ hs -> h ∉ Array m) ->
       Consistent (InsertAllToMapAndArray hs m))
  ∧ (forall h, h ∈ hs -> h ∈ Array m -> ~ Consistent (InsertAllToMapAndArray hs m)).
Proof.
  split_and!.
  - reflexivity.
  - intros Hnd k h Hk. simpl. by apply AddAllToIndex_new.
  - intros h Hout. simpl. by apply AddAllToIndex_other.
  - apply InsertAllToMapAndArray_Consistent.
  - intros h Hin Hold Hc. apply Consistent_NoDup in Hc. simpl in Hc.
    apply NoDup_app in Hc as (_ & Hdisj & _). by apply (Hdisj h).
Qed.

End IndexMoves.

(** ** The joint container as a whole *)

Section JointContainerInvariant.
Import SOAs Joint JointOps.

(** The four arrays are parallel, every handle in the handle array is alive
    and stores its own position, and no other handle is alive. *)
Definition JointWF (c : FPBDJointConstraints) : Prop :=
  length (ConstraintParticles c) = length (Handles c)
  ∧ length (ConstraintSettings c) = length (Handles c)
  ∧ length (ConstraintStates c) = length (Handles c)
  ∧ (forall h i, HandleObjects c !! h = Some i <-> Handles c !! i = Some h)
  ∧ (forall h, is_Some (HandleObjects c !! h) -> (h < NextHandle c)%nat).

Lemma JointWF_NewJoints (st : FPBDJointSolverSettings) : JointWF (NewJoints st).
Proof.
  unfold JointWF. simpl. split_and!; try reflexivity.
  - intros h i. by rewrite lookup_empty, lookup_nil.
  - intros h [i Hi]. by rewrite lookup_empty in Hi.
Qed.

Lemma JointWF_fresh (c : FPBDJointConstraints) :
  JointWF c -> HandleObjects c !! NextHandle c = None ∧ NextHandle c ∉ Handles c.
Proof.
  intros (_ & _ & _ & Hc & Hb).
  assert (E : HandleObjects c !! NextHandle c = None).
  { destruct (HandleObjects c !! NextHandle c) as [i|] eqn:E; [|done].
    specialize (Hb (NextHandle c) ltac:(by exists i)). lia. }
  split; [done|]. intros [i Hi]%list_elem_of_lookup. apply Hc in Hi. congruence.
Qed.

(** What appending a constraint does to the handles. *)
Lemma JointWF_push (c : FPBDJointConstraints) (Ps : list (ParticleHandle * ParticleHandle))
    (Ss : list FPBDJointSettings) (Ts : list FPBDJointState) :
  JointWF c ->
  length Ps = S (length (Handles c)) ->
  length Ss = S (length (Handles c)) ->
  length Ts = S (length (Handles c)) ->
  JointWF (MkJoints (Settings c) (PreApplyCallback c) (PostApplyCallback c)
             (Handles c ++ [NextHandle c]) Ps Ss Ts
             (<[NextHandle c := length (Handles c)]> (HandleObjects c))
             (S (NextHandle c))).
Proof.
  intros Hwf HP HS HT. destruct (JointWF_fresh c Hwf) as [Hfresh Hout].
  destruct Hwf as (_ & _ & _ & Hc & Hb).
  unfold JointWF. simpl. rewrite length_app. simpl.
  split_and!; try lia.
  - intros h i. destruct (decide (h = NextHandle c)) as [->|Hne].
    + rewrite lookup_insert_eq. split.
      * intros [= <-]. by apply list_lookup_middle.
      * intros Hi. f_equal.
        destruct (decide (i < length (Handles c))%nat) as [Hlt|Hge].
        -- rewrite lookup_app_l in Hi by done.
           exfalso. apply Hout. by eapply list_elem_of_lookup_2.
        -- pose proof (lookup_lt_Some _ _ _ Hi) as Hl.
           rewrite length_app in Hl. simpl in Hl. lia.
    + rewrite lookup_insert_ne by done. rewrite Hc. split.
      * intros Hi. by apply lookup_app_l_Some.
      * intros Hi. apply lookup_app_Some in Hi as [Hi|[_ Hi]]; [done|].
        apply list_lookup_singleton_Some in Hi as [_ ?]. congruence.
  - intros h [i Hi]. destruct (decide (h = NextHandle c)) as [->|Hne]; [lia|].
    rewrite lookup_insert_ne in Hi by done.
    specialize (Hb h ltac:(by exists i)). lia.
Qed.

Lemma AddConstraintSettings_JointWF (p : ParticleHandle * ParticleHandle)
    (s : FPBDJointSettings) (c : FPBDJointConstraints) :
  JointWF c -> JointWF (AddConstraintSettings p s c).1.
Proof.
  intros Hwf. pose proof Hwf as (HP & HS & HT & _).
  unfold AddConstraintSettings. cbn [fst].
  apply JointWF_push; [done|..]; rewrite length_app; simpl; lia.
Qed.

Lemma AddConstraintFrames_JointWF (p : ParticleHandle * ParticleHandle)
    (f : FRigidTransform3 * FRigidTransform3) (c : FPBDJointConstraints) :
  JointWF c ->
  exists c' h, AddConstraintFrames p f c = Some (c', h) ∧ JointWF c'.
Proof.
  intros Hwf. pose proof Hwf as (HP & HS & HT & _).
  unfold AddConstraintFrames.
  rewrite <- HS, (list_lookup_middle (ConstraintSettings c) [] DefaultJointSettings _ eq_refl).
  simpl. eexists _, _. split; [reflexivity|]. rewrite HS.
  apply JointWF_push; [done|..];
    rewrite ?length_insert, length_app; simpl; lia.
Qed.

(** The handle map and the handle array of a container, seen as an index of
    the particle store: [RemoveConstraint] treats them as
    [RemoveFromMapAndArray] treats an index. *)
Definition HandleIndexOf (c : FPBDJointConstraints) : MapAndArray :=
  MkMapAndArray (HandleObjects c) (Handles c).

Lemma RemoveConstraint_handles (i : nat) (c c' : FPBDJointConstraints) (h : ConstraintHandle) :
  JointWF c -> Handles c !! i = Some h -> RemoveConstraint i c = Some c' ->
  RemoveFromMapAndArray h (HandleIndexOf c) = Some (HandleIndexOf c').
Proof.
  intros (HP & HS & HT & Hc & Hb) Hh. unfold RemoveConstraint. rewrite Hh. simpl.
  destruct (decide _) as [_|]; [|done]. intros [= <-].
  unfold RemoveFromMapAndArray, HandleIndexOf. simpl.
  unfold ConstraintHandle, ParticleHandle in *.
  rewrite (proj2 (Hc h i) Hh), Hh. simpl.
  pose proof (lookup_lt_Some _ _ _ Hh) as Hlt.
  destruct (@lookup nat nat (list nat) _ i (@RemoveAtSwap nat i (Handles c)))
    as [moved|] eqn:Em; simpl; [|reflexivity].
  rewrite RemoveAtSwap_lookup in Em by done.
  repeat case_decide; try done.
  rewrite last_lookup in Em.
  rewrite (proj2 (Hc moved _) Em). simpl.
  assert (Hne : moved <> h).
  { intros ->. apply Hc in Em, Hh. rewrite Em in Hh. inversion Hh. lia. }
  unfold SetConstraintIndex. by rewrite delete_insert_ne.
Qed.

Lemma JointWF_Consistent (c : FPBDJointConstraints) :
  JointWF c -> Consistent (HandleIndexOf c).
Proof. intros (_ & _ & _ & Hc & _). exact Hc. Qed.

Lemma RemoveConstraint_Some (i : nat) (c : FPBDJointConstraints) (h : ConstraintHandle) :
  JointWF c -> Handles c !! i = Some h -> is_Some (RemoveConstraint i c).
Proof.
  intros (HP & HS & HT & _) Hh. pose proof (lookup_lt_Some _ _ _ Hh) as Hlt.
  unfold RemoveConstraint. rewrite Hh. simpl.
  destruct (decide _) as [_|Hn]; [by eexists|]. exfalso. apply Hn. lia.
Qed.

Lemma RemoveConstraint_arrays (i : nat) (c c' : FPBDJointConstraints) :
  RemoveConstraint i c = Some c' ->
  Handles c' = RemoveAtSwap i (Handles c)
  ∧ ConstraintParticles c' = RemoveAtSwap i (ConstraintParticles c)
  ∧ ConstraintSettings c' = RemoveAtSwap i (ConstraintSettings c)
  ∧ ConstraintStates c' = RemoveAtSwap i (ConstraintStates c)
  ∧ NextHandle c' = NextHandle c
  ∧ Settings c' = Settings c.
Proof.
  unfold RemoveConstraint. destruct (Handles c !! i); [|done]. simpl.
  destruct (decide _); [|done]. by intros [= <-].
Qed.

Lemma RemoveConstraint_JointWF (i : nat) (c c' : FPBDJointConstraints) :
  JointWF c -> RemoveConstraint i c = Some c' -> JointWF c'.
Proof.
  intros Hwf Hr.
  destruct (Handles c !! i) as [h|] eqn:Hh;
    [|unfold RemoveConstraint in Hr; by rewrite Hh in Hr].
  pose proof (lookup_lt_Some _ _ _ Hh) as Hlt.
  pose proof (RemoveConstraint_handles i c c' h Hwf Hh Hr) as Hidx.
  pose proof (JointWF_Consistent c Hwf) as Hcons.
  destruct (RemoveFromMapAndArray_positions h _ _ i Hcons
              (proj2 (Hcons h i) Hh) Hidx) as (Hc' & _ & _ & _).
  destruct (RemoveFromMapAndArray_spec h _ Hcons) as (m2 & Hr2 & _ & Hmem).
  rewrite Hidx in Hr2. inversion Hr2; subst m2. clear Hr2.
  destruct (RemoveConstraint_arrays i c c' Hr) as (EH & EP & ES & ET & EN & _).
  destruct Hwf as (HP & HS & HT & Hc & Hb).
  unfold JointWF. rewrite EH, EP, ES, ET, EN.
  rewrite !RemoveAtSwap_length by lia.
  split_and!; try lia.
  - rewrite <- EH. exact Hc'.
  - intros h' Hsome.
    apply (Consistent_elem_of (HandleIndexOf c') h' Hc') in Hsome.
    apply Hmem in Hsome as [Hin _].
    apply Hb, (Consistent_elem_of (HandleIndexOf c) h' Hcons), Hin.
Qed.

Lemma SetParticleLevels_JointWF (i : nat) (l : Z * Z) (c c' : FPBDJointConstraints) :
  JointWF c -> SetParticleLevels i l c = Some c' -> JointWF c'.
Proof.
  intros (HP & HS & HT & Hc & Hb). unfold SetParticleLevels.
  destruct (ConstraintStates c !! i); [|done]. simpl. intros [= <-].
  unfold JointWF. simpl. rewrite length_insert. done.
Qed.

Lemma step_JointWF (call : Call) (c c' : FPBDJointConstraints) :
  JointWF c -> step call c = Some c' -> JointWF c'.
Proof.
  intros Hwf. destruct call; simpl.
  - intros [= <-]. by apply AddConstraintSettings_JointWF.
  - destruct (AddConstraintFrames_JointWF InConstrainedParticles Frames c Hwf)
      as (c2 & h & -> & Hwf2). simpl. by intros [= <-].
  - unfold AddConstraintWorld.
    destruct (heap !! InConstrainedParticles.1) as [p0|]; [|done].
    destruct (heap !! InConstrainedParticles.2) as [p1|]; [|done]. simpl.
    destruct (AddConstraintFrames_JointWF InConstrainedParticles
                (BodyFrame WorldConstraintFrame p0, BodyFrame WorldConstraintFrame p1)
                c Hwf) as (c2 & h & -> & Hwf2). simpl. by intros [= <-].
  - by apply RemoveConstraint_JointWF.
  - by intros [= <-].
  - by apply SetParticleLevels_JointWF.
  - by intros [= <-].
  - by intros [= <-].
  - by intros [= <-].
  - by intros [= <-].
  - by intros [= <-].
Qed.

Lemma run_JointWF (calls : list Call) (c c' : FPBDJointConstraints) :
  JointWF c -> run calls c = Some c' -> JointWF c'.
Proof.
  revert c. induction calls as [|call calls IH]; intros c Hwf; simpl.
  - by intros [= <-].
  - destruct (step call c) as [c2|] eqn:E; [|done]. simpl.
    apply IH. by eapply step_JointWF.
Qed.

Lemma JointWF_ValidHandle (c : FPBDJointConstraints) (h : ConstraintHandle) :
  JointWF c -> h ∈ Handles c -> ValidHandle c h = true.
Proof.
  intros (HP & HS & HT & Hc & Hb) [i Hi]%list_elem_of_lookup.
  unfold ValidHandle. apply bool_decide_eq_true_2.
  unfold HandleLevel, HandleIndex. rewrite (proj2 (Hc h i) Hi). simpl.
  unfold GetConstraintLevel.
  pose proof (lookup_lt_Some _ _ _ Hi) as Hlt.
  destruct (lookup_lt_is_Some_2 (ConstraintStates c) i ltac:(lia)) as [st Hst].
  rewrite Hst. by eexists.
Qed.

End JointContainerInvariant.

Section JointContainerRoundTrips.
Import SOAs Joint JointOps.

Variable Sort : (ConstraintHandle -> ConstraintHandle -> bool) ->
                list ConstraintHandle -> list ConstraintHandle.

(** X5: after any sequence of container calls that trips no check, the
    four arrays of the container are parallel, the handle at every index
    stores that index, and every handle of the container is one the solve
    passes accept: [Apply], [ApplyPushOut] and [ApplyProjection] on the
    container's own handles run to the end. *)
Theorem JointContainer_handles_valid (st : FPBDJointSolverSettings)
    (calls : list JointOps.Call) (c : FPBDJointConstraints) :
  JointOps.run calls (NewJoints st) = Some c ->
  JointWF c
  ∧ NumConstraints c = length (Handles c)
  ∧ (forall i h, GetConstraintHandle i c = Some h -> HandleIndex c h = Some i)
  ∧ (forall Dt It NumIts,
       is_Some (Apply Sort c Dt (Handles c) It NumIts)
       ∧ is_Some (ApplyPushOut Sort c Dt (Handles c) It NumIts)
       ∧ is_Some (ApplyProjection Sort c Dt (Handles c))).
Proof.
  intros Hrun.
  pose proof (run_JointWF calls _ c (JointWF_NewJoints st) Hrun) as Hwf.
  pose proof Hwf as (HP & HS & HT & Hc & Hb).
  assert (Hall : forallb (ValidHandle c) (Handles c) = true).
  { apply forallb_forall. intros h Hin. apply JointWF_ValidHandle; [done|].
    by apply list_elem_of_In. }
  split_and!; [done | done | |].
  - intros i h Hi. by apply Hc.
  - intros Dt It NumIts.
    assert (Hproj : is_Some (ApplyProjection Sort c Dt (Handles c))).
    { unfold ApplyProjection. rewrite Hall. by eexists. }
    split_and!; [| |done].
    + unfold Apply. rewrite Hall.
      repeat case_decide; try (destruct Hproj as [ev ->]); by eexists.
    + unfold ApplyPushOut. rewrite Hall.
      repeat case_decide; simpl; try (destruct Hproj as [ev ->]); by eexists.
Qed.

(** X6: [AddConstraint(particles, settings)] followed by the getters.
    On a container whose arrays are parallel, the new constraint gets the next
    index and a fresh handle that stores that index; the getters at that index
    give back the particles and the settings that were passed, and the level
    of the new constraint is unset ([INDEX_NONE]); every constraint that was
    there keeps its index, its data and its handle. *)
Theorem AddConstraint_then_get (p : ParticleHandle * ParticleHandle)
    (s : FPBDJointSettings) (c : FPBDJointConstraints) :
  JointWF c ->
  let c' := (AddConstraintSettings p s c).1 in
  let h := (AddConstraintSettings p s c).2 in
  NumConstraints c' = S (NumConstraints c)
  ∧ HandleIndex c h = None
  ∧ HandleIndex c' h = Some (NumConstraints c)
  ∧ GetConstraintHandle (NumConstraints c) c' = Some h
  ∧ GetConstrainedParticles (NumConstraints c) c' = Some p
  ∧ GetConstraintSettings (NumConstraints c) c' = Some s
  ∧ GetConstraintLevel (NumConstraints c) c' = Some INDEX_NONE
  ∧ (forall i, (i < NumConstraints c)%nat ->
       GetConstraintHandle i c' = GetConstraintHandle i c
       ∧ GetConstrainedParticles i c' = GetConstrainedParticles i c
       ∧ GetConstraintSettings i c' = GetConstraintSettings i c
       ∧ GetConstraintLevel i c' = GetConstraintLevel i c)
  ∧ (forall h' i, HandleIndex c h' = Some i -> HandleIndex c' h' = Some i).
Proof.
  intros Hwf c' h. destruct (JointWF_fresh c Hwf) as [Hfresh Hout].
  destruct Hwf as (HP & HS & HT & Hc & Hb).
  subst c' h. unfold AddConstraintSettings, NumConstraints, HandleIndex,
    GetConstraintHandle, GetConstrainedParticles, GetConstraintSettings,
    GetConstraintLevel. cbn [fst snd ConstraintParticles Handles ConstraintSettings
                             ConstraintStates HandleObjects].
  split_and!.
  - rewrite length_app. simpl. lia.
  - exact Hfresh.
  - rewrite lookup_insert_eq. by rewrite HP.
  - rewrite HP. by apply list_lookup_middle.
  - by apply list_lookup_middle.
  - rewrite HP, <- HS. by apply list_lookup_middle.
  - rewrite HP, <- HT.
    by rewrite (list_lookup_middle (ConstraintStates c) [] DefaultJointState _ eq_refl).
  - intros i Hi. rewrite !lookup_app_l by lia. done.
  - intros h' i Hi. rewrite lookup_insert_ne; [done|]. intros <-. congruence.
Qed.

Lemma AddConstraint_then_get_witness :
  GetConstrainedParticles 0 (AddConstraintSettings (4%nat, 5%nat) DefaultJointSettings
                               (NewJoints DefaultSolverSettings)).1
  = Some (4%nat, 5%nat).
Proof.
  exact (proj1 (proj2 (proj2 (proj2 (proj2
    (AddConstraint_then_get (4%nat, 5%nat) DefaultJointSettings
       (NewJoints DefaultSolverSettings) (JointWF_NewJoints DefaultSolverSettings))))))).
Defined.

(** X7: [RemoveConstraint(Index)] fails its range check on an index that
    is not in the container.  On an index in a container whose arrays are
    parallel it succeeds: there is one constraint fewer, the handle of the
    removed constraint is dead, and every other handle still leads to the
    particles, the settings and the level it led to before; the only handle
    whose index changes is that of the former last constraint, which takes the
    freed index. *)
Theorem RemoveConstraint_keeps_handles (i : nat) (c : FPBDJointConstraints) :
  JointWF c ->
  ((NumConstraints c <= i)%nat -> RemoveConstraint i c = None)
  ∧ ((i < NumConstraints c)%nat ->
     exists c' h,
       RemoveConstraint i c = Some c'
       ∧ GetConstraintHandle i c = Some h
       ∧ NumConstraints c' = pred (NumConstraints c)
       ∧ HandleIndex c' h = None
       ∧ forall h' j, h' <> h -> HandleIndex c h' = Some j ->
           let j' := if decide (j = pred (NumConstraints c)) then i else j in
           HandleIndex c' h' = Some j'
           ∧ GetConstrainedParticles j' c' = GetConstrainedParticles j c
           ∧ GetConstraintSettings j' c' = GetConstraintSettings j c
           ∧ GetConstraintLevel j' c' = GetConstraintLevel j c).
Proof.
  intros Hwf. pose proof Hwf as (HP & HS & HT & Hc & Hb).
  unfold NumConstraints. rewrite HP. split.
  - intros Hge. unfold RemoveConstraint.
    by rewrite (lookup_ge_None_2 (Handles c) i Hge).
  - intros Hlt.
    destruct (lookup_lt_is_Some_2 (Handles c) i Hlt) as [h Hh].
    destruct (RemoveConstraint_Some i c h Hwf Hh) as [c' Hr].
    pose proof (RemoveConstraint_handles i c c' h Hwf Hh Hr) as Hidx.
    pose proof (JointWF_Consistent c Hwf) as Hcons.
    destruct (RemoveFromMapAndArray_positions h _ _ i Hcons
                (proj2 (Hcons h i) Hh) Hidx) as (Hc' & _ & Hgone & Hpos).
    destruct (RemoveConstraint_arrays i c c' Hr) as (EH & EP & ES & ET & _ & _).
    exists c', h. split_and!; [done | done | | done |].
    + rewrite EP, RemoveAtSwap_length by lia. by rewrite HP.
    + intros h' j Hne Hj.
      set (j' := if decide (j = pred (length (Handles c))) then i else j).
      pose proof (Hpos h' j Hne Hj) as Hj'. simpl in Hj'.
      pose proof (lookup_lt_Some _ _ _ (proj1 (Hc h' j) Hj)) as Hjlt.
      assert (Hji : j <> i).
      { intros ->. apply Hc in Hj. congruence. }
      assert (Hlook : forall (A : Type) (l : list A),
                 length l = length (Handles c) ->
                 RemoveAtSwap i l !! j' = l !! j).
      { intros A l Hl. rewrite RemoveAtSwap_lookup by lia. rewrite Hl. subst j'.
        destruct (decide (j = pred (length (Handles c)))) as [->|Hnl].
        - destruct (decide (i < pred (length (Handles c)))%nat); [|lia].
          destruct (decide (i = i)); [|done]. by rewrite last_lookup, Hl.
        - destruct (decide (j < pred (length (Handles c)))%nat); [|lia].
          by destruct (decide (j = i)). }
      unfold HandleIndex, GetConstrainedParticles, GetConstraintSettings,
        GetConstraintLevel.
      rewrite EP, ES, ET, !Hlook by done. split_and!; done.
Qed.

Lemma Chain_JointWF : JointWF Chain.
Proof.
  assert (H : forall i l c, JointWF c -> JointWF (default c (SetParticleLevels i l c))).
  { intros i l c Hc. destruct (SetParticleLevels i l c) as [c'|] eqn:E; simpl; [|done].
    by eapply SetParticleLevels_JointWF. }
  unfold Chain. cbv zeta.
  apply H, H, AddConstraintSettings_JointWF, AddConstraintSettings_JointWF, JointWF_NewJoints.
Qed.

Lemma RemoveConstraint_keeps_handles_witness :
  RemoveConstraint 3 Chain = None
  ∧ exists c',
      RemoveConstraint 0 Chain = Some c'
      ∧ GetConstraintHandle 0 Chain = Some 0%nat
      ∧ NumConstraints c' = 1%nat
      ∧ HandleIndex c' 0%nat = None
      ∧ HandleIndex c' 1%nat = Some 0%nat
      ∧ GetConstrainedParticles 0 c' = GetConstrainedParticles 1 Chain
      ∧ GetConstraintSettings 0 c' = GetConstraintSettings 1 Chain
      ∧ GetConstraintLevel 0 c' = GetConstraintLevel 1 Chain.
Proof.
  destruct (RemoveConstraint_keeps_handles 3 Chain Chain_JointWF) as [Hout _].
  destruct (RemoveConstraint_keeps_handles 0 Chain Chain_JointWF) as [_ Hin].
  split; [apply Hout; vm_compute; lia|].
  destruct Hin as (c' & h & Hr & Hh & Hn & Hdead & Hkeep); [vm_compute; lia|].
  assert (h = 0%nat) as ->.
  { assert (E : GetConstraintHandle 0 Chain = Some 0%nat) by (vm_compute; reflexivity).
    congruence. }
  destruct (Hkeep 1%nat 1%nat ltac:(done) ltac:(vm_compute; reflexivity))
    as (H1 & H2 & H3 & H4).
  change (if decide (1%nat = pred (NumConstraints Chain)) then 0%nat else 1%nat)
    with 0%nat in H1, H2, H3, H4.
  exists c'. split_and!; done.
Defined.

Lemma RemoveAtSwap_snoc_last {A : Type} (l : list A) (z : A) (n : nat) :
  length l = n -> RemoveAtSwap n (l ++ [z]) = l.
Proof.
  intros <-. rewrite RemoveAtSwap_snoc by lia.
  destruct (decide (length l < length l)%nat); [lia | done].
Qed.

(** X8: adding a constraint and removing it again leaves the four arrays
    and the live handles as they were; only the handle allocator has moved
    on. *)
Theorem Add_then_RemoveConstraint (p : ParticleHandle * ParticleHandle)
    (s : FPBDJointSettings) (c : FPBDJointConstraints) :
  JointWF c ->
  RemoveConstraint (NumConstraints c) (AddConstraintSettings p s c).1
  = Some (MkJoints (Settings c) (PreApplyCallback c) (PostApplyCallback c)
                   (Handles c) (ConstraintParticles c) (ConstraintSettings c)
                   (ConstraintStates c) (HandleObjects c) (S (NextHandle c))).
Proof.
  intros Hwf. destruct (JointWF_fresh c Hwf) as [Hfresh Hout].
  destruct Hwf as (HP & HS & HT & Hc & Hb).
  unfold RemoveConstraint, AddConstraintSettings, NumConstraints.
  cbn [fst ConstraintParticles Handles ConstraintSettings ConstraintStates
       HandleObjects Settings PreApplyCallback PostApplyCallback NextHandle].
  rewrite HP, (list_lookup_middle (Handles c) [] (NextHandle c) _ eq_refl). simpl.
  rewrite !length_app. simpl.
  destruct (decide _) as [_|Hn]; [|exfalso; apply Hn; lia].
  rewrite !RemoveAtSwap_snoc_last by done.
  rewrite (lookup_ge_None_2 (Handles c) (length (Handles c))) by lia.
  rewrite delete_insert_eq, delete_id by done. reflexivity.
Qed.

Lemma Add_then_RemoveConstraint_witness :
  Handles <$> RemoveConstraint (NumConstraints (NewJoints DefaultSolverSettings))
                (AddConstraintSettings (4%nat, 5%nat) DefaultJointSettings
                   (NewJoints DefaultSolverSettings)).1
  = Some [].
Proof.
  rewrite (Add_then_RemoveConstraint (4%nat, 5%nat) DefaultJointSettings
             (NewJoints DefaultSolverSettings) (JointWF_NewJoints DefaultSolverSettings)).
  reflexivity.
Defined.

(** X9: [SetParticleLevels] fails its range check on an index that is not
    in the container; otherwise the level of the constraint becomes the
    smaller of the two particle levels, whichever way round they are given, so
    a constraint with an unlevelled particle ([INDEX_NONE]) and a levelled one
    is itself unlevelled.  This is the level the handle of the constraint
    reports, by which the solve passes sort; the levels of the other
    constraints and of their handles, and all particles, settings and
    handles, stay as they are. *)
Theorem SetParticleLevels_then_get (i : nat) (a b : Z) (c : FPBDJointConstraints) :
  JointWF c ->
  (ConstraintStates c !! i = None -> SetParticleLevels i (a, b) c = None)
  ∧ (is_Some (ConstraintStates c !! i) ->
     exists c' c'',
       SetParticleLevels i (a, b) c = Some c'
       ∧ SetParticleLevels i (b, a) c = Some c''
       ∧ GetConstraintLevel i c' = Some (Z.min a b)
       ∧ GetConstraintLevel i c'' = Some (Z.min a b)
       ∧ (a = INDEX_NONE -> 0 <= b -> GetConstraintLevel i c' = Some INDEX_NONE)
       ∧ (forall h, GetConstraintHandle i c = Some h ->
            HandleLevel c' h = Some (Z.min a b) ∧ ValidHandle c' h = true)
       ∧ (forall j, j <> i -> GetConstraintLevel j c' = GetConstraintLevel j c)
       ∧ (forall j h, j <> i -> GetConstraintHandle j c = Some h ->
            HandleLevel c' h = HandleLevel c h)
       ∧ ConstraintParticles c' = ConstraintParticles c
       ∧ ConstraintSettings c' = ConstraintSettings c
       ∧ Handles c' = Handles c
       ∧ HandleObjects c' = HandleObjects c).
Proof.
  intros (_ & _ & _ & Hc & _). unfold SetParticleLevels. split.
  - by intros ->.
  - intros [st Hst]. rewrite Hst. simpl. eexists _, _.
    split; [reflexivity|]. split; [reflexivity|].
    pose proof (lookup_lt_Some _ _ _ Hst) as Hlt.
    unfold GetConstraintLevel, GetConstraintHandle, ValidHandle, HandleLevel, HandleIndex,
      GetConstraintLevel.
    simpl. split_and!; try done.
    + by rewrite list_lookup_insert_eq.
    + rewrite list_lookup_insert_eq by done. simpl. by rewrite Z.min_comm.
    + intros -> Hb. rewrite list_lookup_insert_eq by done. simpl.
      unfold INDEX_NONE. f_equal. lia.
    + intros h Hh. apply Hc in Hh. rewrite Hh. simpl.
      rewrite list_lookup_insert_eq by done. simpl.
      split; [done|]. first [done | apply bool_decide_eq_true_2; by eexists].
    + intros j Hj. by rewrite list_lookup_insert_ne.
    + intros j h Hj Hh. apply Hc in Hh. rewrite Hh. simpl.
      by rewrite list_lookup_insert_ne.
Qed.

Lemma SetParticleLevels_then_get_witness :
  exists c',
    SetParticleLevels 0 (INDEX_NONE, 3) OneJoint = Some c'
    ∧ GetConstraintLevel 0 c' = Some INDEX_NONE.
Proof.
  destruct (proj2 (SetParticleLevels_then_get 0 INDEX_NONE 3 OneJoint
                     (AddConstraintSettings_JointWF _ _ _ (JointWF_NewJoints _)))
              ltac:(by eexists))
    as (c' & _ & H1 & _ & _ & _ & H2 & _).
  exists c'. split; [exact H1|]. by apply H2.
Defined.

End JointContainerRoundTrips.

Lemma JointContainer_handles_valid_witness :
  exists c,
    JointOps.run [JointOps.CallAddConstraintSettings (0%nat, 1%nat) Joint.DefaultJointSettings;
                  JointOps.CallAddConstraintSettings (1%nat, 2%nat) Joint.DefaultJointSettings;
                  JointOps.CallRemoveConstraint 0]
                 (Joint.NewJoints Joint.DefaultSolverSettings) = Some c
    ∧ JointWF c
    ∧ Joint.Handles c = [1%nat].
Proof.
  destruct (JointOps.run
              [JointOps.CallAddConstraintSettings (0%nat, 1%nat) Joint.DefaultJointSettings;
               JointOps.CallAddConstraintSettings (1%nat, 2%nat) Joint.DefaultJointSettings;
               JointOps.CallRemoveConstraint 0]
              (Joint.NewJoints Joint.DefaultSolverSettings)) as [c|] eqn:E;
    [|vm_compute in E; discriminate].
  exists c. split; [reflexivity|].
  split.
  - exact (proj1 (JointContainer_handles_valid Joint.InsertionSort
                    Joint.DefaultSolverSettings _ c E)).
  - pose proof (f_equal (fmap Joint.Handles) E) as H. vm_compute in H.
    inversion H as [H']. symmetry. exact H'.
Defined.

(** ** The solver's frame task and the cloth frame delta *)

Section FrameDeltas.
Import Cloth ClothContext Solver.

(** Comparison of positive finite [float]s is comparison of their exact
    values. *)
Lemma flt_Units (x y : FReal) :
  PositiveFinite x -> PositiveFinite y ->
  (flt x y = true <-> Units x < Units y).
Proof.
  intros (m1 & e1 & -> & Hb1)%PositiveFinite_inv (m2 & e2 & -> & Hb2)%PositiveFinite_inv.
  destruct (bounded32 m1 e1 Hb1) as (He1 & Hm1 & Hn1).
  destruct (bounded32 m2 e2 Hb2) as (He2 & Hm2 & Hn2).
  unfold flt, SFltb, SFcompare, Units.
  change (Pos.compare_cont Eq m1 m2) with (m1 ?= m2)%positive.
  assert (Hp1 : 0 < 2 ^ (e1 + 149)) by (apply Z.pow_pos_nonneg; lia).
  assert (Hp2 : 0 < 2 ^ (e2 + 149)) by (apply Z.pow_pos_nonneg; lia).
  destruct (Z.compare_spec e1 e2) as [Heq|Hlt|Hgt].
  - subst e2. destruct (Pos.compare_spec m1 m2) as [Hc|Hc|Hc].
    + subst m2. split; [done | lia].
    + split; [|done]. intros _. apply Pos2Z.pos_lt_pos in Hc. nia.
    + split; [done|]. apply Pos2Z.pos_lt_pos in Hc. nia.
  - split; [|done]. intros _. specialize (Hn2 ltac:(lia)).
    assert (E : 2 ^ (e2 + 149) = 2 ^ (e2 - e1) * 2 ^ (e1 + 149)).
    { rewrite <- Z.pow_add_r by lia. f_equal. lia. }
    assert (2 ^ 1 <= 2 ^ (e2 - e1)) by (apply pow2_le; lia).
    change (2 ^ 1) with 2 in *. change (2 ^ 24) with (2 * 2 ^ 23) in Hm1.
    rewrite E. nia.
  - split; [done|]. intros Hlt. exfalso. specialize (Hn1 ltac:(lia)).
    assert (E : 2 ^ (e1 + 149) = 2 ^ (e1 - e2) * 2 ^ (e2 + 149)).
    { rewrite <- Z.pow_add_r by lia. f_equal. lia. }
    assert (2 ^ 1 <= 2 ^ (e1 - e2)) by (apply pow2_le; lia).
    change (2 ^ 1) with 2 in *. change (2 ^ 24) with (2 * 2 ^ 23) in Hm2.
    rewrite E in Hlt. nia.
Qed.

Lemma AdvanceLoop_SubSteps (fuel : nat) (Max dt : FReal) :
  SubSteps fuel Max dt = (fun r => r.1 ++ [r.2]) <$> AdvanceLoop fuel Max dt.
Proof.
  revert dt. induction fuel as [|fuel IH]; intros dt; [reflexivity|].
  cbn [SubSteps AdvanceLoop]. destruct (fgt dt Max); [|reflexivity].
  rewrite IH. by destruct (AdvanceLoop fuel Max (fsub dt Max)) as [[steps rem]|].
Qed.

Lemma AdvanceLoop_exact (n : nat) (dt : FReal) (fuel : nat) :
  PositiveFinite dt ->
  Z.of_nat n * Units fone < Units dt <= (Z.of_nat n + 1) * Units fone ->
  Units dt <= 2 ^ 24 * Units fone ->
  (n < fuel)%nat ->
  exists r,
    AdvanceLoop fuel fone dt = Some (replicate n fone, r)
    ∧ PositiveFinite r
    ∧ fgt r fone = false
    ∧ Z.of_nat n * Units fone + Units r = Units dt.
Proof.
  intros Hdt Hn Hmax Hfuel.
  destruct (SubSteps_exact n dt fuel Hdt Hn Hmax Hfuel) as (r & Hr & Hpr & Hle & Hsum).
  rewrite AdvanceLoop_SubSteps in Hr.
  destruct (AdvanceLoop fuel fone dt) as [[steps rem]|]; [|done].
  simpl in Hr. inversion Hr as [Happ].
  apply app_inj_tail in Happ as [-> ->]. by exists r.
Qed.

Lemma whole_seconds (dt : FReal) :
  PositiveFinite dt ->
  let n := Z.to_nat ((Units dt - 1) / Units fone) in
  Z.of_nat n * Units fone < Units dt <= (Z.of_nat n + 1) * Units fone.
Proof.
  intros Hdt n. pose proof (Units_positive dt Hdt) as Hpos.
  assert (Hone : 0 < Units fone) by reflexivity.
  assert (Hq : 0 <= (Units dt - 1) / Units fone) by (apply Z.div_pos; lia).
  unfold n. rewrite Z2Nat.id by exact Hq.
  pose proof (Z.mul_div_le (Units dt - 1) (Units fone) Hone).
  pose proof (Z.mul_succ_div_gt (Units dt - 1) (Units fone) Hone).
  lia.
Qed.

(** X10: the frame task of the rigid-body solver with the maximal step
    of [Reset] ([1.0f]), on a positive finite frame delta of at most [2^24]
    seconds: it returns, steps the evolution [n] times by [1.0f] and once by
    the remainder [r], where [n] is the number of whole seconds strictly below
    the delta and the exact values add up to the delta; it ends the frame with
    [r], counts one frame, and advances the solver time by [r], the last
    sub-step, not by the frame delta. *)
Theorem DoWork_advances_time_by_remainder (s : FPBDRigidsSolver) (dt : FReal)
    (fuel : nat) :
  MMaxDeltaTime s = fone ->
  PositiveFinite dt ->
  Units dt <= 2 ^ 24 * Units fone ->
  (Z.to_nat ((Units dt - 1) / Units fone) < fuel)%nat ->
  exists r,
    DoWork fuel dt s
    = Some (MkSolver (wrap32 (CurrentFrame s + 1)) (fadd (MTime s) r) (MLastDt s)
                     fone (TimeStepMultiplier s) (bEnabled s),
            (EvAdvanceOneTimeStep <$>
               replicate (Z.to_nat ((Units dt - 1) / Units fone)) fone)
            ++ [EvAdvanceOneTimeStep r; EvFillProducerData; EvFlipBuffersIfRequired;
                EvEndFrame r; EvPostTickDebugDraw])
    ∧ PositiveFinite r
    ∧ fgt r fone = false
    ∧ Z.of_nat (Z.to_nat ((Units dt - 1) / Units fone)) * Units fone + Units r
      = Units dt.
Proof.
  intros HMax Hdt Hmax Hfuel.
  destruct (AdvanceLoop_exact _ dt fuel Hdt (whole_seconds dt Hdt) Hmax Hfuel)
    as (r & Hr & Hpr & Hle & Hsum).
  exists r. unfold DoWork. rewrite HMax, Hr. simpl. done.
Qed.

Lemma DoWork_advances_time_by_remainder_witness :
  exists r,
    DoWork 3 ShortFrame (Reset (MkSolver 0 fzero fzero fzero fzero true))
    = Some (MkSolver (wrap32 (0 + 1)) (fadd fzero r) fzero fone fone false,
            (EvAdvanceOneTimeStep <$>
               replicate (Z.to_nat ((Units ShortFrame - 1) / Units fone)) fone)
            ++ [EvAdvanceOneTimeStep r; EvFillProducerData; EvFlipBuffersIfRequired;
                EvEndFrame r; EvPostTickDebugDraw])
    ∧ PositiveFinite r
    ∧ fgt r fone = false
    ∧ Z.of_nat (Z.to_nat ((Units ShortFrame - 1) / Units fone)) * Units fone + Units r
      = Units ShortFrame.
Proof.
  apply (DoWork_advances_time_by_remainder
           (Reset (MkSolver 0 fzero fzero fzero fzero true)) ShortFrame 3).
  - reflexivity.
  - reflexivity.
  - vm_compute. discriminate.
  - vm_compute. lia.
Defined.

(** The two and a half second frame: two unit steps, a half-second step, and
    the solver time half a second on. *)
Example DoWork_ShortFrame :
  DoWork 3 ShortFrame (Reset (MkSolver 0 fzero fzero fzero fzero true))
  = Some (MkSolver 1 fhalf fzero fone fone false,
          [EvAdvanceOneTimeStep fone; EvAdvanceOneTimeStep fone;
           EvAdvanceOneTimeStep fhalf; EvFillProducerData; EvFlipBuffersIfRequired;
           EvEndFrame fhalf; EvPostTickDebugDraw]).
Proof. vm_compute. reflexivity. Qed.

(** X11: [AdvanceSolverBy] on a solver that is not enabled does nothing:
    no task runs and not even [MLastDt] is recorded.  On an enabled solver with
    the time-step multiplier and the maximal step of [Reset] it records the
    frame delta in [MLastDt] and runs one frame task on the frame delta as it
    came: the evolution is stepped by [1.0f] for every whole second strictly
    below the delta and then by the remainder, so the clamp to [5/30] seconds
    that the function computes does not reach the task; the frame count goes
    up by one and the solver time by the remainder. *)
Theorem AdvanceSolverBy_one_unclamped_task (s : FPBDRigidsSolver) (dt : FReal)
    (fuel : nat) :
  (bEnabled s = false -> AdvanceSolverBy fuel dt s = Some (s, []))
  ∧ (bEnabled s = true -> TimeStepMultiplier s = fone -> MMaxDeltaTime s = fone ->
     PositiveFinite dt ->
     Units dt <= 2 ^ 24 * Units fone ->
     (Z.to_nat ((Units dt - 1) / Units fone) < fuel)%nat ->
     exists r,
       AdvanceSolverBy fuel dt s
       = Some (MkSolver (wrap32 (CurrentFrame s + 1)) (fadd (MTime s) r) dt fone fone true,
               (EvAdvanceOneTimeStep <$>
                  replicate (Z.to_nat ((Units dt - 1) / Units fone)) fone)
               ++ [EvAdvanceOneTimeStep r; EvFillProducerData; EvFlipBuffersIfRequired;
                   EvEndFrame r; EvPostTickDebugDraw])
       ∧ PositiveFinite r
       ∧ fgt r fone = false
       ∧ Z.of_nat (Z.to_nat ((Units dt - 1) / Units fone)) * Units fone + Units r
         = Units dt).
Proof.
  unfold AdvanceSolverBy. split.
  - by intros ->.
  - intros -> -> HMax Hdt Hmax Hfuel.
    change (float_to_int32 (fmul fone fone)) with (Some 1).
    cbn [mbind option_bind]. change (Z.to_nat 1) with 1%nat. cbn [Tasks].
    destruct (AdvanceLoop_exact _ dt fuel Hdt (whole_seconds dt Hdt) Hmax Hfuel)
      as (r & Hr & Hpr & Hle & Hsum).
    exists r. unfold DoWork. cbn [MMaxDeltaTime]. rewrite HMax, Hr.
    cbn. rewrite app_nil_r. done.
Qed.

Lemma AdvanceSolverBy_one_unclamped_task_witness :
  exists r,
    AdvanceSolverBy 3 ShortFrame (MkSolver 0 fzero fzero fone fone true)
    = Some (MkSolver (wrap32 (0 + 1)) (fadd fzero r) ShortFrame fone fone true,
            (EvAdvanceOneTimeStep <$>
               replicate (Z.to_nat ((Units ShortFrame - 1) / Units fone)) fone)
            ++ [EvAdvanceOneTimeStep r; EvFillProducerData; EvFlipBuffersIfRequired;
                EvEndFrame r; EvPostTickDebugDraw])
    ∧ PositiveFinite r
    ∧ fgt r fone = false
    ∧ Z.of_nat (Z.to_nat ((Units ShortFrame - 1) / Units fone)) * Units fone + Units r
      = Units ShortFrame.
Proof.
  apply (proj2 (AdvanceSolverBy_one_unclamped_task
                  (MkSolver 0 fzero fzero fone fone true) ShortFrame 3)).
  - reflexivity.
  - reflexivity.
  - reflexivity.
  - reflexivity.
  - vm_compute. discriminate.
  - vm_compute. lia.
Defined.

(** An enabled solver given the two and a half second frame: two unit steps
    and a half-second step, all above the [5/30] seconds of the unused
    clamp. *)
Example AdvanceSolverBy_ShortFrame :
  AdvanceSolverBy 3 ShortFrame (MkSolver 0 fzero fzero fone fone true)
  = Some (MkSolver 1 fhalf ShortFrame fone fone true,
          [EvAdvanceOneTimeStep fone; EvAdvanceOneTimeStep fone;
           EvAdvanceOneTimeStep fhalf; EvFillProducerData; EvFlipBuffersIfRequired;
           EvEndFrame fhalf; EvPostTickDebugDraw]).
Proof. vm_compute. reflexivity. Qed.

(** X12: the frame delta of the cloth simulation.  With a positive
    finite [ClampDeltaTime] of at most [2^24] seconds and the maximal step of
    [Initialize], [FillContext] followed by [Simulate] returns on every
    positive finite frame delta, however long: the delta passed on is the
    smaller of the frame delta and the clamp, and the sub-steps, [n] of
    [1.0f] and a remainder, add up to it exactly. *)
Theorem FillContext_then_Simulate (sim : ClothingSimulation) (InDeltaTime : FReal) :
  MaxDeltaTime sim = fone ->
  PositiveFinite (ClampDeltaTime sim) ->
  Units (ClampDeltaTime sim) <= 2 ^ 24 * Units fone ->
  PositiveFinite InDeltaTime ->
  let dt := FillContext InDeltaTime sim in
  let n := Z.to_nat ((Units dt - 1) / Units fone) in
  Units dt = Z.min (Units InDeltaTime) (Units (ClampDeltaTime sim))
  ∧ exists r,
      Simulate (S n) dt sim
      = Some (MkCloth fone (ClampDeltaTime sim) (fadd (Time sim) dt) dt,
              replicate n fone ++ [r])
      ∧ PositiveFinite r
      ∧ fgt r fone = false
      ∧ Z.of_nat n * Units fone + Units r = Units dt.
Proof.
  intros HMax Hclamp Hbound Hin dt n.
  assert (Hdt : PositiveFinite dt
                ∧ Units dt = Z.min (Units InDeltaTime) (Units (ClampDeltaTime sim))).
  { unfold dt, FillContext, std_min.
    assert (Hpos : fgt (ClampDeltaTime sim) fzero = true).
    { apply PositiveFinite_inv in Hclamp as (m & e & -> & _). reflexivity. }
    rewrite Hpos.
    destruct (flt (ClampDeltaTime sim) InDeltaTime) eqn:E.
    - apply (flt_Units _ _ Hclamp Hin) in E. split; [done | lia].
    - split; [done|].
      destruct (Z_lt_le_dec (Units (ClampDeltaTime sim)) (Units InDeltaTime)) as [Hlt|];
        [|lia].
      apply (flt_Units _ _ Hclamp Hin) in Hlt. congruence. }
  destruct Hdt as [Hpf HU]. split; [exact HU|].
  assert (Hmax : Units dt <= 2 ^ 24 * Units fone) by lia.
  destruct (SubSteps_exact n dt (S n) Hpf (whole_seconds dt Hpf) Hmax ltac:(lia))
    as (r & Hr & Hpr & Hle & Hsum).
  exists r. unfold Simulate. rewrite (PositiveFinite_nonzero dt Hpf), HMax, Hr.
  simpl. done.
Qed.

(** A simulation clamped to four seconds, given a frame of [2^25] seconds:
    the frame is cut to the clamp and run as four steps of one second. *)
Definition ClampedSim : ClothingSimulation :=
  MkCloth fone (S754_finite false 8388608 (-21)) fzero fzero.

Lemma FillContext_then_Simulate_witness :
  Units (FillContext LongFrame ClampedSim)
  = Z.min (Units LongFrame) (Units (ClampDeltaTime ClampedSim))
  ∧ exists r,
      Simulate (S (Z.to_nat ((Units (FillContext LongFrame ClampedSim) - 1) / Units fone)))
               (FillContext LongFrame ClampedSim) ClampedSim
      = Some (MkCloth fone (ClampDeltaTime ClampedSim)
                      (fadd (Time ClampedSim) (FillContext LongFrame ClampedSim))
                      (FillContext LongFrame ClampedSim),
              replicate (Z.to_nat ((Units (FillContext LongFrame ClampedSim) - 1) / Units fone))
                        fone ++ [r])
      ∧ PositiveFinite r
      ∧ fgt r fone = false
      ∧ Z.of_nat (Z.to_nat ((Units (FillContext LongFrame ClampedSim) - 1) / Units fone))
        * Units fone + Units r
        = Units (FillContext LongFrame ClampedSim).
Proof.
  apply (FillContext_then_Simulate ClampedSim LongFrame).
  - reflexivity.
  - vm_compute. reflexivity.
  - vm_compute. discriminate.
  - vm_compute. reflexivity.
Defined.

Example Simulate_clamped_LongFrame :
  Simulate 4 (FillContext LongFrame ClampedSim) ClampedSim
  = Some (MkCloth fone (ClampDeltaTime ClampedSim) (ClampDeltaTime ClampedSim)
                  (ClampDeltaTime ClampedSim),
          [fone; fone; fone; fone]).
Proof. vm_compute. reflexivity. Qed.

End FrameDeltas.

(** ** Immediate-mode simulation: the collision ignore table *)

Section IgnoreTableFacts.
Import Immediate.

Variable GetParticle : ActorHandle -> ParticleHandle.

(** A pair of particles is listed when some pair of the table given to
    [SetIgnoreCollisionPairTable] has two actors, with these particles in
    either order. *)
Definition Listed (pairs : list FIgnorePair) (A B : ParticleHandle) : Prop :=
  exists pair a b,
    pair ∈ pairs ∧ PairA pair = Some a ∧ PairB pair = Some b
    ∧ ((GetParticle a = A ∧ GetParticle b = B) ∨ (GetParticle a = B ∧ GetParticle b = A)).

Definition InTable (T : IgnoreTable) (A B : ParticleHandle) : Prop :=
  exists IgnoreSet, T !! A = Some IgnoreSet ∧ B ∈ IgnoreSet.

Lemma FindOrAddAdd_InTable (K V : ParticleHandle) (T : IgnoreTable) (A B : ParticleHandle) :
  InTable (FindOrAddAdd K V T) A B <-> InTable T A B ∨ (A = K ∧ B = V).
Proof.
  unfold InTable, FindOrAddAdd. destruct (decide (A = K)) as [->|Hne].
  - setoid_rewrite lookup_insert_eq. split.
    + intros (IgnoreSet & [= <-] & Hin). apply elem_of_union in Hin as [Hin|Hin].
      * left. destruct (T !! K) as [old|]; [by exists old | set_solver].
      * right. set_solver.
    + intros [(IgnoreSet & HT & Hin) | [_ ->]]; eexists; (split; [reflexivity|]).
      * rewrite HT. set_solver.
      * set_solver.
  - setoid_rewrite (lookup_insert_ne _ K A _ (not_eq_sym Hne)).
    split; [by left|]. by intros [?|[? _]].
Qed.

Lemma SetIgnoreCollisionPairTable_from (pairs : list FIgnorePair) (T : IgnoreTable)
    (A B : ParticleHandle) :
  InTable (foldl (fun Table IgnorePair =>
                    match PairA IgnorePair, PairB IgnorePair with
                    | Some a, Some b =>
                        FindOrAddAdd (GetParticle b) (GetParticle a)
                          (FindOrAddAdd (GetParticle a) (GetParticle b) Table)
                    | _, _ => Table
                    end) T pairs) A B
  <-> InTable T A B ∨ Listed pairs A B.
Proof.
  revert T. induction pairs as [|pair pairs IH]; intros T; simpl.
  - split; [by left|]. intros [?|(pair & a & b & Hin & _)]; [done|].
    by apply elem_of_nil in Hin.
  - rewrite IH. clear IH.
    assert (Hcons : Listed (pair :: pairs) A B <->
              Listed pairs A B ∨
              exists a b, PairA pair = Some a ∧ PairB pair = Some b
                ∧ ((GetParticle a = A ∧ GetParticle b = B)
                   ∨ (GetParticle a = B ∧ GetParticle b = A))).
    { unfold Listed. split.
      - intros (q & a & b & Hin & HA & HB & H). apply elem_of_cons in Hin as [->|Hin].
        + right. by exists a, b.
        + left. by exists q, a, b.
      - intros [(q & a & b & Hin & H) | (a & b & H)].
        + exists q, a, b. split; [by right | done].
        + exists pair, a, b. split; [by left | done]. }
    rewrite Hcons.
    destruct (PairA pair) as [a|], (PairB pair) as [b|].
    + rewrite !FindOrAddAdd_InTable. split.
      * intros [[[?|[-> ->]]|[-> ->]]|?]; try tauto.
        -- right. right. exists a, b. tauto.
        -- right. right. exists a, b. tauto.
      * intros [?|[?|(a' & b' & [= <-] & [= <-] & H)]]; try tauto.
        destruct H as [[<- <-]|[<- <-]]; tauto.
    + split; [tauto|]. intros [?|[?|(a' & b' & _ & ? & _)]]; [tauto | tauto | done].
    + split; [tauto|]. intros [?|[?|(a' & b' & ? & _)]]; [tauto | tauto | done].
    + split; [tauto|]. intros [?|[?|(a' & b' & ? & _)]]; [tauto | tauto | done].
Qed.

Lemma Listed_sym (pairs : list FIgnorePair) (A B : ParticleHandle) :
  Listed pairs A B -> Listed pairs B A.
Proof. intros (pair & a & b & Hin & HA & HB & H). exists pair, a, b. tauto. Qed.

(** X13: the table that [SetIgnoreCollisionPairTable] builds, read by
    [ShouldIgnoreCollisionConstraint].  With collisions enabled, a pair of
    particles is ignored exactly when the table given lists two non-null
    actors with these particles, in either order; with collisions disabled
    every pair is ignored; and the answer does not depend on the order of the
    two particles. *)
Theorem ShouldIgnoreCollisionConstraint_listed (Collision_Enabled : Z)
    (pairs : list FIgnorePair) (A B : ParticleHandle) :
  (ShouldIgnoreCollisionConstraint Collision_Enabled A B
     (SetIgnoreCollisionPairTable GetParticle pairs) = true
   <-> Collision_Enabled = 0 ∨ Listed pairs A B)
  ∧ ShouldIgnoreCollisionConstraint Collision_Enabled A B
      (SetIgnoreCollisionPairTable GetParticle pairs)
    = ShouldIgnoreCollisionConstraint Collision_Enabled B A
        (SetIgnoreCollisionPairTable GetParticle pairs).
Proof.
  assert (Hin : forall X Y, InTable (SetIgnoreCollisionPairTable GetParticle pairs) X Y
                            <-> Listed pairs X Y).
  { intros X Y. unfold SetIgnoreCollisionPairTable.
    rewrite SetIgnoreCollisionPairTable_from. split; [|by right].
    intros [(IgnoreSet & HT & _)|?]; [|done]. by apply lookup_empty_Some in HT. }
  assert (Hchar : forall X Y,
            ShouldIgnoreCollisionConstraint Collision_Enabled X Y
              (SetIgnoreCollisionPairTable GetParticle pairs) = true
            <-> Collision_Enabled = 0 ∨ Listed pairs X Y).
  { intros X Y. unfold ShouldIgnoreCollisionConstraint.
    destruct (decide (Collision_Enabled = 0)) as [?|Hen]; [tauto|].
    destruct (SetIgnoreCollisionPairTable GetParticle pairs !! X) as [SX|] eqn:EX.
    - rewrite bool_decide_eq_true. split.
      + intros HY. right. apply Hin. by exists SX.
      + intros [?|HL]; [done|]. apply Hin in HL as (S' & HS & HY). congruence.
    - destruct (SetIgnoreCollisionPairTable GetParticle pairs !! Y) as [SY|] eqn:EY.
      + rewrite bool_decide_eq_true. split.
        * intros HX. right. apply Listed_sym, Hin. by exists SY.
        * intros [?|HL]; [done|]. apply Hin in HL as (S' & HS & _). congruence.
      + split; [done|]. intros [?|HL]; [done|].
        apply Hin in HL as (S' & HS & _). congruence. }
  split; [apply Hchar|].
  apply eq_true_iff_eq. rewrite !Hchar.
  split; (intros [?|?]; [by left | right; by apply Listed_sym]).
Qed.

(** On a table that was not built by [SetIgnoreCollisionPairTable] the answer
    can depend on the order: only the set of the first particle is read when
    it has one. *)
Example ShouldIgnoreCollisionConstraint_order :
  ShouldIgnoreCollisionConstraint 1 0%nat 1%nat (<[0%nat := ∅]> (<[1%nat := {[0%nat]}]> ∅))
  = false
  ∧ ShouldIgnoreCollisionConstraint 1 1%nat 0%nat
      (<[0%nat := ∅]> (<[1%nat := {[0%nat]}]> ∅))
    = true.
Proof. split; vm_compute; reflexivity. Qed.

End IgnoreTableFacts.

(** ** Immediate-mode simulation: the levels of the actors *)

Section ActorLevels.
Import Joint Immediate.

Variable IsDynamic : ActorHandle -> bool.
Variable GetActorHandles : JointHandle -> ActorHandle * ActorHandle.

(** A joint connects two actors, in either order. *)
Definition Touches (j : JointHandle) (a b : ActorHandle) : Prop :=
  GetActorHandles j = (a, b) ∨ GetActorHandles j = (b, a).

Definition End (j : JointHandle) (a : ActorHandle) : Prop :=
  (GetActorHandles j).1 = a ∨ (GetActorHandles j).2 = a.

Lemma Touches_End (j : JointHandle) (a b : ActorHandle) : Touches j a b -> End j a ∧ End j b.
Proof. unfold Touches, End. intros [-> | ->]; simpl; tauto. Qed.

Lemma End_Touches (j : JointHandle) (a : ActorHandle) :
  End j a -> exists b, Touches j a b.
Proof.
  unfold Touches, End. destruct (GetActorHandles j) as [x y]. simpl.
  intros [-> | ->]; [exists y | exists x]; tauto.
Qed.

(** *** The first loop *)

Lemma ResetActors_spec (actors : list ActorHandle) (L : Levels)
    (AJ : gmap ActorHandle (list JointHandle)) (Q : list ActorHandle) :
  exists L' AJ',
    foldl (ResetActor IsDynamic) (L, AJ, Q) actors
    = (L', AJ', Q ++ filter (fun a => IsDynamic a = false) actors)
    ∧ (forall a, AJ' !! a = if decide (a ∈ actors) then Some [] else AJ !! a)
    ∧ (forall a, L' !! a =
         if decide (a ∈ actors)
         then Some (if IsDynamic a then INDEX_NONE else 0)
         else L !! a).
Proof.
  revert L AJ Q. induction actors as [|x actors IH]; intros L AJ Q.
  - exists L, AJ. simpl. rewrite app_nil_r. split; [done|].
    by split.
  - cbn [foldl]. unfold ResetActor at 2.
    assert (Hin : forall a, a ∈ x :: actors <-> a = x ∨ a ∈ actors)
      by (intros a; apply elem_of_cons).
    destruct (IsDynamic x) eqn:Ex; cbn [negb].
    + destruct (IH (<[x:=INDEX_NONE]> L) (<[x:=[]]> AJ) Q) as (L' & AJ' & -> & HAJ & HL).
      exists L', AJ'. rewrite filter_cons_False by congruence.
      split; [done|]. split; intros a.
      * rewrite HAJ. destruct (decide (a ∈ actors)) as [Ha|Ha].
        -- rewrite decide_True; [done|]. apply Hin. by right.
        -- destruct (decide (a = x)) as [->|Hne].
           ++ rewrite lookup_insert_eq, decide_True; [done|]. apply Hin. by left.
           ++ rewrite lookup_insert_ne by done.
              rewrite decide_False; [done|]. rewrite Hin. tauto.
      * rewrite HL. destruct (decide (a ∈ actors)) as [Ha|Ha].
        -- rewrite decide_True; [done|]. apply Hin. by right.
        -- destruct (decide (a = x)) as [->|Hne].
           ++ rewrite lookup_insert_eq, decide_True, Ex; [done|]. apply Hin. by left.
           ++ rewrite lookup_insert_ne by done.
              rewrite decide_False; [done|]. rewrite Hin. tauto.
    + destruct (IH (<[x:=0]> (<[x:=INDEX_NONE]> L)) (<[x:=[]]> AJ) (Q ++ [x]))
        as (L' & AJ' & -> & HAJ & HL).
      exists L', AJ'. rewrite filter_cons_True by done.
      rewrite <- app_assoc. split; [done|]. split; intros a.
      * rewrite HAJ. destruct (decide (a ∈ actors)) as [Ha|Ha].
        -- rewrite decide_True; [done|]. apply Hin. by right.
        -- destruct (decide (a = x)) as [->|Hne].
           ++ rewrite lookup_insert_eq, decide_True; [done|]. apply Hin. by left.
           ++ rewrite lookup_insert_ne by done.
              rewrite decide_False; [done|]. rewrite Hin. tauto.
      * rewrite HL. destruct (decide (a ∈ actors)) as [Ha|Ha].
        -- rewrite decide_True; [done|]. apply Hin. by right.
        -- destruct (decide (a = x)) as [->|Hne].
           ++ rewrite lookup_insert_eq, decide_True, Ex; [done|]. apply Hin. by left.
           ++ rewrite !lookup_insert_ne by done.
              rewrite decide_False; [done|]. rewrite Hin. tauto.
Qed.

(** *** The second loop *)

Lemma ListJoint_spec (AJ : gmap ActorHandle (list JointHandle)) (j : JointHandle) :
  is_Some (AJ !! (GetActorHandles j).1) -> is_Some (AJ !! (GetActorHandles j).2) ->
  exists AJ',
    ListJoint GetActorHandles AJ j = Some AJ'
    ∧ (forall a, AJ !! a = None -> AJ' !! a = None)
    ∧ (forall a l, AJ !! a = Some l ->
         exists l', AJ' !! a = Some l' ∧ forall j', j' ∈ l' <-> j' ∈ l ∨ (j' = j ∧ End j a)).
Proof.
  intros [l0 H0] H1. unfold ListJoint, End. rewrite H0. simpl.
  destruct (GetActorHandles j) as [x y]. simpl in *.
  assert (H1' : is_Some (<[x:=l0 ++ [j]]> AJ !! y)).
  { destruct (decide (y = x)) as [->|Hne].
    - rewrite lookup_insert_eq. by eexists.
    - by rewrite lookup_insert_ne. }
  destruct H1' as [l1 H1']. rewrite H1'. simpl. eexists. split; [reflexivity|].
  split.
  - intros a Ha. destruct (decide (a = y)) as [->|Hy].
    { destruct H1 as [? H1]. congruence. }
    rewrite lookup_insert_ne by done.
    destruct (decide (a = x)) as [->|Hx]; [congruence|].
    by rewrite lookup_insert_ne.
  - intros a l Ha. destruct (decide (a = y)) as [->|Hy].
    + rewrite lookup_insert_eq. eexists. split; [reflexivity|].
      intros j'. rewrite elem_of_app, list_elem_of_singleton.
      destruct (decide (y = x)) as [->|Hne].
      * rewrite lookup_insert_eq in H1'. inversion H1'; subst l1.
        rewrite elem_of_app, list_elem_of_singleton.
        assert (l0 = l) by congruence. subst. tauto.
      * rewrite lookup_insert_ne in H1' by done.
        assert (l1 = l) by congruence. subst. tauto.
    + rewrite lookup_insert_ne by done.
      destruct (decide (a = x)) as [->|Hx].
      * rewrite lookup_insert_eq. eexists. split; [reflexivity|].
        intros j'. rewrite elem_of_app, list_elem_of_singleton.
        assert (l0 = l) by congruence. subst. tauto.
      * rewrite lookup_insert_ne by done. exists l. split; [done|].
        intros j'. split; [tauto|]. intros [?|[_ [?|?]]]; done.
Qed.

Lemma ListJoints_spec (joints : list JointHandle) (AJ : gmap ActorHandle (list JointHandle)) :
  (forall j, j ∈ joints ->
     is_Some (AJ !! (GetActorHandles j).1) ∧ is_Some (AJ !! (GetActorHandles j).2)) ->
  exists AJ',
    ListJoints GetActorHandles AJ joints = Some AJ'
    ∧ (forall a, AJ !! a = None -> AJ' !! a = None)
    ∧ (forall a l, AJ !! a = Some l ->
         exists l', AJ' !! a = Some l'
                    ∧ forall j', j' ∈ l' <-> j' ∈ l ∨ (j' ∈ joints ∧ End j' a)).
Proof.
  revert AJ. induction joints as [|j joints IH]; intros AJ Hkeys.
  - exists AJ. split; [done|]. split; [done|]. intros a l Ha. exists l.
    split; [done|]. intros j'. split; [tauto|]. intros [?|[Hin _]]; [done|].
    by apply elem_of_nil in Hin.
  - destruct (Hkeys j ltac:(by left)) as [H0 H1].
    destruct (ListJoint_spec AJ j H0 H1) as (AJ1 & E1 & Hnone1 & Hsome1).
    cbn [ListJoints]. rewrite E1. simpl.
    destruct (IH AJ1) as (AJ' & E' & Hnone' & Hsome').
    { intros j' Hj'. destruct (Hkeys j' ltac:(by right)) as [[l0 K0] [l1 K1]].
      destruct (Hsome1 _ _ K0) as (? & -> & _).
      destruct (Hsome1 _ _ K1) as (? & -> & _). by split; eexists. }
    exists AJ'. split; [done|]. split.
    + intros a Ha. by apply Hnone', Hnone1.
    + intros a l Ha. destruct (Hsome1 a l Ha) as (l1 & Hl1 & Hmem1).
      destruct (Hsome' a l1 Hl1) as (l' & Hl' & Hmem').
      exists l'. split; [done|]. intros j'. rewrite Hmem', Hmem1, elem_of_cons.
      split.
      * intros [[?|[-> ?]]|[? ?]]; tauto.
      * intros [?|[[->|?] ?]]; tauto.
Qed.

(** *** The third loop *)

Lemma filter_both_length (l : list ActorHandle) :
  (length (filter (fun a => IsDynamic a = false) l)
   + length (filter (fun a => IsDynamic a = true) l) = length l)%nat.
Proof.
  induction l as [|x l IH]; [done|].
  destruct (IsDynamic x) eqn:E.
  - rewrite filter_cons_False, filter_cons_True by congruence. simpl. lia.
  - rewrite filter_cons_True, filter_cons_False by congruence. simpl. lia.
Qed.

Lemma wrap32_small (z : Z) : - 2 ^ 31 <= z < 2 ^ 31 -> wrap32 z = z.
Proof. intros H. unfold wrap32. rewrite Z.mod_small; lia. Qed.

Section Queue.

Variable Actors : list ActorHandle.
Variable Joints : list JointHandle.
Variable AJ : gmap ActorHandle (list JointHandle).
Variable L0 : Levels.

Hypothesis Actors_int32 : Z.of_nat (length Actors) < 2 ^ 31.
Hypothesis Joints_closed : forall j a, j ∈ Joints -> End j a -> a ∈ Actors.
Hypothesis AJ_keys : forall a, a ∈ Actors -> is_Some (AJ !! a).
Hypothesis AJ_joints : forall a js j, AJ !! a = Some js ->
  (j ∈ js <-> j ∈ Joints ∧ End j a).

(** The state of the loop when it tests index [i]. *)
Record BInv (i : nat) (L : Levels) (Q : list ActorHandle) : Prop := {
  b_idx : (i <= length Q)%nat;
  b_dom : forall a, a ∈ Actors -> is_Some (L !! a);
  b_queue : forall k a, Q !! k = Some a ->
    a ∈ Actors ∧ exists l, L !! a = Some l ∧ 0 <= l <= Z.of_nat k;
  b_queued : forall a l, a ∈ Actors -> L !! a = Some l -> l <> INDEX_NONE -> a ∈ Q;
  b_sorted : forall k1 k2 a1 a2 l1 l2, (k1 <= k2)%nat ->
    Q !! k1 = Some a1 -> Q !! k2 = Some a2 -> L !! a1 = Some l1 -> L !! a2 = Some l2 ->
    l1 <= l2;
  b_bound : forall a l k b lb,
    Q !! i = Some a -> L !! a = Some l -> Q !! k = Some b -> L !! b = Some lb ->
    lb <= l + 1;
  b_done : forall k a j b, (k < i)%nat -> Q !! k = Some a -> j ∈ Joints -> Touches j a b ->
    exists l lb, L !! a = Some l ∧ L !! b = Some lb ∧ 0 <= lb <= l + 1;
  b_parent : forall a l, a ∈ Actors -> L !! a = Some l -> l <> INDEX_NONE ->
    (l = 0 ∧ IsDynamic a = false)
    ∨ (1 <= l ∧ IsDynamic a = true
       ∧ exists j b, j ∈ Joints ∧ Touches j a b ∧ L !! b = Some (l - 1));
  b_static : forall a, a ∈ Actors -> IsDynamic a = false -> L !! a = Some 0;
  b_size : exists Qd,
    Q = filter (fun a => IsDynamic a = false) Actors ++ Qd
    ∧ NoDup Qd ∧ forall a, a ∈ Qd -> IsDynamic a = true ∧ a ∈ Actors;
  b_outside : forall a, a ∉ Actors -> L !! a = L0 !! a
}.

Lemma BInv_length (i : nat) (L : Levels) (Q : list ActorHandle) :
  BInv i L Q -> (length Q <= length Actors)%nat.
Proof.
  intros [_ _ _ _ _ _ _ _ _ (Qd & -> & Hnd & Hd) _].
  rewrite length_app. pose proof (filter_both_length Actors) as Hlen.
  assert (length Qd <= length (filter (fun a => IsDynamic a = true) Actors))%nat; [|lia].
  apply submseteq_length, NoDup_submseteq; [done|].
  intros a Ha. apply list_elem_of_filter. by apply Hd.
Qed.

(** Levels that were given stay. *)
Definition Stable (L L' : Levels) : Prop :=
  forall x lx, L !! x = Some lx -> lx <> INDEX_NONE -> L' !! x = Some lx.

Lemma Visit_spec (i : nat) (a : ActorHandle) (l : Z) (b : ActorHandle)
    (L : Levels) (Q : list ActorHandle) :
  BInv i L Q -> Q !! i = Some a -> L !! a = Some l ->
  b = a ∨ (exists j, j ∈ Joints ∧ Touches j a b) ->
  exists L' Q',
    Visit a (L, Q) b = Some (L', Q')
    ∧ BInv i L' Q'
    ∧ Q' !! i = Some a
    ∧ L' !! a = Some l
    ∧ (exists lb, L' !! b = Some lb ∧ 0 <= lb <= l + 1)
    ∧ Stable L L'.
Proof.
  intros HI Hqa Hla Hb.
  destruct (b_queue i L Q HI i a Hqa) as (HaA & l' & Hla' & Hl0 & Hli).
  assert (l' = l) by congruence. subst l'.
  pose proof (lookup_lt_Some _ _ _ Hqa) as Hilt.
  pose proof (BInv_length i L Q HI) as HlenQ.
  assert (HbA : b ∈ Actors).
  { destruct Hb as [->|(j & Hj & Ht)]; [done|].
    apply (Joints_closed j b Hj). by apply (Touches_End j a b). }
  destruct (b_dom i L Q HI b HbA) as [lb Hlb].
  unfold Visit. cbn [fst snd]. rewrite Hlb. cbn [mbind option_bind].
  destruct (decide (lb = INDEX_NONE)) as [->|Hlev].
  2:{ (* already levelled *)
    exists L, Q. split; [done|]. split; [done|]. split; [done|]. split; [done|].
    split; [|by intros x lx]. exists lb. split; [done|].
    pose proof (b_queued i L Q HI b lb HbA Hlb Hlev) as [k Hk]%list_elem_of_lookup.
    destruct (b_queue i L Q HI k b Hk) as (_ & lb' & Hlb' & Hlb0 & _).
    assert (lb' = lb) by congruence. subst lb'.
    split; [lia|]. by apply (b_bound i L Q HI a l k b lb). }
  (* [b] gets its level and is queued *)
  rewrite Hla. cbn [mbind option_bind].
  rewrite wrap32_small by lia.
  assert (Hba : b <> a).
  { intros ->. rewrite Hla in Hlb. inversion Hlb. unfold INDEX_NONE in *. lia. }
  assert (HbQ : b ∉ Q).
  { intros [k Hk]%list_elem_of_lookup.
    destruct (b_queue i L Q HI k b Hk) as (_ & lb' & Hlb' & Hlb0 & _).
    unfold INDEX_NONE in *. assert (lb' = -1) by congruence. lia. }
  assert (Hbdyn : IsDynamic b = true).
  { destruct (IsDynamic b) eqn:E; [done|].
    pose proof (b_static i L Q HI b HbA E). unfold INDEX_NONE in *. congruence. }
  assert (Hother : forall x lx, L !! x = Some lx -> lx <> INDEX_NONE ->
                     <[b:=l + 1]> L !! x = Some lx).
  { intros x lx Hx Hne. rewrite lookup_insert_ne; [done|]. intros <-. congruence. }
  assert (HQ : forall k x, Q !! k = Some x ->
                 exists lx, L !! x = Some lx ∧ 0 <= lx <= Z.of_nat k
                            ∧ <[b:=l + 1]> L !! x = Some lx).
  { intros k x Hk. destruct (b_queue i L Q HI k x Hk) as (_ & lx & Hlx & H0 & Hk').
    exists lx. split_and!; try done. apply Hother; [done|]. unfold INDEX_NONE. lia. }
  exists (<[b:=l + 1]> L), (Q ++ [b]).
  split; [done|]. split_and!.
  - split.
    + rewrite length_app. simpl. lia.
    + intros x Hx. destruct (decide (x = b)) as [->|Hne].
      * rewrite lookup_insert_eq. by eexists.
      * rewrite lookup_insert_ne by done. by apply (b_dom i L Q HI).
    + intros k x Hk. apply lookup_app_Some in Hk as [Hk|[Hge Hk]].
      * destruct (b_queue i L Q HI k x Hk) as (HxA & _).
        destruct (HQ k x Hk) as (lx & _ & Hr & Hx'). split; [done|]. by exists lx.
      * apply list_lookup_singleton_Some in Hk as [Hk ->]. split; [done|].
        exists (l + 1). rewrite lookup_insert_eq. split; [done|]. lia.
    + intros x lx HxA Hx Hne. destruct (decide (x = b)) as [->|Hxb].
      * apply elem_of_app. right. by apply list_elem_of_singleton.
      * rewrite lookup_insert_ne in Hx by done. apply elem_of_app. left.
        by apply (b_queued i L Q HI x lx).
    + intros k1 k2 a1 a2 l1 l2 Hle H1 H2 Hl1 Hl2.
      apply lookup_app_Some in H2 as [H2|[Hge2 H2]].
      * assert (H1' : Q !! k1 = Some a1).
        { pose proof (lookup_lt_Some _ _ _ H2).
          rewrite lookup_app_l in H1 by lia. done. }
        destruct (HQ k1 a1 H1') as (x1 & Hx1 & _ & Hx1').
        destruct (HQ k2 a2 H2) as (x2 & Hx2 & _ & Hx2').
        assert (x1 = l1) by congruence. assert (x2 = l2) by congruence. subst.
        by apply (b_sorted i L Q HI k1 k2 a1 a2).
      * apply list_lookup_singleton_Some in H2 as [_ ->].
        rewrite lookup_insert_eq in Hl2. inversion Hl2; subst l2.
        apply lookup_app_Some in H1 as [H1|[_ H1]].
        -- destruct (HQ k1 a1 H1) as (x1 & Hx1 & _ & Hx1').
           assert (x1 = l1) by congruence. subst.
           by apply (b_bound i L Q HI a l k1 a1 l1).
        -- apply list_lookup_singleton_Some in H1 as [_ ->].
           rewrite lookup_insert_eq in Hl1. inversion Hl1. lia.
    + intros a' l' k x lx Ha' Hl' Hk Hlx.
      rewrite lookup_app_l in Ha' by done.
      assert (a' = a) by congruence. subst a'.
      rewrite lookup_insert_ne in Hl' by done.
      assert (l' = l) by congruence. subst l'.
      apply lookup_app_Some in Hk as [Hk|[_ Hk]].
      * destruct (HQ k x Hk) as (x1 & Hx1 & _ & Hx1').
        assert (x1 = lx) by congruence. subst.
        by apply (b_bound i L Q HI a l k x lx).
      * apply list_lookup_singleton_Some in Hk as [_ ->].
        rewrite lookup_insert_eq in Hlx. inversion Hlx. lia.
    + intros k x j y Hk Hx Hj Ht.
      rewrite lookup_app_l in Hx by lia.
      destruct (b_done i L Q HI k x j y Hk Hx Hj Ht) as (lx & ly & Hlx & Hly & Hy).
      exists lx, ly. split; [|split; [|done]].
      * destruct (HQ k x Hx) as (x1 & Hx1 & _ & Hx1'). congruence.
      * apply Hother; [done|]. unfold INDEX_NONE. lia.
    + intros x lx HxA Hx Hne. destruct (decide (x = b)) as [->|Hxb].
      * rewrite lookup_insert_eq in Hx. inversion Hx; subst lx. right.
        split; [lia|]. split; [done|].
        destruct Hb as [?|(j & Hj & Ht)]; [done|].
        exists j, a. split; [done|]. split; [unfold Touches in *; tauto|].
        rewrite lookup_insert_ne by done. rewrite Hla. f_equal. lia.
      * rewrite lookup_insert_ne in Hx by done.
        destruct (b_parent i L Q HI x lx HxA Hx Hne)
          as [?|(H1 & Hd & j & y & Hj & Ht & Hy)]; [by left|].
        right. split; [done|]. split; [done|]. exists j, y.
        split; [done|]. split; [done|]. apply Hother; [done|]. unfold INDEX_NONE. lia.
    + intros x HxA Hxs. rewrite lookup_insert_ne by congruence.
      by apply (b_static i L Q HI).
    + destruct (b_size i L Q HI) as (Qd & HQd & Hnd & Hd).
      exists (Qd ++ [b]). split; [by rewrite HQd, app_assoc|]. split.
      * apply NoDup_app. split; [done|]. split; [|apply NoDup_singleton].
        intros x Hx Hxb. apply list_elem_of_singleton in Hxb. subst x.
        apply HbQ. rewrite HQd. apply elem_of_app. by right.
      * intros x Hx. apply elem_of_app in Hx as [Hx|Hx]; [by apply Hd|].
        apply list_elem_of_singleton in Hx. by subst x.
    + intros x Hx. rewrite lookup_insert_ne by (intros <-; done).
      by apply (b_outside i L Q HI).
  - by apply lookup_app_l_Some.
  - by rewrite lookup_insert_ne.
  - exists (l + 1). rewrite lookup_insert_eq. split; [done|]. lia.
  - exact Hother.
Qed.

Lemma Stable_trans (L1 L2 L3 : Levels) : Stable L1 L2 -> Stable L2 L3 -> Stable L1 L3.
Proof. intros H12 H23 x lx Hx Hne. apply H23; [|done]. by apply H12. Qed.

Lemma VisitJoints_spec (i : nat) (a : ActorHandle) (l : Z) (js : list JointHandle) :
  forall (L : Levels) (Q : list ActorHandle),
    BInv i L Q -> Q !! i = Some a -> L !! a = Some l ->
    (forall j, j ∈ js -> j ∈ Joints ∧ End j a) ->
    exists L' Q',
      VisitJoints GetActorHandles a js (L, Q) = Some (L', Q')
      ∧ BInv i L' Q'
      ∧ Q' !! i = Some a
      ∧ L' !! a = Some l
      ∧ (forall j b, j ∈ js -> Touches j a b ->
           exists lb, L' !! b = Some lb ∧ 0 <= lb <= l + 1)
      ∧ Stable L L'.
Proof.
  induction js as [|j js IH]; intros L Q HI Hqa Hla Hjs.
  - exists L, Q. split_and!; try done.
    + intros j b Hj. by apply elem_of_nil in Hj.
    + by intros x lx.
  - destruct (Hjs j ltac:(by left)) as [HjJ HjE].
    cbn [VisitJoints].
    assert (Hx : (GetActorHandles j).1 = a
                 ∨ exists j', j' ∈ Joints ∧ Touches j' a (GetActorHandles j).1).
    { unfold End, Touches in *. destruct (GetActorHandles j) as [x y] eqn:E. simpl in *.
      destruct HjE as [->| ->]; [by left|]. right. exists j.
      split; [done|]. right. done. }
    assert (Hy : (GetActorHandles j).2 = a
                 ∨ exists j', j' ∈ Joints ∧ Touches j' a (GetActorHandles j).2).
    { unfold End, Touches in *. destruct (GetActorHandles j) as [x y] eqn:E. simpl in *.
      destruct HjE as [->| ->]; [|by left]. right. exists j.
      split; [done|]. left. done. }
    destruct (Visit_spec i a l _ L Q HI Hqa Hla Hx)
      as (L1 & Q1 & E1 & HI1 & Hqa1 & Hla1 & (lx & Hlx & Hlxb) & Hst1).
    rewrite E1. cbn [mbind option_bind].
    destruct (Visit_spec i a l _ L1 Q1 HI1 Hqa1 Hla1 Hy)
      as (L2 & Q2 & E2 & HI2 & Hqa2 & Hla2 & (ly & Hly & Hlyb) & Hst2).
    rewrite E2. cbn [mbind option_bind].
    destruct (IH L2 Q2 HI2 Hqa2 Hla2) as (L' & Q' & E' & HI' & Hqa' & Hla' & Hvis & Hst').
    { intros j' Hj'. apply Hjs. by right. }
    exists L', Q'. split_and!; try done.
    + intros j' b Hj' Ht. apply elem_of_cons in Hj' as [->|Hj']; [|by eapply Hvis].
      assert (Hlevelled : forall z lz, L2 !! z = Some lz -> 0 <= lz <= l + 1 ->
                exists lb, L' !! z = Some lb ∧ 0 <= lb <= l + 1).
      { intros z lz Hz Hzb. exists lz. split; [|done].
        apply Hst'; [done|]. unfold INDEX_NONE. lia. }
      unfold Touches in Ht. destruct (GetActorHandles j) as [x y]. simpl in *.
      destruct Ht as [[= -> ->]|[= -> ->]].
      * by apply (Hlevelled _ ly).
      * apply (Hlevelled _ lx); [|done]. apply Hst2; [done|]. unfold INDEX_NONE. lia.
    + by apply (Stable_trans L L1 L'), (Stable_trans L1 L2 L').
Qed.

Lemma BInv_next (i : nat) (a : ActorHandle) (l : Z) (js : list JointHandle)
    (L : Levels) (Q : list ActorHandle) :
  BInv i L Q -> Q !! i = Some a -> L !! a = Some l -> AJ !! a = Some js ->
  (forall j b, j ∈ js -> Touches j a b -> exists lb, L !! b = Some lb ∧ 0 <= lb <= l + 1) ->
  BInv (S i) L Q.
Proof.
  intros HI Hqa Hla Hjs Hvis. pose proof (lookup_lt_Some _ _ _ Hqa) as Hlt.
  destruct HI as [? ? Hqueue ? Hsorted Hbound Hdone ? ? ? ?].
  split; try done.
  - intros a' l' k b lb Ha' Hl' Hk Hlb.
    assert (l <= l') by (by apply (Hsorted i (S i) a a'); [lia|..]).
    assert (lb <= l + 1) by (by apply (Hbound a l k b lb)). lia.
  - intros k x j b Hk Hx Hj Ht.
    destruct (decide (k = i)) as [->|Hne]; [|apply (Hdone k x j b); [lia|done..]].
    assert (x = a) by congruence. subst x.
    destruct (Hvis j b) as (lb & Hlb & Hb); [|done|].
    { apply (AJ_joints a js j Hjs). split; [done|]. by apply (Touches_End j a b). }
    exists l, lb. done.
Qed.

Lemma AssignLevels_spec (fuel : nat) :
  forall (i : nat) (L : Levels) (Q : list ActorHandle),
    BInv i L Q -> (length Actors - i < fuel)%nat ->
    exists L' Q',
      AssignLevels GetActorHandles fuel AJ i (L, Q) = Some (L', Q')
      ∧ BInv (length Q') L' Q'.
Proof.
  induction fuel as [|fuel IH]; intros i L Q HI Hfuel; [lia|].
  cbn [AssignLevels snd]. destruct (Q !! i) as [a|] eqn:Hqa.
  - destruct (b_queue i L Q HI i a Hqa) as (HaA & l & Hla & _).
    destruct (AJ_keys a HaA) as [js Hjs]. rewrite Hjs. cbn [mbind option_bind].
    destruct (VisitJoints_spec i a l js L Q HI Hqa Hla)
      as (L1 & Q1 & E1 & HI1 & Hqa1 & Hla1 & Hvis & _).
    { intros j Hj. by apply (AJ_joints a js j Hjs). }
    rewrite E1. cbn [mbind option_bind].
    pose proof (BInv_next i a l js L1 Q1 HI1 Hqa1 Hla1 Hjs Hvis) as HI2.
    pose proof (lookup_lt_Some _ _ _ Hqa1) as Hlt.
    pose proof (BInv_length i L1 Q1 HI1) as Hlen.
    apply IH; [done | lia].
  - exists L, Q. split; [done|].
    apply lookup_ge_None in Hqa. pose proof (b_idx i L Q HI) as Hi.
    assert (i = length Q) by lia. by subst i.
Qed.

(** What the levels are when the loop has run out of queue. *)
Lemma BInv_final (L : Levels) (Q : list ActorHandle) :
  BInv (length Q) L Q ->
  (forall a, a ∉ Actors -> L !! a = L0 !! a)
  ∧ (forall a, a ∈ Actors ->
       exists l, L !! a = Some l
                 ∧ (l = INDEX_NONE ∨ 0 <= l < Z.of_nat (length Actors))
                 ∧ (IsDynamic a = false <-> l = 0))
  ∧ (forall j a b, j ∈ Joints -> Touches j a b ->
       exists la lb, L !! a = Some la ∧ L !! b = Some lb
         ∧ ((la = INDEX_NONE ∧ lb = INDEX_NONE)
            ∨ (0 <= la ∧ 0 <= lb ∧ la - 1 <= lb <= la + 1)))
  ∧ (forall a l, a ∈ Actors -> L !! a = Some l -> 1 <= l ->
       exists j b, j ∈ Joints ∧ Touches j a b ∧ L !! b = Some (l - 1)).
Proof.
  intros HI. pose proof (BInv_length _ L Q HI) as Hlen.
  assert (Hlev : forall a l, a ∈ Actors -> L !! a = Some l -> l <> INDEX_NONE ->
            exists k, Q !! k = Some a ∧ 0 <= l <= Z.of_nat k ∧ (k < length Q)%nat).
  { intros a l HaA Hl Hne.
    pose proof (b_queued _ L Q HI a l HaA Hl Hne) as [k Hk]%list_elem_of_lookup.
    destruct (b_queue _ L Q HI k a Hk) as (_ & l' & Hl' & Hb).
    exists k. split; [done|]. split; [congruence|]. by eapply lookup_lt_Some. }
  split_and!.
  - apply (b_outside _ L Q HI).
  - intros a HaA. destruct (b_dom _ L Q HI a HaA) as [l Hl]. exists l.
    split; [done|]. split.
    + destruct (decide (l = INDEX_NONE)) as [?|Hne]; [by left|]. right.
      destruct (Hlev a l HaA Hl Hne) as (k & _ & Hb & Hk). lia.
    + split.
      * intros Hs. pose proof (b_static _ L Q HI a HaA Hs). congruence.
      * intros ->. destruct (b_parent _ L Q HI a 0 HaA Hl) as [[_ ?]|[? _]];
          [done | done | lia].
  - intros j a b Hj Ht.
    destruct (Touches_End j a b Ht) as [HEa HEb].
    pose proof (Joints_closed j a Hj HEa) as HaA.
    pose proof (Joints_closed j b Hj HEb) as HbA.
    destruct (b_dom _ L Q HI a HaA) as [la Hla].
    destruct (b_dom _ L Q HI b HbA) as [lb Hlb].
    exists la, lb. split; [done|]. split; [done|].
    assert (Hone : forall x y lx ly, Touches j x y -> x ∈ Actors ->
              L !! x = Some lx -> L !! y = Some ly -> lx <> INDEX_NONE ->
              0 <= lx ∧ 0 <= ly <= lx + 1).
    { intros x y lx ly Hxy HxA Hx Hy Hne.
      destruct (Hlev x lx HxA Hx Hne) as (k & Hk & Hb & Hklt).
      destruct (b_done _ L Q HI k x j y Hklt Hk Hj Hxy) as (lx' & ly' & Hx' & Hy' & Hb').
      assert (lx' = lx) by congruence. assert (ly' = ly) by congruence. subst. lia. }
    assert (Hba : Touches j b a) by (unfold Touches in *; tauto).
    destruct (decide (la = INDEX_NONE)) as [Ha|Ha];
      destruct (decide (lb = INDEX_NONE)) as [Hb|Hb].
    + by left.
    + destruct (Hone b a lb la Hba HbA Hlb Hla Hb) as [? ?].
      unfold INDEX_NONE in *. lia.
    + destruct (Hone a b la lb Ht HaA Hla Hlb Ha) as [? ?].
      unfold INDEX_NONE in *. lia.
    + destruct (Hone a b la lb Ht HaA Hla Hlb Ha) as [? ?].
      destruct (Hone b a lb la Hba HbA Hlb Hla Hb) as [? ?].
      right. lia.
  - intros a l HaA Hl H1.
    destruct (b_parent _ L Q HI a l HaA Hl) as [[? _]|(_ & _ & H)];
      [unfold INDEX_NONE; lia | lia | done].
Qed.

End Queue.

(** *** The whole of it *)

Lemma ListJoint_missing (AJ : gmap ActorHandle (list JointHandle)) (j : JointHandle)
    (a : ActorHandle) :
  End j a -> AJ !! a = None -> ListJoint GetActorHandles AJ j = None.
Proof.
  unfold End, ListJoint. destruct (GetActorHandles j) as [x y]. simpl.
  intros [->| ->] Ha.
  - by rewrite Ha.
  - destruct (AJ !! x) as [l0|] eqn:Ex; [|done]. simpl.
    destruct (decide (a = x)) as [->|Hne]; [congruence|].
    by rewrite lookup_insert_ne, Ha.
Qed.

Lemma ListJoint_keeps_None (AJ AJ' : gmap ActorHandle (list JointHandle)) (j : JointHandle)
    (a : ActorHandle) :
  ListJoint GetActorHandles AJ j = Some AJ' -> AJ !! a = None -> AJ' !! a = None.
Proof.
  unfold ListJoint. destruct (GetActorHandles j) as [x y]. simpl.
  destruct (AJ !! x) as [l0|] eqn:Ex; [|done]. simpl.
  destruct (<[x:=l0 ++ [j]]> AJ !! y) as [l1|] eqn:Ey; [|done]. simpl.
  intros [= <-] Ha.
  destruct (decide (a = y)) as [->|Hy].
  { destruct (decide (y = x)) as [->|Hne]; [congruence|].
    rewrite lookup_insert_ne in Ey by done. congruence. }
  rewrite lookup_insert_ne by done.
  destruct (decide (a = x)) as [->|Hx]; [congruence|].
  by rewrite lookup_insert_ne.
Qed.

Lemma ListJoints_missing (joints : list JointHandle) :
  forall (AJ : gmap ActorHandle (list JointHandle)) (j : JointHandle) (a : ActorHandle),
    j ∈ joints -> End j a -> AJ !! a = None ->
    ListJoints GetActorHandles AJ joints = None.
Proof.
  induction joints as [|j0 joints IH]; intros AJ j a Hj He Ha.
  - by apply elem_of_nil in Hj.
  - cbn [ListJoints].
    destruct (ListJoint GetActorHandles AJ j0) as [AJ1|] eqn:E1; [|done]. simpl.
    apply elem_of_cons in Hj as [->|Hj].
    + by rewrite (ListJoint_missing AJ j0 a He Ha) in E1.
    + apply (IH AJ1 j a Hj He). by eapply ListJoint_keeps_None.
Qed.

Lemma ConditionConstraints_final (Actors : list ActorHandle) (Joints : list JointHandle)
    (L : Levels) (fuel : nat) :
  Z.of_nat (length Actors) < 2 ^ 31 ->
  (forall j a, j ∈ Joints -> End j a -> a ∈ Actors) ->
  (length Actors < fuel)%nat ->
  exists L' Q',
    ConditionConstraints IsDynamic GetActorHandles fuel Actors Joints L = Some (L', Q')
    ∧ (forall a, a ∉ Actors -> L' !! a = L !! a)
    ∧ (forall a, a ∈ Actors ->
         exists l, L' !! a = Some l
                   ∧ (l = INDEX_NONE ∨ 0 <= l < Z.of_nat (length Actors))
                   ∧ (IsDynamic a = false <-> l = 0))
    ∧ (forall j a b, j ∈ Joints -> Touches j a b ->
         exists la lb, L' !! a = Some la ∧ L' !! b = Some lb
           ∧ ((la = INDEX_NONE ∧ lb = INDEX_NONE)
              ∨ (0 <= la ∧ 0 <= lb ∧ la - 1 <= lb <= la + 1)))
    ∧ (forall a l, a ∈ Actors -> L' !! a = Some l -> 1 <= l ->
         exists j b, j ∈ Joints ∧ Touches j a b ∧ L' !! b = Some (l - 1)).
Proof.
  intros Hint Hclosed Hfuel. unfold ConditionConstraints.
  destruct (ResetActors_spec Actors L ∅ []) as (L1 & AJ0 & -> & HAJ0 & HL1).
  cbn [app].
  assert (Hkeys0 : forall a, a ∈ Actors -> AJ0 !! a = Some []).
  { intros a Ha. rewrite HAJ0. by rewrite decide_True. }
  destruct (ListJoints_spec Joints AJ0) as (AJ & -> & Hnone & Hsome).
  { intros j Hj. split; (rewrite Hkeys0; [by eexists|]);
      apply (Hclosed j); unfold End; tauto. }
  cbn [mbind option_bind].
  assert (AJ_keys : forall a, a ∈ Actors -> is_Some (AJ !! a)).
  { intros a Ha. destruct (Hsome a [] (Hkeys0 a Ha)) as (l' & -> & _). by eexists. }
  assert (AJ_joints : forall a js j, AJ !! a = Some js ->
            (j ∈ js <-> j ∈ Joints ∧ End j a)).
  { intros a js j Hjs. destruct (AJ0 !! a) as [l0|] eqn:E0.
    - assert (l0 = []).
      { rewrite HAJ0 in E0. case_decide; [congruence|].
        by rewrite lookup_empty in E0. }
      subst l0. destruct (Hsome a [] E0) as (l' & Hl' & Hmem).
      assert (l' = js) by congruence. subst l'. rewrite Hmem.
      split; [|tauto]. intros [Hin|?]; [|done]. by apply elem_of_nil in Hin.
    - rewrite (Hnone a E0) in Hjs. done. }
  assert (HI : BInv Actors Joints L 0 L1 (filter (fun a => IsDynamic a = false) Actors)).
  { assert (HQ0 : forall k a, filter (fun a => IsDynamic a = false) Actors !! k = Some a ->
                    a ∈ Actors ∧ IsDynamic a = false ∧ L1 !! a = Some 0).
    { intros k a Hk. apply list_elem_of_lookup_2, list_elem_of_filter in Hk as [Hs HaA].
      split; [done|]. split; [done|]. by rewrite HL1, decide_True, Hs. }
    assert (HL1' : forall a l, a ∈ Actors -> L1 !! a = Some l ->
                     l = (if IsDynamic a then INDEX_NONE else 0)).
    { intros a l Ha Hl. rewrite HL1, decide_True in Hl by done. congruence. }
    split.
    - lia.
    - intros a Ha. rewrite HL1, decide_True by done. by eexists.
    - intros k a Hk. destruct (HQ0 k a Hk) as (HaA & _ & Hl).
      split; [done|]. exists 0. split; [done|]. lia.
    - intros a l Ha Hl Hne. apply HL1' in Hl; [|done].
      apply list_elem_of_filter. split; [|done].
      destruct (IsDynamic a); [congruence | done].
    - intros k1 k2 a1 a2 l1 l2 _ H1 H2 Hl1 Hl2.
      destruct (HQ0 k1 a1 H1) as (_ & _ & E1). destruct (HQ0 k2 a2 H2) as (_ & _ & E2).
      assert (l1 = 0) by congruence. assert (l2 = 0) by congruence. lia.
    - intros a l k b lb Ha Hl Hk Hlb.
      destruct (HQ0 0%nat a Ha) as (_ & _ & E1). destruct (HQ0 k b Hk) as (_ & _ & E2).
      assert (l = 0) by congruence. assert (lb = 0) by congruence. lia.
    - intros k a j b Hk. lia.
    - intros a l Ha Hl Hne. left. apply HL1' in Hl; [|done].
      destruct (IsDynamic a); [congruence | done].
    - intros a Ha Hs. by rewrite HL1, decide_True, Hs.
    - exists []. rewrite app_nil_r. split; [done|]. split; [apply NoDup_nil_2|].
      intros a Ha. by apply elem_of_nil in Ha.
    - intros a Ha. by rewrite HL1, decide_False. }
  destruct (AssignLevels_spec Actors Joints AJ L Hint Hclosed AJ_keys AJ_joints
              fuel 0 L1 _ HI ltac:(lia)) as (L' & Q' & -> & HI').
  exists L', Q'. split; [done|].
  by apply (BInv_final Actors Joints L Hclosed L' Q').
Qed.

(** X14: [ConditionConstraints] on a simulation whose joints connect
    actors of its actor list (fewer than [2^31] of them).  The levelling loop
    comes to an end within one test per actor and one more.  Afterwards every
    actor that is not dynamic has level 0 and every dynamic actor has a level
    of at least 1 and below the number of actors, or none; the two actors of a
    joint are both without a level or have levels that differ by at most one;
    and the level of no other actor is touched.  A joint with an actor that is
    not in the actor list stops the call in the check of the map lookup. *)
Theorem ConditionConstraints_levels (Actors : list ActorHandle) (Joints : list JointHandle)
    (L : Levels) (fuel : nat) :
  Z.of_nat (length Actors) < 2 ^ 31 ->
  (length Actors < fuel)%nat ->
  ((exists j a, j ∈ Joints ∧ End j a ∧ a ∉ Actors) ->
   ConditionConstraints IsDynamic GetActorHandles fuel Actors Joints L = None)
  ∧ ((forall j a, j ∈ Joints -> End j a -> a ∈ Actors) ->
     exists L' Q',
       ConditionConstraints IsDynamic GetActorHandles fuel Actors Joints L = Some (L', Q')
       ∧ (forall a, a ∉ Actors -> L' !! a = L !! a)
       ∧ (forall a, a ∈ Actors ->
            exists l, L' !! a = Some l
                      ∧ (l = INDEX_NONE ∨ 0 <= l < Z.of_nat (length Actors))
                      ∧ (IsDynamic a = false <-> l = 0))
       ∧ (forall j a b, j ∈ Joints -> Touches j a b ->
            exists la lb, L' !! a = Some la ∧ L' !! b = Some lb
              ∧ ((la = INDEX_NONE ∧ lb = INDEX_NONE)
                 ∨ (0 <= la ∧ 0 <= lb ∧ la - 1 <= lb <= la + 1)))).
Proof.
  intros Hint Hfuel. split.
  - intros (j & a & Hj & He & Ha). unfold ConditionConstraints.
    destruct (ResetActors_spec Actors L ∅ []) as (L1 & AJ0 & -> & HAJ0 & _).
    rewrite (ListJoints_missing Joints AJ0 j a Hj He); [done|].
    rewrite HAJ0, decide_False by done. apply lookup_empty.
  - intros Hclosed.
    destruct (ConditionConstraints_final Actors Joints L fuel Hint Hclosed Hfuel)
      as (L' & Q' & E & H1 & H2 & H3 & _).
    by exists L', Q'.
Qed.

(** An actor is within [n] joints of an actor that is not dynamic. *)
Inductive Reach (Actors : list ActorHandle) (Joints : list JointHandle)
  : nat -> ActorHandle -> Prop :=
| Reach_anchor (a : ActorHandle) :
    a ∈ Actors -> IsDynamic a = false -> Reach Actors Joints 0 a
| Reach_joint (n : nat) (a b : ActorHandle) (j : JointHandle) :
    Reach Actors Joints n b -> j ∈ Joints -> Touches j a b ->
    Reach Actors Joints (S n) a.

(** X15: the level [ConditionConstraints] gives an actor is its distance,
    counted in joints, from the nearest actor that is not dynamic: an actor
    has level [k] exactly when a chain of [k] joints, and no shorter one, leads
    from it to such an actor, and it is left without a level ([INDEX_NONE])
    exactly when no chain does. *)
Theorem ConditionConstraints_distance (Actors : list ActorHandle)
    (Joints : list JointHandle) (L : Levels) (fuel : nat) :
  Z.of_nat (length Actors) < 2 ^ 31 ->
  (forall j a, j ∈ Joints -> End j a -> a ∈ Actors) ->
  (length Actors < fuel)%nat ->
  exists L' Q',
    ConditionConstraints IsDynamic GetActorHandles fuel Actors Joints L = Some (L', Q')
    ∧ forall a, a ∈ Actors ->
        (L' !! a = Some INDEX_NONE <-> forall n, ~ Reach Actors Joints n a)
        ∧ (forall k : nat,
             L' !! a = Some (Z.of_nat k)
             <-> Reach Actors Joints k a ∧ forall n, Reach Actors Joints n a -> (k <= n)%nat).
Proof.
  intros Hint Hclosed Hfuel.
  destruct (ConditionConstraints_final Actors Joints L fuel Hint Hclosed Hfuel)
    as (L' & Q' & E & _ & Hlev & Hjoint & Hparent).
  exists L', Q'. split; [done|].
  assert (Hup : forall n a, Reach Actors Joints n a ->
            exists l, L' !! a = Some l ∧ 0 <= l <= Z.of_nat n).
  { intros n a HR. induction HR as [a Ha Hs | n a b j HR IH Hj Ht].
    - destruct (Hlev a Ha) as (l & Hl & _ & Hz). exists l. split; [done|].
      apply Hz in Hs. lia.
    - destruct IH as (lb & Hlb & Hb).
      destruct (Hjoint j a b Hj Ht) as (la & lb' & Hla & Hlb' & Hd).
      assert (lb' = lb) by congruence. subst lb'.
      exists la. split; [done|]. unfold INDEX_NONE in Hd. lia. }
  assert (Hdown : forall k a, a ∈ Actors -> L' !! a = Some (Z.of_nat k) ->
            Reach Actors Joints k a).
  { induction k as [|k IH]; intros a Ha Hl.
    - apply Reach_anchor; [done|].
      destruct (Hlev a Ha) as (l & Hl' & _ & Hz). apply Hz.
      rewrite Hl in Hl'. by inversion Hl'.
    - destruct (Hparent a _ Ha Hl ltac:(lia)) as (j & b & Hj & Ht & Hb).
      apply (Reach_joint Actors Joints k a b j); [|done..].
      apply IH.
      + apply (Hclosed j b Hj). by apply (Touches_End j a b).
      + rewrite Hb. f_equal. lia. }
  intros a Ha. split.
  - split.
    + intros Hl n HR. destruct (Hup n a HR) as (l & Hl' & Hb).
      unfold INDEX_NONE in Hl. assert (l = -1) by congruence. lia.
    + intros Hno. destruct (Hlev a Ha) as (l & Hl & [->|Hb] & _); [done|].
      exfalso. apply (Hno (Z.to_nat l)), Hdown; [done|].
      rewrite Z2Nat.id by lia. done.
  - intros k. split.
    + intros Hl. split; [by apply Hdown|].
      intros n HR. destruct (Hup n a HR) as (l & Hl' & Hb).
      assert (l = Z.of_nat k) by congruence. lia.
    + intros [HR Hmin]. destruct (Hup k a HR) as (l & Hl & Hb).
      rewrite Hl. f_equal.
      assert (HR' : Reach Actors Joints (Z.to_nat l) a).
      { apply Hdown; [done|]. rewrite Z2Nat.id by lia. done. }
      specialize (Hmin _ HR'). lia.
Qed.

End ActorLevels.

(** A chain of three actors hanging from a kinematic actor, and a dynamic
    actor on its own: actor 0 is not dynamic, joint [j] links actors [j] and
    [j + 1]. *)
Definition ChainDynamic (a : Immediate.ActorHandle) : bool := negb (a =? 0)%nat.
Definition ChainJoint (j : Immediate.JointHandle)
  : Immediate.ActorHandle * Immediate.ActorHandle := (j, S j).

Lemma Chain_closed (j : Immediate.JointHandle) (a : Immediate.ActorHandle) :
  j ∈ [0%nat; 1%nat] -> End ChainJoint j a -> a ∈ [0%nat; 1%nat; 2%nat; 3%nat].
Proof.
  intros Hj He. unfold End, ChainJoint in He. simpl in He.
  assert (j = 0%nat ∨ j = 1%nat) as [-> | ->].
  { apply elem_of_cons in Hj as [->|Hj]; [by left|].
    apply list_elem_of_singleton in Hj. by right. }
  - destruct He as [<- | <-]; apply list_elem_of_In; simpl; auto.
  - destruct He as [<- | <-]; apply list_elem_of_In; simpl; auto.
Qed.

(** The levels of the chain: 0, 1 and 2 along the chain, none for the actor
    on its own, and the queue in the order the actors were reached. *)
Example ConditionConstraints_chain :
  (fun r => (r.1 !! 0%nat, r.1 !! 1%nat, r.1 !! 2%nat, r.1 !! 3%nat, r.2))
    <$> Immediate.ConditionConstraints ChainDynamic ChainJoint 5
          [0%nat; 1%nat; 2%nat; 3%nat] [0%nat; 1%nat] ∅
  = Some (Some 0, Some 1, Some 2, Some Joint.INDEX_NONE, [0%nat; 1%nat; 2%nat]).
Proof. vm_compute. reflexivity. Qed.

Lemma ConditionConstraints_levels_witness :
  exists L' Q',
    Immediate.ConditionConstraints ChainDynamic ChainJoint 5
      [0%nat; 1%nat; 2%nat; 3%nat] [0%nat; 1%nat] ∅ = Some (L', Q')
    ∧ forall a, a ∈ [0%nat; 1%nat; 2%nat; 3%nat] ->
        exists l, L' !! a = Some l
                  ∧ (l = Joint.INDEX_NONE ∨ 0 <= l < 4)
                  ∧ (ChainDynamic a = false <-> l = 0).
Proof.
  destruct (proj2 (ConditionConstraints_levels ChainDynamic ChainJoint
                     [0%nat; 1%nat; 2%nat; 3%nat] [0%nat; 1%nat] ∅ 5
                     ltac:(vm_compute; reflexivity) ltac:(simpl; lia)) Chain_closed)
    as (L' & Q' & E & _ & Hlev & _).
  exists L', Q'. split; [exact E | exact Hlev].
Defined.

Lemma ConditionConstraints_distance_witness :
  exists L' Q',
    Immediate.ConditionConstraints ChainDynamic ChainJoint 5
      [0%nat; 1%nat; 2%nat; 3%nat] [0%nat; 1%nat] ∅ = Some (L', Q')
    ∧ (L' !! 3%nat = Some Joint.INDEX_NONE
       <-> forall n, ~ Reach ChainDynamic ChainJoint
                         [0%nat; 1%nat; 2%nat; 3%nat] [0%nat; 1%nat] n 3%nat).
Proof.
  destruct (ConditionConstraints_distance ChainDynamic ChainJoint
              [0%nat; 1%nat; 2%nat; 3%nat] [0%nat; 1%nat] ∅ 5
              ltac:(vm_compute; reflexivity) Chain_closed ltac:(simpl; lia))
    as (L' & Q' & E & H).
  exists L', Q'. split; [exact E|].
  apply (H 3%nat). apply list_elem_of_In. simpl. auto.
Defined.

(** ** What the solve passes do to one joint *)

Section JointSolveFacts.
Import Joint JointSolve Immediate.

Variable Sort : (ConstraintHandle -> ConstraintHandle -> bool) ->
                list ConstraintHandle -> list ConstraintHandle.

(** The steps that correct the joint: drives, constraints and projections,
    as opposed to the preparation and the write-back. *)
Definition Corrective (s : Step) : bool :=
  match s with
  | EnforceShortestArcWith | GetConditionedInverseMass _ _ _ | Freeze _
  | SetPQVW _ | SetPQ _ => false
  | _ => true
  end.

Definition IsDrive (s : Step) : bool :=
  match s with
  | ApplyJointSLerpDrive | ApplyJointTwistDrive | ApplyJointConeDrive => true
  | _ => false
  end.

(** The stiffness a constraint step is given. *)
Definition StiffnessOf (s : Step) : option FReal :=
  match s with
  | ApplyJointTwistConstraint k | ApplyJointConeConstraint k
  | ApplyJointSwingConstraint k _ | ApplyJointPositionConstraint k
  | ApplyJointTwistVelocityConstraint k | ApplyJointConeVelocityConstraint k
  | ApplyJointSwingVelocityConstraint k _ | ApplyJointVelocityConstraint k => Some k
  | _ => None
  end.

(** [SolverStiffness] of the three stiffness functions. *)
Definition HardStiffness (S : FPBDJointSolverSettings) (J : FPBDJointSettings) : FReal :=
  if fgt (Joint.SolverStiffness S) fzero then Joint.SolverStiffness S
  else Joint.Stiffness (Motion J).

(** Some limit of the joint is soft: the flag of a group of axes is set and
    an axis of the group is limited. *)
Definition HasSoftLimit (J : FPBDJointSettings) : bool :=
  bSoftLinearLimitsEnabled (Motion J)
  && (IsLimited (LinearMotion0 J) || IsLimited (LinearMotion1 J)
      || IsLimited (LinearMotion2 J))
  || bSoftTwistLimitsEnabled (Motion J) && IsLimited (TwistMotion J)
  || bSoftSwingLimitsEnabled (Motion J)
     && (IsLimited (Swing1Motion J) || IsLimited (Swing2Motion J)).

Lemma ConditionMass_not_corrective (S : FPBDJointSolverSettings) (a b : Z) :
  Corrective (ConditionMass S a b) = false.
Proof. unfold ConditionMass. by repeat case_match. Qed.

Lemma WriteBack_elem (write : nat -> Step) (p0 p1 : Particle) (s : Step) :
  s ∈ WriteBack write p0 p1 -> s = write 0%nat ∨ s = write 1%nat.
Proof.
  unfold WriteBack. rewrite elem_of_app.
  intros [H|H]; [destruct (AsDynamic p0) | destruct (AsDynamic p1)];
    try (by apply elem_of_nil in H);
    apply list_elem_of_singleton in H; auto.
Qed.

Lemma PairIterations_none (n : Z) (body : list Step) :
  n <= 0 -> PairIterations n body = [].
Proof. intros Hn. unfold PairIterations. by replace (Z.to_nat n) with 0%nat by lia. Qed.

Lemma PairIterations_elem (n : Z) (body : list Step) (s : Step) :
  s ∈ PairIterations n body -> s ∈ body.
Proof.
  unfold PairIterations. induction (Z.to_nat n) as [|k IH]; simpl.
  - intros H. by apply elem_of_nil in H.
  - rewrite elem_of_app. intros [H|H]; auto.
Qed.

(** The steps of a solve are the preparation, steps of the pair iteration
    and the write-back. *)
Lemma Solve_elem body heap c i n steps s :
  Solve body heap c i n = Some steps -> s ∈ steps ->
  Corrective s = false
  ∨ exists J, ConstraintSettings c !! i = Some J
              ∧ s ∈ PairIterations n (body (Settings c) J).
Proof.
  unfold Solve. intros H Hs.
  destruct (ConstraintParticles c !! i) as [p|]; [|done]. simpl in H.
  destruct (ConstraintSettings c !! i) as [J|]; [|done]. simpl in H.
  destruct (heap !! p.2) as [p0|]; [|done]. simpl in H.
  destruct (heap !! p.1) as [p1|]; [|done]. simpl in H.
  destruct (ConstraintStates c !! i) as [st|]; [|done]. simpl in H.
  inversion H; subst steps; clear H.
  change (s ∈ [EnforceShortestArcWith] ++ [ConditionMass (Settings c) (ParticleLevels st).2 (ParticleLevels st).1]
            ++ PairIterations n (body (Settings c) J) ++ WriteBack SetPQVW p0 p1) in Hs.
  rewrite !elem_of_app in Hs. destruct Hs as [Hs|[Hs|[Hs|Hs]]].
  - apply list_elem_of_singleton in Hs. subst. by left.
  - apply list_elem_of_singleton in Hs. subst. left. apply ConditionMass_not_corrective.
  - right. by exists J.
  - left. by destruct (WriteBack_elem _ _ _ _ Hs) as [-> | ->].
Qed.

Lemma Drives_elem (J : FPBDJointSettings) (s : Step) :
  s ∈ Drives J -> IsDrive s = true ∧ StiffnessOf s = None.
Proof.
  unfold Drives. rewrite !elem_of_app.
  intros [H|[H|H]]; case_match; try (by apply elem_of_nil in H);
    apply list_elem_of_singleton in H; by subst.
Qed.

(** The calls a pass can make. *)
Lemma ApplyProjection_events c Dt hs l e :
  ApplyProjection Sort c Dt hs = Some l -> e ∈ l ->
  exists h, e = EvProjectPosition Dt (IndexOf c h) 0 1.
Proof.
  unfold ApplyProjection. destruct (forallb (ValidHandle c) hs); [|done].
  intros H Hin. inversion H; subst l.
  unfold ProjectionCalls in Hin. apply list_elem_of_fmap in Hin as (h & -> & _). eauto.
Qed.

Lemma Apply_events c Dt hs It NumIts evs e :
  Apply Sort c Dt hs It NumIts = Some evs -> e ∈ evs ->
  (exists cb l, e = EvPreApply cb Dt l ∨ e = EvPostApply cb Dt l)
  ∨ (exists h, e = if bEnableVelocitySolve (Settings c)
                   then EvSolveVelocity Dt (IndexOf c h) (ApplyPairIterations (Settings c))
                                        It NumIts
                   else EvSolvePosition Dt (IndexOf c h) (ApplyPairIterations (Settings c))
                                        It NumIts)
  ∨ (ProjectionPhase (Settings c) = PhaseApply
     ∧ exists h, e = EvProjectPosition Dt (IndexOf c h) 0 1).
Proof.
  unfold Apply. destruct (forallb (ValidHandle c) hs); [|done].
  intros H He.
  match type of H with
  | mbind _ ?p = _ => destruct p as [project|] eqn:Ep; [|done]
  end.
  cbn [mbind option_bind] in H. inversion H; subst evs; clear H.
  rewrite !elem_of_app in He. destruct He as [He|[He|[He|He]]].
  - destruct (PreApplyCallback c); [|by apply elem_of_nil in He].
    apply list_elem_of_singleton in He. left. eauto.
  - apply list_elem_of_fmap in He as (h & -> & _). right; left. eauto.
  - right; right.
    destruct (decide (ProjectionPhase (Settings c) = PhaseApply)) as [E|E].
    + split; [done|]. destruct (decide (It = int32_sub NumIts 1)).
      * by eapply ApplyProjection_events.
      * inversion Ep; subst. by apply elem_of_nil in He.
    + inversion Ep; subst. by apply elem_of_nil in He.
  - destruct (PostApplyCallback c); [|by apply elem_of_nil in He].
    apply list_elem_of_singleton in He. left. eauto.
Qed.



(** X16: the joint settings [Simulate] installs come from the console
    variables alone, and with a pair-iteration count of 0 or less (the
    initial value of the variable is 0) and a projection phase other than
    [Apply], the [Apply] pass of the joints corrects nothing: each solve it
    calls only prepares the two bodies and writes them back; no drive, no
    constraint and no projection is applied. *)
Theorem Simulate_Apply_corrects_nothing (cv : JointCVars) (heap : ParticleHeap)
    (c : FPBDJointConstraints) (Dt : FReal) (hs : list ConstraintHandle)
    (It NumIts : Z) (evs : list Event) :
  Joint_PairIterations cv <= 0 ->
  ToProjectionPhase (Joint_ProjectionPhase cv) <> PhaseApply ->
  Apply Sort (SimulateJointSettings cv c) Dt hs It NumIts = Some evs ->
  (forall c2, Settings (SimulateJointSettings cv c2) = Settings (SimulateJointSettings cv c))
  ∧ (forall e steps s,
       e ∈ evs -> Expand heap (SimulateJointSettings cv c) e = Some steps -> s ∈ steps ->
       Corrective s = false).
Proof.
  intros Hn Hph HA. split; [reflexivity|].
  intros e steps s He HE Hs.
  set (c' := SimulateJointSettings cv c) in *.
  assert (Hits : ApplyPairIterations (Settings c') = Joint_PairIterations cv) by reflexivity.
  assert (Hphase : ProjectionPhase (Settings c') = ToProjectionPhase (Joint_ProjectionPhase cv))
    by reflexivity.
  destruct (Apply_events _ _ _ _ _ _ _ HA He) as [(cb & l & [-> | ->])|[[h ->]|[E _]]].
  - simpl in HE. inversion HE; subst. by apply elem_of_nil in Hs.
  - simpl in HE. inversion HE; subst. by apply elem_of_nil in Hs.
  - assert (H : exists body, Solve body heap c' (IndexOf c' h) (ApplyPairIterations (Settings c'))
                             = Some steps).
    { destruct (bEnableVelocitySolve (Settings c')); simpl in HE; eauto. }
    destruct H as [body H].
    destruct (Solve_elem _ _ _ _ _ _ _ H Hs) as [Hc|(J & _ & Hin)]; [done|].
    rewrite PairIterations_none in Hin by lia. by apply elem_of_nil in Hin.
  - congruence.
Qed.

(** X17: projection without a projection amount.  When the solver's two
    projection overrides are not positive and every joint's own linear and
    angular projection is zero (the defaults of both), the projection pass
    does nothing at all, whichever phase it is configured for: every
    [ProjectPosition] it calls returns before it reads or writes a body. *)
Theorem ApplyProjection_without_amount (heap : ParticleHeap) (c : FPBDJointConstraints)
    (Dt : FReal) (hs : list ConstraintHandle) (evs : list Event) :
  fgt (SolverLinearProjection (Settings c)) fzero = false ->
  fgt (SolverAngularProjection (Settings c)) fzero = false ->
  (forall J, J ∈ ConstraintSettings c ->
     feq (LinearProjection (Motion J)) fzero = true
     ∧ feq (AngularProjection (Motion J)) fzero = true) ->
  ApplyProjection Sort c Dt hs = Some evs ->
  forall e steps, e ∈ evs -> Expand heap c e = Some steps -> steps = [].
Proof.
  intros HL HA HJ Hp e steps He HE.
  unfold ApplyProjection in Hp. destruct (forallb (ValidHandle c) hs); [|done].
  inversion Hp; subst evs; clear Hp.
  unfold ProjectionCalls in He. apply list_elem_of_fmap in He as (h & -> & _).
  simpl in HE. unfold ProjectPosition in HE.
  destruct (ConstraintSettings c !! IndexOf c h) as [J|] eqn:EJ; [|done]. simpl in HE.
  destruct (HJ J (list_elem_of_lookup_2 _ _ _ EJ)) as [H1 H2].
  unfold LinearProjectionFactor, AngularProjectionFactor in HE.
  rewrite HL, HA, H1, H2 in HE. simpl in HE. by inversion HE.
Qed.


Lemma Stiffness_hard (S : FPBDJointSolverSettings) (J : FPBDJointSettings) :
  HasSoftLimit J = false ->
  GetLinearStiffness S J = HardStiffness S J
  ∧ GetTwistStiffness S J = HardStiffness S J
  ∧ GetSwingStiffness S J = HardStiffness S J.
Proof.
  unfold HasSoftLimit, GetLinearStiffness, GetTwistStiffness, GetSwingStiffness,
    HardStiffness.
  intros H. apply orb_false_iff in H as [H H3]. apply orb_false_iff in H as [H1 H2].
  by rewrite H1, H2, H3.
Qed.

(** X19: one stiffness for a joint without soft limits.  When no group of
    axes of the joint has both its soft flag set and a limited axis, every
    constraint that [SolvePosition] and [SolveVelocity] apply to the joint is
    given the same stiffness: the solver's when that is positive, and the
    joint's own otherwise; the soft stiffnesses are not used. *)
Theorem Solve_one_stiffness (heap : ParticleHeap) (c : FPBDJointConstraints) (Dt : FReal)
    (i : nat) (NumPairIts It NumIts : Z) (J : FPBDJointSettings)
    (steps : list Step) (s : Step) (k : FReal) :
  ConstraintSettings c !! i = Some J ->
  HasSoftLimit J = false ->
  SolvePosition heap c Dt i NumPairIts It NumIts = Some steps
  ∨ SolveVelocity heap c Dt i NumPairIts It NumIts = Some steps ->
  s ∈ steps -> StiffnessOf s = Some k ->
  k = HardStiffness (Settings c) J.
Proof.
  intros HJ Hsoft Hsolve Hs Hk.
  destruct (Stiffness_hard (Settings c) J Hsoft) as (HL & HT & HS).
  assert (Hbody : exists body, Solve body heap c i NumPairIts = Some steps
            ∧ (body = PositionPairIteration ∨ body = VelocityPairIteration)).
  { destruct Hsolve as [H|H]; eauto. }
  destruct Hbody as (body & H & Hb).
  destruct (Solve_elem _ _ _ _ _ _ _ H Hs) as [Hc|(J' & HJ' & Hin)].
  - by destruct s.
  - assert (J' = J) as -> by congruence.
    apply PairIterations_elem in Hin.
    destruct Hb as [-> | ->]; unfold PositionPairIteration, VelocityPairIteration in Hin;
      rewrite HL, HT, HS in Hin; rewrite !elem_of_app in Hin;
      destruct Hin as [Hin|[Hin|[Hin|Hin]]];
      repeat case_match; rewrite ?elem_of_app in Hin;
      repeat match goal with
             | H : _ ∨ _ |- _ => destruct H
             | H : _ ∈ [] |- _ => by apply elem_of_nil in H
             | H : _ ∈ [_] |- _ => apply list_elem_of_singleton in H; subst
             | H : _ ∈ Drives _ |- _ => apply Drives_elem in H as [_ H]
             end; simpl in Hk; congruence.
Qed.

End JointSolveFacts.

(** ** Which pass applies the drives *)

Section JointDrives.
Import Joint JointSolve.

Variable Sort : (ConstraintHandle -> ConstraintHandle -> bool) ->
                list ConstraintHandle -> list ConstraintHandle.

Hypothesis Sort_perm : forall Before l, Sort Before l ≡ₚ l.









End JointDrives.

(** The chain of [Chain] with three bodies, and the chain with the velocity
    solve enabled. *)
Definition ChainBodies : ParticleHeap := <[2%nat := RestingBody]> TwoBodies.

Definition VelocityChain : Joint.FPBDJointConstraints :=
  Joint.SetSettings
    (Joint.MkSolverSettings 1 1 Joint.f_1em6 fzero fzero true true true true Joint.PhaseNone
                            fzero fzero fzero fzero fzero fzero)
    Chain.

(** With the initial console variables, [Apply] on the chain calls
    [SolvePosition] with no pair iteration, and such a call prepares the
    bodies and writes them back; with two pair iterations (the push-out
    count) the same joint has its position constraint applied twice. *)
Example Apply_default_console_variables :
  Joint.Apply Joint.InsertionSort (Immediate.SimulateJointSettings Immediate.DefaultJointCVars Chain)
    fone [0%nat; 1%nat] 0 1
  = Some [Joint.EvSolvePosition fone 1 0 0 1; Joint.EvSolvePosition fone 0 0 0 1]
  ∧ JointSolve.SolvePosition ChainBodies
      (Immediate.SimulateJointSettings Immediate.DefaultJointCVars Chain) fone 1 0 0 1
    = Some [JointSolve.EnforceShortestArcWith;
            JointSolve.GetConditionedInverseMass 1 fhalf Immediate.f_five;
            JointSolve.SetPQVW 0; JointSolve.SetPQVW 1]
  ∧ JointSolve.SolvePosition ChainBodies
      (Immediate.SimulateJointSettings Immediate.DefaultJointCVars Chain) fone 1 2 0 1
    = Some [JointSolve.EnforceShortestArcWith;
            JointSolve.GetConditionedInverseMass 1 fhalf Immediate.f_five;
            JointSolve.ApplyJointPositionConstraint fone;
            JointSolve.ApplyJointPositionConstraint fone;
            JointSolve.SetPQVW 0; JointSolve.SetPQVW 1].
Proof. repeat split; vm_compute; reflexivity. Qed.

Lemma Simulate_Apply_corrects_nothing_witness :
  exists evs,
    Joint.Apply Joint.InsertionSort
      (Immediate.SimulateJointSettings Immediate.DefaultJointCVars Chain)
      fone [0%nat; 1%nat] 0 1 = Some evs
    ∧ forall e steps s,
        e ∈ evs ->
        JointSolve.Expand ChainBodies
          (Immediate.SimulateJointSettings Immediate.DefaultJointCVars Chain) e = Some steps ->
        s ∈ steps -> Corrective s = false.
Proof.
  destruct (Joint.Apply Joint.InsertionSort
              (Immediate.SimulateJointSettings Immediate.DefaultJointCVars Chain)
              fone [0%nat; 1%nat] 0 1) as [evs|] eqn:E; [|vm_compute in E; discriminate].
  exists evs. split; [reflexivity|].
  apply (Simulate_Apply_corrects_nothing Joint.InsertionSort Immediate.DefaultJointCVars
           ChainBodies Chain fone [0%nat; 1%nat] 0 1 evs);
    [simpl; lia | vm_compute; discriminate | exact E].
Defined.

Lemma ApplyProjection_without_amount_witness :
  exists evs,
    Joint.ApplyProjection Joint.InsertionSort ProjectingChain fone [0%nat; 1%nat] = Some evs
    ∧ forall e steps, e ∈ evs ->
        JointSolve.Expand ChainBodies ProjectingChain e = Some steps -> steps = [].
Proof.
  destruct (Joint.ApplyProjection Joint.InsertionSort ProjectingChain fone [0%nat; 1%nat])
    as [evs|] eqn:E; [|vm_compute in E; discriminate].
  exists evs. split; [reflexivity|].
  apply (ApplyProjection_without_amount Joint.InsertionSort ChainBodies ProjectingChain fone
           [0%nat; 1%nat] evs); [reflexivity | reflexivity | | exact E].
  intros J HJ. apply list_elem_of_In in HJ. simpl in HJ.
  destruct HJ as [<-|[<-|[]]]; split; reflexivity.
Defined.

(** A joint with the twist drive on, and the chain with that joint between
    anchor and A, the velocity solve enabled. *)
Definition TwistDriven : Joint.FPBDJointSettings :=
  Joint.MkJointSettings (TransformIdentity, TransformIdentity)
    (Joint.MkMotion fone fzero fzero (Joint.Locked, Joint.Locked, Joint.Locked) FLT_MAX
       (Joint.Free, Joint.Free, Joint.Free) (MkVec FLT_MAX FLT_MAX FLT_MAX)
       false false false fzero fzero fzero
       FromIdentity VecZero false true false fzero).

Definition DrivenChain : Joint.FPBDJointConstraints :=
  let c := Joint.NewJoints
             (Joint.MkSolverSettings 1 1 Joint.f_1em6 fzero fzero true true true true
                                     Joint.PhaseNone fzero fzero fzero fzero fzero fzero) in
  let c := (Joint.AddConstraintSettings (0%nat, 1%nat) TwistDriven c).1 in
  let c := (Joint.AddConstraintSettings (1%nat, 2%nat) Joint.DefaultJointSettings c).1 in
  let c := default c (Joint.SetParticleLevels 0 (0, 1) c) in
  default c (Joint.SetParticleLevels 1 (1, 2) c).

(** On the driven chain [Apply] calls [SolveVelocity] on both joints, leaf
    first, and the solve of the driven joint applies its twist drive before
    its velocity constraint; [ApplyPushOut] calls [SolvePosition] on both,
    root first, and the solve of the driven joint applies the position
    constraint and no drive. *)
Example DrivenChain_passes :
  Joint.Apply Joint.InsertionSort DrivenChain fone [0%nat; 1%nat] 0 1
  = Some [Joint.EvSolveVelocity fone 1 1 0 1; Joint.EvSolveVelocity fone 0 1 0 1]
  ∧ Joint.ApplyPushOut Joint.InsertionSort DrivenChain fone [0%nat; 1%nat] 0 1
    = Some (true, [Joint.EvSolvePosition fone 0 1 0 1; Joint.EvSolvePosition fone 1 1 0 1])
  ∧ JointSolve.SolveVelocity ChainBodies DrivenChain fone 0 1 0 1
    = Some [JointSolve.EnforceShortestArcWith;
            JointSolve.GetConditionedInverseMass 1 fzero fzero;
            JointSolve.ApplyJointTwistDrive;
            JointSolve.ApplyJointVelocityConstraint fone;
            JointSolve.SetPQVW 0; JointSolve.SetPQVW 1]
  ∧ JointSolve.SolvePosition ChainBodies DrivenChain fone 0 1 0 1
    = Some [JointSolve.EnforceShortestArcWith;
            JointSolve.GetConditionedInverseMass 1 fzero fzero;
            JointSolve.ApplyJointPositionConstraint fone;
            JointSolve.SetPQVW 0; JointSolve.SetPQVW 1].
Proof. repeat split; vm_compute; reflexivity. Qed.


Lemma Solve_one_stiffness_witness :
  fone = HardStiffness (Joint.Settings Chain) Joint.DefaultJointSettings.
Proof.
  apply (Solve_one_stiffness ChainBodies Chain fone 0 1 0 1 Joint.DefaultJointSettings
           [JointSolve.EnforceShortestArcWith;
            JointSolve.GetConditionedInverseMass 1 fzero fzero;
            JointSolve.ApplyJointPositionConstraint fone;
            JointSolve.SetPQVW 0; JointSolve.SetPQVW 1]
           (JointSolve.ApplyJointPositionConstraint fone) fone);
    [reflexivity | reflexivity | left; vm_compute; reflexivity | | reflexivity].
  do 2 apply list_elem_of_further. apply list_elem_of_here.
Defined.

(** ** Round trips on the particle store *)

Section StoreRoundTrips.
Import SOAs.

(** The pool [EnableParticle] puts a particle in (a clustered particle is
    not moved). *)
Definition EnabledSOA (p : Particle) : ESOA :=
  if AsClustered p then SOA p
  else if AsDynamic p then DynamicSOAOf p
  else if AsKinematic p then KinematicParticles
  else StaticParticles.

Lemma Disabled_then_Enabled (p : Particle) :
  let q := EnabledParticle (DisabledParticle p) in
  PType q = PType p ∧ X q = X p ∧ R q = R p ∧ P q = P p ∧ Q q = Q p
  ∧ InvM q = InvM p ∧ ObjectState q = ObjectState p ∧ Geometry q = Geometry p
  ∧ (AsDynamic p = true -> Disabled q = false ∧ V q = VecZero ∧ W q = VecZero)
  ∧ (AsDynamic p = false -> Disabled q = Disabled p ∧ V q = V p ∧ W q = W p)
  ∧ SOA q = EnabledSOA p.
Proof.
  destruct p as [t x r v w pp qq m d o g so].
  destruct t; cbv; repeat split; try done; by destruct o.
Qed.

(** X20: [DisableParticle] followed by [EnableParticle] on a live
    particle.  Both calls succeed and the store invariant holds afterwards.
    The particle keeps its type, position, rotation, mass, object state and
    geometry and ends in the pool of enabled particles of its kind; a dynamic
    particle ends enabled with both velocities zero (they are not restored),
    and it is in the active view afterwards exactly if it is not sleeping,
    whether or not it was active before.  Nothing else changes in the active
    view. *)
Theorem Disable_then_Enable (h : ParticleHandle) (s : TPBDRigidsSOAs) (p : Particle) :
  Inv s -> Heap s !! h = Some p ->
  exists s1 s2 q,
    DisableParticle h s = Some s1
    ∧ EnableParticle h s1 = Some s2
    ∧ Inv s2
    ∧ Heap s2 = <[h := q]> (Heap s)
    ∧ PType q = PType p ∧ X q = X p ∧ R q = R p ∧ P q = P p ∧ Q q = Q p
    ∧ InvM q = InvM p ∧ ObjectState q = ObjectState p ∧ Geometry q = Geometry p
    ∧ (AsDynamic p = true -> Disabled q = false ∧ V q = VecZero ∧ W q = VecZero)
    ∧ (AsDynamic p = false -> Disabled q = Disabled p ∧ V q = V p ∧ W q = W p)
    ∧ SOA q = EnabledSOA p
    ∧ (forall h', h' ∈ GetActiveParticlesView s2 <->
                  (h' ∈ GetActiveParticlesView s ∧ h' <> h)
                  ∨ (h' = h ∧ AsDynamic p = true ∧ Sleeping p = false)).
Proof.
  intros Hinv Hp.
  destruct (DisableParticle_spec h s p Hinv Hp) as (s1 & Hd & Hinv1 & Hheap1 & _ & Hm1).
  assert (Hp1 : Heap s1 !! h = Some (DisabledParticle p)).
  { rewrite Hheap1. apply lookup_insert_eq. }
  destruct (EnableParticle_spec h s1 _ Hinv1 Hp1) as (s2 & He & Hinv2 & Hheap2 & _ & Hm2).
  exists s1, s2, (EnabledParticle (DisabledParticle p)).
  split; [exact Hd|]. split; [exact He|]. split; [exact Hinv2|].
  split. { rewrite Hheap2, Hheap1. apply insert_insert_eq. }
  pose proof (Disabled_then_Enabled p) as Hq. simpl in Hq.
  destruct Hq as (H1 & H2 & H3 & H4 & H5 & H6 & H7 & H8 & H9 & H10 & H11).
  split_and!; try done.
  intros h'.
  rewrite (ViewsFresh_active s2 (proj2 Hinv2)), (ViewsFresh_active s (proj2 Hinv)).
  rewrite Hm2, Hm1.
  assert (Hdyn : AsDynamic (DisabledParticle p) = AsDynamic p).
  { destruct p as [t x r v w pp qq m d o g so]. by destruct t. }
  assert (Hsl : Sleeping (DisabledParticle p) = Sleeping p).
  { destruct p as [t x r v w pp qq m d o g so]. by destruct t. }
  rewrite Hdyn, Hsl. tauto.
Qed.

(** X21: [DeactivateParticles] on a list of live particles none of which
    is a disabled dynamic particle succeeds, changes no particle, and takes
    exactly the listed particles out of the active view; a particle may be
    listed twice or not be active.  If the list holds a disabled dynamic
    particle the call fails in a check. *)
Theorem DeactivateParticles_view (hs : list ParticleHandle) (s : TPBDRigidsSOAs) :
  Inv s ->
  ((forall h, h ∈ hs ->
      exists p, Heap s !! h = Some p ∧ (AsDynamic p = false ∨ Disabled p = false)) ->
   exists s',
     DeactivateParticles hs s = Some s'
     ∧ Inv s'
     ∧ Heap s' = Heap s
     ∧ (forall h', h' ∈ GetActiveParticlesView s' <->
                   h' ∈ GetActiveParticlesView s ∧ h' ∉ hs))
  ∧ (forall h p, h ∈ hs -> Heap s !! h = Some p -> AsDynamic p = true ->
       Disabled p = true -> DeactivateParticles hs s = None).
Proof.
  revert s. induction hs as [|h0 hs IH]; intros s Hinv.
  - split.
    + intros _. exists s. split_and!; try done.
      intros h'. split; [intros H; split; [done | apply not_elem_of_nil] | by intros [H _]].
    + intros h p Hin. by apply elem_of_nil in Hin.
  - split.
    + intros Hall.
      destruct (Hall h0 ltac:(left)) as (p0 & Hp0 & Hok0).
      destruct (proj2 (DeactivateParticle_spec h0 s p0 Hinv Hp0) Hok0)
        as (s1 & Hd & Hinv1 & Hheap1 & _ & Hm1).
      destruct (proj1 (IH s1 Hinv1)) as (s' & Hds & Hinv' & Hheap' & Hm').
      { intros h Hin. rewrite Hheap1. apply Hall. by right. }
      exists s'. simpl. rewrite Hd. simpl.
      split_and!; [done | done | congruence |].
      intros h'. rewrite Hm'.
      rewrite (ViewsFresh_active s1 (proj2 Hinv1)), (ViewsFresh_active s (proj2 Hinv)).
      rewrite Hm1, not_elem_of_cons. tauto.
    + intros h p Hin Hp Hdyn Hdis. simpl.
      destruct (DeactivateParticle h0 s) as [s1|] eqn:Hd; [|done]. simpl.
      assert (Hp0 : exists p0, Heap s !! h0 = Some p0).
      { unfold DeactivateParticle in Hd. destruct (Heap s !! h0); [eauto | done]. }
      destruct Hp0 as [p0 Hp0].
      destruct (DeactivateParticle_spec h0 s p0 Hinv Hp0) as [Hfail Hok].
      assert (Hok0 : AsDynamic p0 = false ∨ Disabled p0 = false).
      { destruct (AsDynamic p0) eqn:E1; [|by left]. destruct (Disabled p0) eqn:E2; [|by right].
        rewrite Hfail in Hd; done. }
      destruct (Hok Hok0) as (s1' & Hd' & Hinv1 & Hheap1 & _).
      assert (s1' = s1) as -> by congruence.
      apply elem_of_cons in Hin as [->|Hin].
      * assert (p0 = p) as -> by congruence. destruct Hok0; congruence.
      * apply (proj2 (IH s1 Hinv1) h p); [done | by rewrite Hheap1 | done | done].
Qed.

(** X22: every live particle of the store is listed: it is in
    [GetAllParticlesView()], in the pool its [SOA] field names and in the
    handle array, and what the active view lists is among them. *)
Theorem AllParticlesView_complete (s : TPBDRigidsSOAs) :
  Inv s ->
  (forall h p, Heap s !! h = Some p ->
     h ∈ GetAllParticlesView s ∧ h ∈ Pool s (SOA p) ∧ h ∈ ParticleHandles s)
  ∧ (forall h, h ∈ GetActiveParticlesView s -> h ∈ GetAllParticlesView s).
Proof.
  intros Hinv. pose proof Hinv as [[Hs Hsound] Hv].
  destruct Hs as (_ & _ & _ & _ & _ & _ & _ & Hstored).
  assert (Hall : forall h p, Heap s !! h = Some p -> h ∈ GetAllParticlesView s).
  { intros h p Hp. destruct (Hstored h p Hp) as [Hpool _].
    unfold GetAllParticlesView.
    pose proof (f_equal AllParticlesView Hv) as H. simpl in H. rewrite <- H.
    rewrite !elem_of_app. destruct (SOA p); tauto. }
  split.
  - intros h p Hp. destruct (Hstored h p Hp) as [Hpool Hh]. split_and!; eauto.
  - intros h Hin. rewrite (ViewsFresh_active s Hv) in Hin.
    destruct (Hsound h Hin) as (p & Hp & _). eauto.
Qed.

(** A store with one awake dynamic particle and one with a particle that was
    deactivated. *)
Lemma OneAwake_heap (s : TPBDRigidsSOAs) :
  run OneAwake NewSOAs = Some s ->
  Heap s !! 0%nat = Some (DefaultParticle PT_Rigid DynamicParticles).
Proof.
  intros E. pose proof (f_equal (fun o => o ≫= fun s => Heap s !! 0%nat) E) as H.
  vm_compute in H. symmetry. exact H.
Qed.

Lemma Disable_then_Enable_witness :
  exists s s1 s2,
    run OneDeactivated NewSOAs = Some s
    ∧ DisableParticle 0%nat s = Some s1
    ∧ EnableParticle 0%nat s1 = Some s2
    ∧ (0%nat ∉ GetActiveParticlesView s)
    ∧ 0%nat ∈ GetActiveParticlesView s2.
Proof.
  destruct (run OneDeactivated NewSOAs) as [s|] eqn:E; [|vm_compute in E; discriminate].
  assert (Hp : Heap s !! 0%nat = Some (DefaultParticle PT_Rigid DynamicParticles)).
  { pose proof (f_equal (fun o => o ≫= fun s => Heap s !! 0%nat) E) as H.
    vm_compute in H. symmetry. exact H. }
  assert (Hv : GetActiveParticlesView s = []).
  { pose proof (f_equal (fun o => GetActiveParticlesView <$> o) E) as H.
    vm_compute in H. by inversion H. }
  destruct (Disable_then_Enable 0%nat s _ (run_Inv OneDeactivated NewSOAs s NewSOAs_Inv E) Hp)
    as (s1 & s2 & q & Hd & He & _ & _ & _ & _ & _ & _ & _ & _ & _ & _ & _ & _ & _ & Hm).
  exists s, s1, s2. split_and!; try done.
  - rewrite Hv. apply not_elem_of_nil.
  - apply Hm. right. by split_and!.
Defined.

Lemma DeactivateParticles_view_witness :
  exists s s',
    run OneAwake NewSOAs = Some s
    ∧ DeactivateParticles [0%nat; 0%nat] s = Some s'
    ∧ Heap s' = Heap s
    ∧ 0%nat ∉ GetActiveParticlesView s'.
Proof.
  destruct (run OneAwake NewSOAs) as [s|] eqn:E; [|vm_compute in E; discriminate].
  destruct (proj1 (DeactivateParticles_view [0%nat; 0%nat] s
                     (run_Inv OneAwake NewSOAs s NewSOAs_Inv E)))
    as (s' & Hd & _ & Hheap & Hm).
  { intros h Hin. exists (DefaultParticle PT_Rigid DynamicParticles).
    assert (h = 0%nat) as ->.
    { apply elem_of_cons in Hin as [->|Hin]; [done|].
      by apply list_elem_of_singleton in Hin. }
    split; [by apply OneAwake_heap | by right]. }
  exists s, s'. split_and!; try done.
  intros Hin. apply Hm in Hin as [_ Hout]. apply Hout. by left.
Defined.

Lemma AllParticlesView_complete_witness :
  exists s,
    run OneAwake NewSOAs = Some s
    ∧ 0%nat ∈ GetAllParticlesView s.
Proof.
  destruct (run OneAwake NewSOAs) as [s|] eqn:E; [|vm_compute in E; discriminate].
  exists s. split; [reflexivity|].
  exact (proj1 (proj1 (AllParticlesView_complete s (run_Inv OneAwake NewSOAs s NewSOAs_Inv E))
                  0%nat _ (OneAwake_heap s E))).
Defined.

End StoreRoundTrips.

(** ** The spring count of a pair *)

Section SpringCount.
Import Spring.

Variable TransformMul : FRigidTransform3 -> FRigidTransform3 -> FRigidTransform3.
Variable TransformInverse : FRigidTransform3 -> FRigidTransform3.
Variable InverseTransformPosition : FRigidTransform3 -> FVec3 -> FVec3.
Variable TransformVector : FRigidTransform3 -> FVec3 -> FVec3.
Variable TransformedBox : TBox -> FRigidTransform3 -> TBox.
Variable Thicken : TBox -> FReal -> TBox.
Variable Intersects : TBox -> TBox -> bool.

Lemma UpdateFrom_WellFormed (heap : ParticleHeap) (n k : nat)
    (s s' : TPBDRigidDynamicSpringConstraints) :
  WellFormed heap s ->
  (k + n = length (Constraints s))%nat ->
  UpdateFrom TransformMul TransformInverse InverseTransformPosition TransformVector
             TransformedBox Thicken Intersects heap k n s = Some s' ->
  WellFormed heap s'.
Proof.
  revert k s. induction n as [|n IH]; intros k s Hwf Hk Hrun.
  - simpl in Hrun. by inversion Hrun; subst.
  - simpl in Hrun.
    pose proof Hwf as (HlD & HlS & Hpar & Halive).
    destruct (Constraints s !! k) as [c|] eqn:Hc; [|apply lookup_ge_None in Hc; lia].
    destruct (Halive k c Hc) as [[p0 H0] [p1 H1]].
    destruct (Distances s !! k) as [D|] eqn:HD; [|apply lookup_ge_None in HD; lia].
    destruct (SpringDistances s !! k) as [SD|] eqn:HSD; [|apply lookup_ge_None in HSD; lia].
    destruct (UpdateConstraint_spec TransformMul TransformInverse InverseTransformPosition
                TransformVector TransformedBox Thicken Intersects
                heap k s c p0 p1 D SD Hc H0 H1 HD HSD (Hpar k D SD HD HSD))
      as (D' & SD' & Hupd & Hlen' & _).
    rewrite Hupd in Hrun. simpl in Hrun.
    apply (IH (S k) (set_springs k D' SD' s)); [|simpl; lia|exact Hrun].
    by apply WellFormed_set_springs.
Qed.

Lemma PairUpdated_count (CT : FReal) (Max : Z) (p0 p1 : Particle)
    (D : list (FVec3 * FVec3)) (SD : list FReal)
    (D' : list (FVec3 * FVec3)) (SD' : list FReal) :
  length D = length SD ->
  PairUpdated TransformMul TransformInverse InverseTransformPosition TransformVector
              TransformedBox Thicken Intersects CT Max p0 p1 D SD D' SD' ->
  (length SD' <= S (length SD))%nat
  ∧ (Z.of_nat (length SD) <= Max -> Z.of_nat (length SD') <= Max).
Proof.
  intros Hlen. unfold PairUpdated.
  destruct (Geometry p0) as [g0|]; [destruct (Geometry p1) as [g1|]|].
  2,3: intros [-> ->]; split; [lia | done].
  intros (D1 & SD1 & Hl1 & Hperm & Hcase).
  assert (Hle : (length SD1 <= length SD)%nat).
  { pose proof (Permutation_length Hperm) as Hp.
    pose proof (length_filter (Kept CT p0 p1) (zip D SD)) as Hf.
    rewrite !length_zip in *. lia. }
  destruct Hcase as [[-> ->]|(d & r & -> & -> & _ & Hcap & _)].
  - split; lia.
  - rewrite length_app. simpl. split; [lia|]. intros H. specialize (Hcap H). lia.
Qed.

(** X23: what a call of [UpdatePositionBasedState] keeps.  On a
    well-formed container the call leaves a well-formed container (so the
    next call passes its checks too) with the same constraints, threshold and
    [MaxSprings]; the distance and spring-distance arrays of every pair stay
    of equal length; a pair gains at most one spring per call, and a pair
    that had at most [MaxSprings] springs still has at most [MaxSprings]. *)
Theorem UpdatePositionBasedState_spring_count (heap : ParticleHeap) (Dt : FReal)
    (s : TPBDRigidDynamicSpringConstraints) :
  WellFormed heap s ->
  exists s',
    UpdatePositionBasedState TransformMul TransformInverse InverseTransformPosition
      TransformVector TransformedBox Thicken Intersects heap Dt s = Some s'
    ∧ WellFormed heap s'
    ∧ Constraints s' = Constraints s
    ∧ CreationThreshold s' = CreationThreshold s
    ∧ MaxSprings s' = MaxSprings s
    ∧ forall ci SD,
        SpringDistances s !! ci = Some SD ->
        exists D' SD',
          Distances s' !! ci = Some D' ∧ SpringDistances s' !! ci = Some SD'
          ∧ length D' = length SD'
          ∧ (length SD' <= S (length SD))%nat
          ∧ (Z.of_nat (length SD) <= MaxSprings s ->
             Z.of_nat (length SD') <= MaxSprings s').
Proof.
  intros Hwf. unfold UpdatePositionBasedState.
  destruct (UpdateFrom_spec TransformMul TransformInverse InverseTransformPosition
              TransformVector TransformedBox Thicken Intersects
              heap (length (Constraints s)) 0 s Hwf eq_refl)
    as (s' & Hrun & HC & HCT & HM & _ & Hhigh).
  pose proof (UpdateFrom_WellFormed heap _ 0 s s' Hwf eq_refl Hrun) as Hwf'.
  exists s'. split_and!; try done.
  intros ci SD HSD.
  pose proof Hwf as (HlD & HlS & Hpar & Halive).
  assert (Hci : (ci < length (Constraints s))%nat).
  { apply lookup_lt_Some in HSD. lia. }
  destruct (lookup_lt_is_Some_2 (Constraints s) ci Hci) as [c Hc].
  destruct (lookup_lt_is_Some_2 (Distances s) ci ltac:(lia)) as [D HD].
  destruct (Halive ci c Hc) as [[p0 H0] [p1 H1]].
  destruct (Hhigh ci c p0 p1 D SD ltac:(lia) Hc H0 H1 HD HSD) as (D' & SD' & HD' & HSD' & Hpair).
  exists D', SD'. split; [exact HD'|]. split; [exact HSD'|].
  destruct Hwf' as (_ & _ & Hpar' & _).
  split; [by apply (Hpar' ci)|].
  rewrite HM. by apply (PairUpdated_count (CreationThreshold s) (MaxSprings s) p0 p1 D SD D' SD'
                             (Hpar ci D SD HD HSD)).
Qed.

End SpringCount.

Lemma UpdatePositionBasedState_spring_count_witness :
  exists s', RefUpdate SolidHeap fone FarAndNear = Some s'
             ∧ Spring.WellFormed SolidHeap s'
             ∧ Spring.MaxSprings s' = Spring.MaxSprings FarAndNear.
Proof.
  destruct (UpdatePositionBasedState_spring_count Spring.RefTransformMul
              Spring.RefTransformInverse Spring.RefInverseTransformPosition
              Spring.RefTransformVector Spring.RefTransformedBox Spring.RefThicken
              Spring.RefIntersects SolidHeap fone FarAndNear FarAndNear_WellFormed)
    as (s' & Hrun & Hwf & _ & _ & HM & _).
  exists s'. split; [exact Hrun|]. split; [exact Hwf | exact HM].
Defined.

(** The number of springs of a pair after a call. *)
Definition SpringCountAt (ci : nat) (o : option Spring.TPBDRigidDynamicSpringConstraints)
  : option nat :=
  s ← o; SD ← Spring.SpringDistances s !! ci; Some (length SD).

(** A pair that holds one spring and is allowed three gains a spring in each
    of two calls and none in the third. *)
Example Spring_count_grows_to_MaxSprings :
  let s0 := Spring.MkSprings [(0%nat, 1%nat)] [[NearSpring]] [[fzero]] fone 3 fone in
  let again := mbind (M := option) (RefUpdate SolidHeap fone) in
  SpringCountAt 0 (RefUpdate SolidHeap fone s0) = Some 2%nat
  ∧ SpringCountAt 0 (again (RefUpdate SolidHeap fone s0)) = Some 3%nat
  ∧ SpringCountAt 0 (again (again (RefUpdate SolidHeap fone s0))) = Some 3%nat.
Proof. repeat split; vm_compute; reflexivity. Qed.
